(** * Symmetry sectors and graded vector spaces of tenpy.linalg.symmetries

    A shallow embedding of [tenpy/linalg/symmetries/groups.py],
    [tenpy/linalg/symmetries/spaces.py] and of the functions on arrays of
    [tenpy/linalg/misc.py] ([inverse_permutation], [make_stride],
    [unstridify], [find_row_differences] and the [iter_common_...]
    generators), with the properties of the specification and further
    properties of the code stated and proved over it.

    Conventions of the embedding.
    - Python exceptions are values of [exception]; code that can raise
      returns a [result].
    - A numpy integer array of one axis is a [list Z], a sector array
      (two axes, [s, q]) is the list of its rows.  Entries are mathematical
      integers: the arithmetic of the sources is taken inside the range of
      the array dtype.  Where a statement depends on what numpy does
      outside that range, the wrap-around of the dtype is written out
      ([np.wrap], [SU2Symmetry_fusion_outcomes]) or the statement keeps its
      sums inside the range of [np.int8], the narrowest signed dtype
      ([sums_fit_int8]).
    - An object attribute that is looked up by name at run time and that no
      class of [groups.py] defines is an optional field of the object
      ([sym_batch_sector_dim], [sym__n_symbol]). *)

From Stdlib Require Import String Ascii DecimalString ZArith List Bool Lia Permutation Sorted
  Arith.
Import ListNotations.
Open Scope Z_scope.

(** ** Exceptions and results *)

Inductive exception : Type :=
| AttributeError (name : string)
| AssertionError
| IndexError
| TypeError
| ValueError
| NotImplementedError
| KeyError (key : string)
| OverflowError.

Inductive result (A : Type) : Type :=
| Ok (a : A)
| Raise (e : exception).
Arguments Ok {A} a.
Arguments Raise {A} e.

Definition bind {A B : Type} (r : result A) (k : A -> result B) : result B :=
  match r with
  | Ok a => k a
  | Raise e => Raise e
  end.

Notation "x <- r ;; k" := (bind r (fun x => k))
  (at level 61, r at next level, right associativity).
Notation "' p <- r ;; k" := (bind r (fun p => k))
  (at level 61, p pattern, r at next level, right associativity).

(** [assert c] of Python. *)
Definition assert (c : bool) : result unit :=
  if c then Ok tt else Raise AssertionError.

Fixpoint mapM {A B : Type} (f : A -> result B) (l : list A) : result (list B) :=
  match l with
  | [] => Ok []
  | x :: l' => y <- f x ;; ys <- mapM f l' ;; Ok (y :: ys)
  end.

Definition is_ok {A : Type} (r : result A) : bool :=
  match r with Ok _ => true | Raise _ => false end.

(** ** The part of numpy and of the standard library the sources use *)

Definition Sector : Type := list Z.
Definition SectorArray : Type := list Sector.

Module np.

(** An index into an axis of length [n]: negative indices count from the
    end, anything outside [-n, n) is an [IndexError]. *)
Definition norm_index (n : nat) (i : Z) : result nat :=
  if (0 <=? i) && (i <? Z.of_nat n) then Ok (Z.to_nat i)
  else if (- Z.of_nat n <=? i) && (i <? 0) then Ok (Z.to_nat (i + Z.of_nat n))
  else Raise IndexError.

(** [a[i]] for an integer [i]. *)
Definition item {A : Type} (a : list A) (i : Z) : result A :=
  k <- norm_index (length a) i ;;
  match nth_error a k with
  | Some x => Ok x
  | None => Raise IndexError
  end.

(** [a[idx]] for an integer array [idx] (indexing along the first axis). *)
Definition take {A : Type} (a : list A) (idx : list Z) : result (list A) :=
  mapM (item a) idx.

(** [np.arange(n)]. *)
Definition arange (n : nat) : list Z := map Z.of_nat (seq 0 n).

(** [np.arange(start, stop, step)] on integers, [step > 0]:
    [ceil((stop - start) / step)] entries. *)
Definition arange3 (start stop step : Z) : list Z :=
  map (fun k => start + step * Z.of_nat k)
      (seq 0 (Z.to_nat ((stop - start + step - 1) / step))).

Fixpoint cumsum_from (acc : Z) (l : list Z) : list Z :=
  match l with
  | [] => []
  | x :: l' => (acc + x) :: cumsum_from (acc + x) l'
  end.

(** [np.cumsum(l)]. *)
Definition cumsum (l : list Z) : list Z := cumsum_from 0 l.

(** [np.sum(l)]. *)
Definition sum (l : list Z) : Z := fold_right Z.add 0 l.

(** [np.prod(l)]. *)
Definition prod (l : list Z) : Z := fold_right Z.mul 1 l.

(** [a * b] for two arrays of one axis and of the same length. *)
Definition mul (a b : list Z) : list Z := map (fun p => fst p * snd p) (combine a b).

(** [a[i] = x] in a copy. *)
Fixpoint set_nth {A : Type} (k : nat) (x : A) (l : list A) : list A :=
  match l, k with
  | [], _ => []
  | _ :: l', O => x :: l'
  | y :: l', S k' => y :: set_nth k' x l'
  end.

(** Comparison of two rows from their first entry on. *)
Fixpoint lex_compare (a b : list Z) : comparison :=
  match a, b with
  | [], [] => Eq
  | [], _ :: _ => Lt
  | _ :: _, [] => Gt
  | x :: a', y :: b' =>
      match x ?= y with
      | Eq => lex_compare a' b'
      | c => c
      end
  end.

(** Comparison of two rows as [np.lexsort(a.T)] orders them: the keys are
    the columns and the last key is the primary one, so rows are compared
    from their last entry backwards. *)
Definition lexsort_compare (a b : list Z) : comparison :=
  lex_compare (rev a) (rev b).

(** [np.lexsort] is stable: rows with equal keys keep the order of their
    indices.  A stable sort is the sort by (key, index). *)
Definition key_leb (p q : Sector * nat) : bool :=
  match lexsort_compare (fst p) (fst q) with
  | Lt => true
  | Gt => false
  | Eq => Nat.leb (snd p) (snd q)
  end.

Fixpoint insert (p : Sector * nat) (l : list (Sector * nat)) : list (Sector * nat) :=
  match l with
  | [] => [p]
  | q :: l' => if key_leb p q then p :: q :: l' else q :: insert p l'
  end.

Definition sort_keys (l : list (Sector * nat)) : list (Sector * nat) :=
  fold_right insert [] l.

Definition enumerate (a : SectorArray) : list (Sector * nat) :=
  combine a (seq 0 (length a)).

(** [np.lexsort(a.T)] for a sector array [a] of two axes. *)
Definition lexsort_T (a : SectorArray) : list Z :=
  map (fun p => Z.of_nat (snd p)) (sort_keys (enumerate a)).

(** [np.all(a == b)] for two integer arrays of one axis and of the same
    length. *)
Fixpoint array_equal (a b : list Z) : bool :=
  match a, b with
  | [], [] => true
  | x :: a', y :: b' => (x =? y) && array_equal a' b'
  | _, _ => false
  end.

(** [np.all(a == b)] for two sector arrays of the same shape. *)
Fixpoint array2_equal (a b : SectorArray) : bool :=
  match a, b with
  | [], [] => true
  | x :: a', y :: b' => array_equal x y && array2_equal a' b'
  | _, _ => false
  end.

(** [len(np.unique(a, axis=0))]: the number of different rows. *)
Definition unique_rows (a : SectorArray) : SectorArray :=
  nodup (list_eq_dec Z.eq_dec) a.

(** [np.sum(a == k)]: how often [k] occurs in [a]. *)
Definition count (k : Z) (a : list Z) : Z :=
  Z.of_nat (List.length (filter (Z.eqb k) a)).

(** The largest value of a signed integer dtype of [bits] bits
    ([np.int8]: 8 bits, 127; [np.int64]: 64 bits). *)
Definition int_max (bits : Z) : Z := 2 ^ (bits - 1) - 1.

(** The value an array of a signed integer dtype of [bits] bits holds for
    the integer [x]: the arithmetic of such arrays wraps around (two's
    complement). *)
Definition wrap (bits : Z) (x : Z) : Z :=
  (x + 2 ^ (bits - 1)) mod 2 ^ bits - 2 ^ (bits - 1).

End np.

(** [bisect.bisect(a, x)] ([bisect_right] with [lo = 0], [hi = len(a)]):
    [while lo < hi: mid = (lo + hi) // 2; if x < a[mid]: hi = mid
    else: lo = mid + 1].  [hi - lo] decreases at every turn, so [len(a)]
    turns are enough. *)
Fixpoint bisect_loop (turns : nat) (a : list Z) (x : Z) (lo hi : nat) : nat :=
  match turns with
  | O => lo
  | S turns' =>
      if (lo <? hi)%nat then
        let mid := ((lo + hi) / 2)%nat in
        if x <? nth mid a 0 then bisect_loop turns' a x lo mid
        else bisect_loop turns' a x (mid + 1)%nat hi
      else lo
  end.

Definition bisect (a : list Z) (x : Z) : Z :=
  Z.of_nat (bisect_loop (length a) a x 0%nat (length a)).

(** ** tenpy/linalg/misc.py *)

(** [inv = np.empty_like(permutation); inv[permutation] = np.arange(len(inv))].
    The buffer of [np.empty_like] is not initialised; it is the first
    argument here.  When [permutation] is a permutation every entry is
    overwritten. *)
Definition inverse_permutation_into (buffer : list Z) (permutation : list Z)
  : result (list Z) :=
  idx <- mapM (np.norm_index (length permutation)) permutation ;;
  Ok (fold_left (fun inv p => np.set_nth (fst p) (snd p) inv)
                (combine idx (np.arange (length permutation)))
                buffer).

Definition inverse_permutation (permutation : list Z) : result (list Z) :=
  inverse_permutation_into (repeat 0 (length permutation)) permutation.

(** The further functions of the file. *)
Module misc.

(** [_MAX_INT = np.iinfo(int).max], for [int] of 64 bits. *)
Definition _MAX_INT : Z := 2 ^ 63 - 1.

(** Whether a Python int fits [np.intp], an integer dtype of 64 bits. *)
Definition fits_intp (x : Z) : bool := (- 2 ^ 63 <=? x) && (x <=? _MAX_INT).

(** [res[k] = x] for an array [res] of [np.intp] and a Python int [x]: a
    value outside the dtype raises [OverflowError]. *)
Definition set_intp (k : nat) (x : Z) (res : list Z) : result (list Z) :=
  if fits_intp x then Ok (np.set_nth k x res) else Raise OverflowError.

(** One turn of the loops of [make_stride]:
    [stride *= shape[a]; res[target] = stride]. *)
Definition stride_step (shape : list Z) (target : nat -> nat) (st : Z * list Z) (a : nat)
  : result (Z * list Z) :=
  let stride := fst st * nth a shape 0 in
  res <- set_intp (target a) stride (snd st) ;;
  Ok (stride, res).

(** [for a in indices: stride *= shape[a]; res[target] = stride]. *)
Fixpoint stride_loop (shape : list Z) (target : nat -> nat) (indices : list nat)
         (st : Z * list Z) : result (Z * list Z) :=
  match indices with
  | [] => Ok st
  | a :: indices' =>
      st' <- stride_step shape target st a ;;
      stride_loop shape target indices' st'
  end.

(** [make_stride(shape, cstyle)] for a [shape] of Python ints, so that
    [stride] is a Python int and exact.  [res = np.empty([L], np.intp)] is
    written at every position before it is returned, so what [np.empty]
    holds does not show; for [L = 0] the first assignment, [res[L - 1] = 1]
    or [res[0] = 1], raises [IndexError].  The loop of the C style runs over
    [range(L - 1, 0, -1)], that of the F style over [range(0, L - 1)]; both
    end with [assert stride * shape[0] < _MAX_INT]. *)
Definition make_stride (shape : list Z) (cstyle : bool) : result (list Z) :=
  match length shape with
  | O => Raise IndexError
  | S L' =>
      let res := repeat 0 (S L') in
      st <- (if cstyle
             then stride_loop shape (fun a => (a - 1)%nat) (rev (seq 1 L'))
                              (1, np.set_nth L' 1 res)
             else stride_loop shape (fun a => (a + 1)%nat) (seq 0 L')
                              (1, np.set_nth 0 1 res)) ;;
      _ <- assert (fst st * nth 0 shape 0 <? _MAX_INT) ;;
      Ok (snd st)
  end.

(** [np.divmod(x, s)] on integers: the floor of the quotient and the
    remainder with the sign of [s]; for [s = 0] numpy gives [0] for both
    (and a warning). *)
Definition divmod (x s : Z) : Z * Z :=
  if s =? 0 then (0, 0) else (x / s, x mod s).

(** The loop of [unstridify] for an array [x] of one axis:
    [y, x = np.divmod(x, s); y_list.append(y)]. *)
Fixpoint unstridify_loop (x : list Z) (strides : list Z) : list (list Z) :=
  match strides with
  | [] => []
  | s :: strides' =>
      map (fun v => fst (divmod v s)) x
      :: unstridify_loop (map (fun v => snd (divmod v s)) x) strides'
  end.

(** [np.stack(y_list, axis=-1)] for arrays of one axis and length [M]:
    row [i] holds entry [i] of every array; [np.stack] of no array raises
    [ValueError]. *)
Definition stack_last (M : nat) (y_list : list (list Z)) : result (list (list Z)) :=
  match y_list with
  | [] => Raise ValueError
  | _ => Ok (map (fun i => map (fun y => nth i y 0) y_list) (seq 0 M))
  end.

(** [unstridify(x, strides)] for an array [x] of one axis. *)
Definition unstridify (x : list Z) (strides : list Z) : result (list (list Z)) :=
  stack_last (length x) (unstridify_loop x strides).

(** [a[start:stop] = values] in a copy, for [0 <= start] and [values] of
    the length of the slice; a slice with [stop < start] is empty. *)
Definition set_slice {A : Type} (start stop : nat) (values : list A) (a : list A) : list A :=
  firstn start a ++ values ++ skipn (Nat.max start stop) a.

(** [np.nonzero(diff)[0]] for a boolean array of one axis. *)
Definition nonzero (diff : list bool) : list nat :=
  map snd (filter fst (combine diff (seq 0 (length diff)))).

(** [find_row_differences(sectors, include_len)]:
    [diff = np.ones(len_sectors + int(include_len), dtype=np.bool_)],
    [diff[1:len_sectors] = np.any(sectors[1:] != sectors[:-1], axis=1)],
    [np.nonzero(diff)[0]]. *)
Definition find_row_differences (sectors : SectorArray) (include_len : bool) : list nat :=
  let len_sectors := length sectors in
  let diff := repeat true (len_sectors + (if include_len then 1 else 0)) in
  let changes := map (fun p => negb (np.array_equal (fst p) (snd p)))
                     (combine (tl sectors) (removelast sectors)) in
  nonzero (set_slice 1 len_sectors changes diff).

(** [iter_common_sorted(a, b)]: the pairs [(i, j)] the generator yields,
    in the order it yields them.  Every turn of the [while] loop adds one
    to [i] or to [j], so [len(a) + len(b)] turns are enough. *)
Fixpoint iter_common_sorted_loop (turns : nat) (a b : list Z) (i j : nat)
  : list (nat * nat) :=
  match turns with
  | O => []
  | S turns' =>
      if (i <? length a)%nat && (j <? length b)%nat then
        if nth i a 0 <? nth j b 0 then iter_common_sorted_loop turns' a b (S i) j
        else if nth j b 0 <? nth i a 0 then iter_common_sorted_loop turns' a b i (S j)
        else (i, j) :: iter_common_sorted_loop turns' a b (S i) (S j)
      else []
  end.

Definition iter_common_sorted (a b : list Z) : list (nat * nat) :=
  iter_common_sorted_loop (length a + length b) a b 0 0.

(** The [for k in reversed(range(d_a))] loop over the columns of the rows
    [a[i, :]] and [b[j, :]]: [Lt] when it breaks at [a[i, k] < b[j, k]],
    [Gt] when it breaks at [b[j, k] < a[i, k]], [Eq] when it ends without
    [break] and its [else] runs. *)
Fixpoint compare_columns (ks : list nat) (r s : Sector) : comparison :=
  match ks with
  | [] => Eq
  | k :: ks' =>
      if nth k r 0 <? nth k s 0 then Lt
      else if nth k s 0 <? nth k r 0 then Gt
      else compare_columns ks' r s
  end.

(** [reversed(range(d))]. *)
Definition reversed_range (d : nat) : list nat := rev (seq 0 d).

(** The [while] loop of [iter_common_sorted_arrays]. *)
Fixpoint iter_common_sorted_arrays_loop (turns d : nat) (a b : SectorArray) (i j : nat)
  : list (nat * nat) :=
  match turns with
  | O => []
  | S turns' =>
      if (i <? length a)%nat && (j <? length b)%nat then
        match compare_columns (reversed_range d) (nth i a []) (nth j b []) with
        | Lt => iter_common_sorted_arrays_loop turns' d a b (S i) j
        | Gt => iter_common_sorted_arrays_loop turns' d a b i (S j)
        | Eq => (i, j) :: iter_common_sorted_arrays_loop turns' d a b (S i) (S j)
        end
      else []
  end.

(** [iter_common_sorted_arrays(a, b)]: the pairs the generator yields.
    An array of two axes is given by its rows and by the length [d] of its
    second axis, which an array without rows has too:
    [l_a, d_a = a.shape; l_b, d_b = b.shape; assert d_a == d_b]. *)
Definition iter_common_sorted_arrays (d_a d_b : nat) (a b : SectorArray)
  : result (list (nat * nat)) :=
  _ <- assert (d_a =? d_b)%nat ;;
  Ok (iter_common_sorted_arrays_loop (length a + length b) d_a a b 0 0).

(** The [while] loop of [iter_common_nonstrict_sorted_arrays]: after a
    match only [i] is increased. *)
Fixpoint iter_common_nonstrict_loop (turns d : nat) (a b : SectorArray) (i j : nat)
  : list (nat * nat) :=
  match turns with
  | O => []
  | S turns' =>
      if (i <? length a)%nat && (j <? length b)%nat then
        match compare_columns (reversed_range d) (nth i a []) (nth j b []) with
        | Lt => iter_common_nonstrict_loop turns' d a b (S i) j
        | Gt => iter_common_nonstrict_loop turns' d a b i (S j)
        | Eq => (i, j) :: iter_common_nonstrict_loop turns' d a b (S i) j
        end
      else []
  end.

(** [iter_common_nonstrict_sorted_arrays(a, b)]. *)
Definition iter_common_nonstrict_sorted_arrays (d_a d_b : nat) (a b : SectorArray)
  : result (list (nat * nat)) :=
  _ <- assert (d_a =? d_b)%nat ;;
  Ok (iter_common_nonstrict_loop (length a + length b) d_a a b 0 0).

(** The [while] loop of [iter_common_noncommon_sorted_arrays]: what it
    yields ([None] of Python is [None] here) and the [i], [j] it ends
    with. *)
Fixpoint iter_common_noncommon_loop (turns d : nat) (a b : SectorArray) (i j : nat)
  : list (option nat * option nat) * (nat * nat) :=
  match turns with
  | O => ([], (i, j))
  | S turns' =>
      if (i <? length a)%nat && (j <? length b)%nat then
        match compare_columns (reversed_range d) (nth i a []) (nth j b []) with
        | Lt => let r := iter_common_noncommon_loop turns' d a b (S i) j in
                ((Some i, None) :: fst r, snd r)
        | Gt => let r := iter_common_noncommon_loop turns' d a b i (S j) in
                ((None, Some j) :: fst r, snd r)
        | Eq => let r := iter_common_noncommon_loop turns' d a b (S i) (S j) in
                ((Some i, Some j) :: fst r, snd r)
        end
      else ([], (i, j))
  end.

(** [iter_common_noncommon_sorted_arrays(a, b)]: the loop, then
    [for i2 in range(i, l_a): yield i2, None] and
    [for j2 in range(j, l_b): yield None, j2]. *)
Definition iter_common_noncommon_sorted_arrays (d_a d_b : nat) (a b : SectorArray)
  : result (list (option nat * option nat)) :=
  _ <- assert (d_a =? d_b)%nat ;;
  let r := iter_common_noncommon_loop (length a + length b) d_a a b 0 0 in
  let i := fst (snd r) in
  let j := snd (snd r) in
  Ok (fst r
      ++ map (fun i2 => (Some i2, None)) (seq i (length a - i))
      ++ map (fun j2 => (None, Some j2)) (seq j (length b - j))).

End misc.

(** ** tenpy/linalg/symmetries/groups.py *)

Module groups.

Inductive FusionStyle : Type := single | multiple_unique | general.

Definition FusionStyle_value (s : FusionStyle) : Z :=
  match s with single => 0 | multiple_unique => 10 | general => 20 end.

Inductive BraidingStyle : Type := bosonic | fermionic | anyonic | no_braiding.

Definition BraidingStyle_value (s : BraidingStyle) : Z :=
  match s with bosonic => 0 | fermionic => 10 | anyonic => 20 | no_braiding => 30 end.

Definition FusionStyle_eqb (a b : FusionStyle) : bool :=
  FusionStyle_value a =? FusionStyle_value b.

(** *** The class statements *)

Inductive Class : Type :=
| C_object | C_ABC | C_Symmetry | C_ProductSymmetry | C_Group | C_AbelianGroup
| C_NoSymmetry | C_U1Symmetry | C_ZNSymmetry | C_SU2Symmetry | C_FermionParity.

Definition Class_eqb (a b : Class) : bool :=
  match a, b with
  | C_object, C_object | C_ABC, C_ABC | C_Symmetry, C_Symmetry
  | C_ProductSymmetry, C_ProductSymmetry | C_Group, C_Group
  | C_AbelianGroup, C_AbelianGroup | C_NoSymmetry, C_NoSymmetry
  | C_U1Symmetry, C_U1Symmetry | C_ZNSymmetry, C_ZNSymmetry
  | C_SU2Symmetry, C_SU2Symmetry | C_FermionParity, C_FermionParity => true
  | _, _ => false
  end.

(** The base named in each class statement (inheritance is single). *)
Definition base (c : Class) : option Class :=
  match c with
  | C_object => None
  | C_ABC => Some C_object
  | C_Symmetry => Some C_ABC
  | C_ProductSymmetry => Some C_Symmetry
  | C_Group => Some C_Symmetry
  | C_AbelianGroup => Some C_Group
  | C_NoSymmetry | C_U1Symmetry | C_ZNSymmetry => Some C_AbelianGroup
  | C_SU2Symmetry => Some C_Group
  | C_FermionParity => Some C_Symmetry
  end.

Fixpoint mro_from (depth : nat) (c : Class) : list Class :=
  c :: match depth with
       | O => []
       | S d => match base c with Some b => mro_from d b | None => [] end
       end.

(** The method resolution order; no chain of bases is longer than six. *)
Definition mro (c : Class) : list Class := mro_from 6 c.




(** [type.__instancecheck__(cls, instance)] for an instance of class [c]:
    [cls] is in the method resolution order of [c]. *)
Definition type_instancecheck (cls c : Class) : bool := existsb (Class_eqb cls) (mro c).


(** *** The symmetries *)

(** The classes that can be factors of a [ProductSymmetry]: its [__init__]
    asserts that no factor is itself a [ProductSymmetry]. *)
Inductive FactorSymmetry : Type :=
| NoSymmetry
| U1Symmetry (descriptive_name : option string)
| ZNSymmetry (N : Z) (descriptive_name : option string)
| SU2Symmetry (descriptive_name : option string)
| FermionParity.

Inductive Symmetry : Type :=
| Factor (f : FactorSymmetry)
| ProductSymmetry (factors : list FactorSymmetry).

Definition factor_class (f : FactorSymmetry) : Class :=
  match f with
  | NoSymmetry => C_NoSymmetry
  | U1Symmetry _ => C_U1Symmetry
  | ZNSymmetry _ _ => C_ZNSymmetry
  | SU2Symmetry _ => C_SU2Symmetry
  | FermionParity => C_FermionParity
  end.

Definition class_of (s : Symmetry) : Class :=
  match s with
  | Factor f => factor_class f
  | ProductSymmetry _ => C_ProductSymmetry
  end.


Definition no_symmetry : Symmetry := Factor NoSymmetry.
Definition z2_symmetry : Symmetry := Factor (ZNSymmetry 2 None).
Definition z3_symmetry : Symmetry := Factor (ZNSymmetry 3 None).
Definition z4_symmetry : Symmetry := Factor (ZNSymmetry 4 None).
Definition u1_symmetry : Symmetry := Factor (U1Symmetry None).
Definition su2_symmetry : Symmetry := Factor (SU2Symmetry None).
Definition fermion_parity : Symmetry := Factor FermionParity.

(** *** Attributes set by the constructors *)

Definition factor_fusion_style (f : FactorSymmetry) : FusionStyle :=
  match f with
  | SU2Symmetry _ => multiple_unique
  | _ => single
  end.

Definition factor_braiding_style (f : FactorSymmetry) : BraidingStyle :=
  match f with
  | FermionParity => fermionic
  | _ => bosonic
  end.

(** Every class passes [np.array([0], dtype=np.int8)]. *)
Definition factor_trivial_sector (f : FactorSymmetry) : Sector := [0].

Definition factor_sector_ind_len (f : FactorSymmetry) : Z :=
  Z.of_nat (length (factor_trivial_sector f)).

Definition factor_descriptive_name (f : FactorSymmetry) : option string :=
  match f with
  | NoSymmetry | FermionParity => None
  | U1Symmetry n | ZNSymmetry _ n | SU2Symmetry n => n
  end.

(** [max(xs, key=key)] on a nonempty sequence [x :: l]: the first maximum. *)
Fixpoint max_by {A : Type} (key : A -> Z) (x : A) (l : list A) : A :=
  match l with
  | [] => x
  | y :: l' => max_by key (if key x <? key y then y else x) l'
  end.

(** [ProductSymmetry.__init__] takes [max] over the factors, which raises
    on an empty list: a [ProductSymmetry] has at least one factor.  The
    first branch below is for no object. *)
Definition fusion_style (s : Symmetry) : FusionStyle :=
  match s with
  | Factor f => factor_fusion_style f
  | ProductSymmetry [] => single
  | ProductSymmetry (f :: fs) =>
      max_by FusionStyle_value (factor_fusion_style f) (map factor_fusion_style fs)
  end.

Definition braiding_style (s : Symmetry) : BraidingStyle :=
  match s with
  | Factor f => factor_braiding_style f
  | ProductSymmetry [] => bosonic
  | ProductSymmetry (f :: fs) =>
      max_by BraidingStyle_value (factor_braiding_style f) (map factor_braiding_style fs)
  end.

Definition trivial_sector (s : Symmetry) : Sector :=
  match s with
  | Factor f => factor_trivial_sector f
  | ProductSymmetry fs => concat (map factor_trivial_sector fs)
  end.

Definition sector_ind_len (s : Symmetry) : Z := Z.of_nat (length (trivial_sector s)).

Definition is_abelian (s : Symmetry) : bool := FusionStyle_eqb (fusion_style s) single.

Fixpoint all_some (l : list (option string)) : option (list string) :=
  match l with
  | [] => Some []
  | Some x :: l' => option_map (cons x) (all_some l')
  | None :: _ => None
  end.

Definition descriptive_name (s : Symmetry) : option string :=
  match s with
  | Factor f => factor_descriptive_name f
  | ProductSymmetry fs =>
      match all_some (map factor_descriptive_name fs) with
      | Some names => Some ("[" ++ String.concat ", " names ++ "]")%string
      | None => None
      end
  end.

(** [sector_slices = np.cumsum([0] + [f.sector_ind_len for f in factors])]. *)
Definition sector_slices (fs : list FactorSymmetry) : list Z :=
  np.cumsum (0 :: map factor_sector_ind_len fs).

(** [a[lo:hi]] for [0 <= lo]. *)
Definition slice {A : Type} (a : list A) (lo hi : Z) : list A :=
  firstn (Z.to_nat (hi - lo)) (skipn (Z.to_nat lo) a).

(** [for i, f_i in enumerate(self.factors)] together with the bounds
    [sector_slices[i]], [sector_slices[i + 1]]. *)
Definition factor_bounds (fs : list FactorSymmetry) : list (FactorSymmetry * (Z * Z)) :=
  combine fs (combine (sector_slices fs) (tl (sector_slices fs))).

(** [ProductSymmetry(factors)]. *)
Definition ProductSymmetry_init (factors : list Symmetry) : result Symmetry :=
  fs <- mapM (fun s => match s with
                       | Factor f => Ok f
                       | ProductSymmetry _ => Raise AssertionError
                       end) factors ;;
  match fs with
  | [] => Raise ValueError
  | _ :: _ => Ok (ProductSymmetry fs)
  end.

(** [Symmetry.__mul__]. *)
Definition __mul__ (a b : Symmetry) : result Symmetry :=
  let factors_of s := match s with
                      | ProductSymmetry fs => map Factor fs
                      | Factor f => [Factor f]
                      end in
  ProductSymmetry_init (factors_of a ++ factors_of b).

(** *** Methods *)

(** [x % n] of numpy on integers: the sign of the divisor, [0] for [n = 0]. *)
Definition np_mod (x n : Z) : Z := if n =? 0 then 0 else x mod n.

(** [a + b] for two arrays of the same shape. *)
Definition add_rows (a b : Sector) : Sector := map (fun p => fst p + snd p) (combine a b).

Definition factor_is_valid_sector (f : FactorSymmetry) (a : Sector) : bool :=
  match f with
  | NoSymmetry => (length a =? 1)%nat && (nth 0 a 0 =? 0)
  | U1Symmetry _ => (length a =? 1)%nat
  | ZNSymmetry N _ => (length a =? 1)%nat && ((0 <=? nth 0 a 0) && (nth 0 a 0 <? N))
  | SU2Symmetry _ => (length a =? 1)%nat && (0 <=? nth 0 a 0)
  | FermionParity => (length a =? 1)%nat && ((nth 0 a 0 =? 0) || (nth 0 a 0 =? 1))
  end.

Definition is_valid_sector (s : Symmetry) (a : Sector) : bool :=
  match s with
  | Factor f => factor_is_valid_sector f a
  | ProductSymmetry fs =>
      (Z.of_nat (length a) =? sector_ind_len s)
      && forallb (fun p => factor_is_valid_sector (fst p) (slice a (fst (snd p)) (snd (snd p))))
                 (factor_bounds fs)
  end.

Definition factor_fusion_outcomes (f : FactorSymmetry) (a b : Sector) : result SectorArray :=
  match f with
  | NoSymmetry => Ok [a]
  | U1Symmetry _ => Ok [add_rows a b]
  | ZNSymmetry N _ => Ok [map (fun x => np_mod x N) (add_rows a b)]
  | SU2Symmetry _ =>
      match a, b with
      | [ja], [jb] => Ok (map (fun c => [c]) (np.arange3 (Z.abs (ja - jb)) (ja + jb + 2) 2))
      | _, _ => Raise TypeError
      end
  | FermionParity => Ok [map (fun x => np_mod x 2) (add_rows a b)]
  end.

(** [SU2Symmetry.fusion_outcomes(a, b)] with the arithmetic of numpy, for
    [a] and [b] of one signed integer dtype of [bits] bits (of two dtypes,
    the wider one): [a - b], [np.abs(a - b)], [a + b] and [a + b + 2] are
    computed in that dtype and wrap around; [np.arange] counts from the
    start it is given up to the stop it is given. *)
Definition SU2Symmetry_fusion_outcomes (bits : Z) (a b : Sector) : result SectorArray :=
  match a, b with
  | [ja], [jb] =>
      let start := np.wrap bits (Z.abs (np.wrap bits (ja - jb))) in
      let stop := np.wrap bits (np.wrap bits (ja + jb) + 2) in
      Ok (map (fun c => [c]) (np.arange3 start stop 2))
  | _, _ => Raise TypeError
  end.

(** All combinations of one row of each [c_i], the index of the first
    factor varying slowest (the C order of [np.reshape]). *)
Fixpoint combinations (cs : list SectorArray) : SectorArray :=
  match cs with
  | [] => [[]]
  | c :: cs' => flat_map (fun r => map (app r) (combinations cs')) c
  end.

Definition fusion_outcomes (s : Symmetry) (a b : Sector) : result SectorArray :=
  match s with
  | Factor f => factor_fusion_outcomes f a b
  | ProductSymmetry fs =>
      all_outcomes <- mapM (fun p => factor_fusion_outcomes (fst p)
                                       (slice a (fst (snd p)) (snd (snd p)))
                                       (slice b (fst (snd p)) (snd (snd p))))
                           (factor_bounds fs) ;;
      Ok (combinations all_outcomes)
  end.

Definition factor_sector_dim (f : FactorSymmetry) (a : Sector) : result Z :=
  match f with
  | SU2Symmetry _ => jj <- np.item a 0 ;; Ok (jj + 1)
  | _ => Ok 1
  end.

Definition sector_dim (s : Symmetry) (a : Sector) : result Z :=
  match s with
  | Factor f => factor_sector_dim f a
  | ProductSymmetry fs =>
      if FusionStyle_eqb (fusion_style s) single then Ok 1
      else
        dims <- mapM (fun p => factor_sector_dim (fst p) (slice a (fst (snd p)) (snd (snd p))))
                     (factor_bounds fs) ;;
        Ok (np.prod dims)
  end.

Definition factor_dual_sector (f : FactorSymmetry) (a : Sector) : Sector :=
  match f with
  | U1Symmetry _ => map Z.opp a
  | ZNSymmetry N _ => map (fun x => np_mod (- x) N) a
  | NoSymmetry | SU2Symmetry _ | FermionParity => a
  end.

Definition dual_sector (s : Symmetry) (a : Sector) : Sector :=
  match s with
  | Factor f => factor_dual_sector f a
  | ProductSymmetry fs =>
      concat (map (fun p => factor_dual_sector (fst p) (slice a (fst (snd p)) (snd (snd p))))
                  (factor_bounds fs))
  end.

Definition factor_dual_sectors (f : FactorSymmetry) (sectors : SectorArray) : SectorArray :=
  match f with
  | U1Symmetry _ => map (map Z.opp) sectors
  | ZNSymmetry N _ => map (map (fun x => np_mod (- x) N)) sectors
  | NoSymmetry | SU2Symmetry _ | FermionParity => sectors
  end.

(** [np.concatenate(components, axis=-1)] for arrays of [n] rows each. *)
Definition concatenate_last (n : nat) (components : list SectorArray) : SectorArray :=
  fold_right (fun c acc => map (fun p => fst p ++ snd p) (combine c acc))
             (repeat [] n) components.

Definition dual_sectors (s : Symmetry) (sectors : SectorArray) : SectorArray :=
  match s with
  | Factor f => factor_dual_sectors f sectors
  | ProductSymmetry fs =>
      concatenate_last (length sectors)
        (map (fun p => factor_dual_sectors (fst p)
                         (map (fun a => slice a (fst (snd p)) (snd (snd p))) sectors))
             (factor_bounds fs))
  end.

Definition factor_n_symbol (f : FactorSymmetry) (a b c : Sector) : result Z :=
  match f with
  | SU2Symmetry _ => Raise NotImplementedError
  | _ => Ok 1
  end.

Definition n_symbol (s : Symmetry) (a b c : Sector) : result Z :=
  match s with
  | Factor f => factor_n_symbol f a b c
  | ProductSymmetry fs =>
      if FusionStyle_eqb (fusion_style s) single
         || FusionStyle_eqb (fusion_style s) multiple_unique
      then Ok 1
      else
        contributions <-
          mapM (fun p => factor_n_symbol (fst p)
                           (slice a (fst (snd p)) (snd (snd p)))
                           (slice b (fst (snd p)) (snd (snd p)))
                           (slice c (fst (snd p)) (snd (snd p))))
               (factor_bounds fs) ;;
        Ok (np.prod contributions)
  end.

(** *** Equality *)

Definition name_eqb (a b : option string) : bool :=
  match a, b with
  | None, None => true
  | Some x, Some y => String.eqb x y
  | _, _ => false
  end.

(** [f.is_same_symmetry(other)] for a factor [f]. *)
Definition factor_is_same_symmetry (f : FactorSymmetry) (other : Symmetry) : bool :=
  match f, other with
  | NoSymmetry, Factor NoSymmetry => true
  | U1Symmetry _, Factor (U1Symmetry _) => true
  | ZNSymmetry N _, Factor (ZNSymmetry M _) => M =? N
  | SU2Symmetry _, Factor (SU2Symmetry _) => true
  | FermionParity, Factor FermionParity => true
  | _, _ => false
  end.

(** [Symmetry.__eq__], the one the factor classes inherit. *)
Definition factor_eq (f : FactorSymmetry) (other : Symmetry) : bool :=
  name_eqb (factor_descriptive_name f) (descriptive_name other)
  && factor_is_same_symmetry f other.

(** [self == other]: [ProductSymmetry] overrides [__eq__]. *)
Definition __eq__ (s other : Symmetry) : bool :=
  match s with
  | Factor f => factor_eq f other
  | ProductSymmetry fs =>
      match other with
      | ProductSymmetry gs =>
          (length fs =? length gs)%nat
          && forallb (fun p => factor_eq (fst p) (Factor (snd p))) (combine fs gs)
      | Factor _ => false
      end
  end.

(** *** [_ABCFactorSymmetryMeta.__instancecheck__] *)

(** [isinstance(instance, cls)] for a class [cls] whose metaclass is
    [_ABCFactorSymmetryMeta] ([Group], [AbelianGroup] and their
    subclasses). *)
Definition instancecheck (cls : Class) (instance : Symmetry) : bool :=
  if (Class_eqb cls C_Group || Class_eqb cls C_AbelianGroup)
     && type_instancecheck C_ProductSymmetry (class_of instance)
  then
    match instance with
    | ProductSymmetry factors =>
        forallb (fun factor => type_instancecheck cls (factor_class factor)) factors
    | Factor _ => false
    end
  else type_instancecheck cls (class_of instance).

(** *** Further methods of the symmetries *)

(** The default of [sys.get_int_max_str_digits()]: [str(N)] of a CPython
    that has this limit converts an [int] of at most that many digits. *)
Definition int_max_str_digits : Z := 4300.

(** [str(N)] for an [int] [N] of at most [int_max_str_digits] digits. *)
Definition str_int (N : Z) : string := NilZero.string_of_int (Z.to_int N).

(** The keys of [subscript_map], the ten digits. *)
Definition subscript_keys : list ascii := list_ascii_of_string "0123456789".

(** [subscript_map[char]].  Of the lookup only its [KeyError] is kept: the
    values, subscript digits, go into [group_name], which nothing here
    reads. *)
Definition subscript_lookup (char : ascii) : result unit :=
  if existsb (Ascii.eqb char) subscript_keys then Ok tt
  else Raise (KeyError (String char EmptyString)).

(** [ZNSymmetry(N, descriptive_name)] for an [int] [N] of at most
    [int_max_str_digits] digits:
    [assert isinstance(N, int)], then
    [if not isinstance(N, int) and N > 1: raise ValueError], then
    [''.join(subscript_map[char] for char in str(N))]. *)
Definition ZNSymmetry_init (N : Z) (descriptive_name : option string) : result Symmetry :=
  let isinstance_N_int := true in
  _ <- assert isinstance_N_int ;;
  if negb isinstance_N_int && (N >? 1) then Raise ValueError
  else
    _ <- mapM subscript_lookup (list_ascii_of_string (str_int N)) ;;
    Ok (Factor (ZNSymmetry N descriptive_name)).

(** [self.is_same_symmetry(other)]. *)
Definition is_same_symmetry (s other : Symmetry) : bool :=
  match s with
  | Factor f => factor_is_same_symmetry f other
  | ProductSymmetry fs =>
      match other with
      | ProductSymmetry gs =>
          (length fs =? length gs)%nat
          && forallb (fun p => factor_is_same_symmetry (fst p) (Factor (snd p)))
                     (combine fs gs)
      | Factor _ => false
      end
  end.

(** [a + b] for two sector arrays of the same shape. *)
Definition add_arrays (a b : SectorArray) : SectorArray :=
  map (fun p => add_rows (fst p) (snd p)) (combine a b).

(** [np.concatenate(arrays, axis=0)], which refuses an empty list. *)
Definition concatenate_first (arrays : list SectorArray) : result SectorArray :=
  match arrays with
  | [] => Raise ValueError
  | _ :: _ => Ok (concat arrays)
  end.

(** [Symmetry.fusion_outcomes_broadcast]; of the factor classes only
    [SU2Symmetry] inherits it. *)
Definition Symmetry_fusion_outcomes_broadcast (f : FactorSymmetry) (a b : SectorArray)
  : result SectorArray :=
  _ <- assert (FusionStyle_eqb (factor_fusion_style f) single) ;;
  outcomes <- mapM (fun p => factor_fusion_outcomes f (fst p) (snd p)) (combine a b) ;;
  concatenate_first outcomes.

Definition factor_fusion_outcomes_broadcast (f : FactorSymmetry) (a b : SectorArray)
  : result SectorArray :=
  match f with
  | NoSymmetry => Ok a
  | U1Symmetry _ => Ok (add_arrays a b)
  | ZNSymmetry N _ => Ok (map (map (fun x => np_mod x N)) (add_arrays a b))
  | SU2Symmetry _ => Symmetry_fusion_outcomes_broadcast f a b
  | FermionParity => Ok (map (map (fun x => np_mod x 2)) (add_arrays a b))
  end.

(** [a[:, lo:hi]]. *)
Definition columns (a : SectorArray) (lo hi : Z) : SectorArray :=
  map (fun r => slice r lo hi) a.

Definition fusion_outcomes_broadcast (s : Symmetry) (a b : SectorArray)
  : result SectorArray :=
  match s with
  | Factor f => factor_fusion_outcomes_broadcast f a b
  | ProductSymmetry fs =>
      _ <- assert (FusionStyle_eqb (fusion_style s) single) ;;
      components <- mapM (fun p => factor_fusion_outcomes_broadcast (fst p)
                                     (columns a (fst (snd p)) (snd (snd p)))
                                     (columns b (fst (snd p)) (snd (snd p))))
                         (factor_bounds fs) ;;
      Ok (concatenate_last (length a) components)
  end.

End groups.

(** ** tenpy/linalg/symmetries/spaces.py *)

Module spaces.
Import groups.

(** *** The symmetry argument *)

(** [spaces.py] takes as [symmetry] any object that has the attributes it
    reads.  [sym] is the object as [groups.py] builds it, with the methods
    of [groups]; the two optional fields are the two attributes that
    [spaces.py] reads and that no class of [groups.py] binds,
    [batch_sector_dim] (given per row) and [_n_symbol].  An object of
    [groups.py] has neither ([of_groups]); an object can have them only
    from elsewhere. *)
Record SymmetryObj : Type := {
  sym : Symmetry;
  sym_batch_sector_dim : option (Sector -> Z);
  sym__n_symbol : option (Sector -> Sector -> Sector -> Z)
}.

Definition of_groups (s : Symmetry) : SymmetryObj :=
  {| sym := s; sym_batch_sector_dim := None; sym__n_symbol := None |}.

(** [symmetry.batch_sector_dim(sectors)]. *)
Definition batch_sector_dim (symmetry : SymmetryObj) (sectors : SectorArray)
  : result (list Z) :=
  match sym_batch_sector_dim symmetry with
  | Some d => Ok (map d sectors)
  | None => Raise (AttributeError "batch_sector_dim")
  end.

(** [symmetry._n_symbol(a, b, c)]. *)
Definition _n_symbol (symmetry : SymmetryObj) (a b c : Sector) : result Z :=
  match sym__n_symbol symmetry with
  | Some n => Ok (n a b c)
  | None => Raise (AttributeError "_n_symbol")
  end.

(** *** numpy broadcasting of arrays of one axis *)

(** [a * b]: equal lengths, or one operand of length one. *)
Definition broadcast_mul (a b : list Z) : result (list Z) :=
  if (length a =? length b)%nat then Ok (np.mul a b)
  else if (length a =? 1)%nat then Ok (map (Z.mul (nth 0 a 0)) b)
  else if (length b =? 1)%nat then Ok (map (fun x => x * nth 0 b 0) a)
  else Raise ValueError.

(** The right-hand side [l] of an assignment to [n] entries. *)
Definition broadcast_to (l : list Z) (n : nat) : result (list Z) :=
  if (length l =? n)%nat then Ok l
  else if (length l =? 1)%nat then Ok (repeat (nth 0 l 0) n)
  else Raise ValueError.

(** *** VectorSpace *)

Record VectorSpace : Type := {
  symmetry : SymmetryObj;
  is_real : bool;
  is_dual : bool;
  _non_dual_sorted_sectors : SectorArray;
  _sorted_multiplicities : list Z;
  _sector_perm : list Z;
  _inverse_sector_perm : list Z;
  _sorted_slices : list (Z * Z)
}.

(** [_calc_slices(symmetry, sectors, multiplicities)]: rows [(start, stop)]. *)
Definition _calc_slices (symmetry : SymmetryObj) (sectors : SectorArray)
           (multiplicities : list Z) : result (list (Z * Z)) :=
  let n := length sectors in
  dims <- batch_sector_dim symmetry sectors ;;
  sizes <- broadcast_mul multiplicities dims ;;
  let slice_ends := np.cumsum sizes in
  stops <- broadcast_to slice_ends n ;;
  starts <- broadcast_to (removelast slice_ends) (n - 1) ;;
  Ok (combine (firstn n (0 :: starts)) stops).

(** [VectorSpace.__init__]. *)
Definition VectorSpace_init (symmetry : SymmetryObj) (sectors : SectorArray)
           (multiplicities : option (list Z)) (is_real _is_dual : bool)
           (_sector_perm : option (list Z)) (_sorted_slices : option (list (Z * Z)))
  : result VectorSpace :=
  let num_sectors := length sectors in
  multiplicities <-
    match multiplicities with
    | None => Ok (repeat 1 num_sectors)
    | Some m => _ <- assert (length m =? num_sectors)%nat ;; Ok m
    end ;;
  '(perm, sorted_sectors, sorted_mults) <-
    match _sector_perm with
    | None =>
        let perm := np.lexsort_T sectors in
        s <- np.take sectors perm ;;
        m <- np.take multiplicities perm ;;
        Ok (perm, s, m)
    | Some perm =>
        _ <- assert (length perm =? num_sectors)%nat ;;
        Ok (perm, sectors, multiplicities)
    end ;;
  inv_perm <- inverse_permutation perm ;;
  sorted_slices <-
    match _sorted_slices with
    | None =>
        slices <-
          match _sector_perm with
          | None => _calc_slices symmetry sectors multiplicities
          | Some _ =>
              s <- np.take sectors inv_perm ;;
              m <- np.take multiplicities inv_perm ;;
              _calc_slices symmetry s m
          end ;;
        np.take slices perm
    | Some sl => _ <- assert (length sl =? num_sectors)%nat ;; Ok sl
    end ;;
  Ok {| symmetry := symmetry;
        is_real := is_real;
        is_dual := _is_dual;
        _non_dual_sorted_sectors := sorted_sectors;
        _sorted_multiplicities := sorted_mults;
        _sector_perm := perm;
        _inverse_sector_perm := inv_perm;
        _sorted_slices := sorted_slices |}.

(** The property [dim]. *)
Definition dim (self : VectorSpace) : result Z :=
  dims <- batch_sector_dim (symmetry self) (_non_dual_sorted_sectors self) ;;
  sizes <- broadcast_mul dims (_sorted_multiplicities self) ;;
  Ok (np.sum sizes).

Definition num_sectors (self : VectorSpace) : nat :=
  length (_non_dual_sorted_sectors self).

(** [VectorSpace.without_symmetry(dim)]. *)
Definition without_symmetry (dim : Z) (is_real _is_dual : bool) : result VectorSpace :=
  VectorSpace_init (of_groups no_symmetry) [trivial_sector no_symmetry] (Some [dim])
                   is_real _is_dual None None.

(** The property [multiplicities]. *)
Definition multiplicities (self : VectorSpace) : result (list Z) :=
  np.take (_sorted_multiplicities self) (_inverse_sector_perm self).

(** The property [sectors]. *)
Definition sectors (self : VectorSpace) : result SectorArray :=
  let res := if is_dual self
             then dual_sectors (sym (symmetry self)) (_non_dual_sorted_sectors self)
             else _non_dual_sorted_sectors self in
  np.take res (_inverse_sector_perm self).

(** The property [_sorted_sectors]. *)
Definition _sorted_sectors (self : VectorSpace) : SectorArray :=
  if is_dual self
  then dual_sectors (sym (symmetry self)) (_non_dual_sorted_sectors self)
  else _non_dual_sorted_sectors self.

(** The property [slices]. *)
Definition slices (self : VectorSpace) : result (list (Z * Z)) :=
  np.take (_sorted_slices self) (_inverse_sector_perm self).

(** [VectorSpace.parse_index]. *)
Definition parse_index (self : VectorSpace) (idx : Z) : result (Z * Z) :=
  d <- dim self ;;
  if negb ((- d <=? idx) && (idx <? d)) then Raise IndexError
  else
    idx <- (if idx <? 0 then d' <- dim self ;; Ok (idx + d') else Ok idx) ;;
    sl <- slices self ;;
    let sector_idx := bisect (map fst sl) idx - 1 in
    row <- np.item sl sector_idx ;;
    Ok (sector_idx, idx - fst row).

(** The property [dual] of a plain [VectorSpace]: a shallow copy with the
    flag flipped. *)
Definition dual (self : VectorSpace) : VectorSpace :=
  {| symmetry := symmetry self;
     is_real := is_real self;
     is_dual := negb (is_dual self);
     _non_dual_sorted_sectors := _non_dual_sorted_sectors self;
     _sorted_multiplicities := _sorted_multiplicities self;
     _sector_perm := _sector_perm self;
     _inverse_sector_perm := _inverse_sector_perm self;
     _sorted_slices := _sorted_slices self |}.

(** [np.all(a == b)] for two rows of one length, as the sectors of one
    symmetry are. *)
Fixpoint row_eqb (a b : Sector) : bool :=
  match a, b with
  | [], [] => true
  | x :: a', y :: b' => (x =? y) && row_eqb a' b'
  | _, _ => false
  end.

(** The loop of [is_subspace_of] over
    [zip(other._non_dual_sorted_sectors, other._sorted_multiplicities)]. *)
Fixpoint is_subspace_loop (self : VectorSpace) (n_self : nat) (others : list (Sector * Z))
  : result bool :=
  match others with
  | [] => Ok false
  | (other_sector, other_mult) :: rest =>
      s <- np.item (_non_dual_sorted_sectors self) (Z.of_nat n_self) ;;
      if row_eqb s other_sector then
        m <- np.item (_sorted_multiplicities self) (Z.of_nat n_self) ;;
        if m >? other_mult then Ok false
        else if (S n_self =? num_sectors self)%nat then Ok true
             else is_subspace_loop self (S n_self) rest
      else if (n_self =? num_sectors self)%nat then Ok true
           else is_subspace_loop self n_self rest
  end.

(** [VectorSpace.is_subspace_of]. *)
Definition is_subspace_of (self other : VectorSpace) : result bool :=
  if negb (Bool.eqb (is_dual self) (is_dual other)) then Ok false
  else if negb (groups.__eq__ (sym (symmetry self)) (sym (symmetry other))) then Ok false
  else is_subspace_loop self 0
         (combine (_non_dual_sorted_sectors other) (_sorted_multiplicities other)).

(** *** ProductSpace *)

(** A space is a plain [VectorSpace] or a [ProductSpace], which is a
    [VectorSpace] that also holds the list [spaces] of its factors. *)
#[local] Set Warnings "-register-all".
Inductive Space : Type :=
| Plain (v : VectorSpace)
| Product (v : VectorSpace) (spaces : list Space).

Definition as_data (s : Space) : VectorSpace :=
  match s with
  | Plain v => v
  | Product v _ => v
  end.

(** The property [dual]: [ProductSpace.dual] also replaces [spaces] by
    the duals of the factors. *)
Fixpoint Space_dual (s : Space) : Space :=
  match s with
  | Plain v => Plain (dual v)
  | Product v spaces => Product (dual v) (map Space_dual spaces)
  end.

(** A [dict] in the order of insertion of its keys. *)
Definition dict : Type := list (Sector * Z).

Fixpoint dict_get (d : dict) (k : Sector) (default : Z) : Z :=
  match d with
  | [] => default
  | (k', v) :: d' => if row_eqb k k' then v else dict_get d' k default
  end.

(** [d[k] = v]: a key that is present keeps its place. *)
Fixpoint dict_set (d : dict) (k : Sector) (v : Z) : dict :=
  match d with
  | [] => [(k, v)]
  | (k', v') :: d' => if row_eqb k k' then (k', v) :: d' else (k', v') :: dict_set d' k v
  end.

Fixpoint foldM {A S : Type} (f : S -> A -> result S) (l : list A) (s : S) : result S :=
  match l with
  | [] => Ok s
  | x :: l' => s' <- f s x ;; foldM f l' s'
  end.

(** The three nested loops of [_fuse_spaces], innermost first.
    [for s_c in symmetry.fusion_outcomes(s_a, s_b)]: *)
Definition fuse_outcomes (symmetry : SymmetryObj) (ta sb : Sector * Z)
           (outcomes : SectorArray) (new_fusion : dict) : result dict :=
  foldM (fun new_fusion s_c =>
           n <- _n_symbol symmetry (fst ta) (fst sb) s_c ;;
           Ok (dict_set new_fusion s_c
                        (dict_get new_fusion s_c 0 + snd ta * snd sb * n)))
        outcomes new_fusion.

(** [for s_b, m_b in zip(space._sorted_sectors, space._sorted_multiplicities)]: *)
Definition fuse_rows (symmetry : SymmetryObj) (space : Space) (ta : Sector * Z)
           (new_fusion : dict) : result dict :=
  foldM (fun new_fusion sb =>
           outcomes <- fusion_outcomes (sym symmetry) (fst ta) (fst sb) ;;
           fuse_outcomes symmetry ta sb outcomes new_fusion)
        (combine (_sorted_sectors (as_data space))
                 (_sorted_multiplicities (as_data space)))
        new_fusion.

(** [for t_a, m_a in fusion.items()], from [new_fusion = {}]: the body of
    [for space in spaces[1:]], which gives the new value of [fusion]. *)
Definition fuse_step (symmetry : SymmetryObj) (fusion : dict) (space : Space)
  : result dict :=
  foldM (fun new_fusion ta => fuse_rows symmetry space ta new_fusion) fusion [].

(** [_fuse_spaces(symmetry, spaces, _is_dual)], without the metadata, which
    is always the empty dictionary.  [np.lexsort] refuses the array without
    keys that an empty [fusion] gives. *)
Definition _fuse_spaces (symmetry : SymmetryObj) (spaces : list Space) (_is_dual : bool)
  : result (SectorArray * list Z) :=
  let spaces := if _is_dual then map Space_dual spaces else spaces in
  match spaces with
  | [] => Raise IndexError
  | first :: others =>
      let fusion0 :=
        fold_left (fun d sm => dict_set d (fst sm) (snd sm))
                  (combine (_sorted_sectors (as_data first))
                           (_sorted_multiplicities (as_data first)))
                  [] in
      fusion <- foldM (fuse_step symmetry) others fusion0 ;;
      let non_dual_sectors := map fst fusion in
      let multiplicities := map snd fusion in
      match fusion with
      | [] => Raise TypeError
      | _ :: _ =>
          let sort := np.lexsort_T non_dual_sectors in
          s <- np.take non_dual_sectors sort ;;
          m <- np.take multiplicities sort ;;
          Ok (s, m)
      end
  end.

(** [ProductSpace.__init__] with [backend=None]. *)
Definition ProductSpace_init (spaces : list Space) (_is_dual : option bool)
           (_sectors : option SectorArray) (_multiplicities : option (list Z))
           (_sector_perm : option (list Z)) (_sorted_slices : option (list (Z * Z)))
  : result Space :=
  match spaces with
  | [] => Raise IndexError
  | first :: _ =>
      let _is_dual := match _is_dual with
                      | None => is_dual (as_data first)
                      | Some b => b
                      end in
      let symmetry := symmetry (as_data first) in
      _ <- assert (forallb (fun s => groups.__eq__ (sym (spaces.symmetry (as_data s))) (sym symmetry))
                           spaces) ;;
      let is_real := is_real (as_data first) in
      _ <- assert (forallb (fun s => Bool.eqb (spaces.is_real (as_data s)) is_real) spaces) ;;
      sm <- match _sectors with
            | None =>
                _ <- assert (match _multiplicities with None => true | Some _ => false end) ;;
                _fuse_spaces symmetry spaces _is_dual
            | Some s =>
                match _multiplicities with
                | None => Raise AssertionError
                | Some m => Ok (s, m)
                end
            end ;;
      let _sector_perm := match _sector_perm with
                          | None => np.arange (length (fst sm))
                          | Some p => p
                          end in
      v <- VectorSpace_init symmetry (fst sm) (Some (snd sm)) is_real _is_dual
                            (Some _sector_perm) _sorted_slices ;;
      Ok (Product v spaces)
  end.

(** *** Further methods of [VectorSpace] *)

(** [VectorSpace.test_sanity]. *)
Definition test_sanity (self : VectorSpace) : result unit :=
  let s := sym (symmetry self) in
  _ <- assert (forallb (is_valid_sector s) (_non_dual_sorted_sectors self)) ;;
  _ <- assert (length (_non_dual_sorted_sectors self) =? num_sectors self)%nat ;;
  _ <- assert (length (np.unique_rows (_non_dual_sorted_sectors self))
               =? num_sectors self)%nat ;;
  _ <- assert (forallb (fun r => Z.of_nat (length r) =? sector_ind_len s)
                       (_non_dual_sorted_sectors self)) ;;
  _ <- assert (forallb (fun m => m >? 0) (_sorted_multiplicities self)) ;;
  _ <- assert (length (_sorted_multiplicities self) =? num_sectors self)%nat ;;
  _ <- assert (length (_sorted_slices self) =? num_sectors self)%nat ;;
  let slice_diffs := map (fun sl => snd sl - fst sl) (_sorted_slices self) in
  dims <- batch_sector_dim (symmetry self) (_non_dual_sorted_sectors self) ;;
  expect_diffs <- broadcast_mul dims (_sorted_multiplicities self) ;;
  _ <- assert (np.array_equal slice_diffs expect_diffs) ;;
  sl <- slices self ;;
  _ <- (if (0 <? length sl)%nat then
          first <- np.item sl 0 ;;
          _ <- assert (fst first =? 0) ;;
          _ <- assert (np.array_equal (map fst (tl sl)) (map snd (removelast sl))) ;;
          last <- np.item sl (-1) ;;
          d <- dim self ;;
          assert (snd last =? d)
        else Ok tt) ;;
  _ <- assert (length (_sector_perm self) =? num_sectors self)%nat ;;
  assert (forallb (fun k => np.count k (_sector_perm self) =? 1)
                  (np.arange (num_sectors self))).

(** [VectorSpace.sector(i)]. *)
Definition sector (self : VectorSpace) (i : Z) : result Sector :=
  j <- np.item (_inverse_sector_perm self) i ;;
  sector <- np.item (_non_dual_sorted_sectors self) j ;;
  Ok (if is_dual self then dual_sector (sym (symmetry self)) sector else sector).

(** [VectorSpace._parse_index]. *)
Definition _parse_index (self : VectorSpace) (idx : Z) : result (Z * Z) :=
  '(sector_idx, multiplicity_idx) <- parse_index self idx ;;
  j <- np.item (_inverse_sector_perm self) sector_idx ;;
  Ok (j, multiplicity_idx).

(** [VectorSpace.idx_to_sector]. *)
Definition idx_to_sector (self : VectorSpace) (idx : Z) : result Sector :=
  '(_sector_idx, _) <- _parse_index self idx ;;
  sector <- np.item (_non_dual_sorted_sectors self) _sector_idx ;;
  Ok (if is_dual self then dual_sector (sym (symmetry self)) sector else sector).

(** [VectorSpace.flip_is_dual]. *)
Definition flip_is_dual (self : VectorSpace) : result VectorSpace :=
  VectorSpace_init (symmetry self)
                   (dual_sectors (sym (symmetry self)) (_non_dual_sorted_sectors self))
                   (Some (_sorted_multiplicities self))
                   (is_real self) (negb (is_dual self)) None None.

(** [VectorSpace.is_equal_or_dual]; the arrays it compares have the same
    shape once the symmetries and the numbers of sectors are the same. *)
Definition is_equal_or_dual (self other : VectorSpace) : bool :=
  if negb (Bool.eqb (is_real self) (is_real other)) then false
  else if negb (groups.__eq__ (sym (symmetry self)) (sym (symmetry other))) then false
  else if negb (num_sectors self =? num_sectors other)%nat then false
  else if negb (np.array2_equal (_non_dual_sorted_sectors self)
                                (_non_dual_sorted_sectors other)) then false
  else if negb (np.array_equal (_sorted_multiplicities self)
                               (_sorted_multiplicities other)) then false
  else if negb (np.array_equal (_sector_perm self) (_sector_perm other)) then false
  else true.

(** [VectorSpace.num_parameters]. *)
Fixpoint num_parameters_loop (trivial : Sector) (rows : list (Sector * Z)) : Z :=
  match rows with
  | [] => 0
  | (s, m) :: rest => if np.array_equal s trivial then m else num_parameters_loop trivial rest
  end.

Definition num_parameters (self : VectorSpace) : Z :=
  num_parameters_loop (trivial_sector (sym (symmetry self)))
                      (combine (_non_dual_sorted_sectors self) (_sorted_multiplicities self)).

(** *** Further methods of [ProductSpace] and dispatch on the class *)

(** [self == other]: [VectorSpace.__eq__] for a plain space,
    [ProductSpace.__eq__] for a product. *)
Fixpoint __eq__ (self other : Space) : bool :=
  match self, other with
  | Plain v, Plain w => Bool.eqb (is_dual v) (is_dual w) && is_equal_or_dual v w
  | Plain _, Product _ _ => false
  | Product _ _, Plain _ => false
  | Product v spaces, Product w other_spaces =>
      if negb (Bool.eqb (is_dual w) (is_dual v)) then false
      else if negb (length other_spaces =? length spaces)%nat then false
      else (fix all_eq (l l' : list Space) : bool :=
              match l, l' with
              | s1 :: r, s2 :: r' => __eq__ s1 s2 && all_eq r r'
              | _, _ => true
              end) spaces other_spaces
  end.

(** [self.can_contract_with(other)]. *)
Fixpoint can_contract_with (self other : Space) : bool :=
  match self, other with
  | Plain v, Plain w => negb (Bool.eqb (is_dual v) (is_dual w)) && is_equal_or_dual v w
  | Plain _, Product _ _ => false
  | Product _ _, Plain _ => false
  | Product v spaces, Product w other_spaces =>
      if Bool.eqb (is_dual v) (is_dual w) then false
      else if negb (length spaces =? length other_spaces)%nat then false
      else (fix all_contract (l l' : list Space) : bool :=
              match l, l' with
              | s1 :: r, s2 :: r' => can_contract_with s1 s2 && all_contract r r'
              | _, _ => true
              end) spaces other_spaces
  end.

(** [self.as_VectorSpace()]: a plain space returns itself. *)
Definition as_VectorSpace (self : Space) : result Space :=
  match self with
  | Plain v => Ok (Plain v)
  | Product v _ =>
      w <- VectorSpace_init (symmetry v) (_non_dual_sorted_sectors v)
                            (Some (_sorted_multiplicities v)) (is_real v) (is_dual v)
                            (Some (_sector_perm v)) (Some (_sorted_slices v)) ;;
      Ok (Plain w)
  end.

(** [ProductSpace.flip_is_dual] of the product with data [v] and factors
    [spaces]. *)
Definition ProductSpace_flip_is_dual (v : VectorSpace) (spaces : list Space)
  : result Space :=
  let sectors := dual_sectors (sym (symmetry v)) (_non_dual_sorted_sectors v) in
  let sort := np.lexsort_T sectors in
  _sectors <- np.take sectors sort ;;
  _multiplicities <- np.take (_sorted_multiplicities v) sort ;;
  _sorted_slices <- np.take (_sorted_slices v) sort ;;
  _sector_perm <- np.take (_sector_perm v) sort ;;
  ProductSpace_init spaces (Some (negb (is_dual v))) (Some _sectors) (Some _multiplicities)
                    (Some _sector_perm) (Some _sorted_slices).

End spaces.

(** ** Predicates of the statements *)

(** [p] holds every index of [range(len(p))] once. *)
Definition is_permutation (p : list Z) : Prop :=
  Permutation p (np.arange (length p)).

(** The same as a test: every index of [range(len(p))] occurs in [p]. *)
Definition is_permutationb (p : list Z) : bool :=
  forallb (fun i => existsb (Z.eqb i) p) (np.arange (length p)).

(** Row [a] is before row [b] when rows are compared from the first
    entry on. *)
Definition lex_lt (a b : Sector) : Prop := np.lex_compare a b = Lt.

(** Row [a] is before row [b] in the order of [np.lexsort(sectors.T)]:
    rows are compared from the last entry backwards. *)
Definition lexsort_lt (a b : Sector) : Prop := np.lexsort_compare a b = Lt.

(** The checks of [test_sanity] on a table of slices of a space of
    dimension [d]: for a table with a row, the first start is [0], each stop
    is the next start, the last stop is [d]. *)
Definition slices_contiguous (sl : list (Z * Z)) (d : Z) : Prop :=
  sl <> [] ->
  fst (hd (0, 0) sl) = 0
  /\ (forall i, (S i < length sl)%nat -> snd (nth i sl (0, 0)) = fst (nth (S i) sl (0, 0)))
  /\ snd (last sl (0, 0)) = d.

(** The order [np.lexsort] sorts by: the key, then the index. *)
Definition key_le (p q : Sector * nat) : Prop := np.key_leb p q = true.

(** The rows a sector array has after [a[np.lexsort(a.T)]]. *)
Definition sorted_rows (a : SectorArray) : SectorArray :=
  map fst (np.sort_keys (np.enumerate a)).

(** The arguments pass the assertions of [VectorSpace.__init__] and a
    given [_sector_perm] is a permutation. *)
Definition init_arguments_pass (sectors : SectorArray) (multiplicities : option (list Z))
           (_sector_perm : option (list Z)) : Prop :=
  match multiplicities with
  | Some m => length m = length sectors
  | None => True
  end
  /\ match _sector_perm with
     | Some p => length p = length sectors /\ is_permutationb p = true
     | None => True
     end.

(** The factor classes whose class statement derives from [AbelianGroup]:
    [NoSymmetry], [U1Symmetry] and [ZNSymmetry]. *)
Definition derives_from_AbelianGroup (f : groups.FactorSymmetry) : bool :=
  match f with
  | groups.NoSymmetry | groups.U1Symmetry _ | groups.ZNSymmetry _ _ => true
  | groups.SU2Symmetry _ | groups.FermionParity => false
  end.

(** The factor classes whose class statement derives from [Group]: those
    of [AbelianGroup] and [SU2Symmetry]; [FermionParity] derives from
    [Symmetry]. *)
Definition derives_from_Group (f : groups.FactorSymmetry) : bool :=
  match f with
  | groups.FermionParity => false
  | _ => true
  end.

(** [lo, lo + 2, ..., hi]: the integers from [lo] to [hi] in steps of two,
    both ends included. *)
Definition steps_of_two (lo hi : Z) : list Z :=
  map (fun k => lo + 2 * Z.of_nat k) (seq 0 (S (Z.to_nat ((hi - lo) / 2)))).

(** The table [_calc_slices] builds from the per-row dimension [g]. *)
Definition dense_slices (g : Sector -> Z) (a : SectorArray) (m : list Z) : list (Z * Z) :=
  let slice_ends := np.cumsum (np.mul m (map g a)) in
  combine (firstn (length a) (0 :: removelast slice_ends)) slice_ends.

(** Modelled from the spec: a symmetry object of [groups.py] that was
    given the two attributes [groups.py] does not define, with the values
    of an abelian symmetry: every sector has dimension [1]
    ([sector_dim] of [AbelianGroup]) and every N-symbol is [1]
    ([n_symbol] of [AbelianGroup]). *)
Definition with_abelian_attributes (s : groups.Symmetry) : spaces.SymmetryObj :=
  {| spaces.sym := s;
     spaces.sym_batch_sector_dim := Some (fun _ => 1);
     spaces.sym__n_symbol := Some (fun _ _ _ => 1) |}.

(** What [dual_sector] of a factor does to one entry of a sector. *)
Definition factor_dual_entry (f : groups.FactorSymmetry) (x : Z) : Z :=
  match f with
  | groups.U1Symmetry _ => - x
  | groups.ZNSymmetry N _ => groups.np_mod (- x) N
  | _ => x
  end.

(** The bounds [(sector_slices[i], sector_slices[i + 1])] of the factors
    when the first one starts at [k]: every factor takes one entry. *)
Fixpoint bounds_from (k : Z) (fs : list groups.FactorSymmetry)
  : list (groups.FactorSymmetry * (Z * Z)) :=
  match fs with
  | [] => []
  | f :: fs' => (f, (k, k + 1)) :: bounds_from (k + 1) fs'
  end.


(** A [VectorSpace] of [groups.py] symmetry [s] built with all its data
    given, as [as_VectorSpace] does. *)
Definition given_space (s : groups.Symmetry) (sectors : SectorArray) (mults : list Z)
           (_is_dual : bool) (sl : list (Z * Z)) : result spaces.VectorSpace :=
  spaces.VectorSpace_init (spaces.of_groups s) sectors (Some mults) false _is_dual None
                          (Some sl).

(** The space of dimension 8 without symmetry, as the constructor returns
    it when its slices are given. *)
Definition space_of_dim_8 : spaces.VectorSpace :=
  {| spaces.symmetry := spaces.of_groups groups.no_symmetry;
     spaces.is_real := false;
     spaces.is_dual := false;
     spaces._non_dual_sorted_sectors := [[0]];
     spaces._sorted_multiplicities := [8];
     spaces._sector_perm := [0];
     spaces._inverse_sector_perm := [0];
     spaces._sorted_slices := [(0, 8)] |}.

(** Every sector of [S] is a sector of [O], with at most the multiplicity
    it has in [O]. *)
Definition embeds (S O : list (Sector * Z)) : Prop :=
  forall a m, In (a, m) S -> exists m', In (a, m') O /\ m <= m'.

(** The canonical (sector, multiplicity) pairs of a space. *)
Definition canonical_pairs (v : spaces.VectorSpace) : list (Sector * Z) :=
  combine (spaces._non_dual_sorted_sectors v) (spaces._sorted_multiplicities v).

(** The keys of a [dict], in the order of insertion. *)
Definition keys (d : spaces.dict) : list Sector := map fst d.

Definition same_elements {A : Type} (l l' : list A) : Prop :=
  forall x, In x l <-> In x l'.

(** The rows [_fuse_spaces] reads from a factor. *)
Definition rows (s : spaces.Space) : list (Sector * Z) :=
  combine (spaces._sorted_sectors (spaces.as_data s))
          (spaces._sorted_multiplicities (spaces.as_data s)).

(** The value of [fusion] before the loop over [spaces[1:]]. *)
Definition initial_fusion (first : spaces.Space) : spaces.dict :=
  fold_left (fun d sm => spaces.dict_set d (fst sm) (snd sm)) (rows first) [].

(** [k] is an outcome of the fusion of a sector of [F] with a sector of
    [space]. *)
Definition fused_from (o : spaces.SymmetryObj) (F : list Sector) (space : spaces.Space)
           (k : Sector) : Prop :=
  exists a sb outs,
    In a F /\ In sb (rows space)
    /\ groups.fusion_outcomes (spaces.sym o) a (fst sb) = Ok outs /\ In k outs.

Import groups spaces.

(** ** Predicates of the further properties *)

(** A [ZNSymmetry] factor has [0 < N]. *)
Definition factor_positive_modulus (f : FactorSymmetry) : bool :=
  match f with
  | ZNSymmetry N _ => 0 <? N
  | _ => true
  end.

Definition positive_moduli (s : Symmetry) : bool :=
  match s with
  | Factor f => factor_positive_modulus f
  | ProductSymmetry fs => forallb factor_positive_modulus fs
  end.

(** The factors [__mul__] reads off an operand. *)
Definition factors_of (s : Symmetry) : list FactorSymmetry :=
  match s with
  | ProductSymmetry fs => fs
  | Factor f => [f]
  end.

(** [s] is an object some constructor returns: [ProductSymmetry.__init__]
    raises on an empty list of factors. *)
Definition constructed (s : Symmetry) : Prop := factors_of s <> [].

(** The entries [c] of the outcomes [[c]] of [f.fusion_outcomes([x], [y])]. *)
Definition factor_fusion_entries (f : FactorSymmetry) (x y : Z) : list Z :=
  match f with
  | NoSymmetry => [x]
  | U1Symmetry _ => [x + y]
  | ZNSymmetry N _ => [np_mod (x + y) N]
  | SU2Symmetry _ => np.arange3 (Z.abs (x - y)) (x + y + 2) 2
  | FermionParity => [np_mod (x + y) 2]
  end.

(** The one outcome of the fusion of two rows under a factor other than
    [SU2Symmetry]. *)
Definition factor_fused (f : FactorSymmetry) (a b : Sector) : Sector :=
  match f with
  | NoSymmetry => a
  | U1Symmetry _ => add_rows a b
  | ZNSymmetry N _ => map (fun x => np_mod x N) (add_rows a b)
  | SU2Symmetry _ => []
  | FermionParity => map (fun x => np_mod x 2) (add_rows a b)
  end.

(** [f.sector_dim([x])]. *)
Definition factor_dim_entry (f : FactorSymmetry) (x : Z) : Z :=
  match f with
  | SU2Symmetry _ => x + 1
  | _ => 1
  end.

(** The product of the dimensions of the entries of a row under their
    factors. *)
Definition product_dim (fs : list FactorSymmetry) (c : Sector) : Z :=
  np.prod (map (fun q => factor_dim_entry (fst q) (snd q)) (combine fs c)).

(** A space of charges 0 and 1 of U(1), with multiplicities 1 and 2, over
    [with_abelian_attributes]. *)
Definition charge_space : VectorSpace :=
  {| symmetry := with_abelian_attributes u1_symmetry;
     is_real := false;
     is_dual := false;
     _non_dual_sorted_sectors := [[0]; [1]];
     _sorted_multiplicities := [1; 2];
     _sector_perm := [0; 1];
     _inverse_sector_perm := [0; 1];
     _sorted_slices := [(0, 1); (1, 3)] |}.

(** The pairs of positions that a scan of two lists yields from the
    positions [i], [j] on when [cmp] compares their entries: the form that
    the loops of [iter_common_sorted] and of [iter_common_sorted_arrays]
    share. *)
Fixpoint common_scan {A : Type} (cmp : A -> A -> comparison) (d : A) (turns : nat)
         (a b : list A) (i j : nat) : list (nat * nat) :=
  match turns with
  | O => []
  | S turns' =>
      if (i <? length a)%nat && (j <? length b)%nat then
        match cmp (nth i a d) (nth j b d) with
        | Lt => common_scan cmp d turns' a b (S i) j
        | Gt => common_scan cmp d turns' a b i (S j)
        | Eq => (i, j) :: common_scan cmp d turns' a b (S i) (S j)
        end
      else []
  end.

(** Both positions of [p] are before those of [q]. *)
Definition both_before (p q : nat * nat) : Prop :=
  (fst p < fst q)%nat /\ (snd p < snd q)%nat.

(** What the two [for] loops at the end of
    [iter_common_noncommon_sorted_arrays] yield when the [while] loop ends
    at the positions [i], [j]. *)
Definition noncommon_tails (a b : SectorArray) (i j : nat) : list (option nat * option nat) :=
  map (fun i2 => (Some i2, None)) (seq i (length a - i))
  ++ map (fun j2 => (None, Some j2)) (seq j (length b - j)).

(** What [iter_common_noncommon_sorted_arrays] yields from the positions
    [i], [j] on: the yields of the [while] loop, then those of the two
    [for] loops. *)
Definition noncommon_from (turns d : nat) (a b : SectorArray) (i j : nat)
  : list (option nat * option nat) :=
  let r := misc.iter_common_noncommon_loop turns d a b i j in
  fst r ++ noncommon_tails a b (fst (snd r)) (snd (snd r)).

(** The yields [ys] are the right ones for the rows of [a] from [i] on and
    the rows of [b] from [j] on: [(x, y)] for the equal rows, [(x, None)]
    for the rows of [a] that are no row of [b], [(None, y)] for the rows of
    [b] that are no row of [a], and never [(None, None)]. *)
Definition noncommon_yields (a b : SectorArray) (i j : nat)
           (ys : list (option nat * option nat)) : Prop :=
  (forall x y, In (Some x, Some y) ys
               <-> (i <= x < length a)%nat /\ (j <= y < length b)%nat
                   /\ nth x a [] = nth y b [])
  /\ (forall x, In (Some x, None) ys
                <-> (i <= x < length a)%nat
                    /\ forall y, (j <= y < length b)%nat -> nth x a [] <> nth y b [])
  /\ (forall y, In (None, Some y) ys
                <-> (j <= y < length b)%nat
                    /\ forall x, (i <= x < length a)%nat -> nth x a [] <> nth y b [])
  /\ ~ In (None, None) ys.

(** The strides of a C-style array of the shape [shape]: at each position
    the product of the entries of [shape] after it. *)
Fixpoint c_strides (shape : list Z) : list Z :=
  match shape with
  | [] => []
  | _ :: rest => np.prod rest :: c_strides rest
  end.

(** The strides of an F-style array of the shape [shape]: at each position
    the product of the entries of [shape] before it. *)
Definition f_strides (shape : list Z) : list Z :=
  map (fun k => np.prod (firstn k shape)) (seq 0 (length shape)).

(** One turn of the loops of [make_stride] when the stride fits
    [np.intp]. *)
Definition stride_turn (shape : list Z) (target : nat -> nat) (st : Z * list Z) (a : nat)
  : Z * list Z :=
  (fst st * nth a shape 0, np.set_nth (target a) (fst st * nth a shape 0) (snd st)).

(** The values that [stride] takes when it starts at [p] and is multiplied
    by the entries of [xs] in turn. *)
Fixpoint running_products (p : Z) (xs : list Z) : list Z :=
  match xs with
  | [] => []
  | x :: xs' => p * x :: running_products (p * x) xs'
  end.

(** The entries that the loop of [unstridify] finds for one index [x]. *)
Fixpoint digits (x : Z) (strides : list Z) : list Z :=
  match strides with
  | [] => []
  | s :: strides' => fst (misc.divmod x s) :: digits (snd (misc.divmod x s)) strides'
  end.

(** Row [a] is not after row [b] in the order of [np.lexsort(sectors.T)]. *)
Definition lexsort_le (a b : Sector) : Prop := np.lexsort_compare a b <> Gt.

(** The first position of [p] is before that of [q] and the second one is
    not after that of [q]. *)
Definition first_before (p q : nat * nat) : Prop :=
  (fst p < fst q)%nat /\ (snd p <= snd q)%nat.

(** The entries of [a] and [b] are sectors whose sums stay inside
    [np.int8]: [a_i + b_i + 2 <= 127], the largest sum the fusion rules
    form.  [np.int8] is the narrowest signed dtype, so that then no signed
    dtype wraps a sum of non-negative entries around. *)
Definition sums_fit_int8 (a b : Sector) : Prop :=
  Forall (fun p => fst p + snd p + 2 <= np.int_max 8) (combine a b).

(** The dimensions [a_i + 1] and [b_i + 1] and their product stay inside
    [np.int8]. *)
Definition dims_fit_int8 (a b : Sector) : Prop :=
  Forall (fun p => (fst p + 1) * (snd p + 1) <= np.int_max 8) (combine a b).

(** ** Facts on indexing *)

Lemma bind_ok {A B : Type} (r : result A) (k : A -> result B) (b : B) :
  bind r k = Ok b -> exists a, r = Ok a /\ k a = Ok b.
Proof.
  destruct r as [a|e]; simpl; intro H; [exists a; auto | discriminate].
Qed.

Lemma norm_index_range (n : nat) (i : Z) :
  0 <= i < Z.of_nat n -> np.norm_index n i = Ok (Z.to_nat i).
Proof.
  intros [H0 H1]. unfold np.norm_index.
  apply Z.leb_le in H0. apply Z.ltb_lt in H1. now rewrite H0, H1.
Qed.

Lemma norm_index_ok (n : nat) (i : Z) (k : nat) :
  np.norm_index n i = Ok k -> (k < n)%nat.
Proof.
  unfold np.norm_index.
  destruct ((0 <=? i) && (i <? Z.of_nat n)) eqn:E1.
  - apply andb_prop in E1 as [H0 H1]. apply Z.leb_le in H0. apply Z.ltb_lt in H1.
    intro H; injection H as <-. lia.
  - destruct ((- Z.of_nat n <=? i) && (i <? 0)) eqn:E2; [|discriminate].
    apply andb_prop in E2 as [H0 H1]. apply Z.leb_le in H0. apply Z.ltb_lt in H1.
    intro H; injection H as <-. lia.
Qed.

Lemma item_range {A : Type} (a : list A) (i : Z) (d : A) :
  0 <= i < Z.of_nat (length a) -> np.item a i = Ok (nth (Z.to_nat i) a d).
Proof.
  intro H. unfold np.item. rewrite norm_index_range by exact H. simpl.
  destruct (nth_error a (Z.to_nat i)) as [x|] eqn:E.
  - now rewrite (nth_error_nth _ _ d E).
  - apply nth_error_None in E. lia.
Qed.

Lemma item_of_nat {A : Type} (a : list A) (k : nat) (x : A) :
  nth_error a k = Some x -> np.item a (Z.of_nat k) = Ok x.
Proof.
  intro H. assert (Hk : (k < length a)%nat) by (apply nth_error_Some; congruence).
  unfold np.item. rewrite norm_index_range by lia. simpl.
  now rewrite Nat2Z.id, H.
Qed.

Lemma item_map {A B : Type} (f : A -> B) (a : list A) (i : Z) :
  np.item (map f a) i = (x <- np.item a i ;; Ok (f x)).
Proof.
  unfold np.item. rewrite length_map.
  destruct (np.norm_index (length a) i) as [k|e]; simpl; [|reflexivity].
  rewrite nth_error_map. now destruct (nth_error a k).
Qed.

Lemma take_map {A B : Type} (f : A -> B) (a : list A) (idx : list Z) :
  np.take (map f a) idx = (r <- np.take a idx ;; Ok (map f r)).
Proof.
  unfold np.take. induction idx as [|i idx IH]; simpl; [reflexivity|].
  rewrite item_map. destruct (np.item a i) as [x|e]; simpl; [|reflexivity].
  rewrite IH. now destruct (mapM (np.item a) idx).
Qed.

Lemma mapM_length {A B : Type} (f : A -> result B) (l : list A) (r : list B) :
  mapM f l = Ok r -> length r = length l.
Proof.
  revert r. induction l as [|x l IH]; simpl; intros r H.
  - now injection H as <-.
  - apply bind_ok in H as (y & _ & H). apply bind_ok in H as (ys & Hys & H).
    injection H as <-. simpl. now rewrite (IH _ Hys).
Qed.

Lemma take_length {A : Type} (a : list A) (idx : list Z) (r : list A) :
  np.take a idx = Ok r -> length r = length idx.
Proof. apply mapM_length. Qed.

Lemma take_range {A : Type} (a : list A) (idx : list Z) (d : A) :
  Forall (fun i => 0 <= i < Z.of_nat (length a)) idx ->
  np.take a idx = Ok (map (fun i => nth (Z.to_nat i) a d) idx).
Proof.
  unfold np.take. induction 1 as [|i idx Hi _ IH]; simpl; [reflexivity|].
  now rewrite (item_range a i d Hi), IH.
Qed.

Lemma take_arange {A : Type} (a : list A) :
  np.take a (np.arange (length a)) = Ok a.
Proof.
  unfold np.take, np.arange.
  assert (G : forall (pre l : list A),
             mapM (np.item (pre ++ l)) (map Z.of_nat (seq (length pre) (length l))) = Ok l).
  { intros pre l. revert pre. induction l as [|x l IH]; intro pre; simpl; [reflexivity|].
    rewrite (item_of_nat (pre ++ x :: l) (length pre) x).
    - simpl. specialize (IH (pre ++ [x])).
      rewrite <- app_assoc, length_app in IH. simpl in IH.
      rewrite Nat.add_1_r in IH. now rewrite IH.
    - rewrite nth_error_app2 by lia. now rewrite Nat.sub_diag. }
  exact (G [] a).
Qed.

(** ** Facts on the order of rows and on [np.lexsort] *)

Lemma lex_compare_refl (a : list Z) : np.lex_compare a a = Eq.
Proof. induction a as [|x a IH]; simpl; [reflexivity|]. now rewrite Z.compare_refl. Qed.

Lemma lex_compare_eq (a b : list Z) : np.lex_compare a b = Eq -> a = b.
Proof.
  revert b. induction a as [|x a IH]; intros [|y b]; simpl; try discriminate; [reflexivity|].
  destruct (x ?= y) eqn:E; try discriminate.
  apply Z.compare_eq in E. intro H. now rewrite E, (IH _ H).
Qed.

Lemma lex_compare_antisym (a b : list Z) :
  np.lex_compare b a = CompOpp (np.lex_compare a b).
Proof.
  revert b. induction a as [|x a IH]; intros [|y b]; simpl; try reflexivity.
  rewrite (Z.compare_antisym x y). destruct (x ?= y); simpl; auto.
Qed.

Lemma lex_compare_trans (a b c : list Z) :
  np.lex_compare a b = Lt -> np.lex_compare b c = Lt -> np.lex_compare a c = Lt.
Proof.
  revert b c. induction a as [|x a IH]; intros [|y b] [|z c]; simpl; try discriminate; auto.
  destruct (x ?= y) eqn:Exy; try discriminate.
  - apply Z.compare_eq in Exy. subst y.
    destruct (x ?= z) eqn:Exz; try discriminate; auto. apply IH.
  - intros _. destruct (y ?= z) eqn:Eyz; try discriminate.
    + apply Z.compare_eq in Eyz. subst z. now rewrite Exy.
    + intros _. rewrite Z.compare_lt_iff in *.
      assert (H : x < z) by lia. apply Z.compare_lt_iff in H. now rewrite H.
Qed.

Lemma lexsort_compare_eq (a b : list Z) : np.lexsort_compare a b = Eq -> a = b.
Proof.
  unfold np.lexsort_compare. intro H. apply lex_compare_eq in H.
  now rewrite <- (rev_involutive a), H, rev_involutive.
Qed.

Lemma lexsort_compare_refl (a : list Z) : np.lexsort_compare a a = Eq.
Proof. apply lex_compare_refl. Qed.

Lemma lexsort_lt_trans (a b c : list Z) : lexsort_lt a b -> lexsort_lt b c -> lexsort_lt a c.
Proof. apply lex_compare_trans. Qed.

Lemma lexsort_lt_irrefl (a : list Z) : ~ lexsort_lt a a.
Proof. unfold lexsort_lt. now rewrite lexsort_compare_refl. Qed.

Lemma key_le_total (p q : Sector * nat) : key_le p q \/ key_le q p.
Proof.
  unfold key_le, np.key_leb, np.lexsort_compare.
  rewrite (lex_compare_antisym (rev (fst p)) (rev (fst q))).
  destruct (np.lex_compare (rev (fst p)) (rev (fst q))); simpl; auto.
  destruct (Nat.leb_spec (snd p) (snd q)); [now left|right].
  apply Nat.leb_le. lia.
Qed.

Lemma key_le_trans (p q r : Sector * nat) : key_le p q -> key_le q r -> key_le p r.
Proof.
  unfold key_le, np.key_leb.
  destruct (np.lexsort_compare (fst p) (fst q)) eqn:Epq; try discriminate;
    destruct (np.lexsort_compare (fst q) (fst r)) eqn:Eqr; try discriminate; intros H1 H2.
  - apply lexsort_compare_eq in Epq, Eqr. rewrite Epq, Eqr, lexsort_compare_refl.
    apply Nat.leb_le in H1, H2. apply Nat.leb_le. lia.
  - apply lexsort_compare_eq in Epq. now rewrite Epq, Eqr.
  - apply lexsort_compare_eq in Eqr. now rewrite <- Eqr, Epq.
  - now rewrite (lexsort_lt_trans _ _ _ Epq Eqr).
Qed.

Lemma insert_perm (p : Sector * nat) (l : list (Sector * nat)) :
  Permutation (np.insert p l) (p :: l).
Proof.
  induction l as [|q l IH]; simpl; [reflexivity|].
  destruct (np.key_leb p q); [reflexivity|].
  rewrite IH. apply perm_swap.
Qed.

Lemma sort_keys_perm (l : list (Sector * nat)) : Permutation (np.sort_keys l) l.
Proof.
  induction l as [|p l IH]; simpl; [reflexivity|].
  rewrite insert_perm. now constructor.
Qed.

Lemma insert_sorted (p : Sector * nat) (l : list (Sector * nat)) :
  StronglySorted key_le l -> StronglySorted key_le (np.insert p l).
Proof.
  induction 1 as [|q l Hs IH Hq]; simpl.
  - constructor; constructor.
  - destruct (np.key_leb p q) eqn:E.
    + constructor; [now constructor|].
      constructor; [exact E|].
      eapply Forall_impl; [|exact Hq]. intros r Hr. now apply key_le_trans with q.
    + constructor; [exact IH|].
      apply (Permutation_Forall (Permutation_sym (insert_perm p l))).
      constructor; [|exact Hq].
      destruct (key_le_total p q) as [H|H]; [unfold key_le in H; congruence|exact H].
Qed.

Lemma sort_keys_sorted (l : list (Sector * nat)) : StronglySorted key_le (np.sort_keys l).
Proof.
  induction l as [|p l IH]; simpl; [constructor|]. now apply insert_sorted.
Qed.

Lemma enumerate_from (l : SectorArray) (k : nat) (r : Sector) (i : nat) :
  In (r, i) (combine l (seq k (length l))) ->
  (k <= i)%nat /\ nth_error l (i - k) = Some r.
Proof.
  revert k. induction l as [|x l IH]; simpl; intros k H; [contradiction|].
  destruct H as [H|H].
  - injection H as <- <-. now rewrite Nat.sub_diag.
  - apply IH in H as [Hk H]. split; [lia|].
    replace (i - k)%nat with (S (i - S k)) by lia. exact H.
Qed.

Lemma enumerate_nth (a : SectorArray) (p : Sector * nat) :
  In p (np.enumerate a) -> nth_error a (snd p) = Some (fst p).
Proof.
  destruct p as [r i]. intro H. apply enumerate_from in H as [_ H].
  now rewrite Nat.sub_0_r in H.
Qed.

Lemma enumerate_fst (a : SectorArray) : map fst (np.enumerate a) = a.
Proof.
  unfold np.enumerate. generalize 0%nat.
  induction a as [|x a IH]; intro k; simpl; [reflexivity|]. now rewrite IH.
Qed.

Lemma enumerate_snd (a : SectorArray) : map snd (np.enumerate a) = seq 0 (length a).
Proof.
  unfold np.enumerate. generalize 0%nat.
  induction a as [|x a IH]; intro k; simpl; [reflexivity|]. now rewrite IH.
Qed.

Lemma lexsort_T_length (a : SectorArray) : length (np.lexsort_T a) = length a.
Proof.
  unfold np.lexsort_T. rewrite length_map.
  rewrite (Permutation_length (sort_keys_perm _)).
  unfold np.enumerate. rewrite length_combine, length_seq. lia.
Qed.

Lemma lexsort_T_permutation (a : SectorArray) : is_permutation (np.lexsort_T a).
Proof.
  unfold is_permutation. rewrite lexsort_T_length.
  unfold np.lexsort_T, np.arange.
  rewrite <- (map_map snd Z.of_nat). apply Permutation_map.
  rewrite <- enumerate_snd. apply Permutation_map, sort_keys_perm.
Qed.

Lemma take_pairs (a : SectorArray) (ps : list (Sector * nat)) :
  Forall (fun p => nth_error a (snd p) = Some (fst p)) ps ->
  np.take a (map (fun p => Z.of_nat (snd p)) ps) = Ok (map fst ps).
Proof.
  unfold np.take. induction 1 as [|p ps Hp _ IH]; simpl; [reflexivity|].
  now rewrite (item_of_nat _ _ _ Hp), IH.
Qed.

Lemma take_lexsort_T (a : SectorArray) : np.take a (np.lexsort_T a) = Ok (sorted_rows a).
Proof.
  apply take_pairs. apply Forall_forall. intros p Hp.
  apply enumerate_nth. now apply (Permutation_in _ (sort_keys_perm _)).
Qed.

Lemma sorted_rows_perm (a : SectorArray) : Permutation (sorted_rows a) a.
Proof.
  unfold sorted_rows. rewrite <- (enumerate_fst a) at 2.
  apply Permutation_map, sort_keys_perm.
Qed.

Lemma sorted_distinct_rows (ps : list (Sector * nat)) :
  StronglySorted key_le ps -> NoDup (map fst ps) -> StronglySorted lexsort_lt (map fst ps).
Proof.
  induction 1 as [|p ps Hs IH Hp]; simpl; intro Hn; [constructor|].
  inversion Hn as [|? ? Hnotin Hn']; subst.
  constructor; [now apply IH|].
  apply Forall_forall. intros r Hr.
  apply in_map_iff in Hr as (q & <- & Hq).
  rewrite Forall_forall in Hp. specialize (Hp q Hq).
  unfold key_le, np.key_leb in Hp. unfold lexsort_lt.
  destruct (np.lexsort_compare (fst p) (fst q)) eqn:E; try discriminate; [|reflexivity].
  apply lexsort_compare_eq in E. exfalso. apply Hnotin. rewrite E. now apply in_map.
Qed.

Lemma sorted_rows_sorted (a : SectorArray) :
  NoDup a -> StronglySorted lexsort_lt (sorted_rows a).
Proof.
  intro Hn. apply sorted_distinct_rows; [apply sort_keys_sorted|].
  apply (Permutation_NoDup (Permutation_sym (sorted_rows_perm a))). exact Hn.
Qed.

(** ** Facts on permutations and on [inverse_permutation] *)

Lemma nth_map_in {A B : Type} (f : A -> B) (l : list A) (i : nat) (d : A) (d' : B) :
  (i < length l)%nat -> nth i (map f l) d' = f (nth i l d).
Proof.
  intro H. rewrite (nth_indep _ d' (f d)) by now rewrite length_map.
  apply map_nth.
Qed.

Lemma map_fst_combine {A B : Type} (l : list A) (l' : list B) :
  length l = length l' -> map fst (combine l l') = l.
Proof.
  revert l'. induction l as [|x l IH]; intros [|y l']; simpl; intro H;
    try discriminate; [reflexivity|].
  f_equal. apply IH. now injection H.
Qed.

Lemma map_snd_combine {A B : Type} (l : list A) (l' : list B) :
  length l = length l' -> map snd (combine l l') = l'.
Proof.
  revert l'. induction l as [|x l IH]; intros [|y l']; simpl; intro H;
    try discriminate; [reflexivity|].
  f_equal. apply IH. now injection H.
Qed.

Lemma arange_range (n : nat) : Forall (fun i => 0 <= i < Z.of_nat n) (np.arange n).
Proof.
  unfold np.arange. apply Forall_forall. intros i Hi.
  apply in_map_iff in Hi as (k & <- & Hk). apply in_seq in Hk. lia.
Qed.

Lemma arange_NoDup (n : nat) : NoDup (np.arange n).
Proof.
  unfold np.arange. apply Finite.Injective_map_NoDup; [|apply seq_NoDup].
  intros x y. apply Nat2Z.inj.
Qed.

Lemma arange_length (n : nat) : length (np.arange n) = n.
Proof. unfold np.arange. now rewrite length_map, length_seq. Qed.

Lemma arange_nth (n k : nat) : (k < n)%nat -> nth k (np.arange n) 0 = Z.of_nat k.
Proof.
  intro H. unfold np.arange.
  rewrite (nth_indep _ 0 (Z.of_nat 0)) by now rewrite length_map, length_seq.
  rewrite map_nth, seq_nth by exact H. reflexivity.
Qed.

Lemma is_permutation_range (p : list Z) :
  is_permutation p -> Forall (fun i => 0 <= i < Z.of_nat (length p)) p.
Proof.
  intro H. apply (Permutation_Forall (Permutation_sym H)), arange_range.
Qed.

Lemma is_permutation_NoDup (p : list Z) : is_permutation p -> NoDup p.
Proof.
  intro H. apply (Permutation_NoDup (Permutation_sym H)), arange_NoDup.
Qed.

Lemma is_permutation_of_covering (p : list Z) :
  (forall k, (k < length p)%nat -> In (Z.of_nat k) p) -> is_permutation p.
Proof.
  intro H. unfold is_permutation. apply Permutation_sym.
  apply NoDup_Permutation_bis.
  - apply arange_NoDup.
  - now rewrite arange_length.
  - intros i Hi. unfold np.arange in Hi.
    apply in_map_iff in Hi as (k & <- & Hk). apply in_seq in Hk. apply H. lia.
Qed.

Lemma is_permutationb_sound (p : list Z) : is_permutationb p = true -> is_permutation p.
Proof.
  unfold is_permutationb. rewrite forallb_forall. intro H.
  apply is_permutation_of_covering. intros k Hk.
  assert (Hin : In (Z.of_nat k) (np.arange (length p))).
  { unfold np.arange. apply in_map, in_seq. lia. }
  apply H in Hin. apply existsb_exists in Hin as (x & Hx & Ex).
  apply Z.eqb_eq in Ex. now subst x.
Qed.

Lemma set_nth_length {A : Type} (k : nat) (x : A) (l : list A) :
  length (np.set_nth k x l) = length l.
Proof.
  revert k. induction l as [|y l IH]; intros [|k]; simpl; auto.
Qed.

Lemma set_nth_same {A : Type} (k : nat) (x d : A) (l : list A) :
  (k < length l)%nat -> nth k (np.set_nth k x l) d = x.
Proof.
  revert k. induction l as [|y l IH]; intros [|k]; simpl; intro H; try lia; auto.
  apply IH. lia.
Qed.

Lemma set_nth_other {A : Type} (k i : nat) (x d : A) (l : list A) :
  i <> k -> nth i (np.set_nth k x l) d = nth i l d.
Proof.
  revert k i. induction l as [|y l IH]; intros [|k] [|i]; simpl; intro H;
    try reflexivity; try contradiction.
  apply IH. congruence.
Qed.

Lemma scatter_spec (ps : list (nat * Z)) (buf : list Z) :
  NoDup (map fst ps) ->
  Forall (fun q => (fst q < length buf)%nat) ps ->
  let r := fold_left (fun inv q => np.set_nth (fst q) (snd q) inv) ps buf in
  length r = length buf /\ (forall q, In q ps -> nth (fst q) r 0 = snd q).
Proof.
  revert buf. induction ps as [|q ps IH]; simpl; intros buf Hn Hr.
  - split; [reflexivity|contradiction].
  - inversion Hn as [|? ? Hq Hn']; subst. inversion Hr as [|? ? Hq1 Hr']; subst.
    assert (Hr2 : Forall (fun q0 => (fst q0 < length (np.set_nth (fst q) (snd q) buf))%nat) ps).
    { eapply Forall_impl; [|exact Hr']. intros a Ha. now rewrite set_nth_length. }
    destruct (IH _ Hn' Hr2) as [Hlen Hget]. split.
    + now rewrite Hlen, set_nth_length.
    + intros q' [<-|Hin]; [|now apply Hget].
      assert (G : forall (ps' : list (nat * Z)) (b : list Z),
                 ~ In (fst q) (map fst ps') ->
                 nth (fst q) (fold_left (fun inv q0 => np.set_nth (fst q0) (snd q0) inv) ps' b) 0
                 = nth (fst q) b 0).
      { induction ps' as [|a ps' IH']; simpl; intros b Hb; [reflexivity|].
        rewrite IH' by tauto. apply set_nth_other. intro E. apply Hb. left. now symmetry. }
      rewrite G by exact Hq. now apply set_nth_same.
Qed.

Lemma mapM_norm_index (n : nat) (p : list Z) :
  Forall (fun i => 0 <= i < Z.of_nat n) p ->
  mapM (np.norm_index n) p = Ok (map Z.to_nat p).
Proof.
  induction 1 as [|i p Hi _ IH]; simpl; [reflexivity|].
  now rewrite (norm_index_range n i Hi), IH.
Qed.

(** What [inverse_permutation] returns on a permutation, whatever the
    buffer held before. *)
Lemma inverse_permutation_into_spec (buf p : list Z) :
  is_permutation p -> length buf = length p ->
  exists ip, inverse_permutation_into buf p = Ok ip
             /\ length ip = length p
             /\ forall k, (k < length p)%nat -> nth (Z.to_nat (nth k p 0)) ip 0 = Z.of_nat k.
Proof.
  intros Hp Hb. unfold inverse_permutation_into.
  pose proof (is_permutation_range p Hp) as Hr.
  rewrite (mapM_norm_index _ _ Hr). simpl.
  set (ps := combine (map Z.to_nat p) (np.arange (length p))).
  assert (Hfst : map fst ps = map Z.to_nat p).
  { unfold ps. apply map_fst_combine. now rewrite length_map, arange_length. }
  assert (Hn : NoDup (map fst ps)).
  { rewrite Hfst. apply Finite.Injective_map_NoDup_in; [|now apply is_permutation_NoDup].
    intros x y Hx Hy E. rewrite Forall_forall in Hr.
    apply Hr in Hx, Hy. lia. }
  assert (Hlt : Forall (fun q => (fst q < length buf)%nat) ps).
  { apply Forall_forall. intros q Hq. apply (in_map fst) in Hq. rewrite Hfst in Hq.
    apply in_map_iff in Hq as (i & <- & Hi). rewrite Forall_forall in Hr.
    apply Hr in Hi. lia. }
  destruct (scatter_spec ps buf Hn Hlt) as [Hlen Hget].
  eexists. split; [reflexivity|]. split; [now rewrite Hlen|].
  intros k Hk.
  specialize (Hget (Z.to_nat (nth k p 0), Z.of_nat k)). simpl in Hget. apply Hget.
  unfold ps.
  assert (E : (Z.to_nat (nth k p 0), Z.of_nat k)
              = nth k (combine (map Z.to_nat p) (np.arange (length p))) (Z.to_nat 0, 0)).
  { rewrite combine_nth by now rewrite length_map, arange_length.
    now rewrite map_nth, arange_nth. }
  rewrite E. apply nth_In.
  rewrite length_combine, length_map, arange_length. lia.
Qed.

Lemma inverse_permutation_spec (p : list Z) :
  is_permutation p ->
  exists ip, inverse_permutation p = Ok ip
             /\ length ip = length p
             /\ forall k, (k < length p)%nat -> nth (Z.to_nat (nth k p 0)) ip 0 = Z.of_nat k.
Proof.
  intro Hp. apply inverse_permutation_into_spec; [exact Hp|apply repeat_length].
Qed.

(** The buffer of [np.empty_like] does not show in the inverse of a
    permutation. *)
Lemma inverse_permutation_buffer (buf p : list Z) :
  is_permutation p -> length buf = length p ->
  inverse_permutation_into buf p = inverse_permutation p.
Proof.
  intros Hp Hb.
  destruct (inverse_permutation_into_spec buf p Hp Hb) as (ip & E & Hl & Hk).
  destruct (inverse_permutation_spec p Hp) as (ip' & E' & Hl' & Hk').
  rewrite E, E'. f_equal.
  apply (nth_ext _ _ 0 0); [congruence|].
  intros i Hi. rewrite Hl in Hi.
  assert (Hin : In (Z.of_nat i) p).
  { apply (Permutation_in _ (Permutation_sym Hp)).
    unfold np.arange. apply in_map, in_seq. lia. }
  apply (In_nth _ _ 0) in Hin as (k & Hk1 & Hk2).
  rewrite <- (Nat2Z.id i), <- Hk2, Hk, Hk' by exact Hk1. reflexivity.
Qed.

(** The index [k] with [p[k] = i], for each row [i]. *)
Lemma inverse_permutation_entries (p ip : list Z) :
  is_permutation p -> inverse_permutation p = Ok ip ->
  length ip = length p
  /\ forall i, (i < length p)%nat ->
       0 <= nth i ip 0 < Z.of_nat (length p)
       /\ nth (Z.to_nat (nth i ip 0)) p 0 = Z.of_nat i.
Proof.
  intros Hp E.
  destruct (inverse_permutation_spec p Hp) as (ip' & E' & Hl & Hk).
  rewrite E in E'. injection E' as <-. split; [exact Hl|].
  intros i Hi.
  assert (Hin : In (Z.of_nat i) p).
  { apply (Permutation_in _ (Permutation_sym Hp)).
    unfold np.arange. apply in_map, in_seq. lia. }
  apply (In_nth _ _ 0) in Hin as (k & Hk1 & Hk2).
  specialize (Hk k Hk1). rewrite Hk2, Nat2Z.id in Hk.
  rewrite Hk, Nat2Z.id. split; [lia|exact Hk2].
Qed.

Lemma inverse_permutation_is_permutation (p ip : list Z) :
  is_permutation p -> inverse_permutation p = Ok ip -> is_permutation ip.
Proof.
  intros Hp E.
  destruct (inverse_permutation_spec p Hp) as (ip' & E' & Hl & Hk).
  rewrite E in E'. injection E' as <-.
  apply is_permutation_of_covering. intros k Hk1. rewrite Hl in Hk1.
  rewrite <- (Hk k Hk1). apply nth_In. rewrite Hl.
  pose proof (is_permutation_range p Hp) as Hr. rewrite Forall_forall in Hr.
  specialize (Hr (nth k p 0) (nth_In _ _ Hk1)). lia.
Qed.

(** [(l[p])[inverse_permutation(p)] == l]. *)
Lemma take_take_inverse {A : Type} (l l' : list A) (p ip : list Z) :
  is_permutation p -> inverse_permutation p = Ok ip -> length l = length p ->
  np.take l p = Ok l' -> np.take l' ip = Ok l.
Proof.
  intros Hp E Hl Ht.
  destruct (inverse_permutation_entries p ip Hp E) as [Hlen Hent].
  destruct l as [|d l0] eqn:El.
  { simpl in Hl. destruct p; [|discriminate]. destruct ip; [|discriminate].
    simpl in Ht. injection Ht as <-. reflexivity. }
  rewrite <- El in *. clear El l0.
  pose proof (is_permutation_range p Hp) as Hr. rewrite <- Hl in Hr.
  rewrite (take_range l p d Hr) in Ht. injection Ht as <-.
  assert (Hr' : Forall (fun i => 0 <= i < Z.of_nat (length (map (fun i => nth (Z.to_nat i) l d) p))) ip).
  { rewrite length_map. apply Forall_forall. intros j Hj.
    apply (In_nth _ _ 0) in Hj as (i & Hi & <-). apply Hent. lia. }
  rewrite (take_range _ ip d Hr'). f_equal.
  apply (nth_ext _ _ d d); [rewrite length_map; congruence|].
  intros i Hi. rewrite length_map, Hlen in Hi.
  destruct (Hent i Hi) as [Hb Hv].
  rewrite (nth_map_in _ ip i 0 d) by lia.
  rewrite (nth_map_in _ p _ 0 d) by lia.
  now rewrite Hv, Nat2Z.id.
Qed.

Lemma map_nth_arange {A : Type} (l : list A) (d : A) :
  map (fun i => nth (Z.to_nat i) l d) (np.arange (length l)) = l.
Proof.
  apply (nth_ext _ _ d d); [now rewrite length_map, arange_length|].
  intros i Hi. rewrite length_map, arange_length in Hi.
  rewrite (nth_map_in _ _ i 0 d) by now rewrite arange_length.
  now rewrite arange_nth, Nat2Z.id.
Qed.

Lemma take_permutation {A : Type} (l l' : list A) (p : list Z) :
  is_permutation p -> length l = length p -> np.take l p = Ok l' -> Permutation l' l.
Proof.
  intros Hp Hl Ht.
  destruct l as [|d l0] eqn:El.
  { simpl in Hl. destruct p; [|discriminate]. simpl in Ht. injection Ht as <-. reflexivity. }
  rewrite <- El in *. clear El l0.
  pose proof (is_permutation_range p Hp) as Hr. rewrite <- Hl in Hr.
  rewrite (take_range l p d Hr) in Ht. injection Ht as <-.
  rewrite (Permutation_map _ Hp). rewrite <- Hl.
  now rewrite map_nth_arange.
Qed.

Lemma take_ok_of_permutation {A : Type} (l : list A) (p : list Z) :
  is_permutation p -> length l = length p -> exists l', np.take l p = Ok l'.
Proof.
  intros Hp Hl. destruct l as [|d l0] eqn:El.
  { simpl in Hl. destruct p; [|discriminate]. now exists []. }
  rewrite <- El in *. eexists. apply (take_range l p d).
  rewrite Hl. now apply is_permutation_range.
Qed.

(** ** The missing method [batch_sector_dim] *)


Lemma calc_slices_of_groups (s : Symmetry) (a : SectorArray) (m : list Z) :
  _calc_slices (of_groups s) a m = Raise (AttributeError "batch_sector_dim").
Proof. reflexivity. Qed.

Lemma assert_length_refl (n : nat) : assert (n =? n)%nat = Ok tt.
Proof. now rewrite Nat.eqb_refl. Qed.

Lemma init_without_slices_not_ok (s : Symmetry) (sectors : SectorArray)
      (mults : option (list Z)) (is_real _is_dual : bool) (perm : option (list Z)) :
  is_ok (VectorSpace_init (of_groups s) sectors mults is_real _is_dual perm None) = false.
Proof.
  unfold VectorSpace_init.
  destruct (match mults with
            | Some m => _ <- assert (length m =? length sectors)%nat ;; Ok m
            | None => Ok (repeat 1 (length sectors))
            end) as [m|e]; simpl; [|reflexivity].
  destruct perm as [p|]; simpl.
  - destruct (assert (length p =? length sectors)%nat) as [u|e]; simpl; [|reflexivity].
    destruct (inverse_permutation p) as [ip|e]; simpl; [|reflexivity].
    destruct (np.take sectors ip) as [a|e]; simpl; [|reflexivity].
    destruct (np.take m ip) as [b|e]; simpl; reflexivity.
  - destruct (np.take sectors (np.lexsort_T sectors)) as [a|e]; simpl; [|reflexivity].
    destruct (np.take m (np.lexsort_T sectors)) as [b|e]; simpl; [|reflexivity].
    destruct (inverse_permutation (np.lexsort_T sectors)) as [ip|e]; simpl; reflexivity.
Qed.





(** ** SU(2) fusion *)

Lemma steps_of_two_In (lo hi c : Z) :
  lo <= hi -> Z.even (hi - lo) = true ->
  (In c (steps_of_two lo hi) <-> lo <= c <= hi /\ Z.even (c - lo) = true).
Proof.
  intros Hle Hev. unfold steps_of_two.
  apply Z.even_spec in Hev as [m Hm].
  assert (Hdiv : (hi - lo) / 2 = m) by (rewrite Hm, Z.mul_comm; apply Z.div_mul; lia).
  rewrite Hdiv. split.
  - intro H. apply in_map_iff in H as (k & <- & Hk). apply in_seq in Hk.
    split; [lia|]. replace (lo + 2 * Z.of_nat k - lo) with (2 * Z.of_nat k) by lia.
    now rewrite Z.even_mul.
  - intros [[H1 H2] H3]. apply Z.even_spec in H3 as [j Hj].
    apply in_map_iff. exists (Z.to_nat j). split; [lia|]. apply in_seq. lia.
Qed.

Lemma su2_arange (a b : Z) :
  0 <= a -> 0 <= b ->
  np.arange3 (Z.abs (a - b)) (a + b + 2) 2 = steps_of_two (Z.abs (a - b)) (a + b).
Proof.
  intros Ha Hb. unfold np.arange3, steps_of_two.
  assert (E : a + b - Z.abs (a - b) = 2 * Z.min a b) by lia.
  replace (a + b + 2 - Z.abs (a - b) + 2 - 1) with (1 + (Z.min a b + 1) * 2) by lia.
  rewrite E. rewrite Z.div_add by lia.
  rewrite (Z.mul_comm 2), Z.div_mul by lia.
  replace (1 / 2) with 0 by reflexivity.
  replace (Z.to_nat (0 + (Z.min a b + 1))) with (S (Z.to_nat (Z.min a b))) by lia.
  reflexivity.
Qed.

Lemma pow2_pos_exponent (n : Z) : 0 < 2 ^ n -> 0 <= n.
Proof.
  intro H. destruct (Z.neg_nonneg_cases n) as [Hn|Hn]; [|exact Hn].
  rewrite Z.pow_neg_r in H by exact Hn. lia.
Qed.

(** Inside the range of the dtype nothing wraps. *)
Lemma wrap_in_range (bits x : Z) :
  - 2 ^ (bits - 1) <= x <= np.int_max bits -> 0 < 2 ^ (bits - 1) -> np.wrap bits x = x.
Proof.
  unfold np.int_max, np.wrap. intros Hx Hp.
  pose proof (pow2_pos_exponent _ Hp) as Hn.
  replace bits with (Z.succ (bits - 1)) at 2 by lia.
  rewrite Z.pow_succ_r by exact Hn.
  rewrite Z.mod_small by lia. lia.
Qed.

(** Where [a + b + 2] fits the dtype, the fusion of SU(2) sectors does not
    wrap around. *)
Lemma SU2Symmetry_fusion_outcomes_in_range (bits a b : Z) :
  0 <= a -> 0 <= b -> a + b + 2 <= np.int_max bits ->
  SU2Symmetry_fusion_outcomes bits [a] [b]
  = Ok (map (fun c => [c]) (steps_of_two (Z.abs (a - b)) (a + b))).
Proof.
  intros Ha Hb Hmax. unfold SU2Symmetry_fusion_outcomes.
  assert (Hp : 0 < 2 ^ (bits - 1)) by (unfold np.int_max in Hmax; lia).
  rewrite (wrap_in_range bits (a - b)) by (unfold np.int_max in *; lia).
  rewrite (wrap_in_range bits (Z.abs (a - b))) by (unfold np.int_max in *; lia).
  rewrite (wrap_in_range bits (a + b)) by (unfold np.int_max in *; lia).
  rewrite (wrap_in_range bits (a + b + 2)) by (unfold np.int_max in *; lia).
  cbv zeta. now rewrite su2_arange.
Qed.

Lemma int_max_mono (bits : Z) : 8 <= bits -> np.int_max 8 <= np.int_max bits.
Proof.
  intro H. unfold np.int_max.
  assert (H' : 2 ^ (8 - 1) <= 2 ^ (bits - 1)) by (apply Z.pow_le_mono_r; lia).
  lia.
Qed.

(** The fusion of SU(2) sectors on the integers is the fusion in every
    signed dtype of at least eight bits, where the sums fit [np.int8]. *)
Lemma SU2Symmetry_fusion_outcomes_int8 (bits : Z) (name : option string) (x y : Z) :
  8 <= bits ->
  is_valid_sector (Factor (SU2Symmetry name)) [x] = true ->
  is_valid_sector (Factor (SU2Symmetry name)) [y] = true ->
  sums_fit_int8 [x] [y] ->
  SU2Symmetry_fusion_outcomes bits [x] [y] = fusion_outcomes (Factor (SU2Symmetry name)) [x] [y].
Proof.
  intros Hbits Hx Hy Hs. simpl in Hx, Hy. apply Z.leb_le in Hx, Hy.
  inversion Hs as [|? ? H _]; subst. cbn [fst snd] in H.
  pose proof (int_max_mono bits Hbits).
  rewrite SU2Symmetry_fusion_outcomes_in_range by lia.
  simpl. now rewrite su2_arange.
Qed.

(** C9, as the code has it: for valid SU(2) sectors [a] and [b] held in a
    signed integer dtype whose largest value is at least [a + b + 2], the
    fusion outcomes are the sectors [|a-b|], [|a-b|+2], ..., [a+b], in steps
    of two, both ends included, each once, and nothing wraps around, so that
    they are the outcomes computed on the integers; fusing [2] with [2]
    gives [0], [2], [4] in every such dtype, [np.int8] included. *)
Theorem C9_su2_fusion_outcomes :
  (forall (bits : Z) (name : option string) (a b : Z),
      is_valid_sector (Factor (SU2Symmetry name)) [a] = true ->
      is_valid_sector (Factor (SU2Symmetry name)) [b] = true ->
      a + b + 2 <= np.int_max bits ->
      SU2Symmetry_fusion_outcomes bits [a] [b]
      = Ok (map (fun c => [c]) (steps_of_two (Z.abs (a - b)) (a + b)))
      /\ fusion_outcomes (Factor (SU2Symmetry name)) [a] [b]
         = SU2Symmetry_fusion_outcomes bits [a] [b]
      /\ (forall c, In c (steps_of_two (Z.abs (a - b)) (a + b))
                    <-> Z.abs (a - b) <= c <= a + b /\ Z.even (c - Z.abs (a - b)) = true)
      /\ NoDup (steps_of_two (Z.abs (a - b)) (a + b)))
  /\ (forall bits, 8 <= bits -> SU2Symmetry_fusion_outcomes bits [2] [2] = Ok [[0]; [2]; [4]]).
Proof.
  pose proof SU2Symmetry_fusion_outcomes_in_range as G.
  split.
  - intros bits name a b Ha Hb Hmax. simpl in Ha, Hb.
    apply Z.leb_le in Ha, Hb. split; [|split; [|split]].
    + now apply G.
    + rewrite (G bits a b Ha Hb Hmax). simpl. now rewrite su2_arange.
    + intro c. apply steps_of_two_In; [lia|].
      replace (a + b - Z.abs (a - b)) with (2 * Z.min a b) by lia.
      now rewrite Z.even_mul.
    + unfold steps_of_two. apply Finite.Injective_map_NoDup; [|apply seq_NoDup].
      intros x y. lia.
  - intros bits Hbits. rewrite (G bits 2 2); [reflexivity|lia|lia|].
    pose proof (int_max_mono bits Hbits) as H.
    change (np.int_max 8) with 127 in H. lia.
Qed.

Lemma C9_witness :
  is_valid_sector (Factor (SU2Symmetry None)) [3] = true
  /\ is_valid_sector (Factor (SU2Symmetry None)) [1] = true
  /\ 3 + 1 + 2 <= np.int_max 8
  /\ SU2Symmetry_fusion_outcomes 8 [3] [1] = Ok [[2]; [4]]
  /\ SU2Symmetry_fusion_outcomes 8 [3] [1]
     = Ok (map (fun c => [c]) (steps_of_two (Z.abs (3 - 1)) (3 + 1))).
Proof.
  split; [reflexivity|]. split; [reflexivity|].
  assert (H : 3 + 1 + 2 <= np.int_max 8) by (vm_compute; discriminate).
  split; [exact H|]. split; [reflexivity|].
  exact (proj1 (proj1 C9_su2_fusion_outcomes 8 None 3 1 eq_refl eq_refl H)).
Defined.

(** C9, as the specification states it, fails where the arithmetic of the
    dtype wraps around: for the valid sectors [100], [100] of [np.int8], the
    dtype of the trivial sectors of [groups.py], the stop [a + b + 2] is
    [-54], [np.arange(0, -54, 2)] is empty and the fusion has no outcome,
    where the claim lists [0], [2], ..., [200]. *)
Lemma C9_counterexample :
  is_valid_sector su2_symmetry [100] = true
  /\ np.wrap 8 (np.wrap 8 (100 + 100) + 2) = -54
  /\ SU2Symmetry_fusion_outcomes 8 [100] [100] = Ok []
  /\ In 0 (steps_of_two (Z.abs (100 - 100)) (100 + 100))
  /\ SU2Symmetry_fusion_outcomes 8 [100] [100]
     <> Ok (map (fun c => [c]) (steps_of_two (Z.abs (100 - 100)) (100 + 100))).
Proof.
  split; [reflexivity|]. split; [reflexivity|]. split; [reflexivity|].
  split; [now left|]. discriminate.
Qed.

(** ** The instance check of the factor classes *)

Lemma instancecheck_factor (cls : Class) (f : FactorSymmetry) :
  instancecheck cls (Factor f) = type_instancecheck cls (factor_class f).
Proof.
  unfold instancecheck.
  assert (E : type_instancecheck C_ProductSymmetry (class_of (Factor f)) = false)
    by (destruct f; reflexivity).
  rewrite E. now rewrite andb_false_r.
Qed.

Lemma forallb_map_factor (g : Symmetry -> bool) (fs : list FactorSymmetry) :
  forallb g (map Factor fs) = forallb (fun f => g (Factor f)) fs.
Proof. induction fs as [|f fs IH]; simpl; [reflexivity|]. now rewrite IH. Qed.

Lemma forallb_pointwise {A : Type} (g h : A -> bool) (l : list A) :
  (forall x, g x = h x) -> forallb g l = forallb h l.
Proof. intro E. induction l as [|x l IH]; simpl; [reflexivity|]. now rewrite E, IH. Qed.

Lemma ProductSymmetry_init_ok (factors : list Symmetry) (p : Symmetry) :
  ProductSymmetry_init factors = Ok p ->
  exists fs, factors = map Factor fs /\ p = ProductSymmetry fs /\ fs <> [].
Proof.
  unfold ProductSymmetry_init. intro H.
  apply bind_ok in H as (fs & Hfs & H). exists fs.
  assert (G : factors = map Factor fs).
  { clear H. revert fs Hfs. induction factors as [|s l IH]; simpl; intros fs Hfs.
    - now injection Hfs as <-.
    - destruct s as [f|]; simpl in Hfs; [|discriminate].
      apply bind_ok in Hfs as (ys & Hys & Hfs). injection Hfs as <-.
      simpl. now rewrite (IH _ Hys). }
  destruct fs; [discriminate|]. injection H as <-. repeat split; auto. discriminate.
Qed.

Lemma instancecheck_AbelianGroup_factor (f : FactorSymmetry) :
  instancecheck C_AbelianGroup (Factor f) = derives_from_AbelianGroup f.
Proof. destruct f; reflexivity. Qed.

Lemma instancecheck_Group_factor (f : FactorSymmetry) :
  instancecheck C_Group (Factor f) = derives_from_Group f.
Proof. destruct f; reflexivity. Qed.

Lemma forallb_Forall_map_factor (g : Symmetry -> bool) (fs : list FactorSymmetry) :
  forallb (fun f => g (Factor f)) fs = true
  <-> Forall (fun q => g q = true) (map Factor fs).
Proof.
  rewrite forallb_forall, Forall_forall. split.
  - intros H q Hq. apply in_map_iff in Hq as (f & <- & Hf). now apply H.
  - intros H f Hf. apply H. now apply in_map.
Qed.

(** C10: [isinstance(p, AbelianGroup)] for a [ProductSymmetry] [p] is true
    exactly when every factor is an instance of [AbelianGroup], that is when
    every factor is a [NoSymmetry], a [U1Symmetry] or a [ZNSymmetry]; and
    [isinstance(p, Group)] is true exactly when every factor is an instance
    of [Group], that is when no factor is a [FermionParity]; although
    [ProductSymmetry] is a subclass of neither. *)
Theorem C10_product_instancecheck (factors : list Symmetry) (p : Symmetry) :
  ProductSymmetry_init factors = Ok p ->
  (instancecheck C_AbelianGroup p = true
   <-> Forall (fun q => instancecheck C_AbelianGroup q = true) factors)
  /\ (instancecheck C_Group p = true
      <-> Forall (fun q => instancecheck C_Group q = true) factors)
  /\ (exists fs, factors = map Factor fs /\ p = ProductSymmetry fs
                 /\ instancecheck C_AbelianGroup p = forallb derives_from_AbelianGroup fs
                 /\ instancecheck C_Group p = forallb derives_from_Group fs)
  /\ (forall f, instancecheck C_AbelianGroup (Factor f) = derives_from_AbelianGroup f)
  /\ (forall f, instancecheck C_Group (Factor f) = derives_from_Group f)
  /\ type_instancecheck C_AbelianGroup (class_of p) = false
  /\ type_instancecheck C_Group (class_of p) = false.
Proof.
  intro H. apply ProductSymmetry_init_ok in H as (fs & -> & -> & _).
  assert (EA : instancecheck C_AbelianGroup (ProductSymmetry fs)
               = forallb (fun f => instancecheck C_AbelianGroup (Factor f)) fs).
  { unfold instancecheck at 1. simpl. apply forallb_pointwise.
    intro f. now rewrite instancecheck_factor. }
  assert (EG : instancecheck C_Group (ProductSymmetry fs)
               = forallb (fun f => instancecheck C_Group (Factor f)) fs).
  { unfold instancecheck at 1. simpl. apply forallb_pointwise.
    intro f. now rewrite instancecheck_factor. }
  split; [|split; [|split; [|split; [|split; [|split]]]]].
  - rewrite EA. apply forallb_Forall_map_factor.
  - rewrite EG. apply forallb_Forall_map_factor.
  - exists fs. split; [reflexivity|]. split; [reflexivity|]. split.
    + rewrite EA. apply forallb_pointwise, instancecheck_AbelianGroup_factor.
    + rewrite EG. apply forallb_pointwise, instancecheck_Group_factor.
  - apply instancecheck_AbelianGroup_factor.
  - apply instancecheck_Group_factor.
  - reflexivity.
  - reflexivity.
Qed.

Lemma C10_witness :
  ProductSymmetry_init [u1_symmetry; z3_symmetry]
  = Ok (ProductSymmetry [U1Symmetry None; ZNSymmetry 3 None])
  /\ instancecheck C_AbelianGroup (ProductSymmetry [U1Symmetry None; ZNSymmetry 3 None]) = true
  /\ instancecheck C_AbelianGroup (ProductSymmetry [U1Symmetry None; SU2Symmetry None]) = false
  /\ instancecheck C_Group (ProductSymmetry [U1Symmetry None; SU2Symmetry None]) = true
  /\ instancecheck C_Group (ProductSymmetry [U1Symmetry None; FermionParity]) = false
  /\ (instancecheck C_AbelianGroup (ProductSymmetry [U1Symmetry None; ZNSymmetry 3 None]) = true
      <-> Forall (fun q => instancecheck C_AbelianGroup q = true) [u1_symmetry; z3_symmetry]).
Proof.
  split; [reflexivity|]. split; [reflexivity|]. split; [reflexivity|].
  split; [reflexivity|]. split; [reflexivity|].
  exact (proj1 (C10_product_instancecheck [u1_symmetry; z3_symmetry] _ eq_refl)).
Defined.

(** ** Slices *)

Lemma sum_perm (l l' : list Z) : Permutation l l' -> np.sum l = np.sum l'.
Proof.
  unfold np.sum. induction 1; simpl; lia.
Qed.

Lemma cumsum_from_length (acc : Z) (l : list Z) : length (np.cumsum_from acc l) = length l.
Proof. revert acc. induction l as [|x l IH]; intro acc; simpl; auto. Qed.

Lemma cumsum_from_last (acc : Z) (l : list Z) :
  l <> [] -> last (np.cumsum_from acc l) 0 = acc + np.sum l.
Proof.
  revert acc. induction l as [|x l IH]; intros acc H; [contradiction|].
  destruct l as [|y l].
  - simpl. lia.
  - transitivity (last (np.cumsum_from (acc + x) (y :: l)) 0); [reflexivity|].
    rewrite IH by discriminate.
    change (np.sum (x :: y :: l)) with (x + np.sum (y :: l)). lia.
Qed.

Lemma removelast_length {A : Type} (l : list A) : length (removelast l) = (length l - 1)%nat.
Proof.
  rewrite removelast_firstn_len, length_firstn. lia.
Qed.

Lemma nth_firstn_lt {A : Type} (l : list A) (i k : nat) (d : A) :
  (i < k)%nat -> nth i (firstn k l) d = nth i l d.
Proof.
  revert i k. induction l as [|x l IH]; intros i k H.
  - now rewrite firstn_nil.
  - destruct k as [|k]; [lia|]. destruct i as [|i]; [reflexivity|].
    simpl. apply IH. lia.
Qed.

Lemma nth_removelast {A : Type} (l : list A) (i : nat) (d : A) :
  (S i < length l)%nat -> nth i (removelast l) d = nth i l d.
Proof.
  intro H. rewrite removelast_firstn_len. apply nth_firstn_lt. lia.
Qed.

Lemma last_nth {A : Type} (l : list A) (d : A) : last l d = nth (length l - 1) l d.
Proof.
  induction l as [|x l IH]; [reflexivity|].
  destruct l as [|y l]; [reflexivity|].
  transitivity (last (y :: l) d); [reflexivity|]. rewrite IH.
  simpl. now rewrite Nat.sub_0_r.
Qed.

Lemma contiguous_of_ends (ends : list Z) :
  slices_contiguous (combine (0 :: removelast ends) ends) (last ends 0).
Proof.
  intros Hne. destruct ends as [|e ends]; [now contradiction Hne|].
  set (l := e :: ends) in *.
  assert (Hl : (0 < length l)%nat) by (unfold l; cbn [length]; lia).
  assert (Hlen : length (0 :: removelast l) = length l).
  { cbn [length]. rewrite removelast_length. lia. }
  split; [reflexivity|]. split.
  - intros i Hi. rewrite length_combine, Hlen, Nat.min_id in Hi.
    rewrite !combine_nth by exact Hlen. cbn [fst snd].
    change (nth (S i) (0 :: removelast l) 0) with (nth i (removelast l) 0).
    now rewrite nth_removelast.
  - rewrite !last_nth. rewrite length_combine, Hlen, Nat.min_id.
    now rewrite combine_nth by exact Hlen.
Qed.

Lemma mul_length (a b : list Z) : length a = length b -> length (np.mul a b) = length a.
Proof. intro H. unfold np.mul. rewrite length_map, length_combine. lia. Qed.

Lemma cumsum_sizes_length (g : Sector -> Z) (a : SectorArray) (m : list Z) :
  length m = length a -> length (np.cumsum (np.mul m (map g a))) = length a.
Proof.
  intro H. unfold np.cumsum. rewrite cumsum_from_length, mul_length; [exact H|].
  now rewrite length_map.
Qed.

Lemma dense_slices_eq (g : Sector -> Z) (a : SectorArray) (m : list Z) :
  length m = length a ->
  dense_slices g a m
  = combine (firstn (length a) (0 :: removelast (np.cumsum (np.mul m (map g a)))))
            (np.cumsum (np.mul m (map g a))).
Proof. reflexivity. Qed.

Lemma dense_slices_length (g : Sector -> Z) (a : SectorArray) (m : list Z) :
  length m = length a -> length (dense_slices g a m) = length a.
Proof.
  intro H. rewrite dense_slices_eq by exact H.
  rewrite length_combine, length_firstn. cbn [length].
  rewrite removelast_length, cumsum_sizes_length by exact H. lia.
Qed.

Lemma dense_slices_contiguous (g : Sector -> Z) (a : SectorArray) (m : list Z) :
  length m = length a ->
  slices_contiguous (dense_slices g a m) (np.sum (np.mul m (map g a))).
Proof.
  intro H. rewrite dense_slices_eq by exact H.
  pose proof (cumsum_sizes_length g a m H) as Hc.
  set (sizes := np.mul m (map g a)) in *.
  destruct a as [|x a].
  { intro Hne. now contradiction Hne. }
  assert (Hne : sizes <> []).
  { intro E. rewrite E in Hc. discriminate. }
  rewrite firstn_all2.
  - unfold np.cumsum. rewrite <- (Z.add_0_l (np.sum sizes)), <- cumsum_from_last by exact Hne.
    apply contiguous_of_ends.
  - cbn [length]. rewrite removelast_length, Hc. cbn [length]. lia.
Qed.

Lemma calc_slices_spec (o : SymmetryObj) (g : Sector -> Z) (a : SectorArray) (m : list Z) :
  sym_batch_sector_dim o = Some g -> length m = length a ->
  _calc_slices o a m = Ok (dense_slices g a m).
Proof.
  intros Hg Hl. unfold _calc_slices, batch_sector_dim. rewrite Hg. cbn [bind].
  unfold broadcast_mul. rewrite length_map, Hl, Nat.eqb_refl. cbn [bind].
  unfold broadcast_to.
  rewrite removelast_length, cumsum_sizes_length by exact Hl.
  rewrite !Nat.eqb_refl. cbn [bind]. reflexivity.
Qed.

Lemma nth_error_combine {A B : Type} (a : list A) (b : list B) (k : nat) (x : A) (y : B) :
  nth_error a k = Some x -> nth_error b k = Some y -> nth_error (combine a b) k = Some (x, y).
Proof.
  revert b k. induction a as [|x' a IH]; intros [|y' b] [|k]; simpl; try discriminate.
  - now intros [= ->] [= ->].
  - apply IH.
Qed.

Lemma item_ok {A : Type} (a : list A) (i : Z) (x : A) :
  np.item a i = Ok x ->
  exists k, np.norm_index (length a) i = Ok k /\ nth_error a k = Some x.
Proof.
  unfold np.item. intro H. apply bind_ok in H as (k & Hk & H). exists k. split; [exact Hk|].
  destruct (nth_error a k); [now injection H as <-|discriminate].
Qed.

Lemma take_combine {A B : Type} (a a' : list A) (b b' : list B) (idx : list Z) :
  length a = length b -> np.take a idx = Ok a' -> np.take b idx = Ok b' ->
  np.take (combine a b) idx = Ok (combine a' b').
Proof.
  intro Hl. unfold np.take. revert a' b'.
  induction idx as [|i idx IH]; simpl; intros a' b' Ha Hb.
  - injection Ha as <-. injection Hb as <-. reflexivity.
  - apply bind_ok in Ha as (x & Hx & Ha). apply bind_ok in Ha as (xs & Hxs & Ha).
    apply bind_ok in Hb as (y & Hy & Hb). apply bind_ok in Hb as (ys & Hys & Hb).
    injection Ha as <-. injection Hb as <-.
    rewrite (IH _ _ Hxs Hys).
    apply item_ok in Hx as (k & Hk & Hx). apply item_ok in Hy as (k' & Hk' & Hy).
    rewrite <- Hl, Hk in Hk'. injection Hk' as <-.
    unfold np.item. rewrite length_combine, <- Hl, Nat.min_id, Hk. simpl.
    now rewrite (nth_error_combine _ _ _ _ _ Hx Hy).
Qed.

Lemma mul_as_map (g : Sector -> Z) (a : SectorArray) (m : list Z) :
  np.mul (map g a) m = map (fun p => g (fst p) * snd p) (combine a m).
Proof.
  unfold np.mul. revert m. induction a as [|x a IH]; intros [|y m]; simpl; auto.
  now rewrite IH.
Qed.

Lemma mul_comm (a b : list Z) : np.mul a b = np.mul b a.
Proof.
  unfold np.mul. revert b. induction a as [|x a IH]; intros [|y b]; simpl; auto.
  now rewrite IH, Z.mul_comm.
Qed.

(** The sizes of the sectors add up to the same total in any order of the
    rows. *)
Lemma total_size_permuted (g : Sector -> Z) (a a' : SectorArray) (m m' : list Z) (p : list Z) :
  is_permutation p -> length a = length p -> length m = length p ->
  np.take a p = Ok a' -> np.take m p = Ok m' ->
  np.sum (np.mul (map g a') m') = np.sum (np.mul (map g a) m).
Proof.
  intros Hp Ha Hm Hta Htm.
  rewrite !mul_as_map. apply sum_perm, Permutation_map.
  apply (take_permutation _ _ p Hp).
  - rewrite length_combine. lia.
  - apply take_combine; auto. congruence.
Qed.

Lemma init_multiplicities_ok (sectors : SectorArray) (mults : option (list Z)) (m : list Z) :
  match mults with
  | Some m0 => _ <- assert (length m0 =? length sectors)%nat ;; Ok m0
  | None => Ok (repeat 1 (length sectors))
  end = Ok m ->
  length m = length sectors.
Proof.
  destruct mults as [m0|]; intro H.
  - unfold assert in H. destruct (length m0 =? length sectors)%nat eqn:E; [|discriminate].
    injection H as <-. now apply Nat.eqb_eq.
  - injection H as <-. apply repeat_length.
Qed.

Lemma assert_eqb_ok (a b : nat) (u : unit) : assert (a =? b)%nat = Ok u -> a = b.
Proof.
  unfold assert. destruct (a =? b)%nat eqn:E; [|discriminate]. intros _. now apply Nat.eqb_eq.
Qed.

Lemma dim_spec (o : SymmetryObj) (g : Sector -> Z) (r d : bool) (a : SectorArray)
      (m p ip : list Z) (ss : list (Z * Z)) :
  sym_batch_sector_dim o = Some g ->
  length m = length a ->
  dim {| symmetry := o; is_real := r; is_dual := d; _non_dual_sorted_sectors := a;
         _sorted_multiplicities := m; _sector_perm := p; _inverse_sector_perm := ip;
         _sorted_slices := ss |}
  = Ok (np.sum (np.mul (map g a) m)).
Proof.
  intros Hg Hl. unfold dim, batch_sector_dim. cbn [symmetry _non_dual_sorted_sectors
    _sorted_multiplicities]. rewrite Hg. cbn [bind].
  unfold broadcast_mul. now rewrite length_map, Hl, Nat.eqb_refl.
Qed.

(** C2, as the code has it: when the constructor computes the slices
    itself (no [_sorted_slices]; the symmetry object must have
    [batch_sector_dim]), the public [slices], in the order of the [sectors]
    argument, are contiguous: the first start is 0, each stop is the next
    start, the last stop is [dim]; [_sorted_slices] is this table taken at
    [_sector_perm]. *)
Theorem C2_public_slices_contiguous
        (o : SymmetryObj) (g : Sector -> Z) (sectors : SectorArray)
        (mults : option (list Z)) (is_real _is_dual : bool) (perm : option (list Z))
        (v : VectorSpace) :
  sym_batch_sector_dim o = Some g ->
  match perm with Some p => is_permutationb p = true | None => True end ->
  VectorSpace_init o sectors mults is_real _is_dual perm None = Ok v ->
  exists sl d,
    slices v = Ok sl /\ dim v = Ok d /\ slices_contiguous sl d
    /\ np.take sl (_sector_perm v) = Ok (_sorted_slices v).
Proof.
  intros Hg Hperm H. unfold VectorSpace_init in H.
  apply bind_ok in H as (m & Hm & H). apply init_multiplicities_ok in Hm.
  destruct perm as [p|].
  - apply is_permutationb_sound in Hperm.
    apply bind_ok in H as ([[p' ss] sm] & H1 & H).
    apply bind_ok in H1 as (u & Hu & H1). apply assert_eqb_ok in Hu.
    injection H1 as <- <- <-.
    apply bind_ok in H as (ip & Hip & H).
    apply bind_ok in H as (ss & Hss & H). injection H as <-.
    apply bind_ok in Hss as (dense & Hdense & Hss).
    apply bind_ok in Hdense as (a' & Ha' & Hdense).
    apply bind_ok in Hdense as (m' & Hm' & Hdense).
    pose proof (inverse_permutation_is_permutation p ip Hperm Hip) as Hperm'.
    destruct (inverse_permutation_entries p ip Hperm Hip) as [Hlip _].
    pose proof (take_length _ _ _ Ha') as La. pose proof (take_length _ _ _ Hm') as Lm.
    rewrite (calc_slices_spec o g a' m' Hg) in Hdense by lia.
    injection Hdense as <-.
    exists (dense_slices g a' m'), (np.sum (np.mul (map g sectors) m)).
    split; [|split; [|split]].
    + unfold slices. cbn [_sorted_slices _inverse_sector_perm].
      apply (take_take_inverse _ _ p ip Hperm Hip); [|exact Hss].
      rewrite dense_slices_length; lia.
    + apply dim_spec; [exact Hg|exact Hm].
    + assert (E : np.sum (np.mul (map g a') m') = np.sum (np.mul (map g sectors) m)).
      { apply (total_size_permuted g sectors a' m m' ip Hperm'); try assumption; lia. }
      rewrite <- E, mul_comm. apply dense_slices_contiguous. lia.
    + exact Hss.
  - clear Hperm. rewrite take_lexsort_T in H. cbn [bind] in H.
    apply bind_ok in H as ([[p' ss] sm] & H1 & H).
    apply bind_ok in H1 as (m' & Hm' & H1). injection H1 as <- <- <-.
    apply bind_ok in H as (ip & Hip & H).
    apply bind_ok in H as (ss & Hss & H). injection H as <-.
    apply bind_ok in Hss as (dense & Hdense & Hss).
    rewrite (calc_slices_spec o g sectors m Hg Hm) in Hdense. injection Hdense as <-.
    pose proof (lexsort_T_permutation sectors) as Hperm.
    pose proof (lexsort_T_length sectors) as Hlp.
    pose proof (take_length _ _ _ Hm') as Lm.
    exists (dense_slices g sectors m), (np.sum (np.mul (map g (sorted_rows sectors)) m')).
    split; [|split; [|split]].
    + unfold slices. cbn [_sorted_slices _inverse_sector_perm].
      apply (take_take_inverse _ _ _ ip Hperm Hip); [|exact Hss].
      rewrite dense_slices_length; lia.
    + apply dim_spec; [exact Hg|].
      unfold sorted_rows. rewrite length_map, (Permutation_length (sort_keys_perm _)).
      unfold np.enumerate. rewrite length_combine, length_seq. lia.
    + rewrite (total_size_permuted g sectors (sorted_rows sectors) m m' _ Hperm);
        [| lia | lia | apply take_lexsort_T | exact Hm'].
      rewrite mul_comm. now apply dense_slices_contiguous.
    + exact Hss.
Qed.

Lemma C2_witness :
  exists v,
    VectorSpace_init (with_abelian_attributes u1_symmetry) [[1]; [0]; [-2]] (Some [2; 3; 4])
                     false false None None = Ok v
    /\ exists sl d,
         slices v = Ok sl /\ dim v = Ok d /\ slices_contiguous sl d
         /\ np.take sl (_sector_perm v) = Ok (_sorted_slices v).
Proof.
  eexists. split; [reflexivity|].
  exact (C2_public_slices_contiguous (with_abelian_attributes u1_symmetry) (fun _ => 1)
           [[1]; [0]; [-2]] (Some [2; 3; 4]) false false None _ eq_refl I eq_refl).
Defined.

(** C2, as the specification states it, fails: the slices in canonical
    order are the contiguous table permuted by [_sector_perm].  A space of
    U(1) sectors [1], [0] with multiplicities 2, 3, built with the
    [_sorted_slices] that belong to it, has the public slices
    [(0,2), (2,5)] and the sorted slices [(2,5), (0,2)], which start at 2;
    the constructor computes the same table when the symmetry object has
    [batch_sector_dim]. *)
Lemma C2_counterexample :
  exists v w,
    VectorSpace_init (of_groups u1_symmetry) [[1]; [0]] (Some [2; 3]) false false None
                     (Some [(2, 5); (0, 2)]) = Ok v
    /\ slices v = Ok [(0, 2); (2, 5)]
    /\ _sorted_slices v = [(2, 5); (0, 2)]
    /\ ~ (exists d, slices_contiguous (_sorted_slices v) d)
    /\ VectorSpace_init (with_abelian_attributes u1_symmetry) [[1]; [0]] (Some [2; 3])
                        false false None None = Ok w
    /\ _sorted_slices w = [(2, 5); (0, 2)]
    /\ ~ (exists d, slices_contiguous (_sorted_slices w) d).
Proof.
  eexists. eexists.
  split; [reflexivity|]. split; [reflexivity|]. split; [reflexivity|].
  split; [|split; [reflexivity|split; [reflexivity|]]].
  - intros [d H]. destruct H as [H _]; [discriminate|]. discriminate H.
  - intros [d H]. destruct H as [H _]; [discriminate|]. discriminate H.
Qed.

(** ** The canonical order of the sectors *)

Lemma init_sorts_sectors (o : SymmetryObj) (sectors : SectorArray) (mults : option (list Z))
      (is_real _is_dual : bool) (sl : option (list (Z * Z))) (v : VectorSpace) :
  VectorSpace_init o sectors mults is_real _is_dual None sl = Ok v ->
  _non_dual_sorted_sectors v = sorted_rows sectors
  /\ _sector_perm v = np.lexsort_T sectors.
Proof.
  intro H. unfold VectorSpace_init in H.
  apply bind_ok in H as (m & _ & H).
  rewrite take_lexsort_T in H. cbn [bind] in H.
  apply bind_ok in H as ([[p' ss] sm] & H1 & H).
  apply bind_ok in H1 as (m' & _ & H1). injection H1 as <- <- <-.
  apply bind_ok in H as (ip & _ & H).
  apply bind_ok in H as (ss & _ & H). injection H as <-. now split.
Qed.

Lemma lexsort_lt_one_column (a b : Sector) :
  length a = 1%nat -> length b = 1%nat -> lexsort_lt a b -> lex_lt a b.
Proof.
  destruct a as [|x [|? ?]]; try discriminate.
  destruct b as [|y [|? ?]]; try discriminate.
  intros _ _ H. exact H.
Qed.

Lemma StronglySorted_impl_in {A : Type} (R S : A -> A -> Prop) (l : list A) :
  (forall x y, In x l -> In y l -> R x y -> S x y) ->
  StronglySorted R l -> StronglySorted S l.
Proof.
  intros H Hs. induction Hs as [|x l Hs IH Hx]; constructor.
  - apply IH. intros a b Ha Hb. apply H; now right.
  - rewrite Forall_forall in *. intros y Hy. apply H; [now left|now right|now apply Hx].
Qed.

(** C3, as the code has it: the general entry point (no [_sector_perm])
    stores the given rows, when they are pairwise distinct, strictly
    increasing in the order of [np.lexsort(sectors.T)], which compares
    rows from the last entry backwards; the stored rows are pairwise
    distinct and are the given rows.  For sectors of one entry this is the
    order from the first entry on. *)
Theorem C3_canonical_sectors_sorted
        (o : SymmetryObj) (sectors : SectorArray) (mults : option (list Z))
        (is_real _is_dual : bool) (sl : option (list (Z * Z))) (v : VectorSpace) :
  NoDup sectors ->
  VectorSpace_init o sectors mults is_real _is_dual None sl = Ok v ->
  StronglySorted lexsort_lt (_non_dual_sorted_sectors v)
  /\ NoDup (_non_dual_sorted_sectors v)
  /\ Permutation (_non_dual_sorted_sectors v) sectors
  /\ (Forall (fun a => length a = 1%nat) sectors ->
      StronglySorted lex_lt (_non_dual_sorted_sectors v)).
Proof.
  intros Hn H. apply init_sorts_sectors in H as [-> _].
  pose proof (sorted_rows_perm sectors) as Hp.
  split; [now apply sorted_rows_sorted|].
  split; [apply (Permutation_NoDup (Permutation_sym Hp) Hn)|].
  split; [exact Hp|].
  intro H1. apply (StronglySorted_impl_in lexsort_lt); [|now apply sorted_rows_sorted].
  rewrite Forall_forall in H1.
  intros a b Ha Hb. apply lexsort_lt_one_column; apply H1.
  - now apply (Permutation_in _ Hp).
  - now apply (Permutation_in _ Hp).
Qed.

Lemma NoDup_two_rows : NoDup [[0; 1]; [1; 0]].
Proof.
  constructor; [|constructor; [intros []|constructor]].
  intros [H|[]]. discriminate H.
Qed.

Lemma C3_witness :
  exists v,
    NoDup [[0; 1]; [1; 0]]
    /\ VectorSpace_init (of_groups (ProductSymmetry [U1Symmetry None; ZNSymmetry 3 None]))
                        [[0; 1]; [1; 0]] (Some [1; 1]) false false None
                        (Some [(1, 2); (0, 1)]) = Ok v
    /\ StronglySorted lexsort_lt (_non_dual_sorted_sectors v).
Proof.
  eexists. split; [exact NoDup_two_rows|]. split; [reflexivity|].
  exact (proj1 (C3_canonical_sectors_sorted
                  (of_groups (ProductSymmetry [U1Symmetry None; ZNSymmetry 3 None]))
                  [[0; 1]; [1; 0]] (Some [1; 1]) false false (Some [(1, 2); (0, 1)]) _
                  NoDup_two_rows eq_refl)).
Defined.

(** C3, as the specification states it, fails when "lexicographically"
    is the order from the first entry on: for the product of U(1) and Z_3
    the valid, distinct sectors [0,1], [1,0] with multiplicities 1, 1 are
    stored as [1,0], [0,1], and [1,0] is after [0,1] in that order. *)
Lemma C3_counterexample :
  exists v,
    VectorSpace_init (of_groups (ProductSymmetry [U1Symmetry None; ZNSymmetry 3 None]))
                     [[0; 1]; [1; 0]] (Some [1; 1]) false false None
                     (Some [(1, 2); (0, 1)]) = Ok v
    /\ NoDup [[0; 1]; [1; 0]]
    /\ forallb (is_valid_sector (ProductSymmetry [U1Symmetry None; ZNSymmetry 3 None]))
               [[0; 1]; [1; 0]] = true
    /\ _non_dual_sorted_sectors v = [[1; 0]; [0; 1]]
    /\ np.lex_compare [1; 0] [0; 1] = Gt
    /\ ~ StronglySorted lex_lt (_non_dual_sorted_sectors v).
Proof.
  eexists. split; [reflexivity|]. split; [exact NoDup_two_rows|].
  split; [reflexivity|]. split; [reflexivity|]. split; [reflexivity|].
  intro H. inversion H as [|? ? _ Hf]; subst.
  inversion Hf as [|? ? Hlt _]; subst. discriminate Hlt.
Qed.

(** ** Duality *)

Lemma factor_bounds_from (k : Z) (fs : list FactorSymmetry) :
  combine fs (combine (k :: np.cumsum_from k (map factor_sector_ind_len fs))
                      (np.cumsum_from k (map factor_sector_ind_len fs)))
  = bounds_from k fs.
Proof.
  revert k. induction fs as [|f fs IH]; intro k; [reflexivity|].
  cbn [map np.cumsum_from combine bounds_from].
  change (factor_sector_ind_len f) with 1. f_equal. exact (IH (k + 1)).
Qed.

Lemma factor_bounds_eq (fs : list FactorSymmetry) : factor_bounds fs = bounds_from 0 fs.
Proof.
  unfold factor_bounds, sector_slices, np.cumsum.
  cbn [np.cumsum_from tl]. change (0 + 0) with 0. apply factor_bounds_from.
Qed.

Lemma slice_one {A : Type} (a : list A) (k : Z) (x : A) (rest : list A) :
  0 <= k -> skipn (Z.to_nat k) a = x :: rest ->
  slice a k (k + 1) = [x] /\ skipn (Z.to_nat (k + 1)) a = rest.
Proof.
  intros Hk H. unfold slice. replace (k + 1 - k) with 1 by lia.
  rewrite H. split; [reflexivity|].
  replace (Z.to_nat (k + 1)) with (1 + Z.to_nat k)%nat by lia.
  now rewrite <- skipn_skipn, H.
Qed.

(** Over a row that has an entry for every factor, the loop over the
    factors and their slices is a loop over (factor, entry). *)
Lemma map_bounds_entries {B : Type} (h : FactorSymmetry -> Sector -> B)
      (fs : list FactorSymmetry) (a : Sector) (k : Z) :
  0 <= k -> (length fs <= length (skipn (Z.to_nat k) a))%nat ->
  map (fun p => h (fst p) (slice a (fst (snd p)) (snd (snd p)))) (bounds_from k fs)
  = map (fun q => h (fst q) [snd q]) (combine fs (skipn (Z.to_nat k) a)).
Proof.
  revert k. induction fs as [|f fs IH]; intros k Hk Hl; [reflexivity|].
  destruct (skipn (Z.to_nat k) a) as [|x rest] eqn:E; [simpl in Hl; lia|].
  destruct (slice_one a k x rest Hk E) as [Hs Hr].
  cbn [bounds_from map combine fst snd]. rewrite Hs. f_equal.
  rewrite IH by (try lia; rewrite Hr; simpl in Hl; lia).
  now rewrite Hr.
Qed.

Lemma factor_dual_sector_entries (f : FactorSymmetry) (a : Sector) :
  factor_dual_sector f a = map (factor_dual_entry f) a.
Proof.
  destruct f; simpl; try reflexivity; now rewrite map_id.
Qed.

Lemma factor_dual_sectors_rowwise (f : FactorSymmetry) (sectors : SectorArray) :
  factor_dual_sectors f sectors = map (factor_dual_sector f) sectors.
Proof.
  destruct f; simpl; try reflexivity; now rewrite map_id.
Qed.

Lemma map_combine_maps {A B C D : Type} (f : B * C -> D) (g : A -> B) (k : A -> C)
      (l : list A) :
  map f (combine (map g l) (map k l)) = map (fun a => f (g a, k a)) l.
Proof. induction l as [|x l IH]; simpl; [reflexivity|]. now rewrite IH. Qed.

Lemma concatenate_last_rowwise {P : Type} (h : P -> Sector -> Sector) (ps : list P)
      (sectors : SectorArray) :
  concatenate_last (length sectors) (map (fun p => map (h p) sectors) ps)
  = map (fun a => concat (map (fun p => h p a) ps)) sectors.
Proof.
  unfold concatenate_last. induction ps as [|p ps IH]; cbn [map fold_right concat].
  - induction sectors as [|a l IH]; simpl; [reflexivity|]. now rewrite IH.
  - rewrite IH. now rewrite map_combine_maps.
Qed.

(** [dual_sectors] is [dual_sector] on every row. *)
Lemma dual_sectors_rowwise (s : Symmetry) (sectors : SectorArray) :
  dual_sectors s sectors = map (dual_sector s) sectors.
Proof.
  destruct s as [f|fs]; [apply factor_dual_sectors_rowwise|].
  unfold dual_sectors, dual_sector.
  rewrite <- (concatenate_last_rowwise
                (fun p a => factor_dual_sector (fst p) (slice a (fst (snd p)) (snd (snd p))))).
  f_equal. apply map_ext. intro p.
  now rewrite factor_dual_sectors_rowwise, map_map.
Qed.

Lemma np_mod_neg_neg (x N : Z) : 0 <= x < N -> np_mod (- np_mod (- x) N) N = x.
Proof.
  intro H. unfold np_mod.
  destruct (N =? 0) eqn:E; [apply Z.eqb_eq in E; lia|].
  destruct (Z.eq_dec x 0) as [->|Hx].
  - assert (E0 : (- 0) mod N = 0) by (apply (Z.mod_0_l N); lia).
    rewrite E0. exact E0.
  - assert (E1 : (- x) mod N = N - x).
    { symmetry. apply (Z.mod_unique (- x) N (-1)); lia. }
    rewrite E1. symmetry. apply (Z.mod_unique _ N (-1)); lia.
Qed.

Lemma factor_dual_entry_involutive (f : FactorSymmetry) (x : Z) :
  factor_is_valid_sector f [x] = true ->
  factor_dual_entry f (factor_dual_entry f x) = x.
Proof.
  destruct f; simpl; intro H; try reflexivity.
  - lia.
  - apply andb_prop in H as [H0 H1]. apply Z.leb_le in H0. apply Z.ltb_lt in H1.
    apply np_mod_neg_neg. lia.
Qed.

Lemma product_dual_entries (fs : list FactorSymmetry) (b : Sector) :
  length b = length fs ->
  dual_sector (ProductSymmetry fs) b
  = map (fun q => factor_dual_entry (fst q) (snd q)) (combine fs b).
Proof.
  intro Hb. unfold dual_sector. rewrite factor_bounds_eq.
  rewrite (map_bounds_entries factor_dual_sector fs b 0) by (cbn [Z.to_nat skipn]; lia).
  cbn [Z.to_nat skipn].
  induction (combine fs b) as [|q l IHl]; [reflexivity|].
  cbn [map concat]. rewrite IHl, factor_dual_sector_entries. reflexivity.
Qed.

Lemma product_entries (fs : list FactorSymmetry) (a : Sector) :
  is_valid_sector (ProductSymmetry fs) a = true ->
  length a = length fs
  /\ Forall (fun q => factor_is_valid_sector (fst q) [snd q] = true) (combine fs a).
Proof.
  intro H. unfold is_valid_sector in H. apply andb_prop in H as [Hl Hv].
  assert (Hlen : length a = length fs).
  { apply Z.eqb_eq in Hl. unfold sector_ind_len, trivial_sector in Hl.
    assert (E : length (concat (map factor_trivial_sector fs)) = length fs).
    { clear. induction fs as [|f fs IH]; simpl; [reflexivity|]. now rewrite IH. }
    rewrite E in Hl. lia. }
  split; [exact Hlen|].
  rewrite factor_bounds_eq in Hv.
  apply Forall_forall. intros q Hq.
  rewrite forallb_forall in Hv.
  pose proof (map_bounds_entries (fun f r => (f, r)) fs a 0) as E.
  cbn [Z.to_nat skipn] in E. specialize (E ltac:(lia) ltac:(lia)). cbv beta in E.
  assert (Hin : In (fst q, [snd q]) (map (fun q0 => (fst q0, [snd q0])) (combine fs a))).
  { apply in_map_iff. now exists q. }
  pose proof (eq_ind_r (fun l => In (fst q, [snd q]) l) Hin E) as Hin'.
  apply in_map_iff in Hin' as (p & Ep & Hp).
  specialize (Hv p Hp). injection Ep as <- <-. exact Hv.
Qed.

Lemma combine_map_r {A B C : Type} (g : A * B -> C) (l : list A) (l' : list B) :
  combine l (map g (combine l l')) = map (fun q => (fst q, g q)) (combine l l').
Proof.
  revert l'. induction l as [|x l IH]; intros [|y l']; simpl; try reflexivity.
  now rewrite IH.
Qed.

Lemma factor_dual_entry_valid (f : FactorSymmetry) (x : Z) :
  factor_is_valid_sector f [x] = true ->
  factor_is_valid_sector f [factor_dual_entry f x] = true.
Proof.
  destruct f; simpl; intro H; try exact H; try reflexivity.
  apply andb_prop in H as [H0 H1]. apply Z.leb_le in H0. apply Z.ltb_lt in H1.
  unfold np_mod. destruct (N =? 0) eqn:E; [apply Z.eqb_eq in E; lia|].
  pose proof (Z.mod_pos_bound (- x) N ltac:(lia)) as Hb.
  apply andb_true_intro. split; [apply Z.leb_le|apply Z.ltb_lt]; lia.
Qed.

(** [dual_sector] is an involution on the valid sectors. *)
Lemma dual_sector_involutive (s : Symmetry) (a : Sector) :
  is_valid_sector s a = true -> dual_sector s (dual_sector s a) = a.
Proof.
  destruct s as [f|fs]; intro H.
  - simpl in *. rewrite !factor_dual_sector_entries.
    destruct a as [|x [|y a]];
      try (destruct f; simpl in H; discriminate H).
    simpl. f_equal. apply factor_dual_entry_involutive.
    exact H.
  - destruct (product_entries fs a H) as (Hlen & Hv).
    rewrite (product_dual_entries fs a Hlen).
    rewrite product_dual_entries by (rewrite length_map, length_combine; lia).
    rewrite combine_map_r, map_map. cbn [fst snd].
    rewrite <- (map_snd_combine fs a) at 2 by (symmetry; exact Hlen).
    apply map_ext_in. intros q Hq.
    rewrite Forall_forall in Hv. apply factor_dual_entry_involutive. now apply Hv.
Qed.

Lemma take_Forall {A : Type} (P : A -> Prop) (l r : list A) (idx : list Z) :
  np.take l idx = Ok r -> Forall P l -> Forall P r.
Proof.
  unfold np.take. revert r. induction idx as [|i idx IH]; simpl; intros r H Hl.
  - injection H as <-. constructor.
  - apply bind_ok in H as (x & Hx & H). apply bind_ok in H as (xs & Hxs & H).
    injection H as <-. constructor; [|now apply IH].
    apply item_ok in Hx as (k & _ & Hx). apply nth_error_In in Hx.
    rewrite Forall_forall in Hl. now apply Hl.
Qed.

(** C6: for every space whose canonical sectors are valid sectors of its
    symmetry, [space.dual.sectors] is [symmetry.dual_sectors(space.sectors)],
    row by row in the same order, whether [is_dual] is set or not. *)
Theorem C6_dual_sectors (v : VectorSpace) :
  Forall (fun a => is_valid_sector (sym (symmetry v)) a = true) (_non_dual_sorted_sectors v) ->
  sectors (dual v) = (s <- sectors v ;; Ok (dual_sectors (sym (symmetry v)) s))
  /\ (forall s, sectors v = Ok s ->
                sectors (dual v) = Ok (dual_sectors (sym (symmetry v)) s)).
Proof.
  intro Hv.
  assert (E : sectors (dual v) = (s <- sectors v ;; Ok (dual_sectors (sym (symmetry v)) s))).
  { unfold sectors, dual. cbn [is_dual symmetry _non_dual_sorted_sectors _inverse_sector_perm].
    destruct (is_dual v); cbn [negb].
    - rewrite dual_sectors_rowwise, take_map.
      destruct (np.take (_non_dual_sorted_sectors v) (_inverse_sector_perm v)) as [r|e] eqn:Er;
        cbn [bind]; [|reflexivity].
      rewrite dual_sectors_rowwise, map_map. f_equal.
      rewrite <- (map_id r) at 1. apply map_ext_in. intros a Ha.
      symmetry. apply dual_sector_involutive.
      pose proof (take_Forall _ _ _ _ Er Hv) as Hr. rewrite Forall_forall in Hr. now apply Hr.
    - rewrite dual_sectors_rowwise, take_map.
      destruct (np.take (_non_dual_sorted_sectors v) (_inverse_sector_perm v)) as [r|e];
        cbn [bind]; [|reflexivity].
      now rewrite dual_sectors_rowwise. }
  split; [exact E|]. intros s Hs. now rewrite E, Hs.
Qed.

Lemma C6_witness :
  exists v,
    VectorSpace_init (of_groups z3_symmetry) [[2]; [0]; [1]] (Some [1; 2; 3]) false true None
                     (Some [(3, 6); (0, 1); (1, 3)]) = Ok v
    /\ Forall (fun a => is_valid_sector (sym (symmetry v)) a = true)
              (_non_dual_sorted_sectors v)
    /\ sectors v = Ok [[1]; [0]; [2]]
    /\ sectors (dual v) = Ok (dual_sectors (sym (symmetry v)) [[1]; [0]; [2]]).
Proof.
  eexists. split; [reflexivity|].
  split; [repeat constructor|]. split; [reflexivity|].
  match goal with
  | |- sectors (dual ?v) = _ =>
      apply (proj2 (C6_dual_sectors v ltac:(repeat constructor)))
  end.
  reflexivity.
Defined.

(** C6, as the specification states it, fails on a space with a sector that
    is not valid: the constructor does not check the sectors.  The space of
    Z_3 built from the sector [5] with [_is_dual=True] has the sectors
    [[1]], its dual has the sectors [[5]], and [dual_sectors] of [[1]] is
    [[2]]. *)
Lemma C6_counterexample :
  exists v,
    VectorSpace_init (of_groups z3_symmetry) [[5]] (Some [1]) false true None
                     (Some [(0, 1)]) = Ok v
    /\ is_valid_sector z3_symmetry [5] = false
    /\ sectors v = Ok [[1]]
    /\ sectors (dual v) = Ok [[5]]
    /\ dual_sectors (sym (symmetry v)) [[1]] = [[2]]
    /\ sectors (dual v) <> (s <- sectors v ;; Ok (dual_sectors (sym (symmetry v)) s)).
Proof.
  eexists. split; [reflexivity|]. split; [reflexivity|]. split; [reflexivity|].
  split; [reflexivity|]. split; [reflexivity|]. discriminate.
Qed.

(** ** [parse_index] *)

(** The loop of [bisect] ends within [hi - lo] turns: more turns give the
    same result. *)
Lemma bisect_loop_turns (a : list Z) (x : Z) (t1 t2 lo hi : nat) :
  (hi - lo <= t1)%nat -> (hi - lo <= t2)%nat ->
  bisect_loop t1 a x lo hi = bisect_loop t2 a x lo hi.
Proof.
  revert t2 lo hi.
  induction t1 as [|t1 IH]; intros [|t2] lo hi H1 H2; cbn [bisect_loop];
    try reflexivity.
  - destruct (lo <? hi)%nat eqn:E; [apply Nat.ltb_lt in E; lia | reflexivity].
  - destruct (lo <? hi)%nat eqn:E; [apply Nat.ltb_lt in E; lia | reflexivity].
  - destruct (lo <? hi)%nat eqn:E; [|reflexivity].
    apply Nat.ltb_lt in E.
    assert (Hmid : (lo <= (lo + hi) / 2 < hi)%nat).
    { split.
      - apply Nat.div_le_lower_bound; lia.
      - apply Nat.Div0.div_lt_upper_bound; lia. }
    cbv zeta. destruct (x <? nth ((lo + hi) / 2) a 0); apply IH; lia.
Qed.

Lemma bisect_turns (a : list Z) (x : Z) (t : nat) :
  (length a <= t)%nat -> bisect a x = Z.of_nat (bisect_loop t a x 0%nat (length a)).
Proof.
  intro H. unfold bisect. f_equal. apply bisect_loop_turns; lia.
Qed.

Lemma parse_index_of_groups(s : Symmetry) (v : VectorSpace) (idx : Z) :
  symmetry v = of_groups s ->
  parse_index v idx = Raise (AttributeError "batch_sector_dim").
Proof.
  intro H. unfold parse_index, dim. now rewrite H.
Qed.

(** With [batch_sector_dim] present, an index outside [-dim, dim) is a
    range error. *)
Lemma parse_index_out_of_range (v : VectorSpace) (d idx : Z) :
  dim v = Ok d -> idx < - d \/ d <= idx -> parse_index v idx = Raise IndexError.
Proof.
  intros Hd H. unfold parse_index. rewrite Hd. cbn [bind].
  destruct ((- d <=? idx) && (idx <? d)) eqn:E; [|reflexivity].
  apply andb_prop in E as [E1 E2]. apply Z.leb_le in E1. apply Z.ltb_lt in E2. lia.
Qed.

(** C7: the scenario of the specification, on the code.  The space of
    dimension 8 without symmetry cannot be built by
    [VectorSpace.without_symmetry(8)], and on the same space built with its
    slices given, [parse_index] raises [AttributeError] at 5, -1 and 8,
    as it does on every space of a [groups.py] symmetry, because it reads
    [dim].  With [batch_sector_dim] present the results are those of the
    specification: (0,5), (0,7) and a range error. *)
Theorem C7_parse_index_on_the_code :
  without_symmetry 8 false false = Raise (AttributeError "batch_sector_dim")
  /\ (exists v,
        given_space no_symmetry [[0]] [8] false [(0, 8)] = Ok v
        /\ parse_index v 5 = Raise (AttributeError "batch_sector_dim")
        /\ parse_index v (-1) = Raise (AttributeError "batch_sector_dim")
        /\ parse_index v 8 = Raise (AttributeError "batch_sector_dim"))
  /\ (exists w,
        VectorSpace_init (with_abelian_attributes no_symmetry) [[0]] (Some [8])
                         false false None None = Ok w
        /\ dim w = Ok 8
        /\ parse_index w 5 = Ok (0, 5)
        /\ parse_index w (-1) = Ok (0, 7)
        /\ parse_index w 8 = Raise IndexError).
Proof.
  split; [reflexivity|]. split.
  - eexists. split; [reflexivity|]. repeat split; reflexivity.
  - eexists. split; [reflexivity|]. repeat split; reflexivity.
Qed.

(** ** [ProductSpace] *)












(** C4: the property of the specification, on the code.  For spaces A, B,
    C of Z_4 built with their slices given, neither [ProductSpace([A, B, C])]
    nor [ProductSpace([A, B])], the inner product of the nested form, is
    built: both raise [AttributeError] for [_n_symbol], so there are no
    sectors to compare.  With the two attributes present the nested and the
    flat product of the same sectors and multiplicities have the same
    sectors. *)
Theorem C4_nested_product_on_the_code :
  (exists A B C,
      given_space z4_symmetry [[3]; [0]; [1]] [2; 3; 1] false [(2, 5); (5, 6); (0, 2)] = Ok A
      /\ given_space z4_symmetry [[1]; [2]] [1; 2] false [(0, 1); (1, 3)] = Ok B
      /\ given_space z4_symmetry [[2]; [3]; [0]] [1; 1; 5] false [(2, 7); (0, 1); (1, 2)] = Ok C
      /\ ProductSpace_init [Plain A; Plain B; Plain C] None None None None None
         = Raise (AttributeError "_n_symbol")
      /\ ProductSpace_init [Plain A; Plain B] None None None None None
         = Raise (AttributeError "_n_symbol"))
  /\ (A <- VectorSpace_init (with_abelian_attributes z4_symmetry) [[3]; [0]; [1]]
                            (Some [2; 3; 1]) false false None None ;;
      B <- VectorSpace_init (with_abelian_attributes z4_symmetry) [[1]; [2]]
                            (Some [1; 2]) false false None None ;;
      C <- VectorSpace_init (with_abelian_attributes z4_symmetry) [[2]; [3]; [0]]
                            (Some [1; 1; 5]) false false None None ;;
      flat <- ProductSpace_init [Plain A; Plain B; Plain C] None None None None None ;;
      inner <- ProductSpace_init [Plain A; Plain B] None None None None None ;;
      nested <- ProductSpace_init [inner; Plain C] None None None None None ;;
      flat_sectors <- sectors (as_data flat) ;;
      nested_sectors <- sectors (as_data nested) ;;
      Ok (flat_sectors, nested_sectors))
     = Ok ([[0]; [1]; [2]; [3]], [[0]; [1]; [2]; [3]]).
Proof.
  split.
  - eexists. eexists. eexists.
    split; [reflexivity|]. split; [reflexivity|]. split; [reflexivity|].
    split; vm_compute; reflexivity.
  - vm_compute. reflexivity.
Qed.

(** ** [is_subspace_of] *)

(** C8: the scenario of the specification holds on spaces of Z_2 built
    with their slices given: [{[0]:2, [1]:1}] is a subspace of
    [{[0]:3, [1]:2}] and [{[0]:2, [1]:3}] is not.  The equivalence fails
    for a space without sectors: every one of its sectors is in the
    other space, yet [is_subspace_of] raises [IndexError] when the other
    space has a sector and returns [False] when it has none. *)
Theorem C8_is_subspace_of_on_the_code :
  exists other a b e,
    given_space z2_symmetry [[0]; [1]] [3; 2] false [(0, 3); (3, 5)] = Ok other
    /\ given_space z2_symmetry [[0]; [1]] [2; 1] false [(0, 2); (2, 3)] = Ok a
    /\ given_space z2_symmetry [[0]; [1]] [2; 3] false [(0, 2); (2, 5)] = Ok b
    /\ given_space z2_symmetry [] [] false [] = Ok e
    /\ is_subspace_of a other = Ok true
    /\ is_subspace_of b other = Ok false
    /\ _non_dual_sorted_sectors e = []
    /\ is_dual e = is_dual other
    /\ groups.__eq__ (sym (symmetry e)) (sym (symmetry other)) = true
    /\ is_subspace_of e other = Raise IndexError
    /\ is_subspace_of e e = Ok false.
Proof.
  eexists. eexists. eexists. eexists.
  split; [reflexivity|]. split; [reflexivity|]. split; [reflexivity|].
  split; [reflexivity|]. repeat split; reflexivity.
Qed.

(** The merge scan of [is_subspace_of] on a space [self] that has a
    sector. *)

Lemma row_eqb_eq (a b : Sector) : row_eqb a b = true <-> a = b.
Proof.
  revert b. induction a as [|x a IH]; intros [|y b]; simpl; split; intro H;
    try discriminate; try reflexivity.
  - apply andb_prop in H as [H1 H2]. apply Z.eqb_eq in H1. apply IH in H2. now subst.
  - injection H as -> ->. rewrite Z.eqb_refl. now apply IH.
Qed.

Lemma skipn_nth {A : Type} (l : list A) (n : nat) (d : A) :
  (n < length l)%nat -> skipn n l = nth n l d :: skipn (S n) l.
Proof.
  revert n. induction l as [|x l IH]; intros [|n] H; simpl in *; try lia; [reflexivity|].
  apply IH. lia.
Qed.

Lemma StronglySorted_skipn {A : Type} (R : A -> A -> Prop) (l : list A) (n : nat) :
  StronglySorted R l -> StronglySorted R (skipn n l).
Proof.
  revert l. induction n as [|n IH]; intros l H; [exact H|].
  destruct l as [|x l]; [constructor|]. simpl. apply IH. now inversion H.
Qed.

Lemma sorted_head_lt (x : Sector * Z) (l : list (Sector * Z)) (a : Sector) (m : Z) :
  StronglySorted lexsort_lt (map fst (x :: l)) -> In (a, m) l -> lexsort_lt (fst x) a.
Proof.
  intros H Hin. simpl in H. inversion H as [|? ? _ Hf]; subst.
  rewrite Forall_forall in Hf. apply Hf. apply in_map_iff. now exists (a, m).
Qed.

Lemma embeds_cons (x : Sector * Z) (S O : list (Sector * Z)) :
  embeds (x :: S) O <-> (exists m', In (fst x, m') O /\ snd x <= m') /\ embeds S O.
Proof.
  unfold embeds. split.
  - intro H. split.
    + destruct x as [a m]. apply H. now left.
    + intros a m Ha. apply H. now right.
  - intros [H1 H2] a m [Ha|Ha]; [subst x; exact H1|now apply H2].
Qed.

Lemma embeds_nil (O : list (Sector * Z)) : embeds [] O.
Proof. intros a m []. Qed.

Lemma embeds_tail (S : list (Sector * Z)) (o : Sector * Z) (O : list (Sector * Z)) :
  embeds S O -> embeds S (o :: O).
Proof.
  intros H a m Ha. destruct (H a m Ha) as (m' & Hin & Hm). exists m'. split; [now right|exact Hm].
Qed.

(** Sectors after the head of a sorted [O] are not the head. *)
Lemma embeds_skip_head (S : list (Sector * Z)) (so : Sector) (mo : Z)
      (O : list (Sector * Z)) :
  (forall a m, In (a, m) S -> a <> so) -> embeds S ((so, mo) :: O) -> embeds S O.
Proof.
  intros Hne H a m Ha. destruct (H a m Ha) as (m' & [Hin|Hin] & Hm).
  - injection Hin as E _. exfalso. apply (Hne a m Ha). now symmetry.
  - exists m'. now split.
Qed.

Lemma subspace_loop_spec (self : VectorSpace) (O : list (Sector * Z)) (n : nat) :
  length (_sorted_multiplicities self) = length (_non_dual_sorted_sectors self) ->
  StronglySorted lexsort_lt (_non_dual_sorted_sectors self) ->
  StronglySorted lexsort_lt (map fst O) ->
  (n < length (_non_dual_sorted_sectors self))%nat ->
  exists b, is_subspace_loop self n O = Ok b
            /\ (b = true <-> embeds (skipn n (canonical_pairs self)) O).
Proof.
  intros Hlen Hs. unfold canonical_pairs.
  remember (_non_dual_sorted_sectors self) as nds eqn:End.
  remember (_sorted_multiplicities self) as sm eqn:Esm.
  remember (combine nds sm) as C eqn:EC.
  assert (Hlen' : length nds = length sm) by (symmetry; exact Hlen).
  assert (HS : StronglySorted lexsort_lt (map fst C))
    by (rewrite EC; now rewrite map_fst_combine).
  assert (HlenS : length C = length nds)
    by (rewrite EC, length_combine, Hlen'; apply Nat.min_id).
  assert (HEsk : forall k, (k < length nds)%nat ->
                   skipn k C = (nth k nds [], nth k sm 0) :: skipn (S k) C).
  { intros k Hk. rewrite (skipn_nth C k ([], 0)) by lia.
    rewrite EC. now rewrite combine_nth by exact Hlen'. }
  assert (Hafter : forall k a m, (k < length nds)%nat -> In (a, m) (skipn (S k) C) ->
                     lexsort_lt (nth k nds []) a).
  { intros k a m Hk Ha.
    apply (sorted_head_lt (nth k nds [], nth k sm 0) (skipn (S k) C) a m); [|exact Ha].
    rewrite <- (HEsk k Hk), <- skipn_map. now apply StronglySorted_skipn. }
  revert n. induction O as [|[so mo] rest IH]; intros n HO Hn.
  - exists false. split; [reflexivity|]. split; [discriminate|].
    rewrite (HEsk n Hn). intro H. apply embeds_cons in H as [(m' & [] & _) _].
  - assert (HO' : StronglySorted lexsort_lt (map fst rest)) by (simpl in HO; now inversion HO).
    cbn [is_subspace_loop]. rewrite <- End, <- Esm.
    rewrite (item_range nds (Z.of_nat n) []) by lia.
    rewrite (item_range sm (Z.of_nat n) 0) by lia.
    rewrite Nat2Z.id. cbn [bind].
    rewrite (HEsk n Hn).
    destruct (row_eqb (nth n nds []) so) eqn:Eeq.
    + apply row_eqb_eq in Eeq.
      destruct (nth n sm 0 >? mo) eqn:Egt.
      * exists false. split; [reflexivity|]. split; [discriminate|]. intro H.
        apply embeds_cons in H as [(m' & [Hin|Hin] & Hle) _]; cbn [fst snd] in *.
        -- injection Hin as _ <-. apply Z.gtb_lt in Egt. lia.
        -- apply (sorted_head_lt (so, mo)) in Hin; [|exact HO].
           simpl in Hin. rewrite Eeq in Hin. now apply lexsort_lt_irrefl in Hin.
      * assert (Hle : nth n sm 0 <= mo).
        { destruct (Z.gtb_spec (nth n sm 0) mo); [discriminate|lia]. }
        assert (Hhead : exists m', In (nth n nds [], m') ((so, mo) :: rest) /\ nth n sm 0 <= m').
        { exists mo. split; [left; now rewrite Eeq|exact Hle]. }
        unfold num_sectors. rewrite <- End.
        destruct (S n =? length nds)%nat eqn:Elast.
        -- exists true. split; [reflexivity|]. split; [|reflexivity]. intros _.
           apply Nat.eqb_eq in Elast.
           apply embeds_cons. split; [exact Hhead|].
           rewrite (skipn_all2 C) by lia. apply embeds_nil.
        -- apply Nat.eqb_neq in Elast.
           destruct (IH (S n) HO' ltac:(lia)) as (b & Eb & Hb).
           exists b. split; [exact Eb|]. rewrite Hb, embeds_cons. cbn [fst snd].
           split; intro H.
           ++ split; [exact Hhead|now apply embeds_tail].
           ++ destruct H as [_ H]. apply (embeds_skip_head _ so mo); [|exact H].
              intros a m Ha E. subst a.
              apply (Hafter n so m Hn) in Ha. rewrite Eeq in Ha.
              now apply lexsort_lt_irrefl in Ha.
    + assert (Hne : nth n nds [] <> so).
      { intro E. apply row_eqb_eq in E. congruence. }
      unfold num_sectors. rewrite <- End.
      destruct (n =? length nds)%nat eqn:Elast; [apply Nat.eqb_eq in Elast; lia|].
      destruct (IH n HO' Hn) as (b & Eb & Hb).
      exists b. split; [exact Eb|]. rewrite Hb, (HEsk n Hn). split; intro H.
      * now apply embeds_tail.
      * apply (embeds_skip_head _ so mo); [|exact H].
        intros a m Ha E. subst a.
        apply embeds_cons in H as [(m0 & [Hin0|Hin0] & _) _]; cbn [fst snd] in *.
        -- injection Hin0 as E _. now apply Hne.
        -- apply (sorted_head_lt (so, mo)) in Hin0; [|exact HO]. simpl in Hin0.
           destruct Ha as [Ha|Ha]; [injection Ha as E _; now apply Hne|].
           apply (Hafter n so m Hn) in Ha.
           apply (lexsort_lt_irrefl so). now apply lexsort_lt_trans with (nth n nds []).
Qed.

(** X1: [is_subspace_of], for a space [self] with at least one sector
    and canonical sectors of both spaces that are strictly sorted: it
    returns, and the answer is [True] exactly when the two spaces have the
    same [is_dual] and equal symmetries and every sector of [self] is a
    sector of [other] with at least the multiplicity it has in [self]. *)
Lemma is_subspace_of_spec (self other : VectorSpace) :
  _non_dual_sorted_sectors self <> [] ->
  length (_sorted_multiplicities self) = length (_non_dual_sorted_sectors self) ->
  length (_sorted_multiplicities other) = length (_non_dual_sorted_sectors other) ->
  StronglySorted lexsort_lt (_non_dual_sorted_sectors self) ->
  StronglySorted lexsort_lt (_non_dual_sorted_sectors other) ->
  exists b, is_subspace_of self other = Ok b
            /\ (b = true <->
                is_dual self = is_dual other
                /\ groups.__eq__ (sym (symmetry self)) (sym (symmetry other)) = true
                /\ embeds (canonical_pairs self) (canonical_pairs other)).
Proof.
  intros Hne Hl Hlo Hs Ho. unfold is_subspace_of.
  destruct (Bool.eqb (is_dual self) (is_dual other)) eqn:Ed; cbn [negb].
  - apply Bool.eqb_prop in Ed.
    destruct (groups.__eq__ (sym (symmetry self)) (sym (symmetry other))) eqn:Ee; cbn [negb].
    + destruct (subspace_loop_spec self (canonical_pairs other) 0 Hl Hs) as (b & Eb & Hb).
      * unfold canonical_pairs. now rewrite map_fst_combine.
      * destruct (_non_dual_sorted_sectors self); [contradiction|simpl; lia].
      * exists b. split; [exact Eb|]. rewrite Hb. cbn [skipn]. tauto.
    + exists false. split; [reflexivity|]. split; [discriminate|]. intros (_ & H & _). discriminate.
  - exists false. split; [reflexivity|]. split; [discriminate|]. intros (H & _).
    rewrite H in Ed. now rewrite Bool.eqb_reflx in Ed.
Qed.

Lemma is_subspace_of_spec_witness :
  exists b,
    is_subspace_of
      {| symmetry := of_groups u1_symmetry; is_real := false; is_dual := false;
         _non_dual_sorted_sectors := [[-1]; [2]]; _sorted_multiplicities := [2; 1];
         _sector_perm := [0; 1]; _inverse_sector_perm := [0; 1];
         _sorted_slices := [(0, 2); (2, 3)] |}
      {| symmetry := of_groups u1_symmetry; is_real := false; is_dual := false;
         _non_dual_sorted_sectors := [[-1]; [0]; [2]]; _sorted_multiplicities := [3; 1; 1];
         _sector_perm := [0; 1; 2]; _inverse_sector_perm := [0; 1; 2];
         _sorted_slices := [(0, 3); (3, 4); (4, 5)] |} = Ok b
    /\ (b = true <->
        false = false
        /\ groups.__eq__ u1_symmetry u1_symmetry = true
        /\ embeds [([-1], 2); ([2], 1)] [([-1], 3); ([0], 1); ([2], 1)]).
Proof.
  apply (is_subspace_of_spec
           {| symmetry := of_groups u1_symmetry; is_real := false; is_dual := false;
              _non_dual_sorted_sectors := [[-1]; [2]]; _sorted_multiplicities := [2; 1];
              _sector_perm := [0; 1]; _inverse_sector_perm := [0; 1];
              _sorted_slices := [(0, 2); (2, 3)] |}
           {| symmetry := of_groups u1_symmetry; is_real := false; is_dual := false;
              _non_dual_sorted_sectors := [[-1]; [0]; [2]];
              _sorted_multiplicities := [3; 1; 1];
              _sector_perm := [0; 1; 2]; _inverse_sector_perm := [0; 1; 2];
              _sorted_slices := [(0, 3); (3, 4); (4, 5)] |}).
  - discriminate.
  - reflexivity.
  - reflexivity.
  - repeat constructor.
  - repeat constructor.
Defined.

(** ** Further facts on the constructor and on fusion *)

(** The constructor keeps one multiplicity per canonical sector. *)
Lemma init_lengths (o : SymmetryObj) (sectors : SectorArray) (mults : option (list Z))
      (is_real _is_dual : bool) (perm : option (list Z)) (sl : option (list (Z * Z)))
      (v : VectorSpace) :
  VectorSpace_init o sectors mults is_real _is_dual perm sl = Ok v ->
  length (_sorted_multiplicities v) = length (_non_dual_sorted_sectors v).
Proof.
  intro H. unfold VectorSpace_init in H.
  apply bind_ok in H as (m & Hm & H). apply init_multiplicities_ok in Hm.
  apply bind_ok in H as ([[p ss] sm] & H1 & H).
  apply bind_ok in H as (ip & _ & H).
  apply bind_ok in H as (sl' & _ & H). injection H as <-.
  cbn [_sorted_multiplicities _non_dual_sorted_sectors].
  destruct perm as [p0|].
  - apply bind_ok in H1 as (u & _ & H1). now injection H1 as _ <- <-.
  - apply bind_ok in H1 as (s' & Hs' & H1). apply bind_ok in H1 as (m' & Hm' & H1).
    injection H1 as _ <- <-.
    now rewrite (take_length _ _ _ Hs'), (take_length _ _ _ Hm').
Qed.

(** With [batch_sector_dim] present, the constructor returns a space on
    all arguments that pass its assertions. *)
Lemma init_with_batch_sector_dim (o : SymmetryObj) (g : Sector -> Z) (sectors : SectorArray)
      (mults : option (list Z)) (is_real _is_dual : bool) (perm : option (list Z)) :
  sym_batch_sector_dim o = Some g ->
  init_arguments_pass sectors mults perm ->
  exists v, VectorSpace_init o sectors mults is_real _is_dual perm None = Ok v.
Proof.
  intros Hg [Hm Hp]. unfold VectorSpace_init.
  assert (E : exists m, (match mults with
                         | Some m => _ <- assert (length m =? length sectors)%nat ;; Ok m
                         | None => Ok (repeat 1 (length sectors))
                         end) = Ok m /\ length m = length sectors).
  { destruct mults as [m|].
    - exists m. now rewrite Hm, assert_length_refl.
    - eexists. split; [reflexivity|apply repeat_length]. }
  destruct E as (m & -> & Hlen). cbn [bind].
  destruct perm as [p|].
  - destruct Hp as [Hlp Hperm]. apply is_permutationb_sound in Hperm.
    rewrite Hlp, assert_length_refl. cbn [bind].
    destruct (inverse_permutation_spec p Hperm) as (ip & E & Hl & _).
    pose proof (inverse_permutation_is_permutation p ip Hperm E) as Hip.
    rewrite E. cbn [bind].
    destruct (take_ok_of_permutation sectors ip Hip) as (a & Ha); [lia|].
    destruct (take_ok_of_permutation m ip Hip) as (b & Hb); [lia|].
    rewrite Ha, Hb. cbn [bind].
    pose proof (take_length _ _ _ Ha) as La. pose proof (take_length _ _ _ Hb) as Lb.
    rewrite (calc_slices_spec o g a b Hg) by lia. cbn [bind].
    destruct (take_ok_of_permutation (dense_slices g a b) p Hperm) as (ss & ->).
    + rewrite dense_slices_length; lia.
    + cbn [bind]. eexists. reflexivity.
  - rewrite take_lexsort_T. cbn [bind].
    pose proof (lexsort_T_permutation sectors) as Hperm.
    pose proof (lexsort_T_length sectors) as Hl.
    destruct (take_ok_of_permutation m _ Hperm) as (b & ->); [lia|].
    cbn [bind].
    destruct (inverse_permutation_spec _ Hperm) as (ip & -> & _). cbn [bind].
    rewrite (calc_slices_spec o g sectors m Hg Hlen). cbn [bind].
    destruct (take_ok_of_permutation (dense_slices g sectors m) _ Hperm) as (ss & ->).
    + rewrite dense_slices_length; lia.
    + cbn [bind]. eexists. reflexivity.
Qed.

Lemma factor_valid_one_entry (f : FactorSymmetry) (a : Sector) :
  factor_is_valid_sector f a = true -> exists x, a = [x].
Proof.
  intro H. destruct a as [|x [|y a]]; try (destruct f; discriminate H). now exists x.
Qed.

Lemma steps_of_two_nonempty (lo hi : Z) : exists c cs, steps_of_two lo hi = c :: cs.
Proof. unfold steps_of_two. cbn [seq map]. eexists. eexists. reflexivity. Qed.

(** Two valid sectors of a factor have a fusion outcome. *)
Lemma factor_fusion_outcomes_nonempty (f : FactorSymmetry) (a b : Sector) :
  factor_is_valid_sector f a = true -> factor_is_valid_sector f b = true ->
  exists c cs, factor_fusion_outcomes f a b = Ok (c :: cs).
Proof.
  intros Ha Hb.
  destruct (factor_valid_one_entry f a Ha) as (x & ->).
  destruct (factor_valid_one_entry f b Hb) as (y & ->).
  destruct f; try (eexists; eexists; reflexivity).
  simpl in Ha, Hb. apply Z.leb_le in Ha, Hb.
  cbn [factor_fusion_outcomes]. rewrite su2_arange by lia.
  destruct (steps_of_two_nonempty (Z.abs (x - y)) (x + y)) as (c & cs & ->).
  eexists. eexists. reflexivity.
Qed.

Lemma combinations_nonempty (cs : list SectorArray) :
  Forall (fun c => c <> []) cs -> combinations cs <> [].
Proof.
  induction 1 as [|c cs Hc _ IH]; [discriminate|].
  cbn [combinations]. destruct c as [|r c]; [contradiction|].
  destruct (combinations cs) as [|x xs]; [contradiction|]. discriminate.
Qed.

Lemma mapM_bounds_entries {B : Type} (h : FactorSymmetry -> Sector -> Sector -> result B)
      (fs : list FactorSymmetry) (a b : Sector) (k : Z) :
  0 <= k ->
  (length fs <= length (skipn (Z.to_nat k) a))%nat ->
  (length fs <= length (skipn (Z.to_nat k) b))%nat ->
  mapM (fun p => h (fst p) (slice a (fst (snd p)) (snd (snd p)))
                   (slice b (fst (snd p)) (snd (snd p))))
       (bounds_from k fs)
  = mapM (fun q => h (fst q) [fst (snd q)] [snd (snd q)])
         (combine fs (combine (skipn (Z.to_nat k) a) (skipn (Z.to_nat k) b))).
Proof.
  revert k. induction fs as [|f fs IH]; intros k Hk Ha Hb; [reflexivity|].
  destruct (skipn (Z.to_nat k) a) as [|x ra] eqn:Ea; [simpl in Ha; lia|].
  destruct (skipn (Z.to_nat k) b) as [|y rb] eqn:Eb; [simpl in Hb; lia|].
  destruct (slice_one a k x ra Hk Ea) as [Hsa Hra].
  destruct (slice_one b k y rb Hk Eb) as [Hsb Hrb].
  cbn [bounds_from mapM combine fst snd]. rewrite Hsa, Hsb.
  rewrite IH by (try lia; rewrite ?Hra, ?Hrb; simpl in Ha, Hb; lia).
  now rewrite Hra, Hrb.
Qed.

(** Two valid sectors of a symmetry of [groups.py] have a fusion outcome. *)
Lemma fusion_outcomes_nonempty (s : Symmetry) (a b : Sector) :
  is_valid_sector s a = true -> is_valid_sector s b = true ->
  exists c cs, fusion_outcomes s a b = Ok (c :: cs).
Proof.
  destruct s as [f|fs]; [apply factor_fusion_outcomes_nonempty|].
  intros Ha Hb.
  destruct (product_entries fs a Ha) as [Hla Hva].
  destruct (product_entries fs b Hb) as [Hlb Hvb].
  unfold fusion_outcomes. rewrite factor_bounds_eq.
  rewrite (mapM_bounds_entries factor_fusion_outcomes fs a b 0)
    by (cbn [Z.to_nat skipn]; lia).
  cbn [Z.to_nat skipn].
  assert (G : exists outs,
             mapM (fun q => factor_fusion_outcomes (fst q) [fst (snd q)] [snd (snd q)])
                  (combine fs (combine a b)) = Ok outs
             /\ Forall (fun c => c <> []) outs).
  { clear Ha Hb. revert a b Hla Hlb Hva Hvb.
    induction fs as [|f fs IH]; intros a b Hla Hlb Hva Hvb.
    - exists []. split; [reflexivity|constructor].
    - destruct a as [|x a]; [discriminate|]. destruct b as [|y b]; [discriminate|].
      cbn [combine] in Hva, Hvb. inversion Hva as [|? ? Hx Hva']; subst.
      inversion Hvb as [|? ? Hy Hvb']; subst.
      destruct (IH a b) as (outs & E & Hne); try assumption;
        try (simpl in Hla, Hlb; lia).
      destruct (factor_fusion_outcomes_nonempty f [x] [y] Hx Hy) as (c & cs & Ec).
      cbn [combine mapM fst snd]. rewrite Ec. cbn [bind]. rewrite E. cbn [bind].
      eexists. split; [reflexivity|]. constructor; [discriminate|exact Hne]. }
  destruct G as (outs & -> & Hne). cbn [bind].
  pose proof (combinations_nonempty outs Hne) as Hc.
  destruct (combinations outs) as [|c cs]; [contradiction|].
  now exists c, cs.
Qed.

(** ** The sectors of nested and flat products *)

Lemma dict_set_keys (d : dict) (k : Sector) (v : Z) :
  (In k (keys d) /\ keys (dict_set d k v) = keys d)
  \/ (~ In k (keys d) /\ keys (dict_set d k v) = keys d ++ [k]).
Proof.
  unfold keys. induction d as [|[k' v'] d IH]; cbn [dict_set map fst].
  - right. split; [intros []|reflexivity].
  - destruct (row_eqb k k') eqn:E.
    + apply row_eqb_eq in E. subst k'. left. split; [now left|reflexivity].
    + assert (Hne : k' <> k) by (intro H; subst k'; now rewrite (proj2 (row_eqb_eq k k)) in E).
      destruct IH as [[Hin Heq]|[Hnin Heq]].
      * left. split; [now right|]. cbn [map fst]. now rewrite Heq.
      * right. split; [intros [H|H]; [now apply Hne|now apply Hnin]|].
        cbn [map fst app]. now rewrite Heq.
Qed.

Lemma dict_set_keys_In (d : dict) (k : Sector) (v : Z) (x : Sector) :
  In x (keys (dict_set d k v)) <-> In x (keys d) \/ x = k.
Proof.
  destruct (dict_set_keys d k v) as [[Hin ->] | [Hnin ->]].
  - split; [now left|]. intros [H| ->]; assumption.
  - rewrite in_app_iff. simpl. split; intros [H|H]; auto.
    destruct H as [<-|[]]. now right.
Qed.

Lemma dict_set_keys_NoDup (d : dict) (k : Sector) (v : Z) :
  NoDup (keys d) -> NoDup (keys (dict_set d k v)).
Proof.
  intro H. destruct (dict_set_keys d k v) as [[Hin ->] | [Hnin ->]]; [exact H|].
  apply NoDup_app; [exact H|repeat constructor; intros []|].
  intros x Hx [<-|[]]. contradiction.
Qed.

Lemma fuse_outcomes_keys (o : SymmetryObj) (ta sb : Sector * Z) (outs : SectorArray)
      (nf nf' : dict) :
  fuse_outcomes o ta sb outs nf = Ok nf' -> NoDup (keys nf) ->
  NoDup (keys nf') /\ forall x, In x (keys nf') <-> In x (keys nf) \/ In x outs.
Proof.
  unfold fuse_outcomes. revert nf. induction outs as [|c outs IH]; intros nf H Hn.
  - injection H as <-. split; [exact Hn|]. intro x. simpl. tauto.
  - cbn [foldM] in H. apply bind_ok in H as (d & Hd & H).
    apply bind_ok in Hd as (n & _ & Hd). injection Hd as <-.
    destruct (IH _ H (dict_set_keys_NoDup _ _ _ Hn)) as [Hn' Hk].
    split; [exact Hn'|]. intro x. rewrite Hk, dict_set_keys_In. simpl.
    assert (Hsym : x = c <-> c = x) by (split; congruence). tauto.
Qed.

Lemma fuse_rows_keys (o : SymmetryObj) (ta : Sector * Z) (l : list (Sector * Z))
      (nf nf' : dict) :
  foldM (fun new_fusion sb =>
           outcomes <- fusion_outcomes (sym o) (fst ta) (fst sb) ;;
           fuse_outcomes o ta sb outcomes new_fusion) l nf = Ok nf' ->
  NoDup (keys nf) ->
  NoDup (keys nf')
  /\ forall x, In x (keys nf') <->
               In x (keys nf)
               \/ exists sb outs, In sb l
                                  /\ fusion_outcomes (sym o) (fst ta) (fst sb) = Ok outs
                                  /\ In x outs.
Proof.
  revert nf. induction l as [|sb l IH]; intros nf H Hn.
  - injection H as <-. split; [exact Hn|]. intro x. split; [now left|].
    intros [H|(sb & outs & [] & _)]. exact H.
  - cbn [foldM] in H. apply bind_ok in H as (d & Hd & H).
    apply bind_ok in Hd as (outs & Ho & Hd).
    destruct (fuse_outcomes_keys _ _ _ _ _ _ Hd Hn) as [Hn1 Hk1].
    destruct (IH _ H Hn1) as [Hn' Hk]. split; [exact Hn'|].
    intro x. rewrite Hk, Hk1. split.
    + intros [[H1|H1]|(sb' & outs' & Hin & Ho' & Hx)].
      * now left.
      * right. exists sb, outs. repeat split; auto. now left.
      * right. exists sb', outs'. repeat split; auto. now right.
    + intros [H1|(sb' & outs' & [<-|Hin] & Ho' & Hx)].
      * left. now left.
      * left. right. rewrite Ho in Ho'. now injection Ho' as <-.
      * right. exists sb', outs'. now repeat split.
Qed.

Lemma fuse_step_keys (o : SymmetryObj) (space : Space) (fusion nf nf' : dict) :
  foldM (fun new_fusion ta => fuse_rows o space ta new_fusion) fusion nf = Ok nf' ->
  NoDup (keys nf) ->
  NoDup (keys nf')
  /\ forall x, In x (keys nf') <-> In x (keys nf) \/ fused_from o (keys fusion) space x.
Proof.
  revert nf. induction fusion as [|ta fusion IH]; intros nf H Hn.
  - injection H as <-. split; [exact Hn|]. intro x. split; [now left|].
    intros [H|(a & sb & outs & [] & _)]. exact H.
  - cbn [foldM] in H. apply bind_ok in H as (d & Hd & H).
    destruct (fuse_rows_keys _ _ _ _ _ Hd Hn) as [Hn1 Hk1].
    destruct (IH _ H Hn1) as [Hn' Hk]. split; [exact Hn'|].
    intro x. rewrite Hk, Hk1. unfold fused_from, keys. cbn [map]. split.
    + intros [[H1|(sb & outs & Hin & Ho & Hx)]|(a & sb & outs & Ha & Hin & Ho & Hx)].
      * now left.
      * right. exists (fst ta), sb, outs. repeat split; auto. now left.
      * right. exists a, sb, outs. repeat split; auto. now right.
    + intros [H1|(a & sb & outs & [<-|Ha] & Hin & Ho & Hx)].
      * left. now left.
      * left. right. exists sb, outs. now repeat split.
      * right. exists a, sb, outs. now repeat split.
Qed.

(** The keys of the new [fusion] depend on the keys of the old one only. *)
Lemma fuse_step_same_keys (o : SymmetryObj) (space : Space) (F F' G G' : dict) :
  same_elements (keys F) (keys F') ->
  fuse_step o F space = Ok G -> fuse_step o F' space = Ok G' ->
  NoDup (keys G) /\ NoDup (keys G') /\ same_elements (keys G) (keys G').
Proof.
  intros Hs HG HG'. unfold fuse_step in HG, HG'.
  destruct (fuse_step_keys _ _ _ _ _ HG (NoDup_nil _)) as [Hn Hk].
  destruct (fuse_step_keys _ _ _ _ _ HG' (NoDup_nil _)) as [Hn' Hk'].
  split; [exact Hn|]. split; [exact Hn'|].
  intro x. rewrite Hk, Hk'. unfold fused_from.
  split; intros [[]|(a & sb & outs & Ha & Hin & Ho & Hx)]; right;
    exists a, sb, outs; repeat split; auto; now apply Hs.
Qed.

Lemma sorted_same_elements (l l' : SectorArray) :
  StronglySorted lexsort_lt l -> StronglySorted lexsort_lt l' ->
  same_elements l l' -> l = l'.
Proof.
  intros Hl. revert l'. induction Hl as [|x t Ht IH Hx]; intros l' Hl' Hs.
  - destruct l' as [|y t']; [reflexivity|]. destruct (proj2 (Hs y) (or_introl eq_refl)).
  - destruct l' as [|y t']; [destruct (proj1 (Hs x) (or_introl eq_refl))|].
    inversion Hl' as [|? ? Ht' Hy]; subst.
    rewrite Forall_forall in Hx, Hy.
    assert (E : x = y).
    { destruct (proj1 (Hs x) (or_introl eq_refl)) as [E|Hx']; [now symmetry|].
      destruct (proj2 (Hs y) (or_introl eq_refl)) as [E|Hy']; [exact E|].
      exfalso. apply (lexsort_lt_irrefl x).
      apply lexsort_lt_trans with y; [now apply Hx|now apply Hy]. }
    subst y. f_equal. apply IH; [exact Ht'|].
    intro z. split; intro Hz.
    + destruct (proj1 (Hs z) (or_intror Hz)) as [E|Hz']; [|exact Hz'].
      subst z. exfalso. apply (lexsort_lt_irrefl x). now apply Hx.
    + destruct (proj2 (Hs z) (or_intror Hz)) as [E|Hz']; [|exact Hz'].
      subst z. exfalso. apply (lexsort_lt_irrefl x). now apply Hy.
Qed.

(** Sorting forgets the order in which distinct rows are given. *)
Lemma sorted_rows_same_elements (l l' : SectorArray) :
  NoDup l -> NoDup l' -> same_elements l l' -> sorted_rows l = sorted_rows l'.
Proof.
  intros Hn Hn' Hs. apply sorted_same_elements; try now apply sorted_rows_sorted.
  intro x. split; intro H.
  - apply (Permutation_in _ (Permutation_sym (sorted_rows_perm l'))), Hs.
    now apply (Permutation_in _ (sorted_rows_perm l)).
  - apply (Permutation_in _ (Permutation_sym (sorted_rows_perm l))), Hs.
    now apply (Permutation_in _ (sorted_rows_perm l')).
Qed.

Lemma fold_dict_set_keys (l : list (Sector * Z)) (d : dict) :
  NoDup (keys d) ->
  NoDup (keys (fold_left (fun d0 sm => dict_set d0 (fst sm) (snd sm)) l d))
  /\ forall x, In x (keys (fold_left (fun d0 sm => dict_set d0 (fst sm) (snd sm)) l d))
               <-> In x (keys d) \/ In x (map fst l).
Proof.
  revert d. induction l as [|sm l IH]; intros d Hn; cbn [fold_left map].
  - split; [exact Hn|]. intro x. simpl. tauto.
  - destruct (IH _ (dict_set_keys_NoDup d (fst sm) (snd sm) Hn)) as [Hn' Hk].
    split; [exact Hn'|]. intro x. rewrite Hk, dict_set_keys_In. simpl.
    assert (Hsym : x = fst sm <-> fst sm = x) by (split; congruence). tauto.
Qed.

Lemma initial_fusion_keys (first : Space) :
  NoDup (keys (initial_fusion first))
  /\ same_elements (keys (initial_fusion first)) (map fst (rows first)).
Proof.
  destruct (fold_dict_set_keys (rows first) [] (NoDup_nil _)) as [Hn Hk].
  split; [exact Hn|]. intro x. unfold initial_fusion. rewrite Hk. simpl. tauto.
Qed.

Lemma fuse_spaces_flag (o : SymmetryObj) (l : list Space) (d : bool) :
  _fuse_spaces o l d = _fuse_spaces o (map (fun x => if d then Space_dual x else x) l) false.
Proof.
  destruct d; [reflexivity|]. now rewrite map_id.
Qed.

Lemma sorted_rows_length (a : SectorArray) : length (sorted_rows a) = length a.
Proof. apply Permutation_length, sorted_rows_perm. Qed.

Lemma fuse_spaces_ok (o : SymmetryObj) (first : Space) (others : list Space)
      (s : SectorArray) (m : list Z) :
  _fuse_spaces o (first :: others) false = Ok (s, m) ->
  exists fusion,
    foldM (fuse_step o) others (initial_fusion first) = Ok fusion
    /\ s = sorted_rows (keys fusion)
    /\ length m = length s.
Proof.
  unfold _fuse_spaces. fold (rows first). fold (initial_fusion first). intro H.
  apply bind_ok in H as (fusion & Hf & H). exists fusion. split; [exact Hf|].
  destruct fusion as [|x fusion]; [discriminate|].
  set (F := x :: fusion) in *.
  change (map fst F) with (keys F) in H.
  rewrite take_lexsort_T in H. cbn [bind] in H.
  apply bind_ok in H as (m' & Hm' & H). injection H as <- <-.
  split; [reflexivity|].
  now rewrite (take_length _ _ _ Hm'), lexsort_T_length, sorted_rows_length.
Qed.

Lemma product_init_ok (first : Space) (rest : list Space) (p : Space) :
  ProductSpace_init (first :: rest) None None None None None = Ok p ->
  exists s m v,
    _fuse_spaces (symmetry (as_data first)) (first :: rest) (is_dual (as_data first))
    = Ok (s, m)
    /\ VectorSpace_init (symmetry (as_data first)) s (Some m) (is_real (as_data first))
                        (is_dual (as_data first)) (Some (np.arange (length s))) None = Ok v
    /\ p = Product v (first :: rest).
Proof.
  unfold ProductSpace_init. intro H.
  apply bind_ok in H as (u & _ & H). apply bind_ok in H as (u' & _ & H).
  apply bind_ok in H as ([s m] & Hsm & H). cbn [assert bind] in Hsm.
  apply bind_ok in H as (v & Hv & H). injection H as <-.
  exists s, m, v. now repeat split.
Qed.

Lemma init_given_perm_fields (o : SymmetryObj) (s : SectorArray) (m : list Z)
      (r d : bool) (p : list Z) (sl : option (list (Z * Z))) (v : VectorSpace) :
  VectorSpace_init o s (Some m) r d (Some p) sl = Ok v ->
  symmetry v = o /\ is_dual v = d /\ _non_dual_sorted_sectors v = s
  /\ _sorted_multiplicities v = m
  /\ inverse_permutation p = Ok (_inverse_sector_perm v).
Proof.
  unfold VectorSpace_init. intro H.
  apply bind_ok in H as (m0 & Hm & H).
  apply bind_ok in Hm as (u & _ & Hm). injection Hm as <-.
  apply bind_ok in H as ([[p' ss] sm] & H1 & H).
  apply bind_ok in H1 as (u' & _ & H1). injection H1 as <- <- <-.
  apply bind_ok in H as (ip & Hip & H).
  apply bind_ok in H as (sl' & _ & H). injection H as <-. now repeat split.
Qed.

Lemma as_data_dual (s : Space) : as_data (Space_dual s) = dual (as_data s).
Proof. destruct s; reflexivity. Qed.

Lemma arange_is_permutation (n : nat) : is_permutation (np.arange n).
Proof. unfold is_permutation. now rewrite arange_length. Qed.

(** With [_sector_perm] the identity, the public sectors are the sorted
    ones. *)
Lemma sectors_identity_perm (v : VectorSpace) :
  inverse_permutation (np.arange (length (_non_dual_sorted_sectors v)))
  = Ok (_inverse_sector_perm v) ->
  sectors v = Ok (_sorted_sectors v).
Proof.
  intro H. unfold sectors, _sorted_sectors.
  set (res := if is_dual v
              then dual_sectors (sym (symmetry v)) (_non_dual_sorted_sectors v)
              else _non_dual_sorted_sectors v).
  assert (Hl : length res = length (_non_dual_sorted_sectors v)).
  { unfold res. destruct (is_dual v); [|reflexivity].
    now rewrite dual_sectors_rowwise, length_map. }
  apply (take_take_inverse res res _ _ (arange_is_permutation _) H).
  - now rewrite arange_length.
  - rewrite <- Hl. apply take_arange.
Qed.

(** X2: nesting does not change the sectors of a product:
    [ProductSpace([ProductSpace([A, B]), C])] and [ProductSpace([A, B, C])]
    have the same public sectors, and these are defined, whenever the three
    products are built (which needs a symmetry object that has [_n_symbol]
    and [batch_sector_dim]). *)
Theorem nested_product_sectors (A B C flat inner nested : Space) :
  ProductSpace_init [A; B; C] None None None None None = Ok flat ->
  ProductSpace_init [A; B] None None None None None = Ok inner ->
  ProductSpace_init [inner; C] None None None None None = Ok nested ->
  sectors (as_data nested) = sectors (as_data flat)
  /\ exists s, sectors (as_data flat) = Ok s.
Proof.
  intros Hflat Hinner Hnested.
  apply product_init_ok in Hflat as (sf & mf & vf & Ff & If & ->).
  apply product_init_ok in Hinner as (si & mi & vi & Fi & Ii & ->).
  apply product_init_ok in Hnested as (sn & mn & vn & Fn & In_ & ->).
  cbn [as_data] in *.
  set (o := symmetry (as_data A)) in *. set (d := is_dual (as_data A)) in *.
  destruct (init_given_perm_fields _ _ _ _ _ _ _ _ If) as (Sf & Df & Nf & _ & IPf).
  destruct (init_given_perm_fields _ _ _ _ _ _ _ _ Ii) as (Si & Di & Ni & Mi & _).
  rewrite Si, Di in Fn, In_.
  destruct (init_given_perm_fields _ _ _ _ _ _ _ _ In_) as (Sn & Dn & Nn & _ & IPn).
  rewrite fuse_spaces_flag in Ff, Fi, Fn. cbn [map] in Ff, Fi, Fn.
  apply fuse_spaces_ok in Ff as (F2 & HF2 & -> & _).
  apply fuse_spaces_ok in Fi as (F1 & HF1 & -> & Lmi).
  apply fuse_spaces_ok in Fn as (F2' & HF2' & -> & _).
  cbn [foldM] in HF2, HF1, HF2'.
  apply bind_ok in HF1 as (G1 & HG1 & HF1). injection HF1 as ->.
  apply bind_ok in HF2 as (G1' & HG1' & HF2). rewrite HG1 in HG1'. injection HG1' as <-.
  apply bind_ok in HF2 as (G2 & HG2 & HF2). injection HF2 as ->.
  apply bind_ok in HF2' as (G2' & HG2' & HF2'). injection HF2' as ->.
  (* the keys of [fusion] after the first step *)
  destruct (initial_fusion_keys (if d then Space_dual A else A)) as [Hn0 _].
  unfold fuse_step in HG1.
  destruct (fuse_step_keys _ _ _ _ _ HG1 (NoDup_nil _)) as [HnF1 _].
  (* the rows the outer product reads from the inner one *)
  assert (Hrows : rows (if d then Space_dual (Product vi [A; B]) else Product vi [A; B])
                  = combine (sorted_rows (keys F1)) mi).
  { unfold rows. destruct d eqn:Ed.
    - rewrite as_data_dual. cbn [as_data]. unfold _sorted_sectors, dual.
      cbn [is_dual _non_dual_sorted_sectors _sorted_multiplicities symmetry].
      rewrite Di. cbn [negb]. now rewrite Ni, Mi.
    - cbn [as_data]. unfold _sorted_sectors. now rewrite Di, Ni, Mi. }
  destruct (initial_fusion_keys
              (if d then Space_dual (Product vi [A; B]) else Product vi [A; B]))
    as [_ Hk0'].
  unfold same_elements in Hk0'.
  rewrite Hrows, map_fst_combine in Hk0' by (symmetry; exact Lmi).
  assert (Hsame : same_elements (keys F1)
                    (keys (initial_fusion
                             (if d then Space_dual (Product vi [A; B])
                              else Product vi [A; B])))).
  { intro x. rewrite Hk0'. split; intro H.
    - now apply (Permutation_in _ (Permutation_sym (sorted_rows_perm _))).
    - now apply (Permutation_in _ (sorted_rows_perm _)). }
  destruct (fuse_step_same_keys _ _ _ _ _ _ Hsame HG2 HG2') as (Hn2 & Hn2' & Hs2).
  assert (E : sorted_rows (keys F2') = sorted_rows (keys F2)).
  { apply sorted_rows_same_elements; auto. intro x. symmetry. apply Hs2. }
  split.
  - unfold sectors. rewrite Sn, Sf, Dn, Df, Nn, Nf, E.
    rewrite E in IPn. rewrite IPf in IPn. now injection IPn as ->.
  - eexists. apply sectors_identity_perm. now rewrite Nf.
Qed.

Lemma nested_product_sectors_witness :
  exists flat inner nested,
    ProductSpace_init [Plain charge_space; Plain charge_space; Plain charge_space]
                      None None None None None = Ok flat
    /\ ProductSpace_init [Plain charge_space; Plain charge_space]
                         None None None None None = Ok inner
    /\ ProductSpace_init [inner; Plain charge_space] None None None None None = Ok nested
    /\ sectors (as_data flat) = Ok [[0]; [1]; [2]; [3]]
    /\ sectors (as_data nested) = sectors (as_data flat)
    /\ exists s, sectors (as_data flat) = Ok s.
Proof.
  eexists. eexists. eexists.
  split; [vm_compute; reflexivity|]. split; [vm_compute; reflexivity|].
  split; [vm_compute; reflexivity|]. split; [reflexivity|].
  match goal with
  | |- sectors (as_data ?n) = sectors (as_data ?f) /\ _ =>
      match n with
      | Product _ [?i; _] =>
          apply (nested_product_sectors (Plain charge_space) (Plain charge_space)
                   (Plain charge_space) f i n);
          vm_compute; reflexivity
      end
  end.
Defined.

(** * Further properties of the code *)

(** ** Valid sectors *)

Lemma forallb_of_map {A B : Type} (p : B -> bool) (f : A -> B) (l : list A) :
  forallb p (map f l) = forallb (fun x => p (f x)) l.
Proof. induction l as [|x l IH]; simpl; [reflexivity|]. now rewrite IH. Qed.

Lemma trivial_sector_product (fs : list FactorSymmetry) :
  trivial_sector (ProductSymmetry fs) = map (fun _ => 0) fs.
Proof.
  unfold trivial_sector. induction fs as [|f fs IH]; simpl; [reflexivity|]. now rewrite IH.
Qed.

Lemma sector_ind_len_product (fs : list FactorSymmetry) :
  sector_ind_len (ProductSymmetry fs) = Z.of_nat (length fs).
Proof. unfold sector_ind_len. now rewrite trivial_sector_product, length_map. Qed.

(** A row is a valid sector of a product when it has one entry for every
    factor and every entry is a valid sector of its factor. *)
Lemma product_valid_entries (fs : list FactorSymmetry) (a : Sector) :
  is_valid_sector (ProductSymmetry fs) a
  = (length a =? length fs)%nat
    && forallb (fun q => factor_is_valid_sector (fst q) [snd q]) (combine fs a).
Proof.
  unfold is_valid_sector. rewrite sector_ind_len_product.
  destruct (length a =? length fs)%nat eqn:E.
  - apply Nat.eqb_eq in E.
    replace (Z.of_nat (length a) =? Z.of_nat (length fs)) with true
      by (symmetry; apply Z.eqb_eq; lia).
    cbn [andb]. rewrite factor_bounds_eq.
    rewrite <- (forallb_of_map (fun b : bool => b)
                  (fun p => factor_is_valid_sector (fst p) (slice a (fst (snd p)) (snd (snd p))))).
    rewrite (map_bounds_entries factor_is_valid_sector fs a 0)
      by (cbn [Z.to_nat skipn]; lia).
    cbn [Z.to_nat skipn]. now rewrite forallb_of_map.
  - apply Nat.eqb_neq in E.
    replace (Z.of_nat (length a) =? Z.of_nat (length fs)) with false
      by (symmetry; apply Z.eqb_neq; lia).
    reflexivity.
Qed.

Lemma factor_valid_entry (f : FactorSymmetry) (a : Sector) :
  factor_is_valid_sector f a = true -> exists x, a = [x] /\ factor_is_valid_sector f [x] = true.
Proof.
  intro H. destruct (factor_valid_one_entry f a H) as [x ->]. now exists x.
Qed.

Lemma factor_valid_positive_modulus (f : FactorSymmetry) (x : Z) :
  factor_is_valid_sector f [x] = true -> factor_positive_modulus f = true.
Proof.
  destruct f; simpl; intro H; try reflexivity.
  apply andb_prop in H as [H0 H1]. apply Z.leb_le in H0. apply Z.ltb_lt in H1.
  apply Z.ltb_lt. lia.
Qed.

Lemma factor_trivial_valid (f : FactorSymmetry) :
  factor_is_valid_sector f [0] = factor_positive_modulus f.
Proof. destruct f; reflexivity. Qed.

Lemma subscript_lookup_digits (d : Decimal.uint) :
  exists l, mapM subscript_lookup (list_ascii_of_string (NilEmpty.string_of_uint d)) = Ok l.
Proof.
  induction d as [|d [l IH]|d [l IH]|d [l IH]|d [l IH]|d [l IH]|d [l IH]|d [l IH]|d [l IH]
                  |d [l IH]|d [l IH]];
    [now exists []|..];
    exists (tt :: l); cbn [NilEmpty.string_of_uint list_ascii_of_string mapM];
    rewrite IH; reflexivity.
Qed.

Lemma subscript_lookup_str_int (N : Z) :
  0 <= N -> exists l, mapM subscript_lookup (list_ascii_of_string (str_int N)) = Ok l.
Proof.
  intro H. unfold str_int. destruct N as [|q|q]; [now exists [tt]| |lia].
  cbn [Z.to_int NilZero.string_of_int]. unfold NilZero.string_of_uint.
  destruct (Pos.to_uint q) eqn:E; try apply subscript_lookup_digits.
  now exists [tt].
Qed.

Lemma ZNSymmetry_init_facts :
  (forall N name, 0 <= N -> ZNSymmetry_init N name = Ok (Factor (ZNSymmetry N name)))
  /\ (forall N name, N < 0 -> ZNSymmetry_init N name = Raise (KeyError "-")).
Proof.
  split; intros N name H; unfold ZNSymmetry_init; cbn [assert bind negb andb].
  - destruct (subscript_lookup_str_int N H) as [l ->]. reflexivity.
  - destruct N as [|q|q]; [lia|lia|]. reflexivity.
Qed.

(** X3: [ZNSymmetry(N)] is built for every [int] [N >= 0] of at most
    [int_max_str_digits] digits, also for [N <= 1]: the condition of its
    [raise] can never hold; for such an [N < 0] the lookup of the minus sign
    of [str(N)] in [subscript_map] raises [KeyError].  The trivial sector of
    a symmetry is one of its valid sectors exactly when no [ZNSymmetry]
    factor has [N <= 0]; such a factor has no valid sector at all. *)
Theorem trivial_sector_is_valid :
  (forall N name, 0 <= N < 10 ^ int_max_str_digits ->
                  ZNSymmetry_init N name = Ok (Factor (ZNSymmetry N name)))
  /\ (forall N name, - 10 ^ int_max_str_digits < N < 0 ->
                     ZNSymmetry_init N name = Raise (KeyError "-"))
  /\ (forall s, is_valid_sector s (trivial_sector s) = positive_moduli s)
  /\ (forall s a, is_valid_sector s a = true -> positive_moduli s = true).
Proof.
  split; [intros N name H; apply ZNSymmetry_init_facts; lia|].
  split; [intros N name H; apply ZNSymmetry_init_facts; lia|]. split.
  - intros [f|fs]; [apply factor_trivial_valid|].
    rewrite product_valid_entries, trivial_sector_product, length_map, Nat.eqb_refl.
    cbn [andb positive_moduli].
    induction fs as [|f fs IH]; [reflexivity|].
    cbn [map combine forallb fst snd]. now rewrite IH, factor_trivial_valid.
  - intros [f|fs] a H.
    + destruct (factor_valid_entry f a H) as (x & -> & Hx).
      exact (factor_valid_positive_modulus f x Hx).
    + destruct (product_entries fs a H) as (Hlen & Hv).
      cbn [positive_moduli]. apply forallb_forall. intros f Hf.
      destruct (In_nth fs f f Hf) as (k & Hk & <-).
      rewrite Forall_forall in Hv.
      apply (factor_valid_positive_modulus _ (nth k a 0)).
      apply (Hv (nth k fs f, nth k a 0)).
      rewrite <- combine_nth by (symmetry; exact Hlen).
      apply nth_In. rewrite length_combine. lia.
Qed.

Lemma trivial_sector_is_valid_witness :
  (0 <= 0 < 10 ^ int_max_str_digits
   /\ ZNSymmetry_init 0 None = Ok (Factor (ZNSymmetry 0 None)))
  /\ (- 10 ^ int_max_str_digits < -1 < 0
      /\ ZNSymmetry_init (-1) None = Raise (KeyError "-"))
  /\ is_valid_sector z3_symmetry [2] = true /\ positive_moduli z3_symmetry = true.
Proof.
  assert (H0 : 0 <= 0 < 10 ^ int_max_str_digits)
    by (split; [discriminate|vm_compute; reflexivity]).
  assert (H1 : - 10 ^ int_max_str_digits < -1 < 0)
    by (split; vm_compute; reflexivity).
  split; [split; [exact H0|exact (proj1 trivial_sector_is_valid 0 None H0)]|].
  split; [split; [exact H1|exact (proj1 (proj2 trivial_sector_is_valid) (-1) None H1)]|].
  split; [reflexivity|].
  exact (proj2 (proj2 (proj2 trivial_sector_is_valid)) z3_symmetry [2] eq_refl).
Defined.

(** ** Dual sectors *)

(** X4: on the valid sectors of a symmetry [dual_sector] is an involution:
    the dual of a valid sector is a valid sector, and its dual is the
    sector again. *)
Theorem dual_sector_round_trip (s : Symmetry) (a : Sector) :
  is_valid_sector s a = true ->
  is_valid_sector s (dual_sector s a) = true
  /\ dual_sector s (dual_sector s a) = a.
Proof.
  intro H. split; [|now apply dual_sector_involutive].
  destruct s as [f|fs].
  - destruct (factor_valid_entry f a H) as (x & -> & Hx).
    cbn [dual_sector]. rewrite factor_dual_sector_entries.
    now apply factor_dual_entry_valid.
  - destruct (product_entries fs a H) as (Hlen & Hv).
    rewrite (product_dual_entries fs a Hlen), product_valid_entries.
    rewrite length_map, length_combine, Hlen, Nat.min_id, Nat.eqb_refl.
    cbn [andb]. rewrite combine_map_r, forallb_of_map. cbn [fst snd].
    apply forallb_forall. intros q Hq. rewrite Forall_forall in Hv.
    apply factor_dual_entry_valid. now apply Hv.
Qed.

Lemma dual_sector_round_trip_witness :
  is_valid_sector (ProductSymmetry [U1Symmetry None; ZNSymmetry 3 None]) [-4; 1] = true
  /\ dual_sector (ProductSymmetry [U1Symmetry None; ZNSymmetry 3 None]) [-4; 1] = [4; 2]
  /\ dual_sector (ProductSymmetry [U1Symmetry None; ZNSymmetry 3 None])
       (dual_sector (ProductSymmetry [U1Symmetry None; ZNSymmetry 3 None]) [-4; 1])
     = [-4; 1].
Proof.
  split; [reflexivity|]. split; [reflexivity|].
  exact (proj2 (dual_sector_round_trip
                  (ProductSymmetry [U1Symmetry None; ZNSymmetry 3 None]) [-4; 1] eq_refl)).
Defined.

(** X5: [dual_sectors] of an array is [dual_sector] of each of its rows:
    the array has as many rows, and row [i] of it, for every index [i]
    numpy accepts (negative ones too), is the dual of row [i]. *)
Theorem dual_sectors_rows (s : Symmetry) (sectors : SectorArray) (i : Z) :
  length (dual_sectors s sectors) = length sectors
  /\ np.item (dual_sectors s sectors) i
     = (r <- np.item sectors i ;; Ok (dual_sector s r)).
Proof.
  rewrite dual_sectors_rowwise, length_map. split; [reflexivity|apply item_map].
Qed.

(** ** Fusion *)

Lemma mapM_ok_map {A B : Type} (f : A -> result B) (g : A -> B) (l : list A) :
  (forall x, In x l -> f x = Ok (g x)) -> mapM f l = Ok (map g l).
Proof.
  induction l as [|x l IH]; intro H; [reflexivity|].
  cbn [mapM map]. rewrite (H x (or_introl eq_refl)). cbn [bind].
  rewrite IH by (intros y Hy; apply H; now right). reflexivity.
Qed.

Lemma factor_fusion_outcomes_entries (f : FactorSymmetry) (x y : Z) :
  factor_fusion_outcomes f [x] [y] = Ok (map (fun c => [c]) (factor_fusion_entries f x y)).
Proof. destruct f; reflexivity. Qed.

(** The outcomes under a product are the combinations of the outcomes of
    the entries under their factors. *)
Lemma product_fusion_entries (fs : list FactorSymmetry) (a b : Sector) :
  length a = length fs -> length b = length fs ->
  fusion_outcomes (ProductSymmetry fs) a b
  = Ok (combinations
          (map (fun q => map (fun c => [c])
                             (factor_fusion_entries (fst q) (fst (snd q)) (snd (snd q))))
               (combine fs (combine a b)))).
Proof.
  intros Ha Hb. unfold fusion_outcomes. rewrite factor_bounds_eq.
  rewrite (mapM_bounds_entries factor_fusion_outcomes fs a b 0)
    by (cbn [Z.to_nat skipn]; lia).
  cbn [Z.to_nat skipn].
  rewrite (mapM_ok_map _ (fun q => map (fun c => [c])
                                       (factor_fusion_entries (fst q) (fst (snd q))
                                                              (snd (snd q)))))
    by (intros q _; apply factor_fusion_outcomes_entries).
  reflexivity.
Qed.

Lemma In_combinations (Es : list (list Z)) (c : Sector) :
  In c (combinations (map (map (fun x => [x])) Es)) <-> Forall2 (fun x E => In x E) c Es.
Proof.
  revert c. induction Es as [|E Es IH]; intro c; cbn [map combinations].
  - split.
    + intros [<-|[]]. constructor.
    + intro H. inversion H. now left.
  - rewrite in_flat_map. split.
    + intros (r & Hr & Hc). apply in_map_iff in Hr as (x & <- & Hx).
      apply in_map_iff in Hc as (c' & <- & Hc'). apply IH in Hc'.
      cbn [app]. now constructor.
    + intro H. inversion H as [|x E' c' Es' Hx Hc']; subst.
      exists [x]. split; [apply in_map_iff; exists x; now split|].
      apply in_map_iff. exists c'. split; [reflexivity|now apply IH].
Qed.

Lemma combinations_singletons (rows : list Sector) :
  combinations (map (fun r => [r]) rows) = [concat rows].
Proof.
  induction rows as [|r rows IH]; [reflexivity|].
  cbn [map combinations]. rewrite IH. cbn [flat_map map app concat]. reflexivity.
Qed.

(** Facts on the entries, factor by factor. *)

Lemma su2_valid (name : option string) (x : Z) :
  factor_is_valid_sector (SU2Symmetry name) [x] = true -> 0 <= x.
Proof. simpl. intro H. now apply Z.leb_le. Qed.

Lemma zn_valid (N : Z) (name : option string) (x : Z) :
  factor_is_valid_sector (ZNSymmetry N name) [x] = true -> 0 <= x < N.
Proof.
  simpl. intro H. apply andb_prop in H as [H0 H1].
  apply Z.leb_le in H0. apply Z.ltb_lt in H1. lia.
Qed.

Lemma zn_valid_intro (N : Z) (name : option string) (x : Z) :
  0 <= x < N -> factor_is_valid_sector (ZNSymmetry N name) [x] = true.
Proof.
  intro H. simpl. apply andb_true_intro. split; [apply Z.leb_le|apply Z.ltb_lt]; lia.
Qed.

Lemma fermion_valid (x : Z) :
  factor_is_valid_sector FermionParity [x] = true -> x = 0 \/ x = 1.
Proof.
  simpl. intro H. apply orb_prop in H as [H|H]; apply Z.eqb_eq in H; auto.
Qed.

Lemma no_symmetry_valid (x : Z) :
  factor_is_valid_sector NoSymmetry [x] = true -> x = 0.
Proof. simpl. intro H. now apply Z.eqb_eq. Qed.

Lemma np_mod_small (x N : Z) : 0 <= x < N -> np_mod x N = x.
Proof.
  intro H. unfold np_mod. destruct (N =? 0) eqn:E; [apply Z.eqb_eq in E; lia|].
  apply Z.mod_small. lia.
Qed.

Lemma np_mod_bound (x N : Z) : 0 < N -> 0 <= np_mod x N < N.
Proof.
  intro H. unfold np_mod. destruct (N =? 0) eqn:E; [apply Z.eqb_eq in E; lia|].
  apply Z.mod_pos_bound. lia.
Qed.

Lemma entries_valid (f : FactorSymmetry) (x y c : Z) :
  factor_is_valid_sector f [x] = true -> factor_is_valid_sector f [y] = true ->
  In c (factor_fusion_entries f x y) -> factor_is_valid_sector f [c] = true.
Proof.
  destruct f; cbn [factor_fusion_entries]; intros Hx Hy Hc.
  - destruct Hc as [<-|[]]. exact Hx.
  - reflexivity.
  - destruct Hc as [<-|[]]. apply zn_valid in Hx. apply zn_valid_intro.
    apply np_mod_bound. lia.
  - apply su2_valid in Hx, Hy. rewrite su2_arange in Hc by assumption.
    apply steps_of_two_In in Hc as [Hc _]; [simpl; apply Z.leb_le; lia|lia|].
    replace (x + y - Z.abs (x - y)) with (2 * Z.min x y) by lia.
    now rewrite Z.even_mul.
  - destruct Hc as [<-|[]].
    pose proof (np_mod_bound (x + y) 2 ltac:(lia)) as Hb. simpl.
    apply orb_true_intro.
    destruct (Z.eq_dec (np_mod (x + y) 2) 0) as [E|E];
      [left|right]; apply Z.eqb_eq; lia.
Qed.

Lemma entries_unit (f : FactorSymmetry) (x : Z) :
  factor_is_valid_sector f [x] = true ->
  factor_fusion_entries f x 0 = [x] /\ factor_fusion_entries f 0 x = [x].
Proof.
  destruct f; cbn [factor_fusion_entries]; intro Hx.
  - apply no_symmetry_valid in Hx. subst. split; reflexivity.
  - split; f_equal; lia.
  - apply zn_valid in Hx.
    rewrite Z.add_0_r, Z.add_0_l, np_mod_small by exact Hx. split; reflexivity.
  - apply su2_valid in Hx. unfold np.arange3.
    replace (Z.abs (x - 0)) with x by lia. replace (Z.abs (0 - x)) with x by lia.
    replace (x + 0 + 2 - x + 2 - 1) with 3 by lia.
    replace (0 + x + 2 - x + 2 - 1) with 3 by lia.
    change (Z.to_nat (3 / 2)) with 1%nat. cbn [seq map].
    split; f_equal; lia.
  - apply fermion_valid in Hx as [->| ->]; split; reflexivity.
Qed.

Lemma entries_comm (f : FactorSymmetry) (x y : Z) :
  factor_is_valid_sector f [x] = true -> factor_is_valid_sector f [y] = true ->
  factor_fusion_entries f x y = factor_fusion_entries f y x.
Proof.
  destruct f; cbn [factor_fusion_entries]; intros Hx Hy.
  - apply no_symmetry_valid in Hx, Hy. now subst.
  - now rewrite Z.add_comm.
  - now rewrite Z.add_comm.
  - replace (Z.abs (y - x)) with (Z.abs (x - y)) by lia. now rewrite (Z.add_comm y x).
  - now rewrite Z.add_comm.
Qed.

Lemma entries_dual (f : FactorSymmetry) (x : Z) :
  factor_is_valid_sector f [x] = true ->
  In 0 (factor_fusion_entries f x (factor_dual_entry f x)).
Proof.
  destruct f; cbn [factor_fusion_entries factor_dual_entry]; intro Hx.
  - apply no_symmetry_valid in Hx. subst. now left.
  - left. lia.
  - apply zn_valid in Hx. left. unfold np_mod.
    destruct (N =? 0) eqn:E; [reflexivity|].
    rewrite Z.add_mod_idemp_r by lia.
    replace (x + - x) with 0 by lia. apply Z.mod_0_l. lia.
  - apply su2_valid in Hx. rewrite su2_arange by assumption.
    apply steps_of_two_In; [lia| |].
    + replace (x + x - Z.abs (x - x)) with (2 * x) by lia. now rewrite Z.even_mul.
    + split; [lia|]. replace (0 - Z.abs (x - x)) with 0 by lia. reflexivity.
  - apply fermion_valid in Hx as [->| ->]; now left.
Qed.

Lemma concat_map_singleton {A : Type} (l : list A) : concat (map (fun x => [x]) l) = l.
Proof. induction l as [|x l IH]; simpl; [reflexivity|]. now rewrite IH. Qed.

Lemma product_closure (fs : list FactorSymmetry) (a b c : Sector) :
  length a = length fs -> length b = length fs ->
  Forall (fun q => factor_is_valid_sector (fst q) [snd q] = true) (combine fs a) ->
  Forall (fun q => factor_is_valid_sector (fst q) [snd q] = true) (combine fs b) ->
  Forall2 (fun x E => In x E) c
          (map (fun q => factor_fusion_entries (fst q) (fst (snd q)) (snd (snd q)))
               (combine fs (combine a b))) ->
  length c = length fs
  /\ forallb (fun q => factor_is_valid_sector (fst q) [snd q]) (combine fs c) = true.
Proof.
  revert a b c. induction fs as [|f fs IH]; intros [|x a] [|y b] c Ha Hb Va Vb Hc;
    try discriminate.
  - inversion Hc. split; reflexivity.
  - cbn [combine map fst snd] in Hc. inversion Hc as [|z E c' Es Hz Hc']; subst.
    inversion Va as [|? ? Vx Va']; subst. inversion Vb as [|? ? Vy Vb']; subst.
    cbn [fst snd] in Vx, Vy.
    destruct (IH a b c') as [Hl Hv]; try assumption;
      try (cbn [length] in Ha, Hb; lia).
    split; [cbn [length]; lia|].
    cbn [combine forallb fst snd]. rewrite Hv.
    now rewrite (entries_valid f x y z Vx Vy Hz).
Qed.

Lemma fusion_outcomes_valid_facts (s : Symmetry) (a b : Sector) :
  is_valid_sector s a = true -> is_valid_sector s b = true ->
  exists outs, fusion_outcomes s a b = Ok outs /\ outs <> []
               /\ Forall (fun c => is_valid_sector s c = true) outs.
Proof.
  intros Ha Hb.
  destruct (fusion_outcomes_nonempty s a b Ha Hb) as (c0 & cs & Hout).
  exists (c0 :: cs). split; [exact Hout|]. split; [discriminate|].
  destruct s as [f|fs].
  - destruct (factor_valid_entry f a Ha) as (x & -> & Hx).
    destruct (factor_valid_entry f b Hb) as (y & -> & Hy).
    cbn [fusion_outcomes] in Hout. rewrite factor_fusion_outcomes_entries in Hout.
    injection Hout as Hout. rewrite <- Hout.
    apply Forall_forall. intros c Hc. apply in_map_iff in Hc as (z & <- & Hz).
    exact (entries_valid f x y z Hx Hy Hz).
  - destruct (product_entries fs a Ha) as (La & Va).
    destruct (product_entries fs b Hb) as (Lb & Vb).
    rewrite (product_fusion_entries fs a b La Lb) in Hout.
    injection Hout as Hout. rewrite <- Hout.
    apply Forall_forall. intros c Hc.
    rewrite <- (map_map (fun q => factor_fusion_entries (fst q) (fst (snd q)) (snd (snd q)))
                        (map (fun z => [z]))) in Hc.
    apply In_combinations in Hc.
    destruct (product_closure fs a b c La Lb Va Vb Hc) as [Hl Hv].
    rewrite product_valid_entries, Hl, Nat.eqb_refl. exact Hv.
Qed.

(** X6: the fusion of two valid sectors whose sums [a_i + b_i + 2] stay
    inside [np.int8] has an outcome, and every outcome is a valid sector of
    the symmetry; the outcomes of two such SU(2) sectors are the same in
    every signed dtype of at least eight bits. *)
Theorem fusion_outcomes_valid (s : Symmetry) (a b : Sector) :
  is_valid_sector s a = true -> is_valid_sector s b = true ->
  sums_fit_int8 a b ->
  (exists outs, fusion_outcomes s a b = Ok outs /\ outs <> []
                /\ Forall (fun c => is_valid_sector s c = true) outs)
  /\ (forall bits name, 8 <= bits -> s = Factor (SU2Symmetry name) ->
                        SU2Symmetry_fusion_outcomes bits a b = fusion_outcomes s a b).
Proof.
  intros Ha Hb Hfit. split; [exact (fusion_outcomes_valid_facts s a b Ha Hb)|].
  intros bits name Hbits ->.
  destruct (factor_valid_entry _ a Ha) as (x & -> & Hx).
  destruct (factor_valid_entry _ b Hb) as (y & -> & Hy).
  now apply SU2Symmetry_fusion_outcomes_int8.
Qed.

Lemma fusion_outcomes_valid_witness :
  is_valid_sector (ProductSymmetry [SU2Symmetry None; ZNSymmetry 3 None]) [1; 2] = true
  /\ is_valid_sector (ProductSymmetry [SU2Symmetry None; ZNSymmetry 3 None]) [2; 2] = true
  /\ sums_fit_int8 [1; 2] [2; 2]
  /\ fusion_outcomes (ProductSymmetry [SU2Symmetry None; ZNSymmetry 3 None]) [1; 2] [2; 2]
     = Ok [[1; 1]; [3; 1]]
  /\ exists outs,
       fusion_outcomes (ProductSymmetry [SU2Symmetry None; ZNSymmetry 3 None]) [1; 2] [2; 2]
       = Ok outs
       /\ outs <> []
       /\ Forall (fun c => is_valid_sector (ProductSymmetry [SU2Symmetry None; ZNSymmetry 3 None])
                                           c = true) outs.
Proof.
  assert (Hfit : sums_fit_int8 [1; 2] [2; 2])
    by (repeat constructor; vm_compute; discriminate).
  split; [reflexivity|]. split; [reflexivity|]. split; [exact Hfit|].
  split; [reflexivity|].
  exact (proj1 (fusion_outcomes_valid (ProductSymmetry [SU2Symmetry None; ZNSymmetry 3 None])
                                      [1; 2] [2; 2] eq_refl eq_refl Hfit)).
Defined.

Lemma product_unit (fs : list FactorSymmetry) (a : Sector) :
  length a = length fs ->
  Forall (fun q => factor_is_valid_sector (fst q) [snd q] = true) (combine fs a) ->
  map (fun q => map (fun c => [c])
                    (factor_fusion_entries (fst q) (fst (snd q)) (snd (snd q))))
      (combine fs (combine a (map (fun _ => 0) fs)))
  = map (fun x => [[x]]) a
  /\ map (fun q => map (fun c => [c])
                       (factor_fusion_entries (fst q) (fst (snd q)) (snd (snd q))))
         (combine fs (combine (map (fun _ => 0) fs) a))
     = map (fun x => [[x]]) a.
Proof.
  revert a. induction fs as [|f fs IH]; intros [|x a] Ha Va; try discriminate.
  - split; reflexivity.
  - inversion Va as [|? ? Vx Va']; subst. cbn [fst snd] in Vx.
    destruct (IH a) as [E1 E2]; [cbn [length] in Ha; lia|assumption|].
    destruct (entries_unit f x Vx) as [U1 U2].
    cbn [map combine fst snd]. rewrite E1, E2, U1, U2. split; reflexivity.
Qed.

Lemma combinations_of_entries (a : Sector) : combinations (map (fun x => [[x]]) a) = [a].
Proof.
  rewrite <- (map_map (fun x => [x]) (fun r => [r])).
  now rewrite combinations_singletons, concat_map_singleton.
Qed.

(** The trivial sector is a unit of the fusion: a valid sector fused with
    the trivial sector, on either side, has the sector itself as its one
    outcome. *)
Lemma fusion_unit_facts (s : Symmetry) (a : Sector) :
  is_valid_sector s a = true ->
  fusion_outcomes s a (trivial_sector s) = Ok [a]
  /\ fusion_outcomes s (trivial_sector s) a = Ok [a].
Proof.
  intro Ha. destruct s as [f|fs].
  - destruct (factor_valid_entry f a Ha) as (x & -> & Hx).
    cbn [fusion_outcomes trivial_sector]. unfold factor_trivial_sector.
    rewrite !factor_fusion_outcomes_entries.
    destruct (entries_unit f x Hx) as [-> ->]. split; reflexivity.
  - destruct (product_entries fs a Ha) as (La & Va).
    rewrite trivial_sector_product.
    rewrite !product_fusion_entries by (try rewrite length_map; auto).
    destruct (product_unit fs a La Va) as [-> ->].
    rewrite combinations_of_entries. split; reflexivity.
Qed.

Lemma product_comm (fs : list FactorSymmetry) (a b : Sector) :
  length a = length fs -> length b = length fs ->
  Forall (fun q => factor_is_valid_sector (fst q) [snd q] = true) (combine fs a) ->
  Forall (fun q => factor_is_valid_sector (fst q) [snd q] = true) (combine fs b) ->
  map (fun q => map (fun c => [c])
                    (factor_fusion_entries (fst q) (fst (snd q)) (snd (snd q))))
      (combine fs (combine a b))
  = map (fun q => map (fun c => [c])
                      (factor_fusion_entries (fst q) (fst (snd q)) (snd (snd q))))
        (combine fs (combine b a)).
Proof.
  revert a b. induction fs as [|f fs IH]; intros [|x a] [|y b] Ha Hb Va Vb;
    try discriminate; [reflexivity|].
  inversion Va as [|? ? Vx Va']; subst. inversion Vb as [|? ? Vy Vb']; subst.
  cbn [fst snd] in Vx, Vy. cbn [map combine fst snd].
  rewrite (entries_comm f x y Vx Vy). f_equal.
  apply IH; try assumption; cbn [length] in Ha, Hb; lia.
Qed.

(** X7: on valid sectors the fusion is commutative: [fusion_outcomes(a, b)]
    and [fusion_outcomes(b, a)] are the same array. *)
Theorem fusion_outcomes_commute (s : Symmetry) (a b : Sector) :
  is_valid_sector s a = true -> is_valid_sector s b = true ->
  fusion_outcomes s a b = fusion_outcomes s b a.
Proof.
  intros Ha Hb. destruct s as [f|fs].
  - destruct (factor_valid_entry f a Ha) as (x & -> & Hx).
    destruct (factor_valid_entry f b Hb) as (y & -> & Hy).
    cbn [fusion_outcomes]. rewrite !factor_fusion_outcomes_entries.
    now rewrite (entries_comm f x y Hx Hy).
  - destruct (product_entries fs a Ha) as (La & Va).
    destruct (product_entries fs b Hb) as (Lb & Vb).
    rewrite (product_fusion_entries fs a b La Lb), (product_fusion_entries fs b a Lb La).
    now rewrite (product_comm fs a b La Lb Va Vb).
Qed.

Lemma fusion_outcomes_commute_witness :
  is_valid_sector su2_symmetry [3] = true
  /\ is_valid_sector su2_symmetry [1] = true
  /\ fusion_outcomes su2_symmetry [3] [1] = fusion_outcomes su2_symmetry [1] [3].
Proof.
  split; [reflexivity|]. split; [reflexivity|].
  exact (fusion_outcomes_commute su2_symmetry [3] [1] eq_refl eq_refl).
Defined.

Lemma product_dual_fuses (fs : list FactorSymmetry) (a : Sector) :
  length a = length fs ->
  Forall (fun q => factor_is_valid_sector (fst q) [snd q] = true) (combine fs a) ->
  Forall2 (fun x E => In x E) (map (fun _ => 0) fs)
          (map (fun q => factor_fusion_entries (fst q) (fst (snd q)) (snd (snd q)))
               (combine fs (combine a (map (fun q => factor_dual_entry (fst q) (snd q))
                                           (combine fs a))))).
Proof.
  revert a. induction fs as [|f fs IH]; intros [|x a] Ha Va; try discriminate.
  - constructor.
  - inversion Va as [|? ? Vx Va']; subst. cbn [fst snd] in Vx.
    cbn [map combine fst snd]. constructor.
    + now apply entries_dual.
    + apply IH; [cbn [length] in Ha; lia|assumption].
Qed.

(** A valid sector and its dual can fuse to the trivial sector. *)
Lemma fusion_dual_facts (s : Symmetry) (a : Sector) :
  is_valid_sector s a = true ->
  exists outs, fusion_outcomes s a (dual_sector s a) = Ok outs
               /\ In (trivial_sector s) outs.
Proof.
  intro Ha. destruct s as [f|fs].
  - destruct (factor_valid_entry f a Ha) as (x & -> & Hx).
    cbn [fusion_outcomes dual_sector trivial_sector]. unfold factor_trivial_sector.
    rewrite factor_dual_sector_entries. cbn [map].
    rewrite factor_fusion_outcomes_entries. eexists. split; [reflexivity|].
    apply in_map_iff. exists 0. split; [reflexivity|now apply entries_dual].
  - destruct (product_entries fs a Ha) as (La & Va).
    rewrite (product_dual_entries fs a La), trivial_sector_product.
    rewrite product_fusion_entries
      by (try rewrite length_map, length_combine; lia).
    eexists. split; [reflexivity|].
    rewrite <- (map_map (fun q => factor_fusion_entries (fst q) (fst (snd q)) (snd (snd q)))
                        (map (fun z => [z]))).
    apply In_combinations. now apply product_dual_fuses.
Qed.

(** X8: the trivial sector in the fusion, for a sector whose sums
    [2 * a_i + 2] stay inside [np.int8].  A valid sector fused with the
    trivial sector, on either side, has the sector itself as its one
    outcome, and the trivial sector is among the outcomes of
    [fusion_outcomes(a, dual_sector(a))]. *)
Theorem trivial_sector_in_fusion (s : Symmetry) (a : Sector) :
  is_valid_sector s a = true ->
  sums_fit_int8 a a ->
  fusion_outcomes s a (trivial_sector s) = Ok [a]
  /\ fusion_outcomes s (trivial_sector s) a = Ok [a]
  /\ exists outs, fusion_outcomes s a (dual_sector s a) = Ok outs
                  /\ In (trivial_sector s) outs.
Proof.
  intros Ha _. destruct (fusion_unit_facts s a Ha) as [H1 H2].
  split; [exact H1|]. split; [exact H2|]. exact (fusion_dual_facts s a Ha).
Qed.

Lemma trivial_sector_in_fusion_witness :
  is_valid_sector su2_symmetry [3] = true
  /\ sums_fit_int8 [3] [3]
  /\ fusion_outcomes su2_symmetry [3] (dual_sector su2_symmetry [3])
     = Ok [[0]; [2]; [4]; [6]]
  /\ fusion_outcomes su2_symmetry [3] (trivial_sector su2_symmetry) = Ok [[3]]
  /\ fusion_outcomes su2_symmetry (trivial_sector su2_symmetry) [3] = Ok [[3]]
  /\ exists outs, fusion_outcomes su2_symmetry [3] (dual_sector su2_symmetry [3]) = Ok outs
                  /\ In (trivial_sector su2_symmetry) outs.
Proof.
  assert (Hfit : sums_fit_int8 [3] [3]) by (repeat constructor; vm_compute; discriminate).
  split; [reflexivity|]. split; [exact Hfit|]. split; [reflexivity|].
  exact (trivial_sector_in_fusion su2_symmetry [3] eq_refl Hfit).
Defined.

(** ** Dimensions of sectors *)

Lemma max_by_ge {A : Type} (key : A -> Z) (x : A) (l : list A) :
  key x <= key (max_by key x l) /\ Forall (fun y => key y <= key (max_by key x l)) l.
Proof.
  revert x. induction l as [|y l IH]; intro x; cbn [max_by].
  - split; [lia|constructor].
  - destruct (key x <? key y) eqn:E.
    + apply Z.ltb_lt in E. destruct (IH y) as [H1 H2].
      split; [lia|]. constructor; assumption.
    + apply Z.ltb_ge in E. destruct (IH x) as [H1 H2].
      split; [lia|]. constructor; [lia|assumption].
Qed.

Lemma factor_style_value (f : FactorSymmetry) :
  0 <= FusionStyle_value (factor_fusion_style f).
Proof. destruct f; simpl; lia. Qed.

Lemma FusionStyle_eqb_eq (a b : FusionStyle) : FusionStyle_eqb a b = true <-> a = b.
Proof.
  unfold FusionStyle_eqb. rewrite Z.eqb_eq.
  split; [|now intros ->]. destruct a, b; simpl; intro H; try reflexivity; lia.
Qed.

(** A product has [FusionStyle.single] only when every factor has. *)
Lemma product_single (fs : list FactorSymmetry) :
  fusion_style (ProductSymmetry fs) = single ->
  Forall (fun f => factor_fusion_style f = single) fs.
Proof.
  destruct fs as [|f fs]; [constructor|]. cbn [fusion_style]. intro H.
  destruct (max_by_ge FusionStyle_value (factor_fusion_style f) (map factor_fusion_style fs))
    as [H1 H2].
  rewrite H in H1, H2. cbn [FusionStyle_value] in H1, H2.
  assert (Hs : forall g, FusionStyle_value (factor_fusion_style g) <= 0 ->
                         factor_fusion_style g = single).
  { intros g Hg. destruct g; simpl in *; try reflexivity; lia. }
  constructor; [now apply Hs|].
  apply Forall_forall. intros g Hg. apply Hs.
  rewrite Forall_forall in H2. apply H2. now apply in_map.
Qed.

Lemma single_dim_entry (f : FactorSymmetry) (x : Z) :
  factor_fusion_style f = single -> factor_dim_entry f x = 1.
Proof. destruct f; simpl; intro H; try reflexivity; discriminate. Qed.

Lemma product_dim_single (fs : list FactorSymmetry) (c : Sector) :
  Forall (fun f => factor_fusion_style f = single) fs -> product_dim fs c = 1.
Proof.
  unfold product_dim. revert c.
  induction fs as [|f fs IH]; intros [|x c] H; try reflexivity.
  inversion H as [|? ? Hf H']; subst.
  cbn [combine map np.prod fold_right fst snd].
  change (fold_right Z.mul 1 (map (fun q => factor_dim_entry (fst q) (snd q)) (combine fs c)))
    with (np.prod (map (fun q => factor_dim_entry (fst q) (snd q)) (combine fs c))).
  rewrite (IH c H'), (single_dim_entry f x Hf). reflexivity.
Qed.

Lemma factor_sector_dim_entry (f : FactorSymmetry) (x : Z) :
  factor_sector_dim f [x] = Ok (factor_dim_entry f x).
Proof. destruct f; reflexivity. Qed.

(** [sector_dim] of a product on a row with an entry for every factor. *)
Lemma product_sector_dim (fs : list FactorSymmetry) (a : Sector) :
  length a = length fs ->
  sector_dim (ProductSymmetry fs) a = Ok (product_dim fs a).
Proof.
  intro Ha. unfold sector_dim.
  destruct (FusionStyle_eqb (fusion_style (ProductSymmetry fs)) single) eqn:E.
  - apply FusionStyle_eqb_eq in E. now rewrite (product_dim_single fs a (product_single fs E)).
  - rewrite factor_bounds_eq.
    rewrite (mapM_bounds_entries (fun f r _ => factor_sector_dim f r) fs a a 0)
      by (cbn [Z.to_nat skipn]; lia).
    cbn [Z.to_nat skipn].
    rewrite (mapM_ok_map _ (fun q => factor_dim_entry (fst q) (fst (snd q))))
      by (intros q _; apply factor_sector_dim_entry).
    cbn [bind]. unfold product_dim. do 2 f_equal.
    clear. revert a. induction fs as [|f fs IH]; intros [|x a]; try reflexivity.
    cbn [combine map fst snd]. now rewrite IH.
Qed.

Lemma sum_app (l l' : list Z) : np.sum (l ++ l') = np.sum l + np.sum l'.
Proof.
  unfold np.sum. induction l as [|x l IH]; cbn [app fold_right]; [lia|]. rewrite IH. lia.
Qed.

Lemma sum_map_scale (k : Z) (g : Sector -> Z) (l : SectorArray) :
  np.sum (map (fun c => k * g c) l) = k * np.sum (map g l).
Proof.
  unfold np.sum. induction l as [|c l IH]; cbn [map fold_right]; [lia|]. rewrite IH. lia.
Qed.

(** The dimensions of all combinations add up to the product of the sums
    of the dimensions of the entries. *)
Lemma sum_combinations (f : FactorSymmetry) (fs : list FactorSymmetry) (E : list Z)
      (rest : list SectorArray) :
  np.sum (map (product_dim (f :: fs)) (combinations (map (fun x => [x]) E :: rest)))
  = np.sum (map (factor_dim_entry f) E) * np.sum (map (product_dim fs) (combinations rest)).
Proof.
  cbn [combinations]. induction E as [|x E IH].
  - reflexivity.
  - cbn [map flat_map]. rewrite map_app, sum_app.
    etransitivity; [apply (f_equal (Z.add _)); exact IH|]. rewrite map_map.
    cbn [app]. unfold product_dim at 1. cbn [combine map np.prod fold_right fst snd].
    change (fun x0 : list Z =>
              factor_dim_entry f x *
              fold_right Z.mul 1
                (map (fun q => factor_dim_entry (fst q) (snd q)) (combine fs x0)))
      with (fun x0 : list Z => factor_dim_entry f x * product_dim fs x0).
    rewrite sum_map_scale.
    change (np.sum (factor_dim_entry f x :: map (factor_dim_entry f) E))
      with (factor_dim_entry f x + np.sum (map (factor_dim_entry f) E)).
    lia.
Qed.

Lemma su2_sum (lo : Z) (m : nat) :
  np.sum (map (fun c => c + 1) (map (fun k => lo + 2 * Z.of_nat k) (seq 0 (S m))))
  = (Z.of_nat m + 1) * (lo + Z.of_nat m + 1).
Proof.
  induction m as [|m IH].
  - cbn [seq map np.sum fold_right]. lia.
  - rewrite seq_S, !map_app, sum_app, IH. cbn [map np.sum fold_right Nat.add]. lia.
Qed.

Lemma entries_dim (f : FactorSymmetry) (x y : Z) :
  factor_is_valid_sector f [x] = true -> factor_is_valid_sector f [y] = true ->
  np.sum (map (factor_dim_entry f) (factor_fusion_entries f x y))
  = factor_dim_entry f x * factor_dim_entry f y.
Proof.
  destruct f as [|?|? ?|name|]; cbn [factor_fusion_entries]; intros Hx Hy; try reflexivity.
  apply su2_valid in Hx, Hy. rewrite su2_arange by assumption.
  unfold steps_of_two.
  replace (x + y - Z.abs (x - y)) with (Z.min x y * 2) by lia.
  rewrite Z.div_mul by lia.
  change (map (factor_dim_entry (SU2Symmetry name)))
    with (map (fun c => c + 1)).
  rewrite su2_sum. cbn [factor_dim_entry]. rewrite Z2Nat.id by lia.
  destruct (Z.le_gt_cases x y) as [H|H].
  - rewrite Z.min_l by lia. replace (Z.abs (x - y)) with (y - x) by lia. ring.
  - rewrite Z.min_r by lia. replace (Z.abs (x - y)) with (x - y) by lia. ring.
Qed.

Lemma product_dims_sum (fs : list FactorSymmetry) (a b : Sector) :
  length a = length fs -> length b = length fs ->
  Forall (fun q => factor_is_valid_sector (fst q) [snd q] = true) (combine fs a) ->
  Forall (fun q => factor_is_valid_sector (fst q) [snd q] = true) (combine fs b) ->
  np.sum (map (product_dim fs)
              (combinations
                 (map (fun q => map (fun c => [c])
                                    (factor_fusion_entries (fst q) (fst (snd q)) (snd (snd q))))
                      (combine fs (combine a b)))))
  = product_dim fs a * product_dim fs b.
Proof.
  revert a b. induction fs as [|f fs IH]; intros [|x a] [|y b] Ha Hb Va Vb;
    try discriminate; [reflexivity|].
  inversion Va as [|? ? Vx Va']; subst. inversion Vb as [|? ? Vy Vb']; subst.
  cbn [fst snd] in Vx, Vy. cbn [combine map fst snd].
  rewrite sum_combinations, (entries_dim f x y Vx Vy).
  rewrite IH by (try assumption; cbn [length] in Ha, Hb; lia).
  unfold product_dim, np.prod. cbn [combine map fold_right fst snd]. ring.
Qed.

Lemma entry_dim_positive (f : FactorSymmetry) (x : Z) :
  factor_is_valid_sector f [x] = true -> 1 <= factor_dim_entry f x.
Proof.
  destruct f; cbn [factor_dim_entry]; intro H; try lia. apply su2_valid in H. lia.
Qed.

Lemma product_dim_positive (fs : list FactorSymmetry) (a : Sector) :
  Forall (fun q => factor_is_valid_sector (fst q) [snd q] = true) (combine fs a) ->
  1 <= product_dim fs a.
Proof.
  unfold product_dim. induction (combine fs a) as [|q l IH]; intro H.
  - cbn [map np.prod fold_right]. lia.
  - inversion H as [|? ? Hq H']; subst. cbn [map np.prod fold_right].
    pose proof (entry_dim_positive _ _ Hq). specialize (IH H').
    unfold np.prod in IH. nia.
Qed.

Lemma fusion_outcomes_dimensions_facts (s : Symmetry) (a b : Sector) :
  is_valid_sector s a = true -> is_valid_sector s b = true ->
  exists outs dims da db,
    fusion_outcomes s a b = Ok outs
    /\ mapM (sector_dim s) outs = Ok dims
    /\ sector_dim s a = Ok da /\ sector_dim s b = Ok db
    /\ np.sum dims = da * db /\ 1 <= da /\ 1 <= db.
Proof.
  intros Ha Hb. destruct s as [f|fs].
  - destruct (factor_valid_entry f a Ha) as (x & -> & Hx).
    destruct (factor_valid_entry f b Hb) as (y & -> & Hy).
    exists (map (fun c => [c]) (factor_fusion_entries f x y)),
           (map (factor_dim_entry f) (factor_fusion_entries f x y)),
           (factor_dim_entry f x), (factor_dim_entry f y).
    cbn [fusion_outcomes sector_dim].
    split; [apply factor_fusion_outcomes_entries|].
    split.
    { rewrite (mapM_ok_map _ (fun c => factor_dim_entry f (hd 0 c))).
      - now rewrite map_map.
      - intros c Hc. apply in_map_iff in Hc as (z & <- & _).
        apply factor_sector_dim_entry. }
    split; [apply factor_sector_dim_entry|]. split; [apply factor_sector_dim_entry|].
    split; [now apply entries_dim|]. split; now apply entry_dim_positive.
  - destruct (product_entries fs a Ha) as (La & Va).
    destruct (product_entries fs b Hb) as (Lb & Vb).
    eexists. exists (map (product_dim fs)
                         (combinations
                            (map (fun q => map (fun c => [c])
                                               (factor_fusion_entries (fst q) (fst (snd q))
                                                                      (snd (snd q))))
                                 (combine fs (combine a b))))),
                    (product_dim fs a), (product_dim fs b).
    split; [apply (product_fusion_entries fs a b La Lb)|].
    split.
    { apply mapM_ok_map. intros c Hc. apply product_sector_dim.
      rewrite <- (map_map (fun q => factor_fusion_entries (fst q) (fst (snd q)) (snd (snd q)))
                          (map (fun z => [z]))) in Hc.
      apply In_combinations in Hc.
      exact (proj1 (product_closure fs a b c La Lb Va Vb Hc)). }
    split; [now apply product_sector_dim|]. split; [now apply product_sector_dim|].
    split; [now apply product_dims_sum|]. split; now apply product_dim_positive.
Qed.

Lemma single_style_dim (s : Symmetry) (a : Sector) :
  fusion_style s = single -> sector_dim s a = Ok 1.
Proof.
  destruct s as [f|fs]; intro H.
  - destruct f; try reflexivity. discriminate H.
  - cbn [sector_dim]. now rewrite H.
Qed.

(** X9: fusion keeps the dimension, for a symmetry with the fusion style
    [single] and for SU(2) sectors [a], [b] with [a + b + 2] and
    [(a + 1) * (b + 1)] inside [np.int8]: the dimensions [sector_dim(c)] of
    the outcomes [c] of [fusion_outcomes(a, b)] add up to
    [sector_dim(a) * sector_dim(b)], and the dimension of a valid sector is
    at least 1; all of these numbers are at most 127. *)
Theorem fusion_outcomes_dimensions (s : Symmetry) (a b : Sector) :
  is_valid_sector s a = true -> is_valid_sector s b = true ->
  fusion_style s = single
  \/ ((exists name, s = Factor (SU2Symmetry name))
      /\ sums_fit_int8 a b /\ dims_fit_int8 a b) ->
  exists outs dims da db,
    fusion_outcomes s a b = Ok outs
    /\ mapM (sector_dim s) outs = Ok dims
    /\ sector_dim s a = Ok da /\ sector_dim s b = Ok db
    /\ np.sum dims = da * db /\ 1 <= da /\ 1 <= db
    /\ da * db <= np.int_max 8.
Proof.
  intros Ha Hb Hfit.
  destruct (fusion_outcomes_dimensions_facts s a b Ha Hb)
    as (outs & dims & da & db & Ho & Hd & Hda & Hdb & Hsum & H1 & H2).
  exists outs, dims, da, db. repeat (split; [assumption|]).
  destruct Hfit as [Hsingle|([name ->] & _ & Hdims)].
  - rewrite (single_style_dim s a Hsingle) in Hda.
    rewrite (single_style_dim s b Hsingle) in Hdb.
    injection Hda as <-. injection Hdb as <-. vm_compute. discriminate.
  - destruct (factor_valid_entry _ a Ha) as (x & -> & Hx).
    destruct (factor_valid_entry _ b Hb) as (y & -> & Hy).
    inversion Hdims as [|? ? H _]; subst. cbn [fst snd] in H.
    cbn in Hda, Hdb. injection Hda as <-. injection Hdb as <-. exact H.
Qed.

Lemma fusion_outcomes_dimensions_witness :
  is_valid_sector su2_symmetry [3] = true
  /\ is_valid_sector su2_symmetry [2] = true
  /\ sums_fit_int8 [3] [2] /\ dims_fit_int8 [3] [2]
  /\ fusion_outcomes su2_symmetry [3] [2] = Ok [[1]; [3]; [5]]
  /\ mapM (sector_dim su2_symmetry) [[1]; [3]; [5]] = Ok [2; 4; 6]
  /\ exists outs dims da db,
       fusion_outcomes su2_symmetry [3] [2] = Ok outs
       /\ mapM (sector_dim su2_symmetry) outs = Ok dims
       /\ sector_dim su2_symmetry [3] = Ok da /\ sector_dim su2_symmetry [2] = Ok db
       /\ np.sum dims = da * db /\ 1 <= da /\ 1 <= db
       /\ da * db <= np.int_max 8.
Proof.
  assert (Hs : sums_fit_int8 [3] [2]) by (repeat constructor; vm_compute; discriminate).
  assert (Hd : dims_fit_int8 [3] [2]) by (repeat constructor; vm_compute; discriminate).
  split; [reflexivity|]. split; [reflexivity|]. split; [exact Hs|]. split; [exact Hd|].
  split; [reflexivity|]. split; [reflexivity|].
  exact (fusion_outcomes_dimensions su2_symmetry [3] [2] eq_refl eq_refl
           (or_intror (conj (ex_intro _ None eq_refl) (conj Hs Hd)))).
Defined.

(** ** Fusion of arrays of sectors *)

Lemma concatenate_last_rows {P R : Type} (h : P -> R -> Sector) (ps : list P)
      (rows : list R) :
  concatenate_last (length rows) (map (fun p => map (h p) rows) ps)
  = map (fun r => concat (map (fun p => h p r) ps)) rows.
Proof.
  unfold concatenate_last. induction ps as [|p ps IH]; cbn [map fold_right concat].
  - induction rows as [|a l IH]; simpl; [reflexivity|]. now rewrite IH.
  - rewrite IH. now rewrite map_combine_maps.
Qed.

Lemma combine_maps {A B C D : Type} (g : A -> C) (k : B -> D) (l : list A) (l' : list B) :
  combine (map g l) (map k l') = map (fun p => (g (fst p), k (snd p))) (combine l l').
Proof.
  revert l'. induction l as [|x l IH]; intros [|y l']; simpl; try reflexivity.
  now rewrite IH.
Qed.

Lemma factor_outcome_fused (f : FactorSymmetry) (x y : Sector) :
  factor_fusion_style f = single ->
  factor_fusion_outcomes f x y = Ok [factor_fused f x y].
Proof. destruct f; simpl; intro H; try reflexivity; discriminate. Qed.

Lemma factor_broadcast_fused (f : FactorSymmetry) (a b : SectorArray) :
  factor_fusion_style f = single -> length a = length b ->
  factor_fusion_outcomes_broadcast f a b
  = Ok (map (fun p => factor_fused f (fst p) (snd p)) (combine a b)).
Proof.
  destruct f; cbn [factor_fusion_style factor_fusion_outcomes_broadcast factor_fused];
    intros H Hl; try discriminate; unfold add_arrays; try rewrite map_map; try reflexivity.
  now rewrite map_fst_combine.
Qed.

Lemma bounds_factor (fs : list FactorSymmetry) (p : FactorSymmetry * (Z * Z)) :
  In p (factor_bounds fs) -> In (fst p) fs.
Proof.
  unfold factor_bounds. destruct p as [f lh]. intro H. now apply in_combine_l in H.
Qed.

(** X10: for a symmetry of [FusionStyle.single], [fusion_outcomes_broadcast]
    of two arrays with as many rows gives, row by row, the one outcome of
    [fusion_outcomes] of the two rows; for a symmetry of another fusion
    style ([SU2Symmetry], a product with such a factor) it raises
    [AssertionError]. *)
Theorem fusion_outcomes_broadcast_rows (s : Symmetry) (a b : SectorArray) :
  (fusion_style s = single -> length a = length b ->
   exists r, fusion_outcomes_broadcast s a b = Ok r
             /\ length r = length a
             /\ mapM (fun p => fusion_outcomes s (fst p) (snd p)) (combine a b)
                = Ok (map (fun c => [c]) r))
  /\ (fusion_style s <> single ->
      fusion_outcomes_broadcast s a b = Raise AssertionError).
Proof.
  split.
  - intros Hs Hl. destruct s as [f|fs].
    + cbn [fusion_style] in Hs. eexists.
      split; [apply (factor_broadcast_fused f a b Hs Hl)|].
      split; [rewrite length_map, length_combine; lia|].
      rewrite map_map. apply mapM_ok_map. intros p _.
      apply (factor_outcome_fused f _ _ Hs).
    + pose proof (product_single fs Hs) as Hfs. rewrite Forall_forall in Hfs.
      unfold fusion_outcomes_broadcast. rewrite Hs. cbn [FusionStyle_eqb assert bind].
      change (FusionStyle_value single =? FusionStyle_value single) with true.
      cbn [assert bind].
      rewrite (mapM_ok_map _
                 (fun p => map (fun ab => factor_fused (fst p)
                                            (slice (fst ab) (fst (snd p)) (snd (snd p)))
                                            (slice (snd ab) (fst (snd p)) (snd (snd p))))
                               (combine a b))).
      2:{ intros p Hp. rewrite factor_broadcast_fused.
          - unfold columns. now rewrite combine_maps, map_map.
          - apply Hfs. now apply bounds_factor.
          - unfold columns. now rewrite !length_map. }
      cbn [bind].
      assert (Hrows : length a = length (combine a b)) by (rewrite length_combine; lia).
      rewrite Hrows, concatenate_last_rows.
      eexists. split; [reflexivity|]. split; [now rewrite length_map|].
      rewrite map_map. apply mapM_ok_map. intros ab _.
      unfold fusion_outcomes.
      rewrite (mapM_ok_map _
                 (fun p => [factor_fused (fst p)
                              (slice (fst ab) (fst (snd p)) (snd (snd p)))
                              (slice (snd ab) (fst (snd p)) (snd (snd p)))])).
      2:{ intros p Hp. apply factor_outcome_fused. apply Hfs. now apply bounds_factor. }
      cbn [bind].
      rewrite <- (map_map (fun p => factor_fused (fst p)
                                      (slice (fst ab) (fst (snd p)) (snd (snd p)))
                                      (slice (snd ab) (fst (snd p)) (snd (snd p))))
                          (fun r => [r])).
      now rewrite combinations_singletons.
  - intro Hs. destruct s as [f|fs].
    + destruct f; cbn [fusion_style factor_fusion_style] in Hs; try contradiction.
      reflexivity.
    + unfold fusion_outcomes_broadcast.
      destruct (FusionStyle_eqb (fusion_style (ProductSymmetry fs)) single) eqn:E;
        [apply FusionStyle_eqb_eq in E; contradiction|reflexivity].
Qed.

Lemma fusion_outcomes_broadcast_rows_witness :
  fusion_style (ProductSymmetry [U1Symmetry None; ZNSymmetry 3 None]) = single
  /\ fusion_outcomes_broadcast (ProductSymmetry [U1Symmetry None; ZNSymmetry 3 None])
       [[1; 2]; [-3; 1]] [[4; 2]; [5; 0]] = Ok [[5; 1]; [2; 1]]
  /\ (exists r,
         fusion_outcomes_broadcast (ProductSymmetry [U1Symmetry None; ZNSymmetry 3 None])
           [[1; 2]; [-3; 1]] [[4; 2]; [5; 0]] = Ok r
         /\ length r = 2%nat
         /\ mapM (fun p => fusion_outcomes (ProductSymmetry [U1Symmetry None; ZNSymmetry 3 None])
                                           (fst p) (snd p))
                 (combine [[1; 2]; [-3; 1]] [[4; 2]; [5; 0]])
            = Ok (map (fun c => [c]) r))
  /\ fusion_style su2_symmetry <> single
  /\ fusion_outcomes_broadcast su2_symmetry [[1]] [[1]] = Raise AssertionError.
Proof.
  split; [reflexivity|]. split; [reflexivity|]. split.
  - exact (proj1 (fusion_outcomes_broadcast_rows
                    (ProductSymmetry [U1Symmetry None; ZNSymmetry 3 None])
                    [[1; 2]; [-3; 1]] [[4; 2]; [5; 0]]) eq_refl eq_refl).
  - assert (H : fusion_style su2_symmetry <> single) by discriminate.
    split; [exact H|].
    exact (proj2 (fusion_outcomes_broadcast_rows su2_symmetry [[1]] [[1]]) H).
Defined.

(** ** Equality and products of symmetries *)

Lemma name_eqb_eq (a b : option string) : name_eqb a b = true <-> a = b.
Proof.
  destruct a as [x|], b as [y|]; simpl; split; intro H;
    try discriminate; try reflexivity.
  - apply String.eqb_eq in H. now subst.
  - injection H as ->. apply String.eqb_refl.
Qed.

Lemma factor_eq_eq (f g : FactorSymmetry) : factor_eq f (Factor g) = true <-> f = g.
Proof.
  unfold factor_eq. cbn [descriptive_name]. rewrite andb_true_iff, name_eqb_eq.
  split.
  - intros [Hn Hs]. destruct f, g; simpl in Hn, Hs; try discriminate; subst;
      try reflexivity.
    apply Z.eqb_eq in Hs. now subst.
  - intros <-. split; [reflexivity|]. destruct f; simpl; try reflexivity.
    apply Z.eqb_refl.
Qed.

Lemma factors_eq_eq (fs gs : list FactorSymmetry) :
  (length fs =? length gs)%nat
  && forallb (fun p => factor_eq (fst p) (Factor (snd p))) (combine fs gs) = true
  <-> fs = gs.
Proof.
  revert gs. induction fs as [|f fs IH]; intros [|g gs]; simpl; split; intro H;
    try discriminate; try reflexivity.
  - apply andb_prop in H as [Hl H]. apply andb_prop in H as [Hf H].
    apply factor_eq_eq in Hf. subst. f_equal. apply IH.
    apply andb_true_intro. now split.
  - injection H as -> ->.
    pose proof (proj2 (IH gs) eq_refl) as H. apply andb_prop in H as [Hl H].
    rewrite Hl, H, (proj2 (factor_eq_eq g g) eq_refl). reflexivity.
Qed.

Lemma symmetry_eq_eq (s t : Symmetry) : groups.__eq__ s t = true <-> s = t.
Proof.
  destruct s as [f|fs], t as [g|gs]; cbn [groups.__eq__].
  - rewrite factor_eq_eq. split; [now intros ->|now intros [= ->]].
  - split; [|discriminate]. unfold factor_eq.
    destruct f; simpl; rewrite ?andb_false_r; discriminate.
  - split; discriminate.
  - rewrite factors_eq_eq. split; [now intros ->|now intros [= ->]].
Qed.

Lemma factor_same_sym (f g : FactorSymmetry) :
  factor_is_same_symmetry f (Factor g) = factor_is_same_symmetry g (Factor f).
Proof. destruct f, g; simpl; try reflexivity. apply Z.eqb_sym. Qed.

Lemma factor_same_refl (f : FactorSymmetry) : factor_is_same_symmetry f (Factor f) = true.
Proof. destruct f; simpl; try reflexivity. apply Z.eqb_refl. Qed.

Lemma is_same_symmetry_refl (s : Symmetry) : is_same_symmetry s s = true.
Proof.
  destruct s as [f|fs]; cbn [is_same_symmetry]; [apply factor_same_refl|].
  rewrite Nat.eqb_refl. cbn [andb].
  induction fs as [|f fs IH]; [reflexivity|].
  cbn [combine forallb fst snd]. now rewrite factor_same_refl, IH.
Qed.

(** X11: [s == t] holds exactly when [s] and [t] are of the same class with
    the same [N] and the same [descriptive_name], factor by factor, so [==]
    is reflexive, symmetric and transitive and a product of one factor is
    not equal to that factor.  Equal symmetries are the same symmetry, and
    [is_same_symmetry], which ignores the names, is symmetric. *)
Theorem symmetry_eq_is_structural :
  (forall s t, groups.__eq__ s t = true <-> s = t)
  /\ (forall s t, groups.__eq__ s t = groups.__eq__ t s)
  /\ (forall f, groups.__eq__ (ProductSymmetry [f]) (Factor f) = false
                /\ groups.__eq__ (Factor f) (ProductSymmetry [f]) = false)
  /\ (forall s t, groups.__eq__ s t = true -> is_same_symmetry s t = true)
  /\ (forall s t, is_same_symmetry s t = is_same_symmetry t s)
  /\ (forall n m, is_same_symmetry (Factor (U1Symmetry n)) (Factor (U1Symmetry m)) = true).
Proof.
  split; [exact symmetry_eq_eq|]. split.
  { intros s t. destruct (groups.__eq__ s t) eqn:E1, (groups.__eq__ t s) eqn:E2;
      try reflexivity.
    - apply symmetry_eq_eq in E1. subst.
      rewrite (proj2 (symmetry_eq_eq t t) eq_refl) in E2. discriminate.
    - apply symmetry_eq_eq in E2. subst.
      rewrite (proj2 (symmetry_eq_eq s s) eq_refl) in E1. discriminate. }
  split.
  { intro f. split; [reflexivity|].
    destruct (groups.__eq__ (Factor f) (ProductSymmetry [f])) eqn:E; [|reflexivity].
    apply symmetry_eq_eq in E. discriminate. }
  split.
  { intros s t H. apply symmetry_eq_eq in H. subst. apply is_same_symmetry_refl. }
  split; [|reflexivity].
  intros [f|fs] [g|gs]; cbn [is_same_symmetry].
  - apply factor_same_sym.
  - destruct f; reflexivity.
  - destruct g; reflexivity.
  - rewrite (Nat.eqb_sym (length fs) (length gs)). f_equal.
    revert gs. induction fs as [|f fs IH]; intros [|g gs]; try reflexivity.
    cbn [combine forallb fst snd]. now rewrite factor_same_sym, IH.
Qed.

Lemma symmetry_eq_is_structural_witness :
  groups.__eq__ (ProductSymmetry [U1Symmetry None; ZNSymmetry 3 None])
                (ProductSymmetry [U1Symmetry None; ZNSymmetry 3 None]) = true
  /\ is_same_symmetry (ProductSymmetry [U1Symmetry None; ZNSymmetry 3 None])
                      (ProductSymmetry [U1Symmetry None; ZNSymmetry 3 None]) = true.
Proof.
  split; [reflexivity|].
  exact (proj1 (proj2 (proj2 (proj2 symmetry_eq_is_structural)))
               (ProductSymmetry [U1Symmetry None; ZNSymmetry 3 None])
               (ProductSymmetry [U1Symmetry None; ZNSymmetry 3 None]) eq_refl).
Defined.

Lemma mapM_factors (fs : list FactorSymmetry) :
  mapM (fun s => match s with
                 | Factor f => Ok f
                 | ProductSymmetry _ => Raise AssertionError
                 end) (map Factor fs) = Ok fs.
Proof.
  induction fs as [|f fs IH]; [reflexivity|]. cbn [map mapM bind]. now rewrite IH.
Qed.

Lemma mul_factors (s t : Symmetry) :
  factors_of s ++ factors_of t <> [] ->
  __mul__ s t = Ok (ProductSymmetry (factors_of s ++ factors_of t)).
Proof.
  intro H. unfold __mul__.
  replace (match s with ProductSymmetry fs => map Factor fs | Factor f => [Factor f] end)
    with (map Factor (factors_of s)) by (destruct s; reflexivity).
  replace (match t with ProductSymmetry fs => map Factor fs | Factor f => [Factor f] end)
    with (map Factor (factors_of t)) by (destruct t; reflexivity).
  rewrite <- map_app. unfold ProductSymmetry_init. rewrite mapM_factors. cbn [bind].
  destruct (factors_of s ++ factors_of t); [contradiction|reflexivity].
Qed.

(** X12: the product [s * t] of two symmetries is the [ProductSymmetry] of
    the factors of [s] followed by the factors of [t], never a nested
    product, and [*] is associative. *)
Theorem mul_is_flat_and_associative (a b c : Symmetry) :
  constructed a -> constructed b -> constructed c ->
  __mul__ a b = Ok (ProductSymmetry (factors_of a ++ factors_of b))
  /\ (ab <- __mul__ a b ;; __mul__ ab c) = (bc <- __mul__ b c ;; __mul__ a bc)
  /\ (ab <- __mul__ a b ;; __mul__ ab c)
     = Ok (ProductSymmetry (factors_of a ++ factors_of b ++ factors_of c)).
Proof.
  unfold constructed. intros Ha Hb Hc.
  assert (Hab : factors_of a ++ factors_of b <> [])
    by (destruct (factors_of a); [contradiction|discriminate]).
  assert (Hbc : factors_of b ++ factors_of c <> [])
    by (destruct (factors_of b); [contradiction|discriminate]).
  rewrite (mul_factors a b Hab), (mul_factors b c Hbc). cbn [bind].
  rewrite !mul_factors; cbn [factors_of]; try rewrite <- app_assoc; auto.
  - destruct (factors_of a); [contradiction|discriminate].
  - destruct (factors_of a); [contradiction|discriminate].
Qed.

Lemma mul_is_flat_and_associative_witness :
  constructed u1_symmetry /\ constructed z3_symmetry /\ constructed su2_symmetry
  /\ (ab <- __mul__ u1_symmetry z3_symmetry ;; __mul__ ab su2_symmetry)
     = Ok (ProductSymmetry [U1Symmetry None; ZNSymmetry 3 None; SU2Symmetry None]).
Proof.
  assert (H1 : constructed u1_symmetry) by discriminate.
  assert (H2 : constructed z3_symmetry) by discriminate.
  assert (H3 : constructed su2_symmetry) by discriminate.
  split; [exact H1|]. split; [exact H2|]. split; [exact H3|].
  exact (proj2 (proj2 (mul_is_flat_and_associative u1_symmetry z3_symmetry su2_symmetry
                         H1 H2 H3))).
Defined.

(** ** The constructor and the public view of a space *)

(** What [VectorSpace.__init__] stores when it sorts the sectors itself. *)
Lemma init_sorted_fields (o : SymmetryObj) (secs : SectorArray) (mults : option (list Z))
      (r d : bool) (sl : option (list (Z * Z))) (v : VectorSpace) :
  VectorSpace_init o secs mults r d None sl = Ok v ->
  exists m m' ip ss,
    m = match mults with Some m0 => m0 | None => repeat 1 (length secs) end
    /\ length m = length secs
    /\ np.take m (np.lexsort_T secs) = Ok m'
    /\ inverse_permutation (np.lexsort_T secs) = Ok ip
    /\ match sl with
       | Some x => ss = x /\ length x = length secs
       | None => exists dense, _calc_slices o secs m = Ok dense
                               /\ np.take dense (np.lexsort_T secs) = Ok ss
       end
    /\ v = {| symmetry := o; is_real := r; is_dual := d;
              _non_dual_sorted_sectors := sorted_rows secs;
              _sorted_multiplicities := m';
              _sector_perm := np.lexsort_T secs;
              _inverse_sector_perm := ip;
              _sorted_slices := ss |}.
Proof.
  intro H. unfold VectorSpace_init in H.
  apply bind_ok in H as (m & Hm & H).
  assert (Em : m = match mults with Some m0 => m0 | None => repeat 1 (length secs) end).
  { destruct mults as [m0|].
    - apply bind_ok in Hm as (u & _ & Hm). now injection Hm as <-.
    - now injection Hm as <-. }
  apply init_multiplicities_ok in Hm.
  rewrite take_lexsort_T in H. cbn [bind] in H.
  apply bind_ok in H as ([[p' s'] sm] & H1 & H).
  apply bind_ok in H1 as (m' & Hm' & H1). injection H1 as <- <- <-.
  apply bind_ok in H as (ip & Hip & H).
  apply bind_ok in H as (ss & Hss & H). injection H as <-.
  exists m, m', ip, ss. repeat (split; [assumption|]). split; [|reflexivity].
  destruct sl as [x|].
  - apply bind_ok in Hss as (u & Hu & Hss). apply assert_eqb_ok in Hu.
    now injection Hss as <-.
  - apply bind_ok in Hss as (dense & Hdense & Hss). now exists dense.
Qed.

Lemma init_public_view (o : SymmetryObj) (secs : SectorArray)
        (mults : option (list Z)) (r d : bool) (sl : option (list (Z * Z)))
        (v : VectorSpace) :
  VectorSpace_init o secs mults r d None sl = Ok v ->
  sectors v = Ok (if d then dual_sectors (sym o) secs else secs)
  /\ multiplicities v
     = Ok (match mults with Some m => m | None => repeat 1 (length secs) end)
  /\ is_dual v = d /\ is_real v = r /\ symmetry v = o
  /\ num_sectors v = length secs.
Proof.
  intro H. apply init_sorted_fields in H as (m & m' & ip & ss & Em & Lm & Hm' & Hip & _ & ->).
  pose proof (lexsort_T_permutation secs) as Hperm.
  pose proof (lexsort_T_length secs) as Hl.
  assert (Hs : np.take (sorted_rows secs) ip = Ok secs).
  { apply (take_take_inverse secs _ _ ip Hperm Hip); [lia|apply take_lexsort_T]. }
  unfold sectors, multiplicities, num_sectors.
  cbn [is_dual is_real symmetry _non_dual_sorted_sectors _inverse_sector_perm
       _sorted_multiplicities sym].
  split; [|split; [|split; [|split; [|split]]]]; try reflexivity.
  - destruct d; [|exact Hs].
    rewrite !dual_sectors_rowwise, take_map, Hs. reflexivity.
  - rewrite <- Em. apply (take_take_inverse m _ _ ip Hperm Hip); [lia|exact Hm'].
  - apply sorted_rows_length.
Qed.

(** X13: a space built from [sectors] and [multiplicities] in any order
    shows them again in that order: [space.multiplicities] are the given
    multiplicities (ones by default) and [space.sectors] are the given
    sectors, their duals row by row when [_is_dual] is set. *)
Theorem constructor_keeps_the_order (o : SymmetryObj) (secs : SectorArray)
        (mults : option (list Z)) (r d : bool) (sl : option (list (Z * Z)))
        (v : VectorSpace) :
  VectorSpace_init o secs mults r d None sl = Ok v ->
  sectors v = Ok (if d then dual_sectors (sym o) secs else secs)
  /\ multiplicities v
     = Ok (match mults with Some m => m | None => repeat 1 (length secs) end)
  /\ is_dual v = d /\ is_real v = r /\ symmetry v = o
  /\ num_sectors v = length secs.
Proof. exact (init_public_view o secs mults r d sl v). Qed.

Lemma constructor_keeps_the_order_witness :
  exists v,
    VectorSpace_init (of_groups z3_symmetry) [[2]; [0]; [1]] (Some [5; 6; 7]) false true None
                     (Some [(5, 11); (11, 18); (0, 5)]) = Ok v
    /\ _non_dual_sorted_sectors v = [[0]; [1]; [2]]
    /\ sectors v = Ok (dual_sectors z3_symmetry [[2]; [0]; [1]])
    /\ multiplicities v = Ok [5; 6; 7].
Proof.
  eexists. split; [reflexivity|]. split; [reflexivity|].
  pose proof (constructor_keeps_the_order (of_groups z3_symmetry) [[2]; [0]; [1]]
                (Some [5; 6; 7]) false true (Some [(5, 11); (11, 18); (0, 5)]) _ eq_refl)
    as (H1 & H2 & _).
  split; [exact H1|exact H2].
Defined.

Lemma bind_ret {A : Type} (r : result A) : (x <- r ;; Ok x) = r.
Proof. now destruct r. Qed.

Lemma norm_index_raise (n : nat) (i : Z) (e : exception) :
  np.norm_index n i = Raise e -> e = IndexError.
Proof.
  unfold np.norm_index.
  destruct ((0 <=? i) && (i <? Z.of_nat n)); [discriminate|].
  destruct ((- Z.of_nat n <=? i) && (i <? 0)); [discriminate|].
  now intros [= <-].
Qed.

(** Indexing the result of a loop over a list is the body of the loop on
    the indexed entry. *)
Lemma item_mapM {A B : Type} (f : A -> result B) (l : list A) (r : list B) (i : Z) :
  mapM f l = Ok r -> np.item r i = (x <- np.item l i ;; f x).
Proof.
  intro H. pose proof (mapM_length f l r H) as Hlen.
  unfold np.item. rewrite Hlen.
  destruct (np.norm_index (length l) i) as [k|e] eqn:E; cbn [bind]; [|reflexivity].
  apply norm_index_ok in E.
  clear i Hlen. revert r k H E.
  induction l as [|x l IH]; intros r k H E; [simpl in E; lia|].
  cbn [mapM] in H. apply bind_ok in H as (y & Hy & H).
  apply bind_ok in H as (ys & Hys & H). injection H as <-.
  destruct k as [|k]; cbn [nth_error bind]; [now rewrite Hy|].
  apply (IH ys k Hys). simpl in E. lia.
Qed.

(** X14: [space.sector(i)] is row [i] of [space.sectors], for every index
    numpy accepts, and [idx_to_sector(idx)] is the sector at the position
    that [parse_index(idx)] returns, so it raises what [parse_index]
    raises: for a symmetry of [groups.py] the [AttributeError] of [dim]. *)
Theorem sector_of_an_index (v : VectorSpace) (i idx : Z) :
  (forall S, sectors v = Ok S -> sector v i = np.item S i)
  /\ idx_to_sector v idx = (kr <- parse_index v idx ;; sector v (fst kr))
  /\ (forall s, symmetry v = of_groups s ->
                idx_to_sector v idx = Raise (AttributeError "batch_sector_dim")).
Proof.
  split; [|split].
  - intros S HS. unfold sectors in HS. unfold np.take in HS.
    rewrite (item_mapM _ _ _ i HS). unfold sector.
    destruct (np.item (_inverse_sector_perm v) i) as [j|e]; cbn [bind]; [|reflexivity].
    destruct (is_dual v).
    + now rewrite dual_sectors_rowwise, item_map.
    + now rewrite bind_ret.
  - unfold idx_to_sector, _parse_index, sector.
    destruct (parse_index v idx) as [[k m]|e]; cbn [bind fst]; [|reflexivity].
    destruct (np.item (_inverse_sector_perm v) k) as [j|e]; reflexivity.
  - intros s Hs. unfold idx_to_sector, _parse_index.
    now rewrite (parse_index_of_groups s v idx Hs).
Qed.

Lemma sector_of_an_index_witness :
  exists v,
    VectorSpace_init (of_groups z3_symmetry) [[2]; [0]; [1]] (Some [5; 6; 7]) false true None
                     (Some [(5, 11); (11, 18); (0, 5)]) = Ok v
    /\ sectors v = Ok [[1]; [0]; [2]]
    /\ sector v (-1) = Ok [2]
    /\ sector v (-1) = np.item [[1]; [0]; [2]] (-1)
    /\ idx_to_sector v 3 = Raise (AttributeError "batch_sector_dim").
Proof.
  eexists. split; [reflexivity|]. split; [reflexivity|]. split; [reflexivity|].
  match goal with
  | |- sector ?v _ = _ /\ _ =>
      pose proof (sector_of_an_index v (-1) 3) as (H1 & _ & H3)
  end.
  split; [exact (H1 _ eq_refl)|exact (H3 z3_symmetry eq_refl)].
Defined.

(** ** [parse_index] and [bisect] *)

(** [bisect] on an array in ascending order: the entries before the
    result are at most [x], the entries from the result on are greater. *)
Lemma bisect_loop_spec (a : list Z) (x : Z) :
  (forall i j, (i <= j < length a)%nat -> nth i a 0 <= nth j a 0) ->
  forall t lo hi,
    (hi - lo <= t)%nat -> (lo <= hi <= length a)%nat ->
    (forall i, (i < lo)%nat -> nth i a 0 <= x) ->
    (forall i, (hi <= i < length a)%nat -> x < nth i a 0) ->
    (lo <= bisect_loop t a x lo hi <= hi)%nat
    /\ (forall i, (i < bisect_loop t a x lo hi)%nat -> nth i a 0 <= x)
    /\ (forall i, (bisect_loop t a x lo hi <= i < length a)%nat -> x < nth i a 0).
Proof.
  intros Hmono. induction t as [|t IH]; intros lo hi Ht Hb Hlo Hhi; cbn [bisect_loop].
  - assert (lo = hi) by lia. subst. repeat split; try lia; assumption.
  - destruct (lo <? hi)%nat eqn:E.
    + apply Nat.ltb_lt in E.
      assert (Hmid : (lo <= (lo + hi) / 2 < hi)%nat).
      { split.
        - apply Nat.div_le_lower_bound; lia.
        - apply Nat.Div0.div_lt_upper_bound; lia. }
      cbv zeta. destruct (x <? nth ((lo + hi) / 2) a 0) eqn:Ex.
      * apply Z.ltb_lt in Ex.
        destruct (IH lo ((lo + hi) / 2)%nat) as (H1 & H2 & H3); try lia; try assumption.
        { intros i Hi. specialize (Hmono ((lo + hi) / 2)%nat i ltac:(lia)). lia. }
        repeat split; try lia; assumption.
      * apply Z.ltb_ge in Ex.
        destruct (IH ((lo + hi) / 2 + 1)%nat hi) as (H1 & H2 & H3); try lia; try assumption.
        { intros i Hi. specialize (Hmono i ((lo + hi) / 2)%nat ltac:(lia)). lia. }
        repeat split; try lia; assumption.
    + apply Nat.ltb_ge in E. assert (lo = hi) by lia. subst.
      repeat split; try lia; assumption.
Qed.

Lemma bisect_spec (a : list Z) (x : Z) :
  (forall i j, (i <= j < length a)%nat -> nth i a 0 <= nth j a 0) ->
  exists r, bisect a x = Z.of_nat r /\ (r <= length a)%nat
            /\ (forall i, (i < r)%nat -> nth i a 0 <= x)
            /\ (forall i, (r <= i < length a)%nat -> x < nth i a 0).
Proof.
  intro Hmono.
  destruct (bisect_loop_spec a x Hmono (length a) 0%nat (length a)) as (H1 & H2 & H3);
    try lia.
  exists (bisect_loop (length a) a x 0 (length a)). repeat split; try assumption; lia.
Qed.

Lemma nth_map_fst (sl : list (Z * Z)) (i : nat) :
  nth i (map fst sl) 0 = fst (nth i sl (0, 0)).
Proof. change 0 with (fst (0, 0)) at 1. apply map_nth. Qed.

Lemma starts_ascending (sl : list (Z * Z)) (d : Z) :
  slices_contiguous sl d -> Forall (fun s => fst s <= snd s) sl ->
  forall i j, (i <= j < length (map fst sl))%nat ->
              nth i (map fst sl) 0 <= nth j (map fst sl) 0.
Proof.
  intros Hc Hle i j. rewrite length_map. intros [Hij Hj].
  destruct sl as [|s0 sl']; [simpl in Hj; lia|].
  destruct Hc as (_ & Hnext & _); [discriminate|].
  set (sl := s0 :: sl') in *.
  assert (Hstep : forall k, (S k < length sl)%nat ->
                            nth k (map fst sl) 0 <= nth (S k) (map fst sl) 0).
  { intros k Hk. rewrite !nth_map_fst.
    rewrite <- (Hnext k Hk). rewrite Forall_forall in Hle. apply Hle.
    apply nth_In. lia. }
  induction j as [|j IH]; [replace i with 0%nat by lia; lia|].
  destruct (Nat.eq_dec i (S j)) as [->|Hne]; [lia|].
  specialize (IH ltac:(lia) ltac:(lia)). specialize (Hstep j Hj). lia.
Qed.

(** X15: on a space whose public slices are contiguous up to [dim] and not
    reversed, [parse_index(idx)] for [-dim <= idx < dim] returns the position
    of the one slice [[start, stop)] that holds the flat index (negative [idx]
    counted from the end) and the offset of the index in that slice. *)
Theorem parse_index_finds_the_slice (v : VectorSpace) (sl : list (Z * Z)) (d idx : Z) :
  slices v = Ok sl -> dim v = Ok d ->
  sl <> [] -> slices_contiguous sl d ->
  Forall (fun s => fst s <= snd s) sl ->
  - d <= idx < d ->
  exists k start stop,
    parse_index v idx = Ok (Z.of_nat k, (if idx <? 0 then idx + d else idx) - start)
    /\ nth_error sl k = Some (start, stop)
    /\ start <= (if idx <? 0 then idx + d else idx) < stop.
Proof.
  intros Hsl Hd Hne Hc Hle Hidx.
  set (flat := if idx <? 0 then idx + d else idx).
  assert (Hflat : 0 <= flat < d) by (unfold flat; destruct (idx <? 0) eqn:E;
                                     [apply Z.ltb_lt in E|apply Z.ltb_ge in E]; lia).
  pose proof (starts_ascending sl d Hc Hle) as Hmono.
  destruct (bisect_spec (map fst sl) flat Hmono) as (r & Hr & Hrl & Hbelow & Habove).
  rewrite length_map in Hrl, Habove.
  destruct (Hc Hne) as (Hfirst & Hnext & Hlast).
  assert (Hlen : (0 < length sl)%nat) by (destruct sl; [contradiction|simpl; lia]).
  assert (Hr1 : (1 <= r)%nat).
  { destruct r as [|r]; [|lia]. specialize (Habove 0%nat ltac:(lia)).
    rewrite nth_map_fst in Habove.
    destruct sl; [contradiction|]. simpl in Habove, Hfirst. lia. }
  exists (r - 1)%nat, (fst (nth (r - 1) sl (0, 0))), (snd (nth (r - 1) sl (0, 0))).
  assert (Hnth : nth_error sl (r - 1) = Some (nth (r - 1) sl (0, 0)))
    by (apply nth_error_nth'; lia).
  split; [|split].
  - unfold parse_index. rewrite Hd. cbn [bind].
    replace ((- d <=? idx) && (idx <? d)) with true
      by (symmetry; apply andb_true_intro; split; [apply Z.leb_le|apply Z.ltb_lt]; lia).
    cbn [negb].
    replace (if idx <? 0 then Ok (idx + d) else Ok idx) with (Ok flat)
      by (unfold flat; now destruct (idx <? 0)).
    cbn [bind]. rewrite Hsl. cbn [bind]. rewrite Hr.
    replace (Z.of_nat r - 1) with (Z.of_nat (r - 1)) by lia.
    rewrite (item_of_nat sl (r - 1) _ Hnth). reflexivity.
  - rewrite Hnth. now destruct (nth (r - 1) sl (0, 0)).
  - split.
    + specialize (Hbelow (r - 1)%nat ltac:(lia)).
      now rewrite nth_map_fst in Hbelow.
    + destruct (Nat.eq_dec r (length sl)) as [E|E].
      * rewrite last_nth in Hlast. rewrite E. lia.
      * specialize (Habove r ltac:(lia)).
        rewrite nth_map_fst in Habove.
        specialize (Hnext (r - 1)%nat ltac:(lia)).
        replace (S (r - 1)) with r in Hnext by lia. lia.
Qed.

Lemma parse_index_finds_the_slice_witness :
  exists v,
    VectorSpace_init (with_abelian_attributes u1_symmetry) [[1]; [0]; [-2]] (Some [2; 3; 4])
                     false false None None = Ok v
    /\ slices v = Ok [(0, 2); (2, 5); (5, 9)] /\ dim v = Ok 9
    /\ parse_index v (-3) = Ok (2, 1)
    /\ exists k start stop,
         parse_index v (-3) = Ok (Z.of_nat k, (if -3 <? 0 then -3 + 9 else -3) - start)
         /\ nth_error [(0, 2); (2, 5); (5, 9)] k = Some (start, stop)
         /\ start <= (if -3 <? 0 then -3 + 9 else -3) < stop.
Proof.
  eexists. split; [reflexivity|]. split; [reflexivity|]. split; [reflexivity|].
  split; [reflexivity|].
  match goal with
  | |- exists k start stop, parse_index ?v _ = _ /\ _ =>
      apply (parse_index_finds_the_slice v [(0, 2); (2, 5); (5, 9)] 9 (-3) eq_refl eq_refl)
  end.
  - discriminate.
  - intros _. split; [reflexivity|]. split; [|reflexivity].
    intros [|[|i]] Hi; try reflexivity. simpl in Hi. lia.
  - repeat constructor; simpl; lia.
  - lia.
Defined.

(** ** Equality and contraction of spaces *)

Lemma Space_induction (P : Space -> Prop) :
  (forall v, P (Plain v)) ->
  (forall v l, Forall P l -> P (Product v l)) ->
  forall s, P s.
Proof.
  intros HP HQ. fix IH 1. intros [v|v l]; [apply HP|].
  apply HQ. induction l as [|s l IHl]; constructor; [apply IH|exact IHl].
Qed.

Lemma array_equal_eq (a b : list Z) : np.array_equal a b = true <-> a = b.
Proof.
  revert b. induction a as [|x a IH]; intros [|y b]; simpl; split; intro H;
    try discriminate; try reflexivity.
  - apply andb_prop in H as [H1 H2]. apply Z.eqb_eq in H1. apply IH in H2. now subst.
  - injection H as -> ->. rewrite Z.eqb_refl. now apply IH.
Qed.

Lemma array2_equal_eq (a b : SectorArray) : np.array2_equal a b = true <-> a = b.
Proof.
  revert b. induction a as [|x a IH]; intros [|y b]; simpl; split; intro H;
    try discriminate; try reflexivity.
  - apply andb_prop in H as [H1 H2]. apply array_equal_eq in H1. apply IH in H2. now subst.
  - injection H as -> ->. rewrite (proj2 (array_equal_eq y y) eq_refl). now apply IH.
Qed.

Lemma eqb_of_iff {A : Type} (f : A -> A -> bool) :
  (forall a b, f a b = true <-> a = b) -> forall a b, f a b = f b a.
Proof.
  intros H a b. destruct (f a b) eqn:E1, (f b a) eqn:E2; try reflexivity.
  - apply H in E1. subst. rewrite (proj2 (H b b) eq_refl) in E2. discriminate.
  - apply H in E2. subst. rewrite (proj2 (H a a) eq_refl) in E1. discriminate.
Qed.

Lemma is_equal_or_dual_refl (v : VectorSpace) : is_equal_or_dual v v = true.
Proof.
  unfold is_equal_or_dual.
  rewrite Bool.eqb_reflx, (proj2 (symmetry_eq_eq _ _) eq_refl), Nat.eqb_refl.
  rewrite (proj2 (array2_equal_eq _ _) eq_refl), !(proj2 (array_equal_eq _ _) eq_refl).
  reflexivity.
Qed.

Lemma is_equal_or_dual_sym (v w : VectorSpace) :
  is_equal_or_dual v w = is_equal_or_dual w v.
Proof.
  unfold is_equal_or_dual.
  rewrite (eqb_of_iff _ symmetry_eq_eq (sym (symmetry v)) (sym (symmetry w))).
  rewrite (eqb_of_iff _ array2_equal_eq (_non_dual_sorted_sectors v)).
  rewrite (eqb_of_iff _ array_equal_eq (_sorted_multiplicities v)).
  rewrite (eqb_of_iff _ array_equal_eq (_sector_perm v)).
  rewrite (Nat.eqb_sym (num_sectors v)).
  now destruct (is_real v), (is_real w).
Qed.

Lemma is_equal_or_dual_dual (v w : VectorSpace) :
  is_equal_or_dual v (dual w) = is_equal_or_dual v w.
Proof. reflexivity. Qed.

Lemma dual_dual (v : VectorSpace) : dual (dual v) = v.
Proof. destruct v. unfold dual. cbn. now rewrite negb_involutive. Qed.

Lemma spaces_eq_and_contraction_facts (s : Space) :
  spaces.__eq__ s s = true
  /\ (forall t, spaces.__eq__ s t = spaces.__eq__ t s)
  /\ (forall t, can_contract_with s t = spaces.__eq__ s (Space_dual t))
  /\ can_contract_with s (Space_dual s) = true
  /\ can_contract_with s s = false
  /\ spaces.__eq__ s (Space_dual s) = false
  /\ Space_dual (Space_dual s) = s.
Proof.
  assert (Hrefl : forall s, spaces.__eq__ s s = true).
  { induction s0 as [v|v l IH] using Space_induction; cbn [spaces.__eq__].
    - now rewrite Bool.eqb_reflx, is_equal_or_dual_refl.
    - rewrite Bool.eqb_reflx, Nat.eqb_refl. cbn [negb].
      induction IH as [|x l Hx _ IHl]; [reflexivity|]. now rewrite Hx, IHl. }
  assert (Hsym : forall s t, spaces.__eq__ s t = spaces.__eq__ t s).
  { induction s0 as [v|v l IH] using Space_induction; intros [w|w l'];
      cbn [spaces.__eq__]; try reflexivity.
    - rewrite is_equal_or_dual_sym. now destruct (is_dual v), (is_dual w).
    - rewrite (Nat.eqb_sym (length l') (length l)).
      replace (Bool.eqb (is_dual v) (is_dual w)) with (Bool.eqb (is_dual w) (is_dual v))
        by (now destruct (is_dual v), (is_dual w)).
      destruct (negb (Bool.eqb (is_dual w) (is_dual v))); [reflexivity|].
      destruct (negb (length l =? length l')%nat); [reflexivity|].
      revert l'. induction IH as [|x l Hx _ IHl]; intros [|y l']; try reflexivity.
      now rewrite Hx, IHl. }
  assert (Hcontract : forall s t, can_contract_with s t = spaces.__eq__ s (Space_dual t)).
  { induction s0 as [v|v l IH] using Space_induction; intros [w|w l'];
      cbn [can_contract_with spaces.__eq__ Space_dual]; try reflexivity.
    - rewrite is_equal_or_dual_dual. cbn [dual is_dual].
      now destruct (is_dual v), (is_dual w).
    - cbn [dual is_dual]. rewrite length_map.
      rewrite (Nat.eqb_sym (length l') (length l)).
      replace (negb (Bool.eqb (negb (is_dual w)) (is_dual v)))
        with (Bool.eqb (is_dual v) (is_dual w))
        by (now destruct (is_dual v), (is_dual w)).
      destruct (Bool.eqb (is_dual v) (is_dual w)); [reflexivity|].
      destruct (negb (length l =? length l')%nat); [reflexivity|].
      revert l'. induction IH as [|x l Hx _ IHl]; intros [|y l']; try reflexivity.
      cbn [map]. now rewrite Hx, IHl. }
  assert (Hdual : forall s, Space_dual (Space_dual s) = s).
  { induction s0 as [v|v l IH] using Space_induction; cbn [Space_dual].
    - now rewrite dual_dual.
    - rewrite dual_dual. f_equal.
      induction IH as [|x l Hx _ IHl]; [reflexivity|]. cbn [map]. now rewrite Hx, IHl. }
  split; [apply Hrefl|]. split; [apply Hsym|]. split; [apply Hcontract|].
  split; [now rewrite Hcontract, Hdual|].
  split; [|split; [|apply Hdual]].
  - destruct s as [v|v l]; cbn [can_contract_with].
    + now rewrite Bool.eqb_reflx.
    + now rewrite Bool.eqb_reflx.
  - destruct s as [v|v l]; cbn [spaces.__eq__ Space_dual dual is_dual].
    + now destruct (is_dual v).
    + now destruct (is_dual v).
Qed.

(** X16: comparison and contraction of spaces, plain or products.  Every
    space is equal to itself, and [==] is symmetric;
    [s.can_contract_with(t)] is [s == t.dual]; so a space can be contracted
    with its dual, never with itself, and is never equal to its dual; the
    dual of the dual is the space again. *)
Theorem spaces_eq_and_contraction (s : Space) :
  spaces.__eq__ s s = true
  /\ (forall t, spaces.__eq__ s t = spaces.__eq__ t s)
  /\ (forall t, can_contract_with s t = spaces.__eq__ s (Space_dual t))
  /\ can_contract_with s (Space_dual s) = true
  /\ can_contract_with s s = false
  /\ spaces.__eq__ s (Space_dual s) = false
  /\ Space_dual (Space_dual s) = s.
Proof. exact (spaces_eq_and_contraction_facts s). Qed.

(** ** Products of spaces: contraction and the view as a plain space *)

(** What [VectorSpace.__init__] stores when [_sector_perm] is given. *)
Lemma init_given_fields (o : SymmetryObj) (s : SectorArray) (m : list Z) (r d : bool)
      (p : list Z) (sl : option (list (Z * Z))) (v : VectorSpace) :
  VectorSpace_init o s (Some m) r d (Some p) sl = Ok v ->
  exists ip ss,
    length m = length s /\ length p = length s
    /\ inverse_permutation p = Ok ip
    /\ length ss = length s
    /\ match sl with Some x => ss = x | None => True end
    /\ v = {| symmetry := o; is_real := r; is_dual := d;
              _non_dual_sorted_sectors := s; _sorted_multiplicities := m;
              _sector_perm := p; _inverse_sector_perm := ip; _sorted_slices := ss |}.
Proof.
  intro H. unfold VectorSpace_init in H.
  apply bind_ok in H as (m0 & Hm & H).
  apply bind_ok in Hm as (u & Hu & Hm). apply assert_eqb_ok in Hu. injection Hm as <-.
  apply bind_ok in H as ([[p' s'] sm] & H1 & H).
  apply bind_ok in H1 as (u' & Hu' & H1). apply assert_eqb_ok in Hu'.
  injection H1 as <- <- <-.
  apply bind_ok in H as (ip & Hip & H).
  apply bind_ok in H as (ss & Hss & H). injection H as <-.
  exists ip, ss. repeat (split; [assumption|]).
  assert (Hl : length ss = length s /\ match sl with Some x => ss = x | None => True end).
  { destruct sl as [x|].
    - apply bind_ok in Hss as (u'' & Hu'' & Hss). apply assert_eqb_ok in Hu''.
      injection Hss as <-. now split.
    - apply bind_ok in Hss as (dense & _ & Hss).
      split; [|exact I]. rewrite (take_length _ _ _ Hss). exact Hu'. }
  destruct Hl as [Hl Hx]. repeat (split; [assumption|]). reflexivity.
Qed.

(** What [ProductSpace.__init__] checks and stores. *)
Lemma product_init_fields (spaces : list Space) (d0 : option bool)
      (secs : option SectorArray) (ms : option (list Z)) (perm : option (list Z))
      (sl : option (list (Z * Z))) (p : Space) :
  ProductSpace_init spaces d0 secs ms perm sl = Ok p ->
  exists first rest s m v,
    spaces = first :: rest
    /\ forallb (fun x => groups.__eq__ (sym (symmetry (as_data x)))
                                       (sym (symmetry (as_data first)))) spaces = true
    /\ forallb (fun x => Bool.eqb (is_real (as_data x)) (is_real (as_data first))) spaces
       = true
    /\ VectorSpace_init (symmetry (as_data first)) s (Some m) (is_real (as_data first))
                        (match d0 with Some b => b | None => is_dual (as_data first) end)
                        (Some (match perm with
                               | Some q => q
                               | None => np.arange (length s)
                               end)) sl = Ok v
    /\ p = Product v spaces.
Proof.
  intro H. unfold ProductSpace_init in H.
  destruct spaces as [|first rest]; [discriminate|].
  apply bind_ok in H as (u & Hu & H). apply bind_ok in H as (u' & Hu' & H).
  apply bind_ok in H as ([s m] & Hsm & H). apply bind_ok in H as (v & Hv & H).
  injection H as <-. cbn [fst snd] in Hv.
  exists first, rest, s, m, v. split; [reflexivity|].
  unfold assert in Hu, Hu'.
  destruct (forallb _ (first :: rest)) eqn:E1 in Hu; [|discriminate].
  destruct (forallb _ (first :: rest)) eqn:E2 in Hu'; [|discriminate].
  split; [exact E1|]. split; [exact E2|]. split; [|reflexivity].
  destruct d0, perm; exact Hv.
Qed.

(** X17: by default a product takes [is_dual] from its first factor, so
    [ProductSpace(spaces)] can be contracted with
    [ProductSpace([s.dual for s in spaces])], whenever both are built. *)
Theorem product_contracts_with_product_of_duals
        (spaces : list Space) (secs secs' : option SectorArray) (ms ms' : option (list Z))
        (perm perm' : option (list Z)) (sl sl' : option (list (Z * Z))) (p p' : Space) :
  ProductSpace_init spaces None secs ms perm sl = Ok p ->
  ProductSpace_init (map Space_dual spaces) None secs' ms' perm' sl' = Ok p' ->
  can_contract_with p p' = true /\ can_contract_with p' p = true.
Proof.
  intros H H'.
  apply product_init_fields in H as (f & rest & s & m & v & E & _ & _ & Hv & ->).
  apply product_init_fields in H' as (f' & rest' & s' & m' & v' & E' & _ & _ & Hv' & ->).
  apply init_given_fields in Hv as (ip & ss & _ & _ & _ & _ & _ & ->).
  apply init_given_fields in Hv' as (ip' & ss' & _ & _ & _ & _ & _ & ->).
  subst spaces. cbn [map] in E'. injection E' as <- <-.
  rewrite as_data_dual.
  assert (Hall : forall l,
             (fix all_contract (l l' : list Space) : bool :=
                match l, l' with
                | s1 :: r, s2 :: r' => can_contract_with s1 s2 && all_contract r r'
                | _, _ => true
                end) l (map Space_dual l) = true).
  { induction l as [|x l IH]; [reflexivity|]. cbn [map].
    rewrite IH. now rewrite (proj1 (proj2 (proj2 (proj2 (spaces_eq_and_contraction_facts x))))). }
  assert (Hall' : forall l,
             (fix all_contract (l l' : list Space) : bool :=
                match l, l' with
                | s1 :: r, s2 :: r' => can_contract_with s1 s2 && all_contract r r'
                | _, _ => true
                end) (map Space_dual l) l = true).
  { induction l as [|x l IH]; [reflexivity|]. cbn [map].
    rewrite IH.
    pose proof (spaces_eq_and_contraction_facts (Space_dual x)) as (_ & _ & _ & Hc & _ & _ & _).
    pose proof (spaces_eq_and_contraction_facts x) as (_ & _ & _ & _ & _ & _ & Hd).
    rewrite Hd in Hc. now rewrite Hc. }
  split.
  - cbn [can_contract_with is_dual dual]. rewrite length_map, Nat.eqb_refl.
    replace (Bool.eqb (is_dual (as_data f)) (negb (is_dual (as_data f)))) with false
      by (now destruct (is_dual (as_data f))).
    cbn [negb]. apply (Hall (f :: rest)).
  - cbn [can_contract_with is_dual dual]. rewrite length_map, Nat.eqb_refl.
    replace (Bool.eqb (negb (is_dual (as_data f))) (is_dual (as_data f))) with false
      by (now destruct (is_dual (as_data f))).
    cbn [negb]. apply (Hall' (f :: rest)).
Qed.

Lemma product_contracts_with_product_of_duals_witness :
  exists p p',
    ProductSpace_init [Plain space_of_dim_8] None None None None (Some [(0, 8)]) = Ok p
    /\ ProductSpace_init (map Space_dual [Plain space_of_dim_8]) None None None None
                         (Some [(0, 8)]) = Ok p'
    /\ can_contract_with p p' = true.
Proof.
  eexists. eexists. split; [reflexivity|]. split; [reflexivity|].
  exact (proj1 (product_contracts_with_product_of_duals
                  [Plain space_of_dim_8] None None None None None None
                  (Some [(0, 8)]) (Some [(0, 8)]) _ _ eq_refl eq_refl)).
Defined.

Lemma init_from_own_fields (o : SymmetryObj) (s : SectorArray) (m : list Z) (r d : bool)
      (p : list Z) (sl : option (list (Z * Z))) (v : VectorSpace) :
  VectorSpace_init o s (Some m) r d (Some p) sl = Ok v ->
  VectorSpace_init (symmetry v) (_non_dual_sorted_sectors v)
                   (Some (_sorted_multiplicities v)) (is_real v) (is_dual v)
                   (Some (_sector_perm v)) (Some (_sorted_slices v)) = Ok v.
Proof.
  intro H. apply init_given_fields in H as (ip & ss & Lm & Lp & Hip & Ls & _ & ->).
  cbn [symmetry _non_dual_sorted_sectors _sorted_multiplicities is_real is_dual
       _sector_perm _sorted_slices].
  unfold VectorSpace_init.
  rewrite Lm, Lp, Ls, assert_length_refl. cbn [bind]. rewrite Hip. reflexivity.
Qed.

(** X18: [as_VectorSpace] of a product that [ProductSpace.__init__]
    returned and whose [_sector_perm] is a permutation of
    [range(len(sectors))] does not raise and gives a plain space with
    exactly the data of the product: same symmetry, sectors,
    multiplicities, permutation, slices and flags.  The plain space and the
    product still compare unequal. *)
Theorem as_VectorSpace_keeps_the_data
        (spaces : list Space) (d0 : option bool) (secs : option SectorArray)
        (ms : option (list Z)) (perm : option (list Z)) (sl : option (list (Z * Z)))
        (p : Space) :
  ProductSpace_init spaces d0 secs ms perm sl = Ok p ->
  is_permutation (_sector_perm (as_data p)) ->
  as_VectorSpace p = Ok (Plain (as_data p))
  /\ spaces.__eq__ p (Plain (as_data p)) = false
  /\ spaces.__eq__ (Plain (as_data p)) p = false.
Proof.
  intros H _.
  apply product_init_fields in H as (f & rest & s & m & v & _ & _ & _ & Hv & ->).
  split; [|split; reflexivity].
  cbn [as_VectorSpace as_data]. now rewrite (init_from_own_fields _ _ _ _ _ _ _ _ Hv).
Qed.

Lemma as_VectorSpace_keeps_the_data_witness :
  exists p,
    ProductSpace_init [Plain space_of_dim_8] None None None None (Some [(0, 8)]) = Ok p
    /\ is_permutation (_sector_perm (as_data p))
    /\ as_VectorSpace p = Ok (Plain (as_data p)).
Proof.
  eexists. split; [reflexivity|].
  assert (Hp : is_permutation [0]) by apply Permutation_refl.
  split; [exact Hp|].
  exact (proj1 (as_VectorSpace_keeps_the_data [Plain space_of_dim_8] None None None None
                  (Some [(0, 8)]) _ eq_refl Hp)).
Defined.

(** ** [flip_is_dual] *)

Lemma map_dual_dual (s : Symmetry) (a : SectorArray) :
  Forall (fun r => is_valid_sector s r = true) a ->
  dual_sectors s (dual_sectors s a) = a.
Proof.
  intro H. rewrite !dual_sectors_rowwise, map_map.
  rewrite <- (map_id a) at 2. apply map_ext_in. intros r Hr.
  rewrite Forall_forall in H. apply dual_sector_involutive. now apply H.
Qed.

(** X19: [VectorSpace.flip_is_dual] builds its result without
    [_sorted_slices], so for a symmetry of [groups.py] it never returns a
    space.  Where it returns one, for a space of valid sectors, the result
    has the opposite [is_dual] and its public sectors and multiplicities are
    those of the space in canonical order ([_sorted_sectors],
    [_sorted_multiplicities]), not in the public order of the space. *)
Theorem flip_is_dual_lists_the_canonical_order (v : VectorSpace) :
  (forall s, symmetry v = of_groups s -> is_ok (flip_is_dual v) = false)
  /\ (forall g, sym_batch_sector_dim (symmetry v) = Some g ->
                length (_sorted_multiplicities v) = length (_non_dual_sorted_sectors v) ->
                exists w, flip_is_dual v = Ok w)
  /\ (forall w, flip_is_dual v = Ok w ->
                Forall (fun r => is_valid_sector (sym (symmetry v)) r = true)
                       (_non_dual_sorted_sectors v) ->
                sectors w = Ok (_sorted_sectors v)
                /\ multiplicities w = Ok (_sorted_multiplicities v)
                /\ is_dual w = negb (is_dual v)).
Proof.
  split; [|split].
  - intros s Hs. unfold flip_is_dual. rewrite Hs. apply init_without_slices_not_ok.
  - intros g Hg Hl. unfold flip_is_dual.
    apply (init_with_batch_sector_dim _ g); [exact Hg|].
    split; [|exact I]. now rewrite dual_sectors_rowwise, length_map.
  - intros w Hw Hv. unfold flip_is_dual in Hw.
    apply init_public_view in Hw as (Hs & Hm & Hd & _).
    split; [|split; assumption].
    rewrite Hs. unfold _sorted_sectors. destruct (is_dual v); cbn [negb].
    + reflexivity.
    + now rewrite map_dual_dual.
Qed.

Lemma flip_is_dual_lists_the_canonical_order_witness :
  exists v w,
    VectorSpace_init (with_abelian_attributes z3_symmetry) [[2]; [0]; [1]] (Some [5; 6; 7])
                     false false None None = Ok v
    /\ sectors v = Ok [[2]; [0]; [1]]
    /\ flip_is_dual v = Ok w
    /\ sectors w = Ok [[0]; [1]; [2]]
    /\ sectors w = Ok (_sorted_sectors v)
    /\ multiplicities w = Ok (_sorted_multiplicities v)
    /\ is_dual w = negb (is_dual v).
Proof.
  eexists. eexists. split; [reflexivity|]. split; [reflexivity|].
  split; [reflexivity|]. split; [reflexivity|].
  match goal with
  | |- sectors ?w = Ok (_sorted_sectors ?v) /\ _ =>
      apply (proj2 (proj2 (flip_is_dual_lists_the_canonical_order v)) w eq_refl)
  end.
  repeat constructor.
Defined.

Lemma is_permutation_take (p q p' : list Z) :
  is_permutation p -> is_permutation q -> length q = length p ->
  np.take p q = Ok p' -> is_permutation p'.
Proof.
  intros Hp Hq Hl H. unfold is_permutation.
  rewrite (take_length _ _ _ H), Hl.
  apply (Permutation_trans (take_permutation p p' q Hq (eq_sym Hl) H)). exact Hp.
Qed.

(** Reordering an array and the permutation by [q] does not change the
    array taken at the inverse permutation. *)
Lemma take_inverse_compose {A : Type} (d : A) (X X' : list A) (p q p' ip ip' : list Z) :
  is_permutation p -> is_permutation q -> length q = length p -> length X = length p ->
  np.take X q = Ok X' -> np.take p q = Ok p' ->
  inverse_permutation p = Ok ip -> inverse_permutation p' = Ok ip' ->
  np.take X' ip' = np.take X ip.
Proof.
  intros Hp Hq Lq LX HX Hp' Hip Hip'.
  pose proof (is_permutation_take p q p' Hp Hq Lq Hp') as Pp'.
  pose proof (is_permutation_range q Hq) as Rq.
  assert (EX : X' = map (fun i => nth (Z.to_nat i) X d) q).
  { rewrite (take_range X q d) in HX by (rewrite LX, <- Lq; exact Rq).
    now injection HX as <-. }
  assert (Ep : p' = map (fun i => nth (Z.to_nat i) p 0) q).
  { rewrite (take_range p q 0) in Hp' by (rewrite <- Lq; exact Rq).
    now injection Hp' as <-. }
  assert (Lp' : length p' = length p) by (rewrite (take_length _ _ _ Hp'); exact Lq).
  assert (LX' : length X' = length p) by (rewrite (take_length _ _ _ HX); exact Lq).
  destruct (inverse_permutation_entries p ip Hp Hip) as [Lip Eip].
  destruct (inverse_permutation_entries p' ip' Pp' Hip') as [Lip' Eip'].
  pose proof (is_permutation_range ip (inverse_permutation_is_permutation p ip Hp Hip)) as Rip.
  pose proof (is_permutation_range ip'
                (inverse_permutation_is_permutation p' ip' Pp' Hip')) as Rip'.
  rewrite (take_range X' ip' d) by (rewrite LX', <- Lp', <- Lip'; exact Rip').
  rewrite (take_range X ip d) by (rewrite LX, <- Lip; exact Rip).
  f_equal. apply (nth_ext _ _ d d); [rewrite !length_map; lia|].
  intros k Hk. rewrite length_map in Hk.
  rewrite (nth_map_in _ ip' k 0 d) by lia.
  rewrite (nth_map_in _ ip k 0 d) by lia.
  destruct (Eip k ltac:(lia)) as [Rk Ek].
  destruct (Eip' k ltac:(lia)) as [Rk' Ek'].
  set (t := Z.to_nat (nth k ip' 0)) in *.
  assert (Ht : (t < length q)%nat) by (unfold t; lia).
  rewrite EX, (nth_map_in _ q t 0 d) by exact Ht.
  f_equal.
  rewrite Ep, (nth_map_in _ q t 0 0) in Ek' by exact Ht.
  assert (Rqt : 0 <= nth t q 0 < Z.of_nat (length q)).
  { rewrite Forall_forall in Rq. apply Rq. now apply nth_In. }
  apply (proj1 (NoDup_nth p 0) (is_permutation_NoDup p Hp)); try lia.
Qed.

(** X20: [ProductSpace.flip_is_dual] of a product that
    [ProductSpace.__init__] returned, with a permutation as [_sector_perm]
    and valid sectors, returns a product of the same factors with the
    opposite [is_dual] and the same public [sectors], [multiplicities] and
    [slices]; its canonical sectors are the duals of the canonical sectors,
    sorted again. *)
Theorem product_flip_is_dual_keeps_the_sectors
        (spaces : list Space) (d0 : option bool) (secs : option SectorArray)
        (ms : option (list Z)) (perm : option (list Z)) (sl : option (list (Z * Z)))
        (v : VectorSpace) :
  ProductSpace_init spaces d0 secs ms perm sl = Ok (Product v spaces) ->
  is_permutation (_sector_perm v) ->
  Forall (fun r => is_valid_sector (sym (symmetry v)) r = true)
         (_non_dual_sorted_sectors v) ->
  exists w,
    ProductSpace_flip_is_dual v spaces = Ok (Product w spaces)
    /\ is_dual w = negb (is_dual v)
    /\ symmetry w = symmetry v
    /\ _non_dual_sorted_sectors w
       = sorted_rows (dual_sectors (sym (symmetry v)) (_non_dual_sorted_sectors v))
    /\ sectors w = sectors v
    /\ multiplicities w = multiplicities v
    /\ slices w = slices v.
Proof.
  intros H Hperm Hvalid.
  apply product_init_fields in H as (f & rest & s & m & v0 & E & Hsym & Hreal & Hv & Ev).
  injection Ev as <-. subst spaces.
  apply init_given_fields in Hv as (ip & ss & Lm & Lp & Hip & Ls & _ & Ev).
  subst v. cbn [_sector_perm _non_dual_sorted_sectors symmetry] in Hperm, Hvalid.
  set (o := symmetry (as_data f)) in *.
  set (p := match perm with Some q => q | None => np.arange (length s) end) in *.
  set (d := match d0 with Some b => b | None => is_dual (as_data f) end) in *.
  unfold ProductSpace_flip_is_dual.
  cbn [symmetry _non_dual_sorted_sectors _sorted_multiplicities _sorted_slices
       _sector_perm is_dual].
  set (ds := dual_sectors (sym o) s).
  assert (Lds : length ds = length s)
    by (unfold ds; now rewrite dual_sectors_rowwise, length_map).
  pose proof (lexsort_T_permutation ds) as Hq.
  pose proof (lexsort_T_length ds) as Lq.
  rewrite take_lexsort_T. cbn [bind].
  destruct (take_ok_of_permutation m _ Hq) as (m' & Hm'); [lia|].
  destruct (take_ok_of_permutation ss _ Hq) as (ss' & Hss'); [lia|].
  destruct (take_ok_of_permutation p _ Hq) as (p' & Hp'); [lia|].
  rewrite Hm', Hss', Hp'. cbn [bind].
  pose proof (is_permutation_take p _ p' Hperm Hq ltac:(lia) Hp') as Pp'.
  destruct (inverse_permutation_spec p' Pp') as (ip' & Hip' & Lip' & _).
  pose proof (take_length _ _ _ Hm') as Lm'.
  pose proof (take_length _ _ _ Hss') as Lss'.
  pose proof (take_length _ _ _ Hp') as Lp'.
  pose proof (sorted_rows_length ds) as Lsr.
  exists {| symmetry := o; is_real := is_real (as_data f); is_dual := negb d;
            _non_dual_sorted_sectors := sorted_rows ds; _sorted_multiplicities := m';
            _sector_perm := p'; _inverse_sector_perm := ip'; _sorted_slices := ss' |}.
  split.
  { unfold ProductSpace_init. fold o. rewrite Hsym, Hreal. cbn [assert bind fst snd].
    unfold VectorSpace_init.
    replace (length m' =? length (sorted_rows ds))%nat with true
      by (symmetry; apply Nat.eqb_eq; lia).
    replace (length p' =? length (sorted_rows ds))%nat with true
      by (symmetry; apply Nat.eqb_eq; lia).
    replace (length ss' =? length (sorted_rows ds))%nat with true
      by (symmetry; apply Nat.eqb_eq; lia).
    cbn [assert bind]. rewrite Hip'. reflexivity. }
  split; [reflexivity|]. split; [reflexivity|]. split; [reflexivity|].
  unfold sectors, multiplicities, slices.
  cbn [is_dual symmetry _non_dual_sorted_sectors _inverse_sector_perm
       _sorted_multiplicities _sorted_slices].
  assert (Lsp : length s = length p) by (symmetry; exact Lp).
  assert (Ldsp : length ds = length p) by (etransitivity; [exact Lds|exact Lsp]).
  assert (Lqp : length (np.lexsort_T ds) = length p)
    by (etransitivity; [exact Lq|exact Ldsp]).
  assert (Lmp : length m = length p) by (etransitivity; [exact Lm|exact Lsp]).
  assert (Lssp : length ss = length p) by (etransitivity; [exact Ls|exact Lsp]).
  split; [|split].
  - destruct d; cbn [negb].
    + exact (take_inverse_compose [] ds (sorted_rows ds) p (np.lexsort_T ds) p' ip ip'
               Hperm Hq Lqp Ldsp (take_lexsort_T ds) Hp' Hip Hip').
    + destruct (take_ok_of_permutation s _ Hq) as (s0 & Hs0);
        [etransitivity; [exact Lsp|symmetry; exact Lqp]|].
      assert (Es : sorted_rows ds = dual_sectors (sym o) s0).
      { pose proof (take_lexsort_T ds) as T.
        change (np.take (dual_sectors (sym o) s) (np.lexsort_T ds) = Ok (sorted_rows ds))
          in T.
        rewrite dual_sectors_rowwise, take_map, Hs0 in T. cbn [bind] in T.
        injection T as T. now rewrite dual_sectors_rowwise. }
      rewrite Es, map_dual_dual by (apply (take_Forall _ _ _ _ Hs0 Hvalid)).
      exact (take_inverse_compose [] s s0 p (np.lexsort_T ds) p' ip ip'
               Hperm Hq Lqp Lsp Hs0 Hp' Hip Hip').
  - exact (take_inverse_compose 0 m m' p (np.lexsort_T ds) p' ip ip'
             Hperm Hq Lqp Lmp Hm' Hp' Hip Hip').
  - exact (take_inverse_compose (0, 0) ss ss' p (np.lexsort_T ds) p' ip ip'
             Hperm Hq Lqp Lssp Hss' Hp' Hip Hip').
Qed.

Lemma product_flip_is_dual_keeps_the_sectors_witness :
  exists A v,
    given_space z3_symmetry [[1]; [2]] [1; 1] false [(0, 1); (1, 2)] = Ok A
    /\ ProductSpace_init [Plain A] None (Some [[0]; [1]; [2]]) (Some [1; 2; 3]) None
                         (Some [(0, 1); (1, 3); (3, 6)]) = Ok (Product v [Plain A])
    /\ sectors v = Ok [[0]; [1]; [2]]
    /\ exists w,
         ProductSpace_flip_is_dual v [Plain A] = Ok (Product w [Plain A])
         /\ is_dual w = negb (is_dual v)
         /\ symmetry w = symmetry v
         /\ _non_dual_sorted_sectors w
            = sorted_rows (dual_sectors (sym (symmetry v)) (_non_dual_sorted_sectors v))
         /\ sectors w = sectors v
         /\ multiplicities w = multiplicities v
         /\ slices w = slices v.
Proof.
  eexists. eexists. split; [reflexivity|]. split; [reflexivity|]. split; [reflexivity|].
  eapply (product_flip_is_dual_keeps_the_sectors _ None (Some [[0]; [1]; [2]])
            (Some [1; 2; 3]) None (Some [(0, 1); (1, 3); (3, 6)])).
  - reflexivity.
  - exact (arange_is_permutation 3).
  - repeat constructor.
Defined.

(** ** [test_sanity] *)

Lemma is_ok_bind_any {A B : Type} (r : result A) (k : A -> result B) :
  (forall a, is_ok (k a) = false) -> is_ok (bind r k) = false.
Proof. intro H. destruct r as [a|e]; [apply H|reflexivity]. Qed.

Lemma assert_cases (c : bool) : assert c = Ok tt \/ assert c = Raise AssertionError.
Proof. destruct c; [now left|now right]. Qed.

(** X21: no space of a symmetry of [groups.py] passes [test_sanity]: when
    its first assertions hold, the check of the slices calls
    [symmetry.batch_sector_dim], so [test_sanity] raises [AssertionError] or
    the [AttributeError]. *)
Theorem test_sanity_of_groups (s : Symmetry) (v : VectorSpace) :
  symmetry v = of_groups s ->
  test_sanity v = Raise AssertionError
  \/ test_sanity v = Raise (AttributeError "batch_sector_dim").
Proof.
  intro Hs. unfold test_sanity.
  repeat match goal with
         | |- context [bind (assert ?c) _] =>
             destruct (assert_cases c) as [-> | ->]; cbn [bind]; [|now left]
         end.
  right. rewrite Hs. reflexivity.
Qed.

Lemma test_sanity_of_groups_witness :
  exists v,
    given_space z3_symmetry [[2]; [0]; [1]] [5; 6; 7] false [(5, 11); (11, 18); (0, 5)] = Ok v
    /\ (test_sanity v = Raise AssertionError
        \/ test_sanity v = Raise (AttributeError "batch_sector_dim"))
    /\ test_sanity v = Raise (AttributeError "batch_sector_dim").
Proof.
  eexists. split; [reflexivity|]. split; [|reflexivity].
  match goal with
  | |- test_sanity ?v = _ \/ _ => exact (test_sanity_of_groups z3_symmetry v eq_refl)
  end.
Defined.

Lemma valid_length (s : Symmetry) (r : Sector) :
  is_valid_sector s r = true -> Z.of_nat (length r) = sector_ind_len s.
Proof.
  destruct s as [f|fs]; intro H.
  - destruct (factor_valid_one_entry f r H) as [x ->]. reflexivity.
  - rewrite product_valid_entries in H. apply andb_prop in H as [H _].
    apply Nat.eqb_eq in H. rewrite sector_ind_len_product. lia.
Qed.

Lemma filter_absent (k : Z) (l : list Z) : ~ In k l -> filter (Z.eqb k) l = [].
Proof.
  induction l as [|x l IH]; intro H; [reflexivity|]. cbn [filter].
  destruct (k =? x) eqn:E.
  - apply Z.eqb_eq in E. subst. exfalso. apply H. now left.
  - apply IH. intro Hin. apply H. now right.
Qed.

Lemma count_one (k : Z) (l : list Z) : NoDup l -> In k l -> np.count k l = 1.
Proof.
  unfold np.count. induction l as [|x l IH]; intros Hn Hin; [destruct Hin|].
  inversion Hn as [|? ? Hx Hn']; subst. cbn [filter].
  destruct (k =? x) eqn:E.
  - apply Z.eqb_eq in E. subst. now rewrite (filter_absent x l Hx).
  - apply Z.eqb_neq in E. destruct Hin as [Hin|Hin]; [congruence|]. now apply IH.
Qed.

Lemma combine_firstn_length {A B : Type} (l : list A) (l' : list B) :
  combine (firstn (length l') l) l' = combine l l'.
Proof.
  revert l'. induction l as [|x l IH]; intros [|y l']; simpl; try reflexivity.
  now rewrite IH.
Qed.

Lemma diffs_cumsum (c : Z) (l : list Z) :
  map (fun sl => snd sl - fst sl)
      (combine (c :: removelast (np.cumsum_from c l)) (np.cumsum_from c l)) = l.
Proof.
  revert c. induction l as [|x l IH]; intro c; [reflexivity|].
  cbn [np.cumsum_from]. cbn [combine map fst snd].
  replace (c + x - c) with x by lia. f_equal.
  destruct l as [|y l]; [reflexivity|].
  specialize (IH (c + x)). cbn [np.cumsum_from] in IH |- *.
  cbn [removelast]. cbn [removelast] in IH. exact IH.
Qed.

Lemma dense_slices_diffs (g : Sector -> Z) (a : SectorArray) (m : list Z) :
  length m = length a ->
  map (fun sl => snd sl - fst sl) (dense_slices g a m) = np.mul m (map g a).
Proof.
  intro H. rewrite (dense_slices_eq g a m H).
  rewrite <- (cumsum_sizes_length g a m H) at 1.
  rewrite combine_firstn_length. apply diffs_cumsum.
Qed.

Lemma nth_map_snd (sl : list (Z * Z)) (i : nat) :
  nth i (map snd sl) 0 = snd (nth i sl (0, 0)).
Proof. change 0 with (snd (0, 0)) at 1. apply map_nth. Qed.

(** The checks of [test_sanity] on a contiguous table of slices. *)
Lemma contiguous_checks (sl : list (Z * Z)) (d : Z) :
  sl <> [] -> slices_contiguous sl d ->
  exists first last,
    np.item sl 0 = Ok first /\ fst first = 0
    /\ np.array_equal (map fst (tl sl)) (map snd (removelast sl)) = true
    /\ np.item sl (-1) = Ok last /\ snd last = d.
Proof.
  intros Hne Hc. destruct (Hc Hne) as (Hfirst & Hnext & Hlast).
  assert (Hlen : (0 < length sl)%nat) by (destruct sl; [contradiction|simpl; lia]).
  exists (nth 0 sl (0, 0)), (nth (length sl - 1) sl (0, 0)).
  split; [apply (item_range sl 0 (0, 0)); lia|].
  split; [destruct sl; [contradiction|exact Hfirst]|].
  split.
  { apply array_equal_eq. apply (nth_ext _ _ 0 0).
    - rewrite !length_map, removelast_length. destruct sl; [contradiction|simpl; lia].
    - intros i Hi. rewrite length_map in Hi.
      assert (Hi' : (S i < length sl)%nat) by (destruct sl; simpl in *; lia).
      rewrite nth_map_fst, nth_map_snd.
      rewrite nth_removelast by exact Hi'. rewrite (Hnext i Hi').
      destruct sl; [contradiction|reflexivity]. }
  split; [|now rewrite <- last_nth].
  unfold np.item, np.norm_index.
  replace ((0 <=? -1) && (-1 <? Z.of_nat (length sl))) with false by reflexivity.
  replace ((- Z.of_nat (length sl) <=? -1) && (-1 <? 0)) with true
    by (symmetry; apply andb_true_intro; split; [apply Z.leb_le; lia|reflexivity]).
  cbn [bind]. replace (Z.to_nat (-1 + Z.of_nat (length sl))) with (length sl - 1)%nat by lia.
  now rewrite (nth_error_nth' sl (0, 0)) by lia.
Qed.

(** X22: with [batch_sector_dim] present, the constructor establishes the
    invariants of the class: from pairwise distinct valid sectors in any
    order and positive multiplicities (or the default ones) it returns a
    space that passes [test_sanity]. *)
Theorem constructor_passes_test_sanity (o : SymmetryObj) (g : Sector -> Z)
        (secs : SectorArray) (mults : option (list Z)) (r d : bool) :
  sym_batch_sector_dim o = Some g ->
  NoDup secs ->
  Forall (fun a => is_valid_sector (sym o) a = true) secs ->
  match mults with
  | Some m => length m = length secs /\ Forall (fun x => 0 < x) m
  | None => True
  end ->
  exists v, VectorSpace_init o secs mults r d None None = Ok v /\ test_sanity v = Ok tt.
Proof.
  intros Hg Hnd Hvalid Hm.
  destruct (init_with_batch_sector_dim o g secs mults r d None Hg) as (v & Hinit).
  { split; [|exact I]. destruct mults as [m0|]; [exact (proj1 Hm)|exact I]. }
  exists v. split; [exact Hinit|].
  apply init_sorted_fields in Hinit
    as (m & m' & ip & ss & Em & Lm & Hm' & Hip & (dense & Hdense & Hss) & ->).
  rewrite (calc_slices_spec o g secs m Hg Lm) in Hdense. injection Hdense as <-.
  set (q := np.lexsort_T secs) in *. set (a' := sorted_rows secs) in *.
  pose proof (lexsort_T_permutation secs) as Hq. fold q in Hq.
  pose proof (lexsort_T_length secs) as Lq. fold q in Lq.
  pose proof (sorted_rows_perm secs) as Pa. fold a' in Pa.
  pose proof (sorted_rows_length secs) as La. fold a' in La.
  pose proof (take_lexsort_T secs) as Ta. fold q a' in Ta.
  pose proof (take_length _ _ _ Hm') as Lm'.
  pose proof (take_length _ _ _ Hss) as Lss.
  assert (Lma : length m' = length a') by lia.
  assert (Lssa : length ss = length a') by lia.
  assert (Lqa : length q = length a') by lia.
  assert (Hpos : Forall (fun x => 0 < x) m).
  { destruct mults as [m0|]; subst m; [exact (proj2 Hm)|].
    apply Forall_forall. intros x Hx. apply repeat_spec in Hx. lia. }
  assert (C1 : forallb (is_valid_sector (sym o)) a' = true).
  { apply forallb_forall. intros x Hx. rewrite Forall_forall in Hvalid.
    apply Hvalid. now apply (Permutation_in _ Pa). }
  assert (C3 : length (np.unique_rows a') = length a').
  { unfold np.unique_rows. rewrite nodup_fixed_point; [reflexivity|].
    apply (Permutation_NoDup (Permutation_sym Pa) Hnd). }
  assert (C4 : forallb (fun x => Z.of_nat (length x) =? sector_ind_len (sym o)) a' = true).
  { apply forallb_forall. intros x Hx. rewrite forallb_forall in C1.
    apply Z.eqb_eq. apply valid_length. now apply C1. }
  assert (C5 : forallb (fun x => x >? 0) m' = true).
  { apply forallb_forall. intros x Hx.
    pose proof (take_Forall _ _ _ _ Hm' Hpos) as Hpos'. rewrite Forall_forall in Hpos'.
    specialize (Hpos' x Hx). apply Z.gtb_lt. exact Hpos'. }
  assert (C8 : map (fun sl => snd sl - fst sl) ss = np.mul (map g a') m').
  { pose proof (take_map (fun sl : Z * Z => snd sl - fst sl) (dense_slices g secs m) q) as T.
    rewrite Hss in T. cbn [bind] in T.
    rewrite (dense_slices_diffs g secs m Lm), mul_comm, mul_as_map, take_map in T.
    rewrite (take_combine secs a' m m' q (eq_sym Lm) Ta Hm') in T. cbn [bind] in T.
    injection T as T. now rewrite mul_as_map. }
  assert (C9 : np.take ss ip = Ok (dense_slices g secs m)).
  { apply (take_take_inverse _ _ q ip Hq Hip); [|exact Hss].
    rewrite dense_slices_length; lia. }
  assert (Hsum : np.sum (np.mul (map g a') m') = np.sum (np.mul m (map g secs))).
  { rewrite (total_size_permuted g secs a' m m' q Hq); try assumption; try lia.
    now rewrite mul_comm. }
  assert (C11 : forallb (fun k => np.count k q =? 1) (np.arange (length a')) = true).
  { apply forallb_forall. intros k Hk. apply Z.eqb_eq.
    apply count_one; [now apply is_permutation_NoDup|].
    apply (Permutation_in k (Permutation_sym Hq)). now rewrite Lqa. }
  unfold test_sanity, num_sectors, slices.
  cbn [symmetry _non_dual_sorted_sectors _sorted_multiplicities _sorted_slices
       _sector_perm _inverse_sector_perm].
  rewrite C1, C3, C4, C5, Lma, Lssa, Lqa, Nat.eqb_refl, C11. cbn [assert bind].
  unfold batch_sector_dim. rewrite Hg. cbn [bind].
  unfold broadcast_mul. rewrite length_map, <- Lma, Nat.eqb_refl. cbn [bind].
  rewrite C8, (proj2 (array_equal_eq _ _) eq_refl). cbn [assert bind].
  rewrite C9. cbn [bind].
  destruct (0 <? length (dense_slices g secs m))%nat eqn:E; [|reflexivity].
  apply Nat.ltb_lt in E.
  destruct (contiguous_checks (dense_slices g secs m) (np.sum (np.mul m (map g secs))))
    as (first & last & -> & Hf & -> & -> & Hl).
  { intro E0. rewrite E0 in E. simpl in E. lia. }
  { now apply dense_slices_contiguous. }
  cbn [bind]. rewrite Hf. cbn [Z.eqb assert bind].
  rewrite (dim_spec o g r d a' m' q ip ss Hg Lma). cbn [bind].
  rewrite Hl, Hsum, Z.eqb_refl. reflexivity.
Qed.

Lemma constructor_passes_test_sanity_witness :
  NoDup [[0; 1]; [1; 0]]
  /\ exists v,
       VectorSpace_init (with_abelian_attributes
                           (ProductSymmetry [U1Symmetry None; ZNSymmetry 3 None]))
                        [[0; 1]; [1; 0]] (Some [2; 3]) false false None None = Ok v
       /\ test_sanity v = Ok tt.
Proof.
  split; [exact NoDup_two_rows|].
  apply (constructor_passes_test_sanity
           (with_abelian_attributes (ProductSymmetry [U1Symmetry None; ZNSymmetry 3 None]))
           (fun _ => 1) [[0; 1]; [1; 0]] (Some [2; 3]) false false eq_refl NoDup_two_rows).
  - repeat constructor.
  - split; [reflexivity|]. repeat constructor.
Defined.

(** ** The scans of two sorted sequences in [misc.py] *)

Section merge_scan.

Variables (A : Type) (cmp : A -> A -> comparison) (d : A).
Hypothesis cmp_eq : forall x y, cmp x y = Eq -> x = y.
Hypothesis cmp_refl : forall x, cmp x x = Eq.
Hypothesis cmp_antisym : forall x y, cmp y x = CompOpp (cmp x y).
Hypothesis cmp_trans : forall x y z, cmp x y = Lt -> cmp y z = Lt -> cmp x z = Lt.

Lemma sorted_nth_lt (a : list A) (i j : nat) :
  StronglySorted (fun x y => cmp x y = Lt) a ->
  (i < j)%nat -> (j < length a)%nat -> cmp (nth i a d) (nth j a d) = Lt.
Proof.
  intro Hs. revert i j. induction Hs as [|x a Hs IH Hx]; intros i j Hij Hj; [simpl in Hj; lia|].
  destruct j as [|j]; [lia|]. simpl in Hj. destruct i as [|i]; simpl.
  - rewrite Forall_forall in Hx. apply Hx, nth_In. lia.
  - apply IH; lia.
Qed.

Lemma sorted_nth_inj (a : list A) (i j : nat) :
  StronglySorted (fun x y => cmp x y = Lt) a ->
  (i < length a)%nat -> (j < length a)%nat -> nth i a d = nth j a d -> i = j.
Proof.
  intros Hs Hi Hj E.
  destruct (Nat.lt_trichotomy i j) as [H|[H|H]]; [|exact H|].
  - pose proof (sorted_nth_lt a i j Hs H Hj) as L. rewrite E, cmp_refl in L. discriminate.
  - pose proof (sorted_nth_lt a j i Hs H Hi) as L. rewrite E, cmp_refl in L. discriminate.
Qed.

(** No entry from [j] on of a sorted list is an entry that is before
    the one at [j]. *)
Lemma sorted_below_absent (b : list A) (x : A) (j y : nat) :
  StronglySorted (fun x y => cmp x y = Lt) b ->
  cmp x (nth j b d) = Lt -> (j <= y)%nat -> (y < length b)%nat -> x <> nth y b d.
Proof.
  intros Hs L Hjy Hy E.
  assert (L' : cmp x (nth y b d) = Lt).
  { destruct (Nat.eq_dec j y) as [<-|Hne]; [exact L|].
    apply (cmp_trans _ (nth j b d)); [exact L|]. apply sorted_nth_lt; [exact Hs|lia|exact Hy]. }
  rewrite <- E, cmp_refl in L'. discriminate.
Qed.

Lemma cmp_gt_lt (x y : A) : cmp x y = Gt -> cmp y x = Lt.
Proof. intro H. now rewrite cmp_antisym, H. Qed.

Lemma common_scan_spec (a b : list A) :
  StronglySorted (fun x y => cmp x y = Lt) a ->
  StronglySorted (fun x y => cmp x y = Lt) b ->
  forall turns i j,
    (length a - i + (length b - j) <= turns)%nat ->
    forall x y,
      In (x, y) (common_scan cmp d turns a b i j)
      <-> (i <= x < length a)%nat /\ (j <= y < length b)%nat /\ nth x a d = nth y b d.
Proof.
  intros Ha Hb. induction turns as [|turns IH]; intros i j Hf x y; cbn [common_scan].
  - split; [intros []|]. intros (H1 & H2 & _). lia.
  - destruct (Nat.ltb_spec i (length a)) as [Hi|Hi]; cbn [andb];
      [|split; [intros []|intros (H1 & _); lia]].
    destruct (Nat.ltb_spec j (length b)) as [Hj|Hj];
      [|split; [intros []|intros (_ & H2 & _); lia]].
    destruct (cmp (nth i a d) (nth j b d)) eqn:E.
    + apply cmp_eq in E. cbn [In]. rewrite (IH (S i) (S j)) by lia. split.
      * intros [H|(H1 & H2 & H3)]; [injection H as <- <-|]; repeat split; try lia; assumption.
      * intros (H1 & H2 & H3).
        destruct (Nat.eq_dec x i) as [->|Hx].
        -- left. f_equal. symmetry. apply (sorted_nth_inj b y j Hb); [lia|exact Hj|congruence].
        -- right. repeat split; try lia; [|exact H3].
           destruct (Nat.eq_dec y j) as [->|Hy]; [|lia].
           exfalso. apply Hx. apply (sorted_nth_inj a x i Ha); [lia|exact Hi|congruence].
    + rewrite (IH (S i) j) by lia. split.
      * intros (H1 & H2 & H3). repeat split; try lia; assumption.
      * intros (H1 & H2 & H3). repeat split; try lia; [|exact H3].
        destruct (Nat.eq_dec x i) as [->|Hx]; [|lia]. exfalso.
        exact (sorted_below_absent b _ j y Hb E (proj1 H2) (proj2 H2) H3).
    + apply cmp_gt_lt in E. rewrite (IH i (S j)) by lia. split.
      * intros (H1 & H2 & H3). repeat split; try lia; assumption.
      * intros (H1 & H2 & H3). repeat split; try lia; [|exact H3].
        destruct (Nat.eq_dec y j) as [->|Hy]; [|lia]. exfalso.
        exact (sorted_below_absent a _ i x Ha E (proj1 H1) (proj2 H1) (eq_sym H3)).
Qed.

End merge_scan.

(** The pairs of a scan come with both positions ascending, whatever the
    two lists hold. *)
Lemma common_scan_ascending {A : Type} (cmp : A -> A -> comparison) (d : A) (a b : list A)
      (turns i j : nat) :
  StronglySorted both_before (common_scan cmp d turns a b i j)
  /\ Forall (fun p => (i <= fst p)%nat /\ (j <= snd p)%nat) (common_scan cmp d turns a b i j).
Proof.
  revert i j. induction turns as [|turns IH]; intros i j; cbn [common_scan].
  - split; constructor.
  - destruct ((i <? length a)%nat && (j <? length b)%nat); [|split; constructor].
    destruct (cmp (nth i a d) (nth j b d)).
    + destruct (IH (S i) (S j)) as [H1 H2]. split.
      * constructor; [exact H1|]. apply (Forall_impl _ (P := fun p => (S i <= fst p)%nat /\ (S j <= snd p)%nat));
          [|exact H2]. intros p [Hp1 Hp2]. unfold both_before. cbn [fst snd]. lia.
      * constructor; [cbn [fst snd]; lia|].
        apply (Forall_impl _ (P := fun p => (S i <= fst p)%nat /\ (S j <= snd p)%nat));
          [|exact H2]. intros p [Hp1 Hp2]. lia.
    + destruct (IH (S i) j) as [H1 H2]. split; [exact H1|].
      apply (Forall_impl _ (P := fun p => (S i <= fst p)%nat /\ (j <= snd p)%nat));
        [|exact H2]. intros p [Hp1 Hp2]. lia.
    + destruct (IH i (S j)) as [H1 H2]. split; [exact H1|].
      apply (Forall_impl _ (P := fun p => (i <= fst p)%nat /\ (S j <= snd p)%nat));
        [|exact H2]. intros p [Hp1 Hp2]. lia.
Qed.

Lemma iter_common_sorted_loop_scan (turns : nat) (a b : list Z) (i j : nat) :
  misc.iter_common_sorted_loop turns a b i j = common_scan Z.compare 0 turns a b i j.
Proof.
  revert i j. induction turns as [|turns IH]; intros i j; [reflexivity|].
  cbn [misc.iter_common_sorted_loop common_scan].
  destruct ((i <? length a)%nat && (j <? length b)%nat); [|reflexivity].
  destruct (Z.compare_spec (nth i a 0) (nth j b 0)) as [E|E|E].
  - rewrite E, Z.ltb_irrefl. now rewrite IH.
  - apply Z.ltb_lt in E. rewrite E. apply IH.
  - assert (E' : (nth i a 0 <? nth j b 0) = false) by (apply Z.ltb_ge; lia).
    apply Z.ltb_lt in E. rewrite E', E. apply IH.
Qed.

(** X24: for strictly ascending [a] and [b], [iter_common_sorted(a, b)]
    yields exactly the pairs [(i, j)] with [a[i] == b[j]], each once, with
    [i] and [j] both ascending. *)
Theorem iter_common_sorted_pairs (a b : list Z) :
  StronglySorted Z.lt a -> StronglySorted Z.lt b ->
  (forall i j, In (i, j) (misc.iter_common_sorted a b)
               <-> (i < length a)%nat /\ (j < length b)%nat /\ nth i a 0 = nth j b 0)
  /\ StronglySorted both_before (misc.iter_common_sorted a b).
Proof.
  intros Ha Hb. unfold misc.iter_common_sorted. rewrite iter_common_sorted_loop_scan. split.
  - intros i j.
    rewrite (common_scan_spec Z Z.compare 0 Z.compare_eq Z.compare_refl
               (fun x y => Z.compare_antisym x y)
               (fun x y z => Z.lt_trans x y z) a b Ha Hb _ 0%nat 0%nat) by lia.
    split; [intros (H1 & H2 & H3)|intros (H1 & H2 & H3)]; repeat split; try lia; assumption.
  - apply common_scan_ascending.
Qed.

Lemma iter_common_sorted_pairs_witness :
  misc.iter_common_sorted [-3; 0; 2; 5; 9] [0; 1; 5; 6] = [(1, 0); (3, 2)]%nat
  /\ (forall i j, In (i, j) (misc.iter_common_sorted [-3; 0; 2; 5; 9] [0; 1; 5; 6])
                  <-> (i < 5)%nat /\ (j < 4)%nat
                      /\ nth i [-3; 0; 2; 5; 9] 0 = nth j [0; 1; 5; 6] 0)
  /\ StronglySorted both_before (misc.iter_common_sorted [-3; 0; 2; 5; 9] [0; 1; 5; 6]).
Proof.
  split; [reflexivity|].
  apply (iter_common_sorted_pairs [-3; 0; 2; 5; 9] [0; 1; 5; 6]); repeat constructor.
Defined.

Lemma compare_columns_ext (ks : list nat) (r s r' s' : Sector) :
  (forall k, In k ks -> nth k r 0 = nth k r' 0 /\ nth k s 0 = nth k s' 0) ->
  misc.compare_columns ks r s = misc.compare_columns ks r' s'.
Proof.
  induction ks as [|k ks IH]; intro H; [reflexivity|]. cbn [misc.compare_columns].
  destruct (H k (or_introl eq_refl)) as [-> ->].
  rewrite IH; [reflexivity|]. intros k' Hk'. apply H. now right.
Qed.

(** On rows of [d] entries the loop over the columns is the comparison of
    [np.lexsort]. *)
Lemma compare_columns_lexsort (d : nat) (r s : Sector) :
  length r = d -> length s = d ->
  misc.compare_columns (misc.reversed_range d) r s = np.lexsort_compare r s.
Proof.
  unfold misc.reversed_range, np.lexsort_compare. revert r s.
  induction d as [|d IH]; intros r s Hr Hs.
  - destruct r; [|discriminate]. destruct s; [|discriminate]. reflexivity.
  - destruct (exists_last (l := r)) as (r' & x & ->); [now intros ->|].
    destruct (exists_last (l := s)) as (s' & y & ->); [now intros ->|].
    rewrite length_app in Hr, Hs. cbn [length] in Hr, Hs.
    assert (Hr' : length r' = d) by lia. assert (Hs' : length s' = d) by lia.
    rewrite seq_S, !rev_app_distr. cbn [rev app Nat.add misc.compare_columns np.lex_compare].
    rewrite (app_nth2 r') by lia. rewrite (app_nth2 s') by lia.
    rewrite Hr', Hs', Nat.sub_diag. cbn [nth].
    rewrite (compare_columns_ext _ _ _ r' s').
    + rewrite (IH r' s' Hr' Hs').
      destruct (Z.compare_spec x y) as [E|E|E].
      * subst. now rewrite Z.ltb_irrefl.
      * apply Z.ltb_lt in E. now rewrite E.
      * assert (E' : (x <? y) = false) by (apply Z.ltb_ge; lia).
        apply Z.ltb_lt in E. now rewrite E', E.
    + intros k Hk. apply in_rev, in_seq in Hk.
      split; apply app_nth1; lia.
Qed.

Lemma lexsort_compare_antisym (a b : Sector) :
  np.lexsort_compare b a = CompOpp (np.lexsort_compare a b).
Proof. apply lex_compare_antisym. Qed.

Lemma nth_width (d : nat) (a : SectorArray) (i : nat) :
  Forall (fun r => length r = d) a -> (i < length a)%nat -> length (nth i a []) = d.
Proof. intros H Hi. rewrite Forall_forall in H. apply H, nth_In, Hi. Qed.

Lemma iter_common_sorted_arrays_loop_scan (d : nat) (a b : SectorArray) :
  Forall (fun r => length r = d) a -> Forall (fun r => length r = d) b ->
  forall turns i j,
    misc.iter_common_sorted_arrays_loop turns d a b i j
    = common_scan np.lexsort_compare [] turns a b i j.
Proof.
  intros Ha Hb. induction turns as [|turns IH]; intros i j; [reflexivity|].
  cbn [misc.iter_common_sorted_arrays_loop common_scan].
  unfold SectorArray, Sector in *.
  destruct (Nat.ltb_spec i (length a)) as [Hi|Hi]; [|reflexivity].
  destruct (Nat.ltb_spec j (length b)) as [Hj|Hj]; [|reflexivity]. cbn [andb].
  rewrite (compare_columns_lexsort d) by now apply nth_width.
  now rewrite !IH.
Qed.

(** X25: [iter_common_sorted_arrays(a, b)] raises [AssertionError] when the
    two arrays differ in the number of their columns.  Otherwise, for arrays
    whose rows are strictly sorted in the order of [np.lexsort(a.T)], it
    yields exactly the pairs [(i, j)] of equal rows [a[i, :]], [b[j, :]],
    each once, with [i] and [j] both ascending. *)
Theorem iter_common_sorted_arrays_pairs (d_a d_b : nat) (a b : SectorArray) :
  Forall (fun r => length r = d_a) a -> Forall (fun r => length r = d_b) b ->
  StronglySorted lexsort_lt a -> StronglySorted lexsort_lt b ->
  (d_a <> d_b -> misc.iter_common_sorted_arrays d_a d_b a b = Raise AssertionError)
  /\ (d_a = d_b ->
      exists ps,
        misc.iter_common_sorted_arrays d_a d_b a b = Ok ps
        /\ (forall i j, In (i, j) ps
                        <-> (i < length a)%nat /\ (j < length b)%nat
                            /\ nth i a [] = nth j b [])
        /\ StronglySorted both_before ps).
Proof.
  intros Wa Wb Ha Hb. unfold misc.iter_common_sorted_arrays. split.
  - intro Hd. apply Nat.eqb_neq in Hd. now rewrite Hd.
  - intro Hd. subst d_b. rewrite Nat.eqb_refl. cbn [assert bind].
    eexists. split; [reflexivity|].
    rewrite (iter_common_sorted_arrays_loop_scan d_a a b Wa Wb). split.
    + intros i j.
      rewrite (common_scan_spec Sector np.lexsort_compare [] lexsort_compare_eq
                 lexsort_compare_refl lexsort_compare_antisym lexsort_lt_trans
                 a b Ha Hb _ 0%nat 0%nat) by lia.
      split; [intros (H1 & H2 & H3)|intros (H1 & H2 & H3)]; repeat split; try lia; assumption.
    + apply common_scan_ascending.
Qed.

Lemma iter_common_sorted_arrays_pairs_witness :
  misc.iter_common_sorted_arrays 2 2 [[1; 0]; [0; 1]; [2; 1]; [0; 3]] [[0; 1]; [1; 1]; [0; 3]]
  = Ok [(1, 0); (3, 2)]%nat
  /\ ((2 <> 2)%nat ->
      misc.iter_common_sorted_arrays 2 2 [[1; 0]; [0; 1]; [2; 1]; [0; 3]]
                                     [[0; 1]; [1; 1]; [0; 3]]
      = Raise AssertionError)
  /\ ((2 = 2)%nat ->
      exists ps,
        misc.iter_common_sorted_arrays 2 2 [[1; 0]; [0; 1]; [2; 1]; [0; 3]]
                                       [[0; 1]; [1; 1]; [0; 3]] = Ok ps
        /\ (forall i j, In (i, j) ps
                        <-> (i < 4)%nat /\ (j < 3)%nat
                            /\ nth i [[1; 0]; [0; 1]; [2; 1]; [0; 3]] []
                               = nth j [[0; 1]; [1; 1]; [0; 3]] [])
        /\ StronglySorted both_before ps).
Proof.
  split; [reflexivity|].
  apply (iter_common_sorted_arrays_pairs 2 2 [[1; 0]; [0; 1]; [2; 1]; [0; 3]]
           [[0; 1]; [1; 1]; [0; 3]]); repeat constructor.
Defined.

Lemma noncommon_from_exit (turns d : nat) (a b : SectorArray) (i j : nat) :
  (length a <= i)%nat \/ (length b <= j)%nat ->
  noncommon_from turns d a b i j = noncommon_tails a b i j.
Proof.
  intro H. unfold noncommon_from. destruct turns as [|turns]; [reflexivity|].
  cbn [misc.iter_common_noncommon_loop].
  destruct (Nat.ltb_spec i (length a)) as [Hi|Hi]; [|reflexivity].
  destruct (Nat.ltb_spec j (length b)) as [Hj|Hj]; [lia|reflexivity].
Qed.

Lemma noncommon_from_step (turns d : nat) (a b : SectorArray) (i j : nat) :
  Forall (fun r => length r = d) a -> Forall (fun r => length r = d) b ->
  (i < length a)%nat -> (j < length b)%nat ->
  noncommon_from (S turns) d a b i j
  = match np.lexsort_compare (nth i a []) (nth j b []) with
    | Lt => (Some i, None) :: noncommon_from turns d a b (S i) j
    | Gt => (None, Some j) :: noncommon_from turns d a b i (S j)
    | Eq => (Some i, Some j) :: noncommon_from turns d a b (S i) (S j)
    end.
Proof.
  intros Wa Wb Hi Hj. unfold noncommon_from. cbn [misc.iter_common_noncommon_loop].
  rewrite (proj2 (Nat.ltb_lt _ _) Hi), (proj2 (Nat.ltb_lt _ _) Hj). cbn [andb].
  rewrite (compare_columns_lexsort d) by now apply nth_width.
  destruct (np.lexsort_compare (nth i a []) (nth j b [])); reflexivity.
Qed.

Lemma noncommon_tails_spec (a b : SectorArray) (i j : nat) :
  (length a <= i)%nat \/ (length b <= j)%nat ->
  noncommon_yields a b i j (noncommon_tails a b i j).
Proof.
  intro H. unfold noncommon_yields, noncommon_tails.
  assert (Hl : forall p, In p (map (fun i2 => (Some i2, @None nat)) (seq i (length a - i)))
                         <-> exists x, p = (Some x, None) /\ (i <= x < length a)%nat).
  { intro p. rewrite in_map_iff. split.
    - intros (k & <- & Hk). apply in_seq in Hk. exists k. split; [reflexivity|lia].
    - intros (x & -> & Hx). exists x. split; [reflexivity|]. apply in_seq. lia. }
  assert (Hr : forall p, In p (map (fun j2 => (@None nat, Some j2)) (seq j (length b - j)))
                         <-> exists y, p = (None, Some y) /\ (j <= y < length b)%nat).
  { intro p. rewrite in_map_iff. split.
    - intros (k & <- & Hk). apply in_seq in Hk. exists k. split; [reflexivity|lia].
    - intros (y & -> & Hy). exists y. split; [reflexivity|]. apply in_seq. lia. }
  split; [|split; [|split]].
  - intros x y. rewrite in_app_iff, Hl, Hr. split.
    + intros [(k & E & _)|(k & E & _)]; discriminate.
    + intros (H1 & H2 & _). lia.
  - intro x. rewrite in_app_iff, Hl, Hr. split.
    + intros [(k & E & Hk)|(k & E & _)]; [|discriminate]. injection E as ->.
      split; [exact Hk|]. intros y Hy. lia.
    + intros (Hx & _). left. now exists x.
  - intro y. rewrite in_app_iff, Hl, Hr. split.
    + intros [(k & E & _)|(k & E & Hk)]; [discriminate|]. injection E as ->.
      split; [exact Hk|]. intros x Hx. lia.
    + intros (Hy & _). right. now exists y.
  - rewrite in_app_iff, Hl, Hr. intros [(k & E & _)|(k & E & _)]; discriminate.
Qed.

Lemma noncommon_from_spec (d : nat) (a b : SectorArray) :
  Forall (fun r => length r = d) a -> Forall (fun r => length r = d) b ->
  StronglySorted lexsort_lt a -> StronglySorted lexsort_lt b ->
  forall turns i j,
    (length a - i + (length b - j) <= turns)%nat ->
    noncommon_yields a b i j (noncommon_from turns d a b i j).
Proof.
  intros Wa Wb Ha Hb.
  pose proof (sorted_nth_inj Sector np.lexsort_compare [] lexsort_compare_refl a) as inj_a.
  pose proof (sorted_nth_inj Sector np.lexsort_compare [] lexsort_compare_refl b) as inj_b.
  pose proof (sorted_below_absent Sector np.lexsort_compare [] lexsort_compare_refl
                lexsort_lt_trans a) as below_a.
  pose proof (sorted_below_absent Sector np.lexsort_compare [] lexsort_compare_refl
                lexsort_lt_trans b) as below_b.
  induction turns as [|turns IH]; intros i j Hf.
  { rewrite noncommon_from_exit by lia. apply noncommon_tails_spec. lia. }
  destruct (le_lt_dec (length a) i) as [Hi|Hi].
  { rewrite noncommon_from_exit by lia. apply noncommon_tails_spec. lia. }
  destruct (le_lt_dec (length b) j) as [Hj|Hj].
  { rewrite noncommon_from_exit by lia. apply noncommon_tails_spec. lia. }
  rewrite (noncommon_from_step turns d a b i j Wa Wb Hi Hj).
  destruct (np.lexsort_compare (nth i a []) (nth j b [])) eqn:E.
  - apply lexsort_compare_eq in E.
    destruct (IH (S i) (S j) ltac:(lia)) as (P1 & P2 & P3 & P4).
    split; [|split; [|split]].
    + intros x y. cbn [In]. rewrite P1. split.
      * intros [H|(H1 & H2 & H3)]; [injection H as <- <-|]; repeat split; try lia; assumption.
      * intros (H1 & H2 & H3).
        destruct (Nat.eq_dec x i) as [->|Hx].
        -- left. do 2 f_equal. symmetry. apply (inj_b y j Hb); [lia|exact Hj|congruence].
        -- right. repeat split; try lia; [|exact H3].
           destruct (Nat.eq_dec y j) as [->|Hy]; [|lia].
           exfalso. apply Hx. apply (inj_a x i Ha); [lia|exact Hi|congruence].
    + intro x. cbn [In]. rewrite P2. split.
      * intros [H|(H1 & H2)]; [discriminate|]. split; [lia|]. intros y Hy.
        destruct (Nat.eq_dec y j) as [->|Hne]; [|apply H2; lia].
        intro H3. assert (x = i) by (apply (inj_a x i Ha); [lia|exact Hi|congruence]). lia.
      * intros (H1 & H2). right.
        assert (x <> i) by (intros ->; apply (H2 j); [lia|exact E]).
        split; [lia|]. intros y Hy. apply H2. lia.
    + intro y. cbn [In]. rewrite P3. split.
      * intros [H|(H1 & H2)]; [discriminate|]. split; [lia|]. intros x Hx.
        destruct (Nat.eq_dec x i) as [->|Hne]; [|apply H2; lia].
        intro H3. assert (y = j) by (apply (inj_b y j Hb); [lia|exact Hj|congruence]). lia.
      * intros (H1 & H2). right.
        assert (y <> j) by (intros ->; apply (H2 i); [lia|exact E]).
        split; [lia|]. intros x Hx. apply H2. lia.
    + cbn [In]. intros [H|H]; [discriminate|now apply P4].
  - destruct (IH (S i) j ltac:(lia)) as (P1 & P2 & P3 & P4).
    split; [|split; [|split]].
    + intros x y. cbn [In]. rewrite P1. split.
      * intros [H|(H1 & H2 & H3)]; [discriminate|]. repeat split; try lia; assumption.
      * intros (H1 & H2 & H3). right. repeat split; try lia; [|exact H3].
        destruct (Nat.eq_dec x i) as [->|Hx]; [|lia]. exfalso.
        exact (below_b _ j y Hb E (proj1 H2) (proj2 H2) H3).
    + intro x. cbn [In]. rewrite P2. split.
      * intros [H|(H1 & H2)].
        -- injection H as <-. split; [lia|]. intros y Hy.
           exact (below_b _ j y Hb E (proj1 Hy) (proj2 Hy)).
        -- split; [lia|exact H2].
      * intros (H1 & H2). destruct (Nat.eq_dec x i) as [->|Hx]; [now left|right].
        split; [lia|exact H2].
    + intro y. cbn [In]. rewrite P3. split.
      * intros [H|(H1 & H2)]; [discriminate|]. split; [exact H1|]. intros x Hx.
        destruct (Nat.eq_dec x i) as [->|Hne]; [|apply H2; lia].
        exact (below_b _ j y Hb E (proj1 H1) (proj2 H1)).
      * intros (H1 & H2). right. split; [exact H1|]. intros x Hx. apply H2. lia.
    + cbn [In]. intros [H|H]; [discriminate|now apply P4].
  - apply (cmp_gt_lt Sector np.lexsort_compare lexsort_compare_antisym) in E.
    destruct (IH i (S j) ltac:(lia)) as (P1 & P2 & P3 & P4).
    split; [|split; [|split]].
    + intros x y. cbn [In]. rewrite P1. split.
      * intros [H|(H1 & H2 & H3)]; [discriminate|]. repeat split; try lia; assumption.
      * intros (H1 & H2 & H3). right. repeat split; try lia; [|exact H3].
        destruct (Nat.eq_dec y j) as [->|Hy]; [|lia]. exfalso.
        exact (below_a _ i x Ha E (proj1 H1) (proj2 H1) (eq_sym H3)).
    + intro x. cbn [In]. rewrite P2. split.
      * intros [H|(H1 & H2)]; [discriminate|]. split; [exact H1|]. intros y Hy.
        destruct (Nat.eq_dec y j) as [->|Hne]; [|apply H2; lia].
        intro H3. exact (below_a _ i x Ha E (proj1 H1) (proj2 H1) (eq_sym H3)).
      * intros (H1 & H2). right. split; [exact H1|]. intros y Hy. apply H2. lia.
    + intro y. cbn [In]. rewrite P3. split.
      * intros [H|(H1 & H2)].
        -- injection H as <-. split; [lia|]. intros x Hx H3.
           exact (below_a _ i x Ha E (proj1 Hx) (proj2 Hx) (eq_sym H3)).
        -- split; [lia|exact H2].
      * intros (H1 & H2). destruct (Nat.eq_dec y j) as [->|Hy]; [now left|right].
        split; [lia|exact H2].
    + cbn [In]. intros [H|H]; [discriminate|now apply P4].
Qed.

(** X26: [iter_common_noncommon_sorted_arrays(a, b)], for two arrays with
    as many columns whose rows are strictly sorted in the order of
    [np.lexsort(a.T)], yields [(i, j)] exactly for the equal rows [a[i, :]],
    [b[j, :]], [(i, None)] exactly for the rows of [a] that are no row of
    [b], [(None, j)] exactly for the rows of [b] that are no row of [a], and
    never [(None, None)]. *)
Theorem iter_common_noncommon_partition (d : nat) (a b : SectorArray) :
  Forall (fun r => length r = d) a -> Forall (fun r => length r = d) b ->
  StronglySorted lexsort_lt a -> StronglySorted lexsort_lt b ->
  exists ys,
    misc.iter_common_noncommon_sorted_arrays d d a b = Ok ys
    /\ (forall i j, In (Some i, Some j) ys
                    <-> (i < length a)%nat /\ (j < length b)%nat
                        /\ nth i a [] = nth j b [])
    /\ (forall i, In (Some i, None) ys <-> (i < length a)%nat /\ ~ In (nth i a []) b)
    /\ (forall j, In (None, Some j) ys <-> (j < length b)%nat /\ ~ In (nth j b []) a)
    /\ ~ In (None, None) ys.
Proof.
  intros Wa Wb Ha Hb. unfold misc.iter_common_noncommon_sorted_arrays.
  rewrite Nat.eqb_refl. cbn [assert bind].
  exists (noncommon_from (length a + length b) d a b 0 0). split; [reflexivity|].
  destruct (noncommon_from_spec d a b Wa Wb Ha Hb (length a + length b) 0 0 ltac:(lia))
    as (P1 & P2 & P3 & P4).
  unfold SectorArray, Sector in *.
  split; [|split; [|split]].
  - intros i j. rewrite P1. split; intros (H1 & H2 & H3); repeat split; try lia; assumption.
  - intro i. rewrite P2. split; intros (H1 & H2); (split; [lia|]).
    + intro Hin. apply (In_nth _ _ []) in Hin as (y & Hy & E). apply (H2 y); [lia|now symmetry].
    + intros y Hy E. apply H2. rewrite E. apply nth_In. lia.
  - intro j. rewrite P3. split; intros (H1 & H2); (split; [lia|]).
    + intro Hin. apply (In_nth _ _ []) in Hin as (x & Hx & E). apply (H2 x); [lia|exact E].
    + intros x Hx E. apply H2. rewrite <- E. apply nth_In. lia.
  - exact P4.
Qed.

Lemma iter_common_noncommon_partition_witness :
  misc.iter_common_noncommon_sorted_arrays 2 2 [[1; 0]; [0; 1]; [2; 1]; [0; 3]]
                                           [[0; 1]; [1; 1]; [0; 3]; [1; 3]]
  = Ok [(Some 0, None); (Some 1, Some 0); (None, Some 1); (Some 2, None);
        (Some 3, Some 2); (None, Some 3)]%nat
  /\ exists ys,
       misc.iter_common_noncommon_sorted_arrays 2 2 [[1; 0]; [0; 1]; [2; 1]; [0; 3]]
                                                [[0; 1]; [1; 1]; [0; 3]; [1; 3]] = Ok ys
       /\ (forall i j, In (Some i, Some j) ys
                       <-> (i < 4)%nat /\ (j < 4)%nat
                           /\ nth i [[1; 0]; [0; 1]; [2; 1]; [0; 3]] []
                              = nth j [[0; 1]; [1; 1]; [0; 3]; [1; 3]] [])
       /\ (forall i, In (Some i, None) ys
                     <-> (i < 4)%nat
                         /\ ~ In (nth i [[1; 0]; [0; 1]; [2; 1]; [0; 3]] [])
                                 [[0; 1]; [1; 1]; [0; 3]; [1; 3]])
       /\ (forall j, In (None, Some j) ys
                     <-> (j < 4)%nat
                         /\ ~ In (nth j [[0; 1]; [1; 1]; [0; 3]; [1; 3]] [])
                                 [[1; 0]; [0; 1]; [2; 1]; [0; 3]])
       /\ ~ In (None, None) ys.
Proof.
  split; [reflexivity|].
  apply (iter_common_noncommon_partition 2 [[1; 0]; [0; 1]; [2; 1]; [0; 3]]
           [[0; 1]; [1; 1]; [0; 3]; [1; 3]]); repeat constructor.
Defined.

Lemma sorted_nth_le (a : SectorArray) (i j : nat) :
  StronglySorted lexsort_le a -> (i <= j)%nat -> (j < length a)%nat ->
  lexsort_le (nth i a []) (nth j a []).
Proof.
  intro Hs. revert i j. induction Hs as [|x a Hs IH Hx]; intros i j Hij Hj; [simpl in Hj; lia|].
  destruct j as [|j].
  - assert (i = 0%nat) by lia. subst i. unfold lexsort_le. cbn [nth].
    now rewrite lexsort_compare_refl.
  - simpl in Hj. destruct i as [|i]; cbn [nth].
    + rewrite Forall_forall in Hx. apply Hx, nth_In. lia.
    + apply IH; lia.
Qed.

Lemma lexsort_lt_le_trans (x y z : Sector) :
  lexsort_lt x y -> lexsort_le y z -> lexsort_lt x z.
Proof.
  unfold lexsort_le. intros Hxy Hyz. destruct (np.lexsort_compare y z) eqn:E.
  - apply lexsort_compare_eq in E. now subst.
  - now apply (lexsort_lt_trans x y z).
  - contradiction.
Qed.

Lemma iter_common_nonstrict_loop_spec (d : nat) (a b : SectorArray) :
  Forall (fun r => length r = d) a -> Forall (fun r => length r = d) b ->
  StronglySorted lexsort_le a -> StronglySorted lexsort_lt b ->
  forall turns i j,
    (length a - i + (length b - j) <= turns)%nat ->
    (forall x y,
        In (x, y) (misc.iter_common_nonstrict_loop turns d a b i j)
        <-> (i <= x < length a)%nat /\ (j <= y < length b)%nat /\ nth x a [] = nth y b [])
    /\ StronglySorted first_before (misc.iter_common_nonstrict_loop turns d a b i j).
Proof.
  intros Wa Wb Ha Hb.
  pose proof (sorted_nth_inj Sector np.lexsort_compare [] lexsort_compare_refl b) as inj_b.
  pose proof (sorted_below_absent Sector np.lexsort_compare [] lexsort_compare_refl
                lexsort_lt_trans b) as below_b.
  induction turns as [|turns IH]; intros i j Hf; cbn [misc.iter_common_nonstrict_loop];
    unfold SectorArray, Sector in *.
  { split; [|constructor]. intros x y. split; [intros []|]. intros (H1 & H2 & _). lia. }
  destruct (Nat.ltb_spec i (length a)) as [Hi|Hi]; cbn [andb];
    [|split; [|constructor]; intros x y; split; [intros []|intros (H1 & _); lia]].
  destruct (Nat.ltb_spec j (length b)) as [Hj|Hj];
    [|split; [|constructor]; intros x y; split; [intros []|intros (_ & H2 & _); lia]].
  rewrite (compare_columns_lexsort d) by now apply nth_width.
  destruct (np.lexsort_compare (nth i a []) (nth j b [])) eqn:E.
  - apply lexsort_compare_eq in E.
    destruct (IH (S i) j ltac:(lia)) as [P S]. split.
    + intros x y. cbn [In]. rewrite P. split.
      * intros [H|(H1 & H2 & H3)]; [injection H as <- <-|]; repeat split; try lia; assumption.
      * intros (H1 & H2 & H3).
        destruct (Nat.eq_dec x i) as [->|Hx]; [left|right; repeat split; try lia; exact H3].
        f_equal. symmetry. apply (inj_b y j Hb); [lia|exact Hj|congruence].
    + constructor; [exact S|]. apply Forall_forall. intros [x y] Hin.
      apply P in Hin. unfold first_before. cbn [fst snd]. lia.
  - destruct (IH (S i) j ltac:(lia)) as [P S]. split; [|exact S].
    intros x y. rewrite P. split.
    + intros (H1 & H2 & H3). repeat split; try lia; assumption.
    + intros (H1 & H2 & H3). repeat split; try lia; [|exact H3].
      destruct (Nat.eq_dec x i) as [->|Hx]; [|lia]. exfalso.
      exact (below_b _ j y Hb E (proj1 H2) (proj2 H2) H3).
  - apply (cmp_gt_lt _ np.lexsort_compare lexsort_compare_antisym) in E.
    destruct (IH i (S j) ltac:(lia)) as [P S]. split; [|exact S].
    intros x y. rewrite P. split.
    + intros (H1 & H2 & H3). repeat split; try lia; assumption.
    + intros (H1 & H2 & H3). repeat split; try lia; [|exact H3].
      destruct (Nat.eq_dec y j) as [->|Hy]; [|lia]. exfalso.
      pose proof (lexsort_lt_le_trans _ _ _ E
                    (sorted_nth_le a i x Ha (proj1 H1) (proj2 H1))) as L.
      unfold lexsort_lt, SectorArray, Sector in *.
      rewrite H3, lexsort_compare_refl in L. discriminate.
Qed.

(** X27: [iter_common_nonstrict_sorted_arrays(a, b)], for two arrays with
    as many columns, the rows of [a] sorted in the order of
    [np.lexsort(a.T)] with repeated rows allowed and the rows of [b] strictly
    sorted, yields exactly the pairs [(i, j)] of equal rows [a[i, :]],
    [b[j, :]], each once, with [i] ascending and [j] never descending. *)
Theorem iter_common_nonstrict_pairs (d : nat) (a b : SectorArray) :
  Forall (fun r => length r = d) a -> Forall (fun r => length r = d) b ->
  StronglySorted lexsort_le a -> StronglySorted lexsort_lt b ->
  exists ps,
    misc.iter_common_nonstrict_sorted_arrays d d a b = Ok ps
    /\ (forall i j, In (i, j) ps
                    <-> (i < length a)%nat /\ (j < length b)%nat
                        /\ nth i a [] = nth j b [])
    /\ StronglySorted first_before ps.
Proof.
  intros Wa Wb Ha Hb. unfold misc.iter_common_nonstrict_sorted_arrays.
  rewrite Nat.eqb_refl. cbn [assert bind]. eexists. split; [reflexivity|].
  destruct (iter_common_nonstrict_loop_spec d a b Wa Wb Ha Hb (length a + length b) 0 0
              ltac:(lia)) as [P S].
  split; [|exact S]. intros i j. rewrite P.
  split; intros (H1 & H2 & H3); repeat split; try lia; assumption.
Qed.

Lemma iter_common_nonstrict_pairs_witness :
  misc.iter_common_nonstrict_sorted_arrays 2 2 [[1; 0]; [0; 1]; [0; 1]; [0; 3]; [0; 3]]
                                           [[0; 1]; [1; 1]; [0; 3]]
  = Ok [(1, 0); (2, 0); (3, 2); (4, 2)]%nat
  /\ exists ps,
       misc.iter_common_nonstrict_sorted_arrays 2 2 [[1; 0]; [0; 1]; [0; 1]; [0; 3]; [0; 3]]
                                                [[0; 1]; [1; 1]; [0; 3]] = Ok ps
       /\ (forall i j, In (i, j) ps
                       <-> (i < 5)%nat /\ (j < 3)%nat
                           /\ nth i [[1; 0]; [0; 1]; [0; 1]; [0; 3]; [0; 3]] []
                              = nth j [[0; 1]; [1; 1]; [0; 3]] [])
       /\ StronglySorted first_before ps.
Proof.
  split; [reflexivity|].
  apply (iter_common_nonstrict_pairs 2 [[1; 0]; [0; 1]; [0; 1]; [0; 3]; [0; 3]]
           [[0; 1]; [1; 1]; [0; 3]]); repeat constructor; discriminate.
Defined.

(** ** [inverse_permutation] *)

(** X28: for a permutation [p] of [range(len(p))], [inverse_permutation(p)]
    returns the same array [ip] whatever [np.empty_like] held before;
    [ip] is a permutation with [ip[p[k]] == k] and [p[ip[k]] == k], and
    [inverse_permutation(ip)] is [p] again. *)
Theorem inverse_permutation_round_trip (p : list Z) :
  is_permutation p ->
  exists ip,
    (forall buf, length buf = length p -> inverse_permutation_into buf p = Ok ip)
    /\ is_permutation ip
    /\ length ip = length p
    /\ (forall k, (k < length p)%nat ->
                  nth (Z.to_nat (nth k p 0)) ip 0 = Z.of_nat k
                  /\ nth (Z.to_nat (nth k ip 0)) p 0 = Z.of_nat k)
    /\ (forall buf, length buf = length ip -> inverse_permutation_into buf ip = Ok p).
Proof.
  intro Hp.
  destruct (inverse_permutation_spec p Hp) as (ip & E & Hl & Hk). exists ip.
  pose proof (inverse_permutation_is_permutation p ip Hp E) as Hip.
  destruct (inverse_permutation_entries p ip Hp E) as [_ Hent].
  split; [|split; [exact Hip|split; [exact Hl|split]]].
  - intros buf Hb. now rewrite (inverse_permutation_buffer buf p Hp Hb).
  - intros k Hk'. split; [now apply Hk|now apply Hent].
  - intros buf Hb. rewrite (inverse_permutation_buffer buf ip Hip Hb).
    destruct (inverse_permutation_spec ip Hip) as (q & Eq' & Hlq & Hq).
    rewrite Eq'. f_equal. apply (nth_ext _ _ 0 0); [congruence|].
    intros m Hm. rewrite Hlq, Hl in Hm.
    pose proof (is_permutation_range p Hp) as Hr. rewrite Forall_forall in Hr.
    specialize (Hr (nth m p 0) (nth_In _ _ Hm)).
    assert (Hk0 : (Z.to_nat (nth m p 0%Z) < length ip)%nat) by lia.
    specialize (Hq _ Hk0). rewrite (Hk m Hm), Nat2Z.id in Hq. rewrite Hq. lia.
Qed.

Lemma inverse_permutation_round_trip_witness :
  inverse_permutation [2; 0; 3; 1] = Ok [1; 3; 0; 2]
  /\ exists ip,
       (forall buf, length buf = 4%nat -> inverse_permutation_into buf [2; 0; 3; 1] = Ok ip)
       /\ is_permutation ip
       /\ length ip = 4%nat
       /\ (forall k, (k < 4)%nat ->
                     nth (Z.to_nat (nth k [2; 0; 3; 1] 0)) ip 0 = Z.of_nat k
                     /\ nth (Z.to_nat (nth k ip 0)) [2; 0; 3; 1] 0 = Z.of_nat k)
       /\ (forall buf, length buf = length ip ->
                       inverse_permutation_into buf ip = Ok [2; 0; 3; 1]).
Proof.
  split; [reflexivity|].
  apply (inverse_permutation_round_trip [2; 0; 3; 1]).
  unfold is_permutation. cbn [length np.arange seq map].
  apply (perm_trans (l' := [0; 2; 3; 1])); [apply perm_swap|].
  apply perm_skip. apply (perm_trans (l' := [2; 1; 3])); [apply perm_skip, perm_swap|].
  apply perm_swap.
Defined.

(** ** Strides: [make_stride] and [unstridify] *)

Lemma c_strides_length (shape : list Z) : length (c_strides shape) = length shape.
Proof. induction shape as [|n rest IH]; simpl; [reflexivity|]. now rewrite IH. Qed.

Lemma c_strides_nth (shape : list Z) (k : nat) :
  (k < length shape)%nat -> nth k (c_strides shape) 0 = np.prod (skipn (S k) shape).
Proof.
  revert k. induction shape as [|n rest IH]; intros k Hk; [simpl in Hk; lia|].
  destruct k as [|k]; [reflexivity|]. cbn [c_strides nth]. rewrite IH by (simpl in Hk; lia).
  reflexivity.
Qed.

Lemma prod_cons (n : Z) (l : list Z) : np.prod (n :: l) = n * np.prod l.
Proof. reflexivity. Qed.

Lemma skipn_cons_nth (shape : list Z) (s : nat) :
  (s < length shape)%nat -> skipn s shape = nth s shape 0 :: skipn (S s) shape.
Proof.
  revert s. induction shape as [|n rest IH]; intros s Hs; [simpl in Hs; lia|].
  destruct s as [|s]; [reflexivity|]. cbn [skipn nth]. rewrite (IH s) by (simpl in Hs; lia).
  reflexivity.
Qed.

(** The loops of [make_stride] raise [OverflowError] at the first stride
    that does not fit [np.intp], and otherwise do their turns. *)
Lemma stride_loop_spec (shape : list Z) (target : nat -> nat) (l : list nat)
      (st : Z * list Z) :
  misc.stride_loop shape target l st
  = if forallb misc.fits_intp (running_products (fst st) (map (fun a => nth a shape 0) l))
    then Ok (fold_left (stride_turn shape target) l st)
    else Raise OverflowError.
Proof.
  revert st. induction l as [|a l IH]; intro st; [reflexivity|].
  cbn [misc.stride_loop map running_products forallb fold_left].
  unfold misc.stride_step, misc.set_intp.
  destruct (misc.fits_intp (fst st * nth a shape 0)) eqn:E; [|reflexivity].
  cbn [bind andb]. rewrite IH. reflexivity.
Qed.

Lemma forallb_same_members {A : Type} (f : A -> bool) (l l' : list A) :
  (forall x, In x l <-> In x l') -> forallb f l = forallb f l'.
Proof.
  intro H. destruct (forallb f l) eqn:E, (forallb f l') eqn:E'; try reflexivity.
  - rewrite forallb_forall in E. rewrite <- E'. symmetry. apply forallb_forall.
    intros x Hx. apply E, H, Hx.
  - rewrite forallb_forall in E'. rewrite <- E. apply forallb_forall.
    intros x Hx. apply E', H, Hx.
Qed.

(** The values of [stride] in the loop of the C style. *)
Lemma c_running_products (shape : list Z) (s n : nat) :
  (s + n <= length shape)%nat ->
  running_products (np.prod (skipn (s + n) shape))
                   (map (fun a => nth a shape 0) (rev (seq s n)))
  = map (fun a => np.prod (skipn a shape)) (rev (seq s n)).
Proof.
  induction n as [|n IH]; intro H; [reflexivity|].
  rewrite seq_S, rev_app_distr. cbn [rev app map running_products].
  assert (E : np.prod (skipn (s + S n) shape) * nth (s + n) shape 0
              = np.prod (skipn (s + n) shape)).
  { rewrite (skipn_cons_nth shape (s + n)) by lia. rewrite prod_cons.
    replace (s + S n)%nat with (S (s + n)) by lia. lia. }
  rewrite E, IH by lia. reflexivity.
Qed.

Lemma c_strides_seq (shape : list Z) :
  c_strides shape = map (fun a => np.prod (skipn a shape)) (seq 1 (length shape)).
Proof.
  apply (nth_ext _ _ 0 0); [now rewrite c_strides_length, length_map, length_seq|].
  intros k Hk. rewrite c_strides_length in Hk.
  rewrite c_strides_nth by exact Hk.
  rewrite (nth_map_in _ _ k 0%nat 0) by now rewrite length_seq.
  now rewrite seq_nth by exact Hk.
Qed.

Lemma fits_intp_1 : misc.fits_intp 1 = true.
Proof. reflexivity. Qed.

(** The loop of the C style, from [a = s + n - 1] down to [a = s]. *)
Lemma c_loop_spec (shape : list Z) (buf : list Z) (n s : nat) :
  (1 <= s)%nat -> (s + n = length shape)%nat -> length buf = length shape ->
  let st := fold_right (fun a st => stride_turn shape (fun a => (a - 1)%nat) st a)
                       (1, buf) (seq s n) in
  fst st = np.prod (skipn s shape)
  /\ length (snd st) = length shape
  /\ forall k, nth k (snd st) 0
               = if ((s - 1 <=? k) && (S k <? length shape))%nat
                 then np.prod (skipn (S k) shape)
                 else nth k buf 0.
Proof.
  revert s. induction n as [|n IH]; intros s Hs Hn Hb; cbn [seq fold_right].
  - cbn [fst snd]. split; [|split; [exact Hb|]].
    + rewrite skipn_all2 by lia. reflexivity.
    + intro k. destruct (Nat.leb_spec (s - 1) k); [|reflexivity].
      destruct (Nat.ltb_spec (S k) (length shape)); [lia|reflexivity].
  - destruct (IH (S s) ltac:(lia) ltac:(lia) Hb) as (H1 & H2 & H3).
    set (st' := fold_right _ _ (seq (S s) n)) in *.
    unfold stride_turn. cbn [fst snd]. split; [|split].
    + rewrite H1, (skipn_cons_nth shape s) by lia. rewrite prod_cons. lia.
    + now rewrite set_nth_length.
    + intro k. destruct (Nat.eq_dec k (s - 1)) as [->|Hk].
      * rewrite set_nth_same by lia.
        replace (S (s - 1)) with s by lia.
        rewrite Nat.leb_refl, (proj2 (Nat.ltb_lt _ _)) by lia. cbn [andb].
        rewrite H1, (skipn_cons_nth shape s) by lia. rewrite prod_cons. lia.
      * rewrite set_nth_other by exact Hk. rewrite H3.
        replace (S s - 1)%nat with s by lia.
        destruct (Nat.leb_spec s k), (Nat.leb_spec (s - 1) k); try lia; reflexivity.
Qed.

(** What [make_stride] returns in the C style. *)
Lemma make_stride_c (shape : list Z) :
  shape <> [] ->
  misc.make_stride shape true
  = if forallb misc.fits_intp (c_strides shape)
    then (_ <- assert (np.prod shape <? misc._MAX_INT) ;; Ok (c_strides shape))
    else Raise OverflowError.
Proof.
  intro Hne. unfold misc.make_stride.
  destruct shape as [|n0 rest] eqn:Es; [contradiction|]. rewrite <- Es.
  assert (HL : length shape = S (length rest)) by now rewrite Es.
  rewrite HL. rewrite stride_loop_spec. cbn [fst].
  assert (E0 : 1 = np.prod (skipn (1 + length rest) shape))
    by (rewrite skipn_all2 by lia; reflexivity).
  rewrite E0 at 1. rewrite c_running_products by lia.
  assert (EF : forallb misc.fits_intp
                 (map (fun a => np.prod (skipn a shape)) (rev (seq 1 (length rest))))
               = forallb misc.fits_intp (c_strides shape)).
  { rewrite c_strides_seq, HL, seq_S, map_app, forallb_app.
    cbn [map forallb]. rewrite skipn_all2 by lia.
    change (np.prod []) with 1. rewrite fits_intp_1, !andb_true_r.
    apply forallb_same_members. intro x. rewrite !in_map_iff.
    split; intros (a & Ha & Hin); exists a; (split; [exact Ha|]);
      [exact (proj2 (in_rev _ _) Hin)|exact (proj1 (in_rev _ _) Hin)]. }
  rewrite EF. destruct (forallb misc.fits_intp (c_strides shape)); [|reflexivity].
  cbn [bind]. rewrite <- fold_left_rev_right, rev_involutive.
  destruct (c_loop_spec shape (np.set_nth (length rest) 1 (repeat 0 (S (length rest))))
              (length rest) 1 ltac:(lia) ltac:(lia)) as (H1 & H2 & H3).
  { now rewrite set_nth_length, repeat_length. }
  set (st := fold_right _ _ _) in *.
  assert (E1 : fst st * nth 0 shape 0 = np.prod shape).
  { rewrite H1, Es. cbn [skipn nth]. rewrite prod_cons. lia. }
  assert (E2 : snd st = c_strides shape).
  { apply (nth_ext _ _ 0 0); [now rewrite H2, c_strides_length|].
    intros k Hk. rewrite H2 in Hk. rewrite H3, c_strides_nth by exact Hk.
    cbn [Nat.sub Nat.leb andb].
    destruct (Nat.ltb_spec (S k) (length shape)) as [Hlt|Hge]; [reflexivity|].
    assert (k = length rest) by lia. subst k.
    rewrite set_nth_same by (rewrite repeat_length; lia).
    rewrite skipn_all2 by lia. reflexivity. }
  now rewrite E1, E2.
Qed.

Lemma c_strides_step (shape : list Z) (k : nat) :
  (S k < length shape)%nat ->
  nth k (c_strides shape) 0 = nth (S k) shape 0 * nth (S k) (c_strides shape) 0.
Proof.
  intro Hk. rewrite !c_strides_nth by lia.
  rewrite (skipn_cons_nth shape (S k)) by lia. now rewrite prod_cons.
Qed.

Lemma c_strides_last (shape : list Z) :
  shape <> [] -> last (c_strides shape) 0 = 1.
Proof.
  induction shape as [|n rest IH]; [contradiction|]. intros _.
  destruct rest as [|m rest]; [reflexivity|].
  change (c_strides (n :: m :: rest)) with (np.prod (m :: rest) :: c_strides (m :: rest)).
  change (c_strides (m :: rest)) with (np.prod rest :: c_strides rest) in *.
  cbn [last]. apply IH. discriminate.
Qed.

(** The index [np.sum(strides * ys)] of entries inside the shape is inside
    the array. *)
Lemma encode_bounds (shape ys : list Z) :
  Forall2 (fun y n => 0 <= y < n) ys shape ->
  0 <= np.sum (np.mul (c_strides shape) ys) < np.prod shape.
Proof.
  induction 1 as [|y n ys shape Hy _ IH].
  - cbn. lia.
  - cbn [c_strides]. unfold np.mul. cbn [combine map fst snd].
    change (np.sum (?x :: ?l)) with (x + np.sum l).
    fold (np.mul (c_strides shape) ys). rewrite prod_cons. nia.
Qed.

Lemma digits_encode (shape ys : list Z) :
  Forall2 (fun y n => 0 <= y < n) ys shape ->
  digits (np.sum (np.mul (c_strides shape) ys)) (c_strides shape) = ys.
Proof.
  induction 1 as [|y n ys shape Hy H IH]; [reflexivity|].
  pose proof (encode_bounds shape ys H) as Hb.
  cbn [c_strides digits]. unfold np.mul. cbn [combine map fst snd].
  change (np.sum (?x :: ?l)) with (x + np.sum l).
  fold (np.mul (c_strides shape) ys).
  set (P := np.prod shape) in *. set (e := np.sum (np.mul (c_strides shape) ys)) in *.
  unfold misc.divmod. destruct (Z.eqb_spec P 0) as [E0|_]; [lia|]. cbn [fst snd].
  assert (Eq1 : (P * y + e) / P = y).
  { rewrite (Z.mul_comm P y), Z.div_add_l by lia. rewrite Z.div_small by lia. lia. }
  assert (Eq2 : (P * y + e) mod P = e).
  { rewrite Z.add_comm, (Z.mul_comm P y), Z.mod_add by lia. apply Z.mod_small. lia. }
  now rewrite Eq1, Eq2, IH.
Qed.

Lemma digits_length (x : Z) (strides : list Z) : length (digits x strides) = length strides.
Proof. revert x. induction strides as [|s r IH]; intro x; simpl; [reflexivity|]. now rewrite IH. Qed.

(** Without a stride 0 and with 1 as the last stride, the entries found
    for [x] give [x] back. *)
Lemma encode_digits (strides : list Z) (x : Z) :
  strides <> [] -> Forall (fun s => s <> 0) strides -> last strides 0 = 1 ->
  np.sum (np.mul strides (digits x strides)) = x.
Proof.
  revert x. induction strides as [|s r IH]; intros x Hne Hnz Hl; [contradiction|].
  inversion Hnz as [|? ? Hs Hr]; subst.
  cbn [digits]. unfold np.mul. cbn [combine map fst snd].
  change (np.sum (?x :: ?l)) with (x + np.sum l).
  fold (np.mul r (digits (snd (misc.divmod x s)) r)).
  unfold misc.divmod. destruct (Z.eqb_spec s 0) as [E0|_]; [contradiction|]. cbn [fst snd].
  destruct r as [|s' r'].
  - cbn [last] in Hl. subst s. unfold np.mul, np.sum.
    cbn [digits combine map fold_right]. rewrite Z.div_1_r. lia.
  - rewrite IH; [|discriminate|exact Hr|exact Hl].
    pose proof (Z.div_mod x s Hs). lia.
Qed.

Lemma unstridify_loop_column (strides : list Z) (xs : list Z) (i : nat) :
  (i < length xs)%nat ->
  map (fun y => nth i y 0) (misc.unstridify_loop xs strides) = digits (nth i xs 0) strides.
Proof.
  revert xs. induction strides as [|s r IH]; intros xs Hi; [reflexivity|].
  cbn [misc.unstridify_loop map digits].
  rewrite (nth_map_in _ xs i 0 0) by exact Hi.
  rewrite IH by now rewrite length_map.
  now rewrite (nth_map_in _ xs i 0 0) by exact Hi.
Qed.

Lemma map_nth_seq {A B : Type} (f : A -> B) (l : list A) (d : A) :
  map (fun i => f (nth i l d)) (seq 0 (length l)) = map f l.
Proof.
  apply (nth_ext _ _ (f d) (f d)); [now rewrite !length_map, length_seq|].
  intros i Hi. rewrite length_map, length_seq in Hi.
  rewrite (nth_map_in _ (seq 0 (length l)) i 0%nat (f d)) by now rewrite length_seq.
  rewrite seq_nth by exact Hi. cbn [Nat.add].
  now rewrite (nth_map_in _ l i d (f d)) by exact Hi.
Qed.

(** [unstridify], row by row. *)
Lemma unstridify_rows (xs strides : list Z) :
  strides <> [] -> misc.unstridify xs strides = Ok (map (fun x => digits x strides) xs).
Proof.
  intro Hne. unfold misc.unstridify, misc.stack_last.
  destruct (misc.unstridify_loop xs strides) eqn:E.
  { destruct strides; [contradiction|discriminate]. }
  rewrite <- E. f_equal. rewrite <- (map_nth_seq (fun x => digits x strides) xs 0).
  apply map_ext_in. intros i Hi. apply in_seq in Hi.
  apply unstridify_loop_column. lia.
Qed.

Lemma prod_app (l l' : list Z) : np.prod (l ++ l') = np.prod l * np.prod l'.
Proof.
  induction l as [|x l IH]; [cbn [app]; change (np.prod []) with 1; lia|].
  cbn [app]. rewrite !prod_cons, IH. lia.
Qed.

Lemma firstn_S_nth (shape : list Z) (n : nat) :
  (n < length shape)%nat -> firstn (S n) shape = firstn n shape ++ [nth n shape 0].
Proof.
  revert n. induction shape as [|x rest IH]; intros n Hn; [simpl in Hn; lia|].
  destruct n as [|n]; [reflexivity|].
  rewrite (firstn_cons (S n)), (firstn_cons n). cbn [nth].
  rewrite (IH n) by (simpl in Hn; lia). reflexivity.
Qed.

(** The values of [stride] in the loop of the F style. *)
Lemma f_running_products (shape : list Z) (s n : nat) :
  (s + n <= length shape)%nat ->
  running_products (np.prod (firstn s shape)) (map (fun a => nth a shape 0) (seq s n))
  = map (fun k => np.prod (firstn k shape)) (seq (S s) n).
Proof.
  revert s. induction n as [|n IH]; intros s H; [reflexivity|].
  cbn [seq map running_products].
  assert (E : np.prod (firstn s shape) * nth s shape 0 = np.prod (firstn (S s) shape)).
  { rewrite (firstn_S_nth shape s) by lia. rewrite prod_app, prod_cons.
    change (np.prod []) with 1. lia. }
  rewrite E, (IH (S s)) by lia. reflexivity.
Qed.

(** The loop of the F style, from [a = 0] up to [a = n - 1]. *)
Lemma f_loop_spec (shape : list Z) (buf : list Z) (n : nat) :
  (n < length shape)%nat -> length buf = length shape -> nth 0 buf 0 = 1 ->
  let st := fold_left (stride_turn shape (fun a => (a + 1)%nat)) (seq 0 n) (1, buf) in
  fst st = np.prod (firstn n shape)
  /\ length (snd st) = length shape
  /\ forall k, nth k (snd st) 0
               = if (k <=? n)%nat then np.prod (firstn k shape) else nth k buf 0.
Proof.
  intros Hn Hb H0. induction n as [|n IH]; cbn zeta.
  - cbn [seq fold_left fst snd]. split; [reflexivity|]. split; [exact Hb|].
    intro k. destruct (Nat.leb_spec k 0) as [Hk|Hk]; [|reflexivity].
    assert (k = 0%nat) by lia. subst k. exact H0.
  - destruct (IH ltac:(lia)) as (H1 & H2 & H3).
    rewrite seq_S, fold_left_app. cbn [Nat.add fold_left].
    set (st' := fold_left _ (seq 0 n) _) in *.
    unfold stride_turn. cbn [fst snd].
    assert (E : fst st' * nth n shape 0 = np.prod (firstn (S n) shape)).
    { rewrite H1, (firstn_S_nth shape n) by lia. rewrite prod_app, prod_cons.
      change (np.prod []) with 1. lia. }
    split; [exact E|]. split; [now rewrite set_nth_length|].
    intro k. destruct (Nat.eq_dec k (n + 1)) as [->|Hk].
    + rewrite set_nth_same by lia.
      rewrite (proj2 (Nat.leb_le _ _)) by lia.
      replace (n + 1)%nat with (S n) by lia. exact E.
    + rewrite set_nth_other by exact Hk. rewrite H3.
      destruct (Nat.leb_spec k n), (Nat.leb_spec k (S n)); try lia; reflexivity.
Qed.

(** What [make_stride] returns in the F style. *)
Lemma make_stride_f (shape : list Z) :
  shape <> [] ->
  misc.make_stride shape false
  = if forallb misc.fits_intp (f_strides shape)
    then (_ <- assert (np.prod (removelast shape) * nth 0 shape 0 <? misc._MAX_INT) ;;
          Ok (f_strides shape))
    else Raise OverflowError.
Proof.
  intro Hne. unfold misc.make_stride, f_strides.
  destruct shape as [|n0 rest] eqn:Es; [contradiction|]. rewrite <- Es.
  assert (HL : length shape = S (length rest)) by now rewrite Es.
  rewrite HL. rewrite stride_loop_spec. cbn [fst].
  change 1 with (np.prod (firstn 0 shape)) at 1.
  rewrite f_running_products by lia.
  assert (EF : forallb misc.fits_intp
                 (map (fun k => np.prod (firstn k shape)) (seq 0 (S (length rest))))
               = forallb misc.fits_intp
                   (map (fun k => np.prod (firstn k shape)) (seq 1 (length rest))))
    by reflexivity.
  rewrite EF.
  destruct (forallb misc.fits_intp
              (map (fun k => np.prod (firstn k shape)) (seq 1 (length rest))));
    [|reflexivity].
  cbn [bind].
  destruct (f_loop_spec shape (np.set_nth 0 1 (repeat 0 (S (length rest)))) (length rest))
    as (H1 & H2 & H3); [lia|now rewrite set_nth_length, repeat_length|reflexivity|].
  set (st := fold_left _ _ _) in *.
  assert (E1 : fst st = np.prod (removelast shape)).
  { rewrite H1, removelast_firstn_len, HL. reflexivity. }
  assert (E2 : snd st = map (fun k => np.prod (firstn k shape)) (seq 0 (S (length rest)))).
  { apply (nth_ext _ _ 0 0); [now rewrite H2, length_map, length_seq|].
    intros k Hk. rewrite H2, HL in Hk. rewrite H3.
    rewrite (proj2 (Nat.leb_le _ _)) by lia.
    rewrite (nth_map_in _ _ k 0%nat 0) by now rewrite length_seq.
    now rewrite seq_nth by exact Hk. }
  now rewrite E1, E2.
Qed.

Lemma prod_positive (l : list Z) : Forall (fun n => 0 < n) l -> 0 < np.prod l.
Proof.
  induction 1 as [|n l Hn _ IH]; [reflexivity|]. rewrite prod_cons. nia.
Qed.

(** For a shape of positive entries every stride of the C style is
    positive and at most the product of the shape. *)
Lemma c_strides_bounded (shape : list Z) :
  Forall (fun n => 0 < n) shape ->
  Forall (fun x => 0 < x <= np.prod shape) (c_strides shape).
Proof.
  induction 1 as [|n l Hn Hl IH]; [constructor|].
  pose proof (prod_positive l Hl) as Hp.
  cbn [c_strides]. rewrite prod_cons. constructor; [nia|].
  apply (Forall_impl _ (P := fun x => 0 < x <= np.prod l)); [|exact IH].
  intros x Hx. nia.
Qed.

Lemma c_strides_fit (shape : list Z) :
  Forall (fun n => 0 < n) shape -> np.prod shape < misc._MAX_INT ->
  forallb misc.fits_intp (c_strides shape) = true.
Proof.
  intros Hpos Hp. apply forallb_forall. intros x Hx.
  pose proof (c_strides_bounded shape Hpos) as Hb. rewrite Forall_forall in Hb.
  specialize (Hb x Hx). unfold misc.fits_intp.
  apply andb_true_intro. split; [apply Z.leb_le|apply Z.leb_le]; lia.
Qed.

(** What [make_stride] returns in the C style, when it returns. *)
Lemma make_stride_c_ok (shape strides : list Z) :
  misc.make_stride shape true = Ok strides ->
  shape <> [] /\ strides = c_strides shape /\ np.prod shape < misc._MAX_INT
  /\ forallb misc.fits_intp (c_strides shape) = true.
Proof.
  intro H. destruct shape as [|n0 rest] eqn:Es; [discriminate H|]. rewrite <- Es in *.
  assert (Hne : shape <> []) by (rewrite Es; discriminate).
  rewrite (make_stride_c shape Hne) in H.
  destruct (forallb misc.fits_intp (c_strides shape)); [|discriminate H].
  destruct (np.prod shape <? misc._MAX_INT) eqn:E; [|discriminate H].
  cbn [assert bind] in H. injection H as <-. apply Z.ltb_lt in E.
  repeat split; [exact Hne|exact E].
Qed.

(** X29: [make_stride(shape)] for a shape of Python ints raises
    [IndexError] for an empty shape.  For another shape it raises
    [OverflowError] when a stride does not fit [np.intp], else
    [AssertionError] when the last value of [stride] times [shape[0]] is not
    below [_MAX_INT], and else returns the strides: in the C style the
    products of the entries of the shape after a position, in the F style
    the products of the entries before it.  For a shape of positive entries
    with a product below [_MAX_INT] the C style returns.  When it returns,
    the last stride is 1 and each stride is the next one times the next
    entry of the shape; [unstridify] undoes [np.sum(strides * ys, axis=-1)]
    for rows [ys] inside the shape, and for a shape without zero after its
    first entry [np.sum(strides * unstridify(x, strides), axis=-1)] is
    [x]. *)
Theorem unstridify_make_stride (shape : list Z) :
  (forall cstyle, shape = [] -> misc.make_stride shape cstyle = Raise IndexError)
  /\ (shape <> [] ->
      misc.make_stride shape true
      = if forallb misc.fits_intp (c_strides shape)
        then (_ <- assert (np.prod shape <? misc._MAX_INT) ;; Ok (c_strides shape))
        else Raise OverflowError)
  /\ (shape <> [] ->
      misc.make_stride shape false
      = if forallb misc.fits_intp (f_strides shape)
        then (_ <- assert (np.prod (removelast shape) * nth 0 shape 0 <? misc._MAX_INT) ;;
              Ok (f_strides shape))
        else Raise OverflowError)
  /\ (shape <> [] -> Forall (fun n => 0 < n) shape -> np.prod shape < misc._MAX_INT ->
      misc.make_stride shape true = Ok (c_strides shape))
  /\ (forall strides,
        misc.make_stride shape true = Ok strides ->
        length strides = length shape
        /\ last strides 0 = 1
        /\ Forall (fun x => misc.fits_intp x = true) strides
        /\ (forall k, (S k < length shape)%nat ->
                      nth k strides 0 = nth (S k) shape 0 * nth (S k) strides 0)
        /\ (forall rows,
               Forall (fun ys => Forall2 (fun y n => 0 <= y < n) ys shape) rows ->
               misc.unstridify (map (fun ys => np.sum (np.mul strides ys)) rows) strides
               = Ok rows)
        /\ (Forall (fun n => n <> 0) (tl shape) ->
            forall xs, exists rows,
              misc.unstridify xs strides = Ok rows
              /\ map (fun ys => np.sum (np.mul strides ys)) rows = xs)).
Proof.
  split; [|split; [|split; [|split]]].
  - intros cstyle ->. reflexivity.
  - apply make_stride_c.
  - apply make_stride_f.
  - intros Hne Hpos Hp. rewrite (make_stride_c shape Hne).
    rewrite (c_strides_fit shape Hpos Hp).
    apply Z.ltb_lt in Hp. now rewrite Hp.
  - intros strides H. apply make_stride_c_ok in H as (Hne & -> & Hp & Hfit).
    assert (Hcne : c_strides shape <> []) by (destruct shape; [contradiction|discriminate]).
    split; [apply c_strides_length|]. split; [now apply c_strides_last|].
    split; [apply Forall_forall; now apply forallb_forall|].
    split; [intros k Hk; now apply c_strides_step|]. split.
    + intros rows Hrows. rewrite (unstridify_rows _ _ Hcne), map_map. f_equal.
      rewrite <- (map_id rows) at 2. apply map_ext_in. intros ys Hys.
      rewrite Forall_forall in Hrows. apply digits_encode. now apply Hrows.
    + intros Hnz xs. eexists. split; [apply (unstridify_rows _ _ Hcne)|].
      rewrite map_map. rewrite <- (map_id xs) at 2. apply map_ext. intro x.
      apply encode_digits; [exact Hcne| |now apply c_strides_last].
      clear -Hnz. induction shape as [|n rest IH]; [constructor|].
      cbn [c_strides]. cbn [tl] in Hnz. constructor.
      * clear IH. induction Hnz as [|m rest Hm _ IH']; [cbn; lia|]. rewrite prod_cons. nia.
      * apply IH. destruct rest as [|m rest']; [constructor|]. cbn [tl].
        now inversion Hnz.
Qed.

Lemma unstridify_make_stride_witness :
  misc.make_stride [2; 3; 4] true = Ok [12; 4; 1]
  /\ misc.make_stride [2; 3; 4] false = Ok [1; 2; 6]
  /\ misc.make_stride [1; 2 ^ 63] true = Raise OverflowError
  /\ misc.make_stride [-1; 2 ^ 62; 4] true = Raise OverflowError
  /\ misc.make_stride [2 ^ 62; 2] true = Raise AssertionError
  /\ misc.unstridify [0; 7; 23] [12; 4; 1] = Ok [[0; 0; 0]; [0; 1; 3]; [1; 2; 3]]
  /\ ([2; 3; 4] <> [] /\ Forall (fun n => 0 < n) [2; 3; 4]
      /\ np.prod [2; 3; 4] < misc._MAX_INT
      /\ misc.make_stride [2; 3; 4] true = Ok (c_strides [2; 3; 4]))
  /\ length [12; 4; 1] = length [2; 3; 4]
  /\ last [12; 4; 1] 0 = 1
  /\ forall rows,
       Forall (fun ys => Forall2 (fun y n => 0 <= y < n) ys [2; 3; 4]) rows ->
       misc.unstridify (map (fun ys => np.sum (np.mul [12; 4; 1] ys)) rows) [12; 4; 1]
       = Ok rows.
Proof.
  assert (Hne : [2; 3; 4] <> []) by discriminate.
  assert (Hpos : Forall (fun n => 0 < n) [2; 3; 4]) by (repeat constructor).
  assert (Hp : np.prod [2; 3; 4] < misc._MAX_INT) by reflexivity.
  assert (Hok : misc.make_stride [2; 3; 4] true = Ok [12; 4; 1]) by reflexivity.
  pose proof (proj2 (proj2 (proj2 (proj2 (unstridify_make_stride [2; 3; 4])))) [12; 4; 1] Hok)
    as (H1 & H2 & _ & _ & H5 & _).
  split; [exact Hok|]. split; [reflexivity|]. split; [reflexivity|].
  split; [reflexivity|]. split; [reflexivity|]. split; [reflexivity|].
  split.
  { split; [exact Hne|]. split; [exact Hpos|]. split; [exact Hp|].
    exact (proj1 (proj2 (proj2 (proj2 (unstridify_make_stride [2; 3; 4])))) Hne Hpos Hp). }
  split; [exact H1|]. split; [exact H2|]. exact H5.
Defined.

(** ** [find_row_differences] *)

Lemma nonzero_from_spec (l : list bool) (s : nat) :
  (forall i, In i (map snd (filter fst (combine l (seq s (length l)))))
             <-> (s <= i < s + length l)%nat /\ nth (i - s) l false = true)
  /\ StronglySorted lt (map snd (filter fst (combine l (seq s (length l))))).
Proof.
  revert s. induction l as [|x l IH]; intro s.
  - split; [|constructor]. intro i. simpl. split; [intros []|intros [H _]; lia].
  - destruct (IH (S s)) as [H1 H2]. cbn [length seq combine filter fst].
    assert (Hge : Forall (lt s) (map snd (filter fst (combine l (seq (S s) (length l)))))).
    { apply Forall_forall. intros i Hi. apply H1 in Hi. lia. }
    split.
    + intro i. destruct x; cbn [map snd In]; rewrite H1.
      * split.
        -- intros [<-|(Hi & Hn)].
           ++ split; [lia|]. now rewrite Nat.sub_diag.
           ++ split; [lia|]. replace (i - s)%nat with (S (i - S s)) by lia. exact Hn.
        -- intros (Hi & Hn). destruct (Nat.eq_dec s i) as [E|E]; [now left|right].
           split; [lia|]. replace (i - s)%nat with (S (i - S s)) in Hn by lia. exact Hn.
      * split.
        -- intros (Hi & Hn). split; [lia|].
           replace (i - s)%nat with (S (i - S s)) by lia. exact Hn.
        -- intros (Hi & Hn). destruct (Nat.eq_dec s i) as [E|E].
           ++ subst i. rewrite Nat.sub_diag in Hn. discriminate.
           ++ split; [lia|]. replace (i - s)%nat with (S (i - S s)) in Hn by lia. exact Hn.
    + destruct x; cbn [map snd]; [constructor; assumption|exact H2].
Qed.

Lemma nonzero_spec (l : list bool) :
  (forall i, In i (misc.nonzero l) <-> (i < length l)%nat /\ nth i l false = true)
  /\ StronglySorted lt (misc.nonzero l).
Proof.
  destruct (nonzero_from_spec l 0) as [H1 H2]. split; [|exact H2].
  intro i. unfold misc.nonzero. rewrite H1, Nat.sub_0_r. cbn [Nat.add]. split; intros [H H']; (split; [lia|exact H']).
Qed.

Lemma skipn_repeat {A : Type} (x : A) (n m : nat) : skipn n (repeat x (n + m)) = repeat x m.
Proof. induction n as [|n IH]; [reflexivity|]. cbn [Nat.add repeat skipn]. exact IH. Qed.

Lemma nth_repeat_true (n i : nat) : nth i (repeat true n) false = true <-> (i < n)%nat.
Proof.
  revert i. induction n as [|n IH]; intro i; cbn [repeat].
  - destruct i; simpl; split; try discriminate; lia.
  - destruct i as [|i]; cbn [nth]; [split; [lia|reflexivity]|]. rewrite IH. lia.
Qed.

(** The array [diff] of [find_row_differences] for an array with a first
    row. *)
Lemma row_differences_diff (r0 : Sector) (rest : SectorArray) (include_len : bool) :
  misc.set_slice 1 (length (r0 :: rest))
    (map (fun p => negb (np.array_equal (fst p) (snd p)))
         (combine (tl (r0 :: rest)) (removelast (r0 :: rest))))
    (repeat true (length (r0 :: rest) + (if include_len then 1 else 0)))
  = true :: map (fun p => negb (np.array_equal (fst p) (snd p)))
                (combine rest (removelast (r0 :: rest)))
         ++ repeat true (if include_len then 1 else 0).
Proof.
  unfold misc.set_slice. cbn [length tl].
  replace (Nat.max 1 (S (length rest))) with (S (length rest)) by lia.
  rewrite skipn_repeat. reflexivity.
Qed.

(** X30: [find_row_differences(sectors, include_len)] returns, in ascending
    order, the indices [i] below [len(sectors) + int(include_len)] that are
    [0] or [len(sectors)] or have [sectors[i - 1] != sectors[i]]; so for an
    array without rows it returns no index at all, or [[0]] with
    [include_len]. *)
Theorem find_row_differences_spec (sectors : SectorArray) (include_len : bool) :
  (forall i, In i (misc.find_row_differences sectors include_len)
             <-> (i < length sectors + (if include_len then 1 else 0))%nat
                 /\ (i = 0%nat \/ i = length sectors
                     \/ nth (i - 1) sectors [] <> nth i sectors []))
  /\ StronglySorted lt (misc.find_row_differences sectors include_len)
  /\ (sectors = [] ->
      misc.find_row_differences sectors include_len = if include_len then [0%nat] else []).
Proof.
  unfold misc.find_row_differences.
  split; [|split; [apply nonzero_spec|intros ->; now destruct include_len]].
  intro i. rewrite (proj1 (nonzero_spec _)).
  destruct sectors as [|r0 rest].
  - destruct include_len; cbn.
    + destruct i as [|[|i]]; cbn; split; intros [H1 H2]; try lia; try discriminate;
        (split; [lia|auto]).
    + split; intros [H1 H2]; lia.
  - rewrite row_differences_diff. unfold SectorArray, Sector in *.
    set (b0 := if include_len then 1%nat else 0%nat).
    assert (Hb0 : (b0 <= 1)%nat) by (unfold b0; destruct include_len; lia).
    set (changes := map (fun p => negb (np.array_equal (fst p) (snd p)))
                        (combine rest (removelast (r0 :: rest)))).
    assert (Hlc : length changes = length rest).
    { unfold changes. rewrite length_map, length_combine, removelast_length.
      cbn [length]. lia. }
    cbn [length]. rewrite length_app, Hlc, repeat_length.
    destruct i as [|i].
    { cbn [nth]. split; intros _; (split; [lia|auto]). }
    cbn [nth]. replace (S i - 1)%nat with i by lia.
    destruct (Nat.lt_ge_cases i (length rest)) as [Hi|Hi].
    + rewrite app_nth1 by lia. unfold changes.
      rewrite (nth_map_in _ _ i ([], []) false)
        by (rewrite length_combine, removelast_length; cbn [length]; lia).
      rewrite combine_nth by (rewrite removelast_length; cbn [length]; lia).
      cbn [fst snd]. rewrite nth_removelast by (cbn [length]; lia).
      rewrite negb_true_iff. split.
      * intros [_ H]. split; [lia|]. right. right. intro E.
        assert (T : np.array_equal (nth i rest []) (nth i (r0 :: rest) []) = true)
          by (apply array_equal_eq; now symmetry).
        rewrite T in H. discriminate.
      * intros [_ [H|[H|H]]]; try lia. split; [lia|].
        destruct (np.array_equal (nth i rest []) (nth i (r0 :: rest) [])) eqn:T; [|reflexivity].
        apply array_equal_eq in T. exfalso. apply H. now symmetry.
    + rewrite app_nth2 by lia. rewrite Hlc, nth_repeat_true. split.
      * intros [H1 H2]. split; [lia|]. right. left. lia.
      * intros [H1 H2]. split; lia.
Qed.

Lemma find_row_differences_spec_witness :
  misc.find_row_differences [[0; 1]; [0; 1]; [1; 1]; [1; 1]; [1; 1]; [2; 0]] false
  = [0; 2; 5]%nat
  /\ misc.find_row_differences [[0; 1]; [0; 1]; [1; 1]; [1; 1]; [1; 1]; [2; 0]] true
     = [0; 2; 5; 6]%nat
  /\ StronglySorted lt
       (misc.find_row_differences [[0; 1]; [0; 1]; [1; 1]; [1; 1]; [1; 1]; [2; 0]] true).
Proof.
  split; [reflexivity|]. split; [reflexivity|].
  exact (proj1 (proj2 (find_row_differences_spec
                         [[0; 1]; [0; 1]; [1; 1]; [1; 1]; [1; 1]; [2; 0]] true))).
Defined.
